(** * Bundle adjustment driver (asp/Tools/bundle_adjust.cc)

    A shallow embedding of the Ceres-based bundle adjustment driver of the
    Ames Stereo Pipeline: the selection of the robust loss, the construction
    of the residual graph of one pass, the evaluation and counting of the
    residuals, the rejection of outliers between passes, the pass loop, the
    sizing of the linear solver and the rigid transform applied to pinhole
    cameras and tie points.

    Conventions.
    - A C++ [double] is a primitive binary64 float ([PrimFloat.float]); its
      comparisons are the IEEE ones, so a NaN compares unequal to itself.
    - Indices of cameras and of points are [nat]; the other [int]s that the
      code compares or subtracts are [Z].
    - A function that can [vw_throw] returns a [result]; the message of the
      exception is kept without the values streamed into it.
    - Code of other libraries (Ceres, the Vision Workbench, libm) and of
      headers that are not part of the translated file is taken as a
      variable of a section, or modelled from the specification where a doc
      comment says so. *)

From Stdlib Require Import ZArith List Floats Lia String Reals Lra.
From stdpp Require Import base option list gmap sets strings.

Local Open Scope string_scope.
Local Open Scope list_scope.
Local Open Scope Z_scope.

(* ================================================================= *)
(** ** Doubles *)

Definition double := float.

Definition quiet_NaN : double := PrimFloat.nan.
Definition fabs (x : double) : double := PrimFloat.abs x.
Definition dadd (x y : double) : double := PrimFloat.add x y.
Definition dsub (x y : double) : double := PrimFloat.sub x y.
Definition dmul (x y : double) : double := PrimFloat.mul x y.
Definition ddiv (x y : double) : double := PrimFloat.div x y.
(** [x < y], [x > y], [x <= y], [x == y] on doubles. *)
Definition dlt (x y : double) : bool := PrimFloat.ltb x y.
Definition dgt (x y : double) : bool := PrimFloat.ltb y x.
Definition dle (x y : double) : bool := PrimFloat.leb x y.
Definition deq (x y : double) : bool := PrimFloat.eqb x y.

(** [std::max(a, b)] is [(a < b) ? b : a]; [std::min(a, b)] is
    [(b < a) ? b : a]. *)
Definition std_max (a b : double) : double := if dlt a b then b else a.
Definition std_min (a b : double) : double := if dlt b a then b else a.

(** [static_cast<double>] of a non-negative count. *)
Definition double_of_nat (n : nat) : double :=
  PrimFloat.of_uint63 (Uint63.of_Z (Z.of_nat n)).

(** [static_cast<double>] of an [int]. *)
Definition double_of_Z (z : Z) : double :=
  if z <? 0 then PrimFloat.opp (PrimFloat.of_uint63 (Uint63.of_Z (- z)))
  else PrimFloat.of_uint63 (Uint63.of_Z z).

(** The real number a double stands for. A double is read through its
    specification [Prim2SF], a sign, a mantissa and an exponent; [to_R] is
    zero on the infinities and the NaN, which [is_number] excludes. *)
(** [2^e] as a real number. *)
Definition bpow (e : Z) : R := powerRZ 2 e.

(** The real number a finite float stands for; zero for the others. *)
Definition sign_R (s : bool) : R := if s then (-1)%R else 1%R.

Definition SFR (x : spec_float) : R :=
  match x with
  | S754_finite s m e => (sign_R s * IZR (Zpos m) * bpow e)%R
  | _ => 0%R
  end.

Definition SF_finite (x : spec_float) : bool :=
  match x with
  | S754_finite _ _ _ | S754_zero _ => true
  | _ => false
  end.

(** The real number a double stands for, and the doubles that are numbers. *)
Definition to_R (x : float) : R := SFR (Prim2SF x).
Definition is_number (x : float) : bool := SF_finite (Prim2SF x).

Definition Vector2 : Type := double * double.
Definition Vector3 : Type := double * double * double.
Definition Matrix3x3 : Type := Vector3 * Vector3 * Vector3.

(** The Vision Workbench compares vectors element by element: [v1 != v2]
    holds when some pair of elements is not [==]. *)
Definition Vector2_ne (a b : Vector2) : bool :=
  negb (deq (fst a) (fst b) && deq (snd a) (snd b)).
Definition Vector2_div (a : Vector2) (s : double) : Vector2 :=
  (ddiv (fst a) s, ddiv (snd a) s).

(* ================================================================= *)
(** ** Exceptions *)

Inductive Exception : Type :=
| ArgumentErr (msg : string)
| LogicErr (msg : string)
| IOErr (msg : string).

Inductive result (A : Type) : Type :=
| Ok (a : A)
| Throw (e : Exception).
Arguments Ok {A} a.
Arguments Throw {A} e.

#[global] Instance result_ret : MRet result := fun A a => Ok a.
#[global] Instance result_bind : MBind result := fun A B k r =>
  match r with
  | Ok a => k a
  | Throw e => Throw e
  end.

(** [VW_ASSERT(cond, exc)]. *)
Definition VW_ASSERT (cond : bool) (e : Exception) : result unit :=
  if cond then Ok tt else Throw e.

(** A loop over a sequence whose body can throw. *)
Fixpoint foldM {A St : Type} (body : St -> A -> result St) (l : list A)
  (s : St) : result St :=
  match l with
  | [] => Ok s
  | a :: l' => s' ← body s a; foldM body l' s'
  end.

(* ================================================================= *)
(** ** The control network and the camera relation network *)

Inductive ControlPointType : Type :=
| TiePoint
| GroundControlPoint.

Definition ControlPointType_eqb (a b : ControlPointType) : bool :=
  match a, b with
  | TiePoint, TiePoint | GroundControlPoint, GroundControlPoint => true
  | _, _ => false
  end.

Record ControlPoint : Type := {
  cp_type : ControlPointType;
  cp_position : Vector3;
  cp_sigma : Vector3
}.

Definition ControlNetwork : Type := list ControlPoint.

(** One observation of a point in a camera. *)
Record JFeature : Type := {
  m_point_id : nat;
  m_location : Vector2;
  m_scale : Vector2
}.

(** [crn[icam]] is the sequence of the features seen by camera [icam]. *)
Definition CameraRelationNetwork : Type := list (list JFeature).

(** [cnet[ipt].type()]. The C++ subscript has no bounds check; the lemmas
    below are stated for networks whose point ids are in range. *)
Definition cnet_type (cnet : ControlNetwork) (ipt : nat) : ControlPointType :=
  match cnet !! ipt with
  | Some cp => cp_type cp
  | None => TiePoint
  end.

Definition is_gcp (cnet : ControlNetwork) (ipt : nat) : bool :=
  ControlPointType_eqb (cnet_type cnet ipt) GroundControlPoint.

Definition zero3 : Vector3 := (0%float, 0%float, 0%float).

Definition cnet_position (cnet : ControlNetwork) (ipt : nat) : Vector3 :=
  match cnet !! ipt with
  | Some cp => cp_position cp
  | None => zero3
  end.

Definition cnet_sigma (cnet : ControlNetwork) (ipt : nat) : Vector3 :=
  match cnet !! ipt with
  | Some cp => cp_sigma cp
  | None => zero3
  end.

(** [outlier_xyz.find(ipt) != outlier_xyz.end()]. *)
Definition is_outlier (outlier_xyz : gset nat) (ipt : nat) : bool :=
  bool_decide (ipt ∈ outlier_xyz).

(* ================================================================= *)
(** ** Options *)

Definition UNSPECIFIED_DATUM : string := "unspecified_datum".

(** [vw::cartography::Datum], as far as the driver uses it. *)
Record Datum : Type := {
  datum_name : string;
  cartesian_to_geodetic : Vector3 -> Vector3
}.

Record Options : Type := {
  cost_function : string;
  ba_type : string;
  robust_threshold : double;
  camera_weight : double;
  rotation_weight : double;
  translation_weight : double;
  overlap_exponent : double;
  parameter_tolerance : double;
  min_matches : Z;
  max_iterations : Z;
  num_ba_passes : Z;
  num_threads : Z;
  create_pinhole : bool;
  fix_gcp_xyz : bool;
  solve_intrinsics : bool;
  use_llh_error : bool;
  stereo_session_string : string;
  heights_from_dem : string;
  reference_terrain : string;
  csv_format_str : string;
  datum_str : string;
  datum : Datum;
  disparity_list : list string;
  max_disp_error : double;
  remove_outliers_params : double * double * double * double;
  intrinsics_to_float : list string;
  fixed_cameras_indices : gset nat
}.

(** The datum the constructor of [Options] sets, [Datum(UNSPECIFIED_DATUM,
    "User Specified Spheroid", "Reference Meridian", 1, 1, 0)]. The
    conversion of that spheroid is the library's; the identity stands for
    it. *)
Definition unspecified_datum : Datum := {|
  datum_name := UNSPECIFIED_DATUM;
  cartesian_to_geodetic := fun xyz => xyz
|}.

(** The values [handle_arguments] gives to the options that are left out
    on the command line, after [boost::to_lower] of the two names. *)
Definition default_options : Options := {|
  cost_function := "cauchy";
  ba_type := "ceres";
  robust_threshold := 0.5%float;
  camera_weight := 1%float;
  rotation_weight := 0%float;
  translation_weight := 0%float;
  overlap_exponent := 0%float;
  parameter_tolerance := 0x1.5798ee2308c3ap-27%float;
  min_matches := 30;
  max_iterations := 1000;
  num_ba_passes := 1;
  num_threads := 1;
  create_pinhole := false;
  fix_gcp_xyz := false;
  solve_intrinsics := false;
  use_llh_error := false;
  stereo_session_string := "";
  heights_from_dem := "";
  reference_terrain := "";
  csv_format_str := "";
  datum_str := "";
  datum := unspecified_datum;
  disparity_list := [];
  max_disp_error := (-1)%float;
  remove_outliers_params := (75%float, 3%float, 2%float, 3%float);
  intrinsics_to_float := [];
  fixed_cameras_indices := ∅
|}.

(* ================================================================= *)
(** ** The Ceres problem

    Ceres is an external library. A problem is modelled by what the driver
    can observe of it: the residual blocks in the order of the calls of
    [AddResidualBlock], and the parameter blocks given to
    [SetParameterBlockConstant]. A parameter block is a pointer into one of
    the three arrays of the driver and is named by the array and the
    offset. *)

Inductive LossFunction : Type :=
| NullLoss                      (* the pointer NULL: plain squared norm *)
| HuberLoss (th : double)
| CauchyLoss (th : double)
| SoftLOneLoss (th : double)
| TrivialLoss.

Inductive ParameterBlock : Type :=
| CameraBlock (icam : nat)      (* cameras + icam * num_camera_params *)
| PointBlock (ipt : nat)        (* points + ipt * num_point_params *)
| IntrinsicsBlock (offset : nat). (* scaled_intrinsics + offset *)

Inductive CostFunction : Type :=
| BaReprojectionError (observation pixel_sigma : Vector2) (icam ipt : nat)
| BaPinholeError (observation pixel_sigma : Vector2) (icam ipt : nat)
| XYZError (observation xyz_sigma : Vector3)
| LLHError (observation llh_sigma : Vector3)
| CamError (orig_cam : list double) (weight : double)
| RotTransError (orig_cam : list double)
    (rotation_weight translation_weight : double)
| BaDispXyzError (reference_xyz : Vector3) (left_icam right_icam : nat).

Record ResidualBlock : Type := {
  rb_cost : CostFunction;
  rb_loss : LossFunction;
  rb_params : list ParameterBlock
}.

Record Problem : Type := {
  residual_blocks : list ResidualBlock;
  constant_blocks : list ParameterBlock
}.

Definition empty_problem : Problem :=
  {| residual_blocks := []; constant_blocks := [] |}.

Definition AddResidualBlock (c : CostFunction) (l : LossFunction)
  (ps : list ParameterBlock) (problem : Problem) : Problem :=
  {| residual_blocks :=
       (residual_blocks problem
          ++ [{| rb_cost := c; rb_loss := l; rb_params := ps |}])%list;
     constant_blocks := constant_blocks problem |}.

Definition SetParameterBlockConstant (b : ParameterBlock) (problem : Problem)
  : Problem :=
  {| residual_blocks := residual_blocks problem;
     constant_blocks := b :: constant_blocks problem |}.

(** The kinds of residual blocks, in the order of the specification. *)
Inductive BlockKind : Type :=
| KReprojection | KGcp | KCameraPrior | KRotTransPrior | KDispTerrain.

Definition block_kind (b : ResidualBlock) : BlockKind :=
  match rb_cost b with
  | BaReprojectionError _ _ _ _ | BaPinholeError _ _ _ _ => KReprojection
  | XYZError _ _ | LLHError _ _ => KGcp
  | CamError _ _ => KCameraPrior
  | RotTransError _ _ _ => KRotTransPrior
  | BaDispXyzError _ _ _ => KDispTerrain
  end.

(** Modelled from the spec: the constants [PIXEL_SIZE] and
    [ModelT::point_params_n] are declared in headers outside the translated
    file; a reprojection residual has size 2 and a point has 3
    coordinates. *)
Definition PIXEL_SIZE : nat := 2.
Definition point_params_n : nat := 3.

(** Modelled from the spec: the number of residuals of each cost functor
    (the functors are declared in bundle_adjust_cost_functions.h): 2 for a
    reprojection and for a disparity-terrain block, 3 for a GCP anchor, the
    number of camera parameters for the two camera priors. *)
Definition num_residuals (b : ResidualBlock) : nat :=
  match rb_cost b with
  | BaReprojectionError _ _ _ _ | BaPinholeError _ _ _ _ => PIXEL_SIZE
  | XYZError _ _ | LLHError _ _ => point_params_n
  | CamError orig_cam _ => length orig_cam
  | RotTransError orig_cam _ _ => length orig_cam
  | BaDispXyzError _ _ _ => PIXEL_SIZE
  end.

(* ================================================================= *)
(** ** The bundle adjustment model (the template argument [ModelT]) *)

Inductive ModelKind : Type :=
| BundleAdjustmentModel
| BAPinholeModel.

Record BAModel : Type := {
  model_kind : ModelKind;
  num_intrinsic_params : nat;
  are_intrinsics_constant : bool;
  num_distortion_params : nat
}.

(** Modelled from the spec: [BAPinholeModel::focal_length_params_n] and
    [optical_center_params_n] (one focal length, two coordinates of the
    optical centre). *)
Definition focal_length_params_n : nat := 1.
Definition optical_center_params_n : nat := 2.

(* ================================================================= *)
(** ** get_loss_function *)

Definition unknown_cost_function_msg : string := "Unknown cost function: ".

Definition get_loss_function (opt : Options) : result LossFunction :=
  let th := robust_threshold opt in
  if String.eqb (cost_function opt) "l2" then Ok NullLoss
  else if String.eqb (cost_function opt) "huber" then Ok (HuberLoss th)
  else if String.eqb (cost_function opt) "cauchy" then Ok (CauchyLoss th)
  else if String.eqb (cost_function opt) "l1" then Ok (SoftLOneLoss th)
  else Throw (ArgumentErr unknown_cost_function_msg).

(* ================================================================= *)
(** ** add_residual_block *)

Definition floats (intrinsics_to_float : list string) (name : string) : bool :=
  existsb (String.eqb name) intrinsics_to_float.

(** The generic template, and the specialisation for [BAPinholeModel]. *)
Definition add_residual_block (ba_model : BAModel)
  (observation pixel_sigma : Vector2) (icam ipt : nat)
  (intrinsics_to_float : list string) (loss_function : LossFunction)
  (problem : Problem) : Problem :=
  match model_kind ba_model with
  | BundleAdjustmentModel =>
      AddResidualBlock (BaReprojectionError observation pixel_sigma icam ipt)
        loss_function [CameraBlock icam; PointBlock ipt] problem
  | BAPinholeModel =>
      if are_intrinsics_constant ba_model then
        AddResidualBlock (BaReprojectionError observation pixel_sigma icam ipt)
          loss_function [CameraBlock icam; PointBlock ipt] problem
      else
        let nf := focal_length_params_n in
        let nc := optical_center_params_n in
        let cost := BaPinholeError observation pixel_sigma icam ipt in
        let problem :=
          if (num_distortion_params ba_model =? 0)%nat then
            AddResidualBlock cost loss_function
              [CameraBlock icam; PointBlock ipt;
               IntrinsicsBlock 0; IntrinsicsBlock nf] problem
          else
            AddResidualBlock cost loss_function
              [CameraBlock icam; PointBlock ipt;
               IntrinsicsBlock 0; IntrinsicsBlock nf;
               IntrinsicsBlock (nf + nc)] problem in
        match intrinsics_to_float with
        | [] => problem
        | _ :: _ =>
            let problem :=
              if floats intrinsics_to_float "focal_length" then problem
              else SetParameterBlockConstant (IntrinsicsBlock 0) problem in
            let problem :=
              if floats intrinsics_to_float "optical_center" then problem
              else SetParameterBlockConstant (IntrinsicsBlock nf) problem in
            if floats intrinsics_to_float "distortion_params" then problem
            else if (0 <? num_distortion_params ba_model)%nat then
              SetParameterBlockConstant (IntrinsicsBlock (nf + nc)) problem
            else problem
        end
  end.

(* ================================================================= *)
(** ** The parameter arrays *)

(** [v[i]]; an index out of range is undefined behaviour in C++ and reads
    zero here. *)
Definition get_d (v : list double) (i : nat) : double :=
  match v !! i with
  | Some x => x
  | None => 0%float
  end.

(** The three coordinates at [points + ipt * num_point_params]. *)
Definition read_point (points : list double) (num_point_params ipt : nat)
  : Vector3 :=
  let o := (ipt * num_point_params)%nat in
  (get_d points o, get_d points (o + 1), get_d points (o + 2)).

Definition write_point (points : list double) (num_point_params ipt : nat)
  (xyz : Vector3) : list double :=
  let o := (ipt * num_point_params)%nat in
  let '(x, y, z) := xyz in
  <[(o + 2)%nat := z]> (<[(o + 1)%nat := y]> (<[o := x]> points)).

(** The arrays the solver works on; [scaled_intrinsics] is local to a
    pass. *)
Record SolverState : Type := {
  st_cameras : list double;
  st_intrinsics : list double;
  st_points : list double;
  st_scaled_intrinsics : list double
}.

(* ================================================================= *)
(** ** The DEM used by --heights-from-dem *)

(** What [create_interp_dem] loads: the georeference of the DEM and the
    interpolated masked image ([None] is a pixel that is not valid). *)
Record Dem : Type := {
  dem_cartesian_to_geodetic : Vector3 -> Vector3;
  dem_geodetic_to_cartesian : Vector3 -> Vector3;
  dem_lonlat_to_pixel : Vector2 -> Vector2;
  dem_cols : Z;
  dem_rows : Z;
  interp_dem : double -> double -> option double
}.

(** The test that the pixel is inside the DEM. *)
Definition dem_in_bounds (dem : Dem) (pix : Vector2) : bool :=
  dle 0%float (fst pix) && dle 0%float (snd pix)
  && dle (fst pix) (double_of_Z (dem_cols dem - 1))
  && dle (snd pix) (double_of_Z (dem_rows dem - 1)).

(** For a point that is not a GCP: copy the height from the DEM when the
    sample is inside the DEM and valid, and fix the point. *)
Definition heights_from_dem_fixup (dem : Dem) (cnet : ControlNetwork)
  (num_point_params ipt : nat) (problem : Problem) (points : list double)
  : Problem * list double :=
  if is_gcp cnet ipt then (problem, points)
  else
    let xyz := read_point points num_point_params ipt in
    let llh := dem_cartesian_to_geodetic dem xyz in
    let '(lon, lat, _) := llh in
    let pix := dem_lonlat_to_pixel dem (lon, lat) in
    let points :=
      if dem_in_bounds dem pix then
        match interp_dem dem (fst pix) (snd pix) with
        | Some ht =>
            write_point points num_point_params ipt
              (dem_geodetic_to_cartesian dem (lon, lat, ht))
        | None => points
        end
      else points in
    (SetParameterBlockConstant (PointBlock ipt) problem, points).

(* ================================================================= *)
(** ** The reference terrain *)

(** The files and the camera projection used by the disparity-terrain
    constraint, all outside the translated file. *)
Record TerrainEnv : Type := {
  get_cloud_type : string -> string;
  (** The columns of the matrix filled by [asp::load_dem] or
      [asp::load_csv]. *)
  load_reference_terrain : string -> list Vector3;
  disp_cols : nat -> Z;
  disp_rows : nat -> Z;
  (** [interp_disp[k](x, y)]; [None] is a disparity that is not valid. *)
  interp_disp : nat -> double -> double -> option Vector2;
  image_box_contains : nat -> Vector2 -> bool;
  (** [stereo_settings().lon_lat_limit != BBox2(0,0,0,0)], and the test that
      the box contains the longitude and latitude of a point. *)
  lon_lat_limit_is_set : bool;
  lon_lat_limit_contains : Vector3 -> bool;
  (** [ba_model.cam_pixel] after [concat_extrinsics_intrinsics]; [None] is
      an exception. *)
  cam_pixel : nat -> list double -> list double -> Vector3 -> option Vector2;
  norm_2 : Vector2 -> double;
  (** The overload of [add_residual_block] for a point of the reference
      terrain is declared outside the translated file: the parameter blocks
      it gives to [AddResidualBlock] for the cameras [left_icam] and
      [right_icam], and the offsets of the blocks of the scaled intrinsics
      it gives to [SetParameterBlockConstant] for [intrinsics_to_float]. *)
  terrain_parameter_blocks : nat -> nat -> list ParameterBlock;
  terrain_constant_intrinsics : list string -> list nat
}.

(** The overload of [add_residual_block] for a point of the reference
    terrain. Modelled from the spec as far as the spec goes: it adds one
    disparity-terrain residual block with the loss it is given. The spec
    names neither the parameter blocks of that residual block nor the
    intrinsics the overload holds constant, so both are taken from the
    environment. The overload is handed the scaled intrinsics and
    [intrinsics_to_float], but neither the fixed cameras nor a point: only
    blocks of intrinsics are held constant here. *)
Definition add_residual_block_terrain (env : TerrainEnv)
  (reference_xyz : Vector3) (left_icam right_icam : nat)
  (intrinsics_to_float : list string) (loss_function : LossFunction)
  (problem : Problem) : Problem :=
  fold_left
    (fun problem offset =>
       SetParameterBlockConstant (IntrinsicsBlock offset) problem)
    (terrain_constant_intrinsics env intrinsics_to_float)
    (AddResidualBlock (BaDispXyzError reference_xyz left_icam right_icam)
       loss_function (terrain_parameter_blocks env left_icam right_icam)
       problem).

(* ================================================================= *)
(** ** do_ba_ceres_one_pass: the residual graph *)

Definition non_empty (s : string) : bool := negb (String.eqb s "").

(** A loop [for (icam = 0; icam < num_cameras; icam++)] over [crn[icam]];
    the driver checks [num_cameras == crn.size()] before its first loop. *)
Fixpoint for_cameras {St : Type}
  (body : nat -> list JFeature -> St -> result St)
  (icam : nat) (crn : CameraRelationNetwork) (s : St) : result St :=
  match crn with
  | [] => Ok s
  | cam :: rest => s' ← body icam cam s; for_cameras body (S icam) rest s'
  end.

(** What the graph construction hands to the rest of the pass. *)
Record Graph : Type := {
  g_problem : Problem;
  g_points : list double;
  g_cam_residual_counts : list nat;
  g_num_gcp_residuals : nat;
  g_reference_vec : list Vector3
}.

Section Graph.

(** [pow] of libm. *)
Variable pow : double -> double -> double.
Variable ba_model : BAModel.
Variable opt : Options.
Variable cnet : ControlNetwork.
Variable outlier_xyz : gset nat.
Variable num_camera_params : nat.
Variable num_point_params : nat.
Variable num_cameras : nat.
Variable num_points : nat.

(** How many times a point shows up in the problem; the key is the pointer
    [points + ipt * num_point_params], named here by [ipt]. *)
Definition count_map_add (m : gmap nat Z) (f : JFeature) : gmap nat Z :=
  let ipt := m_point_id f in
  if is_outlier outlier_xyz ipt then m
  else <[ipt := default 0 (m !! ipt) + 1]> m.

Definition build_count_map (crn : CameraRelationNetwork) : gmap nat Z :=
  if dgt (overlap_exponent opt) 0%float then
    fold_left (fun m cam => fold_left count_map_add cam m) crn ∅
  else ∅.

(** [if (pixel_sigma != pixel_sigma) pixel_sigma = Vector2(1, 1)]. *)
Definition nan_check (pixel_sigma : Vector2) : Vector2 :=
  if Vector2_ne pixel_sigma pixel_sigma then (1%float, 1%float)
  else pixel_sigma.

(** More weight to the points seen in more images. *)
Definition overlap_weight (count_map : gmap nat Z) (ipt : nat)
  (pixel_sigma : Vector2) : Vector2 :=
  let p := overlap_exponent opt in
  match count_map !! ipt with
  | Some c =>
      if dgt p 0%float && (1 <? c) then
        let delta := pow (dsub (double_of_Z c) 1%float) p in
        Vector2_div pixel_sigma delta
      else pixel_sigma
  | None => pixel_sigma
  end.

Definition out_of_bounds_cameras_msg : string :=
  "Out of bounds in the number of cameras".
Definition out_of_bounds_points_msg : string :=
  "Out of bounds in the number of points".

(** The body of the loop over the features of camera [icam]; the state is
    the problem, the points, and [cam_residual_counts[icam]]. *)
Definition reprojection_body (dem : option Dem) (count_map : gmap nat Z)
  (icam : nat) (st : Problem * list double * nat) (f : JFeature)
  : result (Problem * list double * nat) :=
  let '(problem, points, count) := st in
  let ipt := m_point_id f in
  if is_outlier outlier_xyz ipt then Ok st
  else
    _ ← VW_ASSERT (icam <? num_cameras)%nat
          (ArgumentErr out_of_bounds_cameras_msg);
    _ ← VW_ASSERT (ipt <? num_points)%nat
          (ArgumentErr out_of_bounds_points_msg);
    let observation := m_location f in
    let pixel_sigma := nan_check (m_scale f) in
    let pixel_sigma := overlap_weight count_map ipt pixel_sigma in
    loss_function ← get_loss_function opt;
    let problem :=
      add_residual_block ba_model observation pixel_sigma icam ipt
        (intrinsics_to_float opt) loss_function problem in
    let problem :=
      if bool_decide (icam ∈ fixed_cameras_indices opt) then
        SetParameterBlockConstant (CameraBlock icam) problem
      else problem in
    let '(problem, points) :=
      match dem with
      | Some dem =>
          heights_from_dem_fixup dem cnet num_point_params ipt problem points
      | None => (problem, points)
      end in
    Ok (problem, points, S count).

(** The body of the loop over the cameras. *)
Definition reprojection_camera (dem : option Dem) (count_map : gmap nat Z)
  (icam : nat) (cam : list JFeature) (st : Problem * list double * list nat)
  : result (Problem * list double * list nat) :=
  let '(problem, points, counts) := st in
  '(problem, points, count) ←
    foldM (reprojection_body dem count_map icam) cam (problem, points, 0%nat);
  Ok (problem, points, (counts ++ [count])%list).

Definition add_reprojection_blocks (dem : option Dem)
  (crn : CameraRelationNetwork) (problem : Problem) (points : list double)
  : result (Problem * list double * list nat) :=
  for_cameras (reprojection_camera dem (build_count_map crn)) 0 crn
    (problem, points, []).

(** Ground control points: the error goes up as a GCP moves from its input
    position. *)
Definition gcp_body (st : Problem * nat) (ipt : nat) : Problem * nat :=
  let '(problem, num_gcp_residuals) := st in
  if negb (is_gcp cnet ipt) then st
  else if is_outlier outlier_xyz ipt then st
  else
    let observation := cnet_position cnet ipt in
    let xyz_sigma := cnet_sigma cnet ipt in
    let cost :=
      if negb (use_llh_error opt) then XYZError observation xyz_sigma
      else
        let '(s0, s1, s2) := xyz_sigma in
        LLHError observation (s1, s0, s2) in
    let problem := AddResidualBlock cost TrivialLoss [PointBlock ipt] problem in
    let problem :=
      if fix_gcp_xyz opt then SetParameterBlockConstant (PointBlock ipt) problem
      else problem in
    (problem, S num_gcp_residuals).

Definition add_gcp_blocks (problem : Problem) : Problem * nat :=
  fold_left gcp_body (seq 0 num_points) (problem, 0%nat).

(** [orig_cam[q] = orig_cameras_vec[icam * num_camera_params + q]]. *)
Definition orig_cam (orig_cameras_vec : list double) (icam : nat)
  : list double :=
  map (fun q => get_d orig_cameras_vec (icam * num_camera_params + q))
    (seq 0 num_camera_params).

(** Camera constraints: the error goes up as the cameras move and rotate
    from their input positions. *)
Definition add_camera_prior_blocks (orig_cameras_vec : list double)
  (problem : Problem) : Problem :=
  if dgt (camera_weight opt) 0%float then
    fold_left
      (fun problem icam =>
         AddResidualBlock
           (CamError (orig_cam orig_cameras_vec icam) (camera_weight opt))
           TrivialLoss [CameraBlock icam] problem)
      (seq 0 num_cameras) problem
  else problem.

(** Finer control of only rotation and translation. *)
Definition add_rot_trans_blocks (orig_cameras_vec : list double)
  (problem : Problem) : Problem :=
  if dgt (rotation_weight opt) 0%float || dgt (translation_weight opt) 0%float
  then
    fold_left
      (fun problem icam =>
         AddResidualBlock
           (RotTransError (orig_cam orig_cameras_vec icam)
              (rotation_weight opt) (translation_weight opt))
           TrivialLoss [CameraBlock icam] problem)
      (seq 0 num_cameras) problem
  else problem.

End Graph.

Section Terrain.

Variable env : TerrainEnv.
Variable opt : Options.
Variable num_cameras : nat.
(** The arrays [cameras] and [intrinsics] at the time of the construction. *)
Variable cameras : list double.
Variable intrinsics : list double.

Definition Vector2_add (a b : Vector2) : Vector2 :=
  (dadd (fst a) (fst b), dadd (snd a) (snd b)).
Definition Vector2_sub (a b : Vector2) : Vector2 :=
  (dsub (fst a) (fst b), dsub (snd a) (snd b)).

Definition odd_camera_msg : string := "Expecting an odd camera here.".

(** The body of the loop over the cameras for one point of the terrain:
    camera 0 is paired with camera 1, camera 2 with camera 3, and so on.
    The state is [good_point], [left_pred], the problem and
    [reference_vec]. *)
Definition terrain_camera_body (reference_xyz : Vector3)
  (st : bool * Vector2 * Problem * list Vector3) (icam : nat)
  : result (bool * Vector2 * Problem * list Vector3) :=
  let '(good_point, left_pred, problem, reference_vec) := st in
  let good_point := if (icam mod 2 =? 0)%nat then true else good_point in
  let skip := Ok (good_point, left_pred, problem, reference_vec) in
  if negb good_point then skip
  else
    match cam_pixel env icam cameras intrinsics reference_xyz with
    | None => Ok (false, left_pred, problem, reference_vec)
    | Some prediction =>
        if negb (image_box_contains env icam prediction) then
          Ok (false, left_pred, problem, reference_vec)
        else if (icam mod 2 =? 0)%nat then
          Ok (good_point, prediction, problem, reference_vec)
        else if negb (icam mod 2 =? 1)%nat then
          Throw (ArgumentErr odd_camera_msg)
        else
          let right_pred := prediction in
          if Vector2_ne left_pred left_pred then skip
          else if dlt (fst left_pred) 0%float
                  || dgt (fst left_pred)
                       (double_of_Z (disp_cols env (icam / 2) - 1))
          then skip
          else if dlt (snd left_pred) 0%float
                  || dgt (snd left_pred)
                       (double_of_Z (disp_rows env (icam / 2) - 1))
          then skip
          else
            match interp_disp env (icam / 2)%nat (fst left_pred) (snd left_pred)
            with
            | None => skip
            | Some disp =>
                let right_pix := Vector2_add left_pred disp in
                if negb (image_box_contains env icam right_pix) then skip
                else if Vector2_ne right_pred right_pred
                        || dgt (norm_2 env (Vector2_sub right_pix right_pred))
                             (max_disp_error opt)
                then skip
                else
                  let reference_vec := (reference_vec ++ [reference_xyz])%list in
                  loss_function ← get_loss_function opt;
                  Ok (good_point, left_pred,
                      add_residual_block_terrain env reference_xyz (icam - 1)
                        icam (intrinsics_to_float opt) loss_function problem,
                      reference_vec)
            end
    end.

(** The body of the loop over the points of the reference terrain. *)
Definition terrain_point_body (st : Problem * list Vector3)
  (reference_xyz : Vector3) : result (Problem * list Vector3) :=
  let '(problem, reference_vec) := st in
  if lon_lat_limit_is_set env && negb (lon_lat_limit_contains env reference_xyz)
  then Ok st
  else
    '(_, _, problem, reference_vec) ←
      foldM (terrain_camera_body reference_xyz) (seq 0 num_cameras)
        (true, (0%float, 0%float), problem, reference_vec);
    Ok (problem, reference_vec).

Definition csv_format_msg : string :=
  "When using a csv reference terrain, must specify the csv-format.".
Definition terrain_datum_msg : string :=
  "When using a reference terrain, must specify the datum.".
Definition terrain_disparities_msg : string :=
  "When using a reference terrain, must specify a list of disparities.".
Definition terrain_even_msg : string :=
  "A reference terrain can only be used with an even number of cameras.".
Definition max_disp_error_msg : string :=
  "Must specify --max-disp-error in pixels as a positive value.".
Definition unsupported_file_msg : string := "Unsupported file: ".
Definition one_disparity_msg : string :=
  "Expecting one disparity for each pair of images.".

(** The cost meant to tie up to a known disparity from the left to the
    right image and to a known reference terrain. *)
Definition add_reference_terrain_blocks (problem : Problem)
  : result (Problem * list Vector3) :=
  if create_pinhole opt && non_empty (reference_terrain opt) then
    let file_type := get_cloud_type env (reference_terrain opt) in
    if String.eqb file_type "CSV" && String.eqb (csv_format_str opt) "" then
      Throw (ArgumentErr csv_format_msg)
    else if String.eqb (datum_str opt) "" then
      Throw (ArgumentErr terrain_datum_msg)
    else if match disparity_list opt with [] => true | _ => false end then
      Throw (ArgumentErr terrain_disparities_msg)
    else if negb (num_cameras mod 2 =? 0)%nat then
      Throw (ArgumentErr terrain_even_msg)
    else if dle (max_disp_error opt) 0%float then
      Throw (ArgumentErr max_disp_error_msg)
    else if negb (String.eqb file_type "DEM" || String.eqb file_type "CSV") then
      Throw (ArgumentErr unsupported_file_msg)
    else if negb (2 * length (disparity_list opt) =? num_cameras)%nat then
      Throw (ArgumentErr one_disparity_msg)
    else
      foldM terrain_point_body
        (load_reference_terrain env (reference_terrain opt)) (problem, [])
  else Ok (problem, []).

End Terrain.

(* ================================================================= *)
(** ** The solver options *)

Inductive LinearSolverType : Type :=
| DENSE_NORMAL_CHOLESKY | DENSE_QR | SPARSE_NORMAL_CHOLESKY
| DENSE_SCHUR | SPARSE_SCHUR | ITERATIVE_SCHUR | CGNR.

Inductive PreconditionerType : Type :=
| IDENTITY | JACOBI | SCHUR_JACOBI | CLUSTER_JACOBI | CLUSTER_TRIDIAGONAL.

(** The fields of [ceres::Solver::Options] the driver sets. *)
Record SolverOptions : Type := {
  gradient_tolerance : double;
  function_tolerance : double;
  so_parameter_tolerance : double;
  max_num_iterations : Z;
  max_num_consecutive_invalid_steps : Z;
  minimizer_progress_to_stdout : bool;
  so_num_threads : Z;
  linear_solver_type : LinearSolverType;
  preconditioner_type : PreconditionerType;
  use_explicit_schur_complement : bool
}.

(** A default-constructed [ceres::Solver::Options], for the fields above
    (the defaults of Ceres). *)
Definition ceres_default_options : SolverOptions := {|
  gradient_tolerance := 0x1.b7cdfd9d7bdbbp-34%float;
  function_tolerance := 0x1.0c6f7a0b5ed8dp-20%float;
  so_parameter_tolerance := 0x1.5798ee2308c3ap-27%float;
  max_num_iterations := 50;
  max_num_consecutive_invalid_steps := 5;
  minimizer_progress_to_stdout := false;
  so_num_threads := 1;
  linear_solver_type := SPARSE_NORMAL_CHOLESKY;
  preconditioner_type := JACOBI;
  use_explicit_schur_complement := false
|}.

Definition set_linear_solver_type (v : LinearSolverType) (o : SolverOptions)
  : SolverOptions :=
  {| gradient_tolerance := gradient_tolerance o;
     function_tolerance := function_tolerance o;
     so_parameter_tolerance := so_parameter_tolerance o;
     max_num_iterations := max_num_iterations o;
     max_num_consecutive_invalid_steps := max_num_consecutive_invalid_steps o;
     minimizer_progress_to_stdout := minimizer_progress_to_stdout o;
     so_num_threads := so_num_threads o;
     linear_solver_type := v;
     preconditioner_type := preconditioner_type o;
     use_explicit_schur_complement := use_explicit_schur_complement o |}.

Definition set_preconditioner_type (v : PreconditionerType) (o : SolverOptions)
  : SolverOptions :=
  {| gradient_tolerance := gradient_tolerance o;
     function_tolerance := function_tolerance o;
     so_parameter_tolerance := so_parameter_tolerance o;
     max_num_iterations := max_num_iterations o;
     max_num_consecutive_invalid_steps := max_num_consecutive_invalid_steps o;
     minimizer_progress_to_stdout := minimizer_progress_to_stdout o;
     so_num_threads := so_num_threads o;
     linear_solver_type := linear_solver_type o;
     preconditioner_type := v;
     use_explicit_schur_complement := use_explicit_schur_complement o |}.

Definition set_use_explicit_schur_complement (v : bool) (o : SolverOptions)
  : SolverOptions :=
  {| gradient_tolerance := gradient_tolerance o;
     function_tolerance := function_tolerance o;
     so_parameter_tolerance := so_parameter_tolerance o;
     max_num_iterations := max_num_iterations o;
     max_num_consecutive_invalid_steps := max_num_consecutive_invalid_steps o;
     minimizer_progress_to_stdout := minimizer_progress_to_stdout o;
     so_num_threads := so_num_threads o;
     linear_solver_type := linear_solver_type o;
     preconditioner_type := preconditioner_type o;
     use_explicit_schur_complement := v |}.

(** The tolerances, the iteration limits and the number of threads. *)
Definition basic_solver_options (opt : Options) : SolverOptions :=
  {| gradient_tolerance := 0x1.cd2b297d889bcp-54%float;
     function_tolerance := 0x1.cd2b297d889bcp-54%float;
     so_parameter_tolerance := parameter_tolerance opt;
     max_num_iterations := max_iterations opt;
     max_num_consecutive_invalid_steps :=
       Z.max 5 (Z.quot (max_iterations opt) 5);
     minimizer_progress_to_stdout := true;
     so_num_threads :=
       if String.eqb (stereo_session_string opt) "isis" then 1
       else num_threads opt;
     linear_solver_type := linear_solver_type ceres_default_options;
     preconditioner_type := preconditioner_type ceres_default_options;
     use_explicit_schur_complement :=
       use_explicit_schur_complement ceres_default_options |}.

(** The solver options of a pass, set in the order of the statements of
    [do_ba_ceres_one_pass]: each [if] overrides what the ones before it
    chose. *)
Definition solver_options (opt : Options) (num_cameras : Z) : SolverOptions :=
  let options := basic_solver_options opt in
  let options := set_linear_solver_type SPARSE_SCHUR options in
  let options :=
    if num_cameras <? 100 then set_linear_solver_type DENSE_SCHUR options
    else options in
  let options :=
    if 3500 <? num_cameras then
      set_preconditioner_type SCHUR_JACOBI
        (set_linear_solver_type ITERATIVE_SCHUR
           (set_use_explicit_schur_complement true options))
    else options in
  let options :=
    if 7000 <? num_cameras then set_use_explicit_schur_complement false options
    else options in
  options.

(* ================================================================= *)
(** ** Evaluation of the residuals *)

(** Ceres, as the driver uses it: the residuals of one block at the current
    values of the parameters, with or without the loss applied, and the
    solver. *)
Record Ceres : Type := {
  block_residuals : bool -> SolverState -> ResidualBlock -> list double;
  Solve : SolverOptions -> Problem -> SolverState -> SolverState
}.

(** [problem.Evaluate(eval_options, &cost, &residuals, 0, 0)] with no
    choice of residual blocks: the residuals of all the blocks, in the
    order in which the blocks were added. *)
Definition Evaluate (ceres : Ceres) (apply_loss_function : bool)
  (problem : Problem) (st : SolverState) : list double :=
  concat (map (block_residuals ceres apply_loss_function st)
            (residual_blocks problem)).

Definition get_n (v : list nat) (i : nat) : nat :=
  match v !! i with
  | Some x => x
  | None => 0%nat
  end.

Definition expected_residuals_msg : string :=
  "Expected a number of residuals but instead got another".

(** The number of residuals the driver expects. The sums are [size_t] in
    the code; they stay far below [2^64], the vectors being in memory. *)
Definition num_expected_residuals (opt : Options)
  (num_cameras num_camera_params num_point_params : nat)
  (cam_residual_counts : list nat) (num_gcp_residuals : nat)
  (reference_vec : list Vector3) : nat :=
  let n := (num_gcp_residuals * num_point_params)%nat in
  let n :=
    fold_left (fun n i => (n + get_n cam_residual_counts i * PIXEL_SIZE)%nat)
      (seq 0 num_cameras) n in
  let n :=
    if dgt (camera_weight opt) 0%float then
      (n + num_cameras * num_camera_params)%nat
    else n in
  let n :=
    if dgt (rotation_weight opt) 0%float || dgt (translation_weight opt) 0%float
    then (n + num_cameras * num_camera_params)%nat
    else n in
  (n + length reference_vec * PIXEL_SIZE)%nat.

(** Compute the residuals, and verify their number. *)
Definition compute_residuals (ceres : Ceres) (apply_loss_function : bool)
  (opt : Options) (num_cameras num_camera_params num_point_params : nat)
  (cam_residual_counts : list nat) (num_gcp_residuals : nat)
  (reference_vec : list Vector3) (problem : Problem) (st : SolverState)
  : result (list double) :=
  let residuals := Evaluate ceres apply_loss_function problem st in
  let num_residuals := length residuals in
  if negb (num_expected_residuals opt num_cameras num_camera_params
             num_point_params cam_residual_counts num_gcp_residuals
             reference_vec =? num_residuals)%nat
  then Throw (LogicErr expected_residuals_msg)
  else Ok residuals.

(** The conversion of a NaN to [int] is not defined by C++; x86-64 gives
    [INT_MIN]. The value is only written to the point log. *)
Definition int_of_NaN : Z := - 2147483648.

Definition get_z (v : list Z) (i : nat) : Z :=
  match v !! i with
  | Some x => x
  | None => 0
  end.

(** The body of the double loop of [compute_mean_residuals_at_xyz]; the
    state is [residual_index], [mean_residuals] and
    [num_point_observations]. *)
Definition mean_residuals_body (outlier_xyz : gset nat)
  (residuals : list double) (st : nat * list double * list Z) (f : JFeature)
  : nat * list double * list Z :=
  let '(residual_index, mean_residuals, num_point_observations) := st in
  let ipt := m_point_id f in
  if is_outlier outlier_xyz ipt then st
  else
    let errorX := get_d residuals residual_index in
    let errorY := get_d residuals (residual_index + 1) in
    let residual_error := ddiv (dadd (fabs errorX) (fabs errorY)) 2%float in
    ((residual_index + PIXEL_SIZE)%nat,
     <[ipt := dadd (get_d mean_residuals ipt) residual_error]> mean_residuals,
     <[ipt := get_z num_point_observations ipt + 1]> num_point_observations).

(** The averaging loop. *)
Definition average_body (outlier_xyz : gset nat)
  (st : list double * list Z) (i : nat) : list double * list Z :=
  let '(mean_residuals, num_point_observations) := st in
  if is_outlier outlier_xyz i then
    (<[i := quiet_NaN]> mean_residuals,
     <[i := int_of_NaN]> num_point_observations)
  else
    (<[i := ddiv (get_d mean_residuals i)
              (double_of_Z (get_z num_point_observations i))]> mean_residuals,
     num_point_observations).

(** Compute the residual map by averaging all the reprojection errors at a
    given point. *)
Definition compute_mean_residuals_at_xyz (crn : CameraRelationNetwork)
  (residuals : list double) (num_points : nat) (outlier_xyz : gset nat)
  : list double * list Z :=
  let mean_residuals := replicate num_points 0%float in
  let num_point_observations := replicate num_points 0 in
  let '(_, mean_residuals, num_point_observations) :=
    fold_left
      (fun st cam => fold_left (mean_residuals_body outlier_xyz residuals) cam st)
      crn (0%nat, mean_residuals, num_point_observations) in
  fold_left (average_body outlier_xyz) (seq 0 num_points)
    (mean_residuals, num_point_observations).

Definition iterated_residuals_msg : string :=
  "Have a number of residuals but iterated through another".

(** [write_residual_logs]: the files are not modelled; what is kept is the
    walk of [index] through the residuals and the two checks that can
    throw. *)
Definition write_residual_logs (ceres : Ceres) (apply_loss_function : bool)
  (opt : Options) (num_cameras num_camera_params num_point_params : nat)
  (cam_residual_counts : list nat) (num_gcp_residuals : nat)
  (reference_vec : list Vector3) (problem : Problem) (st : SolverState)
  : result unit :=
  residuals ← compute_residuals ceres apply_loss_function opt num_cameras
                num_camera_params num_point_params cam_residual_counts
                num_gcp_residuals reference_vec problem st;
  let num_residuals := length residuals in
  let index :=
    fold_left (fun index c => (index + 2 * get_n cam_residual_counts c)%nat)
      (seq 0 num_cameras) 0%nat in
  let index :=
    if (0 <? num_gcp_residuals)%nat then
      (index + num_gcp_residuals * num_point_params)%nat
    else index in
  let num_passes :=
    ((if dgt (camera_weight opt) 0%float then 1 else 0)
     + (if dgt (rotation_weight opt) 0%float
           || dgt (translation_weight opt) 0%float then 1 else 0))%nat in
  let part_size := (num_camera_params / 2)%nat in
  let index :=
    (index + num_passes * (num_cameras * (part_size + part_size)))%nat in
  let index :=
    if (0 <? length reference_vec)%nat then
      (index + length reference_vec * PIXEL_SIZE)%nat
    else index in
  if negb (index =? num_residuals)%nat then
    Throw (LogicErr iterated_residuals_msg)
  else Ok tt.

(* ================================================================= *)
(** ** update_outliers *)

Section Outliers.

(** [vw::math::find_outlier_brackets(p, pct, factor, b, e)], returning
    [(b, e)]. *)
Variable find_outlier_brackets :
  list double -> double -> double -> double * double.
Variable ceres : Ceres.
Variable opt : Options.
Variable cnet : ControlNetwork.
Variable crn : CameraRelationNetwork.

(** Collect the mean residuals of the points that are neither outliers so
    far nor GCP, each point once. *)
Definition actual_residuals_body (outlier_xyz : gset nat)
  (mean_residuals : list double) (st : list double * gset nat) (f : JFeature)
  : list double * gset nat :=
  let '(actual_residuals, was_added) := st in
  let ipt := m_point_id f in
  if is_outlier outlier_xyz ipt then st
  else if is_gcp cnet ipt then st
  else if bool_decide (ipt ∈ was_added) then st
  else ((actual_residuals ++ [get_d mean_residuals ipt])%list,
        {[ipt]} ∪ was_added).

Definition collect_actual_residuals (outlier_xyz : gset nat)
  (mean_residuals : list double) : list double :=
  fst (fold_left
         (fun st cam =>
            fold_left (actual_residuals_body outlier_xyz mean_residuals) cam st)
         crn ([], ∅)).

(** The cutoff: the upper bracket, never below [err1] and never above
    [err2]. *)
Definition outlier_cutoff (actual_residuals : list double) : double :=
  let '(p0, factor, max_pix1, max_pix2) := remove_outliers_params opt in
  let pct := dsub 1%float (ddiv p0 100%float) in
  let '(b, e) := find_outlier_brackets actual_residuals pct factor in
  std_min (std_max e max_pix1) max_pix2.

(** Add to the outliers; the tests are made against the outliers on entry. *)
Definition new_outliers_body (outlier_xyz : gset nat)
  (mean_residuals : list double) (e : double) (new_outliers : gset nat)
  (f : JFeature) : gset nat :=
  let ipt := m_point_id f in
  if is_outlier outlier_xyz ipt then new_outliers
  else if is_gcp cnet ipt then new_outliers
  else if dgt (get_d mean_residuals ipt) e then {[ipt]} ∪ new_outliers
  else new_outliers.

Definition add_new_outliers (outlier_xyz : gset nat)
  (mean_residuals : list double) (e : double) : gset nat :=
  fold_left
    (fun new_outliers cam =>
       fold_left (new_outliers_body outlier_xyz mean_residuals e) cam
         new_outliers)
    crn outlier_xyz.

(** Add to the outliers based on the large residuals. The result is the
    number of new outliers and the new value of [outlier_xyz]. *)
Definition update_outliers (num_points : nat) (outlier_xyz : gset nat)
  (num_cameras num_camera_params num_point_params : nat)
  (cam_residual_counts : list nat) (num_gcp_residuals : nat)
  (reference_vec : list Vector3) (problem : Problem) (st : SolverState)
  : result (Z * gset nat) :=
  let apply_loss_function := false in
  residuals ← compute_residuals ceres apply_loss_function opt num_cameras
                num_camera_params num_point_params cam_residual_counts
                num_gcp_residuals reference_vec problem st;
  let '(mean_residuals, _) :=
    compute_mean_residuals_at_xyz crn residuals num_points outlier_xyz in
  let actual_residuals := collect_actual_residuals outlier_xyz mean_residuals in
  let e := outlier_cutoff actual_residuals in
  let new_outliers := add_new_outliers outlier_xyz mean_residuals e in
  let num_new_outliers :=
    Z.of_nat (size new_outliers) - Z.of_nat (size outlier_xyz) in
  Ok (num_new_outliers, new_outliers).

End Outliers.

(* ================================================================= *)
(** ** record_points_to_kml *)

(** The loop [for (i = 0; i < num_points; i += skip)] at the index [i], with
    [fuel] iterations left; the result lists the indices of the points for
    which a placemark is appended. With a [skip] of zero the loop of the
    code does not end; the driver passes a skip of at least one. *)
Fixpoint kml_loop (num_points : nat) (outlier_xyz : gset nat)
  (skip fuel i : nat) : list nat :=
  match fuel with
  | O => []
  | S fuel' =>
      if (i <? num_points)%nat then
        let rest := kml_loop num_points outlier_xyz skip fuel' (i + skip) in
        if is_outlier outlier_xyz i then rest else i :: rest
      else []
  end.

(** The placemark of the point [i]: its longitude, latitude and height. *)
Definition placemark (datum : Datum) (points : list double) (i : nat)
  : Vector3 :=
  let POINT_SIZE := 3%nat in
  cartesian_to_geodetic datum (read_point points POINT_SIZE i).

(** Create a KML file containing the positions of the given points; the
    result is the sequence of the placemarks of the file, and [None] when no
    file is written. Every iteration of the loop advances [i] by at least
    one, so [num_points] iterations are enough. *)
Definition record_points_to_kml (datum : Datum) (points : list double)
  (num_points : nat) (outlier_xyz : gset nat) (skip : nat)
  : option (list Vector3) :=
  if String.eqb (datum_name datum) UNSPECIFIED_DATUM then None
  else
    Some (map (placemark datum points)
            (kml_loop num_points outlier_xyz skip num_points 0)).

Definition MIN_KML_POINTS : nat := 20.

(** The skip [do_ba_ceres_one_pass] passes to [record_points_to_kml]. *)
Definition kml_point_skip (num_points : nat) : nat :=
  let kmlPointSkip := 30%nat in
  let kmlPointSkip :=
    if (num_points / kmlPointSkip <? MIN_KML_POINTS)%nat then
      (num_points / MIN_KML_POINTS)%nat
    else kmlPointSkip in
  if (kmlPointSkip <? 1)%nat then 1%nat else kmlPointSkip.

(* ================================================================= *)
(** ** do_ba_ceres_one_pass *)

(** The code of other libraries one pass calls. *)
Record Libraries : Type := {
  pow : double -> double -> double;
  create_interp_dem : string -> result Dem;
  terrain_env : TerrainEnv;
  ceres_lib : Ceres;
  find_outlier_brackets : list double -> double -> double -> double * double;
  (** [vw::KMLFile]: the file of the given name under the output prefix is
      opened, gets its styles and the placemarks in this order, and is
      closed. *)
  KMLFile : string -> list Vector3 -> result unit;
  (** [remove_outliers(cnet, outlier_xyz, opt, num_cameras)], which reads
      each match file, keeps the matches of the points that are not
      outliers and overwrites the file; it changes none of its arguments.
      It is called with new outliers only, so no two calls of a run get the
      same set: what the calls of a run read and do is a function of the
      set. *)
  remove_outliers : ControlNetwork -> gset nat -> Options -> nat -> result unit
}.

Definition crn_size_msg : string :=
  "Expected a number of cameras but crn has another".

Section OnePass.

Variable libs : Libraries.
Variable ba_model : BAModel.
Variable opt : Options.
Variable cnet : ControlNetwork.
Variable crn : CameraRelationNetwork.
Variable num_camera_params : nat.
Variable num_point_params : nat.
Variable num_intrinsic_params : nat.
Variable num_cameras : nat.
Variable num_points : nat.

(** The first part of [do_ba_ceres_one_pass]: the cost functions the solver
    will optimize over, added in this order. *)
Definition build_graph (orig_cameras_vec : list double)
  (cameras intrinsics points : list double) (outlier_xyz : gset nat)
  : result Graph :=
  if negb (num_cameras =? length crn)%nat then Throw (LogicErr crn_size_msg)
  else
    dem ← (if non_empty (heights_from_dem opt) then
             dem ← create_interp_dem libs (heights_from_dem opt); Ok (Some dem)
           else Ok None);
    '(problem, points, cam_residual_counts) ←
      add_reprojection_blocks (pow libs) ba_model opt cnet outlier_xyz
        num_point_params num_cameras num_points dem crn empty_problem points;
    let '(problem, num_gcp_residuals) :=
      add_gcp_blocks opt cnet outlier_xyz num_points problem in
    let problem :=
      add_camera_prior_blocks opt num_camera_params num_cameras
        orig_cameras_vec problem in
    let problem :=
      add_rot_trans_blocks opt num_camera_params num_cameras
        orig_cameras_vec problem in
    '(problem, reference_vec) ←
      add_reference_terrain_blocks (terrain_env libs) opt num_cameras cameras
        intrinsics problem;
    Ok {| g_problem := problem;
          g_points := points;
          g_cam_residual_counts := cam_residual_counts;
          g_num_gcp_residuals := num_gcp_residuals;
          g_reference_vec := reference_vec |}.

(** Multiply the original intrinsics by the scaled optimized values. *)
Definition multiply_intrinsics (st : SolverState) : SolverState :=
  {| st_cameras := st_cameras st;
     st_intrinsics :=
       fold_left
         (fun intrinsics i =>
            <[i := dmul (get_d intrinsics i)
                     (get_d (st_scaled_intrinsics st) i)]> intrinsics)
         (seq 0 num_intrinsic_params) (st_intrinsics st);
     st_points := st_points st;
     st_scaled_intrinsics := st_scaled_intrinsics st |}.

(** One pass: the graph, the logs and the KML file of the initial
    condition, the solve, the logs and the KML file of the final condition,
    unless the pass is the last one the update of the outliers, and with
    new outliers in a run of several passes the rewriting of the match
    files. The statistics of the GCP are only printed. The result is the
    number of new outliers, the arrays after the pass and the new set of
    outliers. *)
Definition do_ba_ceres_one_pass (first_pass last_pass : bool)
  (orig_cameras_vec : list double) (cameras intrinsics points : list double)
  (outlier_xyz : gset nat) : result (Z * SolverState * gset nat) :=
  g ← build_graph orig_cameras_vec cameras intrinsics points outlier_xyz;
  let st := {| st_cameras := cameras;
               st_intrinsics := intrinsics;
               st_points := g_points g;
               st_scaled_intrinsics :=
                 replicate num_intrinsic_params 1%float |} in
  let logs apply_loss_function st :=
    write_residual_logs (ceres_lib libs) apply_loss_function opt num_cameras
      num_camera_params num_point_params (g_cam_residual_counts g)
      (g_num_gcp_residuals g) (g_reference_vec g) (g_problem g) st in
  let kmlPointSkip := kml_point_skip num_points in
  let kml name st :=
    match record_points_to_kml (datum opt) (st_points st) num_points
            outlier_xyz kmlPointSkip with
    | Some placemarks => KMLFile libs name placemarks
    | None => Ok tt
    end in
  _ ← (if first_pass then
         _ ← logs true st; _ ← logs false st; kml "initial_points" st
       else Ok tt);
  let options := solver_options opt (Z.of_nat num_cameras) in
  let st := Solve (ceres_lib libs) options (g_problem g) st in
  let st := multiply_intrinsics st in
  _ ← logs true st;
  _ ← logs false st;
  _ ← kml "final_points" st;
  '(num_new_outliers, outlier_xyz) ←
    (if negb last_pass then
       update_outliers (find_outlier_brackets libs) (ceres_lib libs) opt cnet
         crn num_points outlier_xyz num_cameras num_camera_params
         num_point_params (g_cam_residual_counts g) (g_num_gcp_residuals g)
         (g_reference_vec g) (g_problem g) st
     else Ok (0, outlier_xyz));
  (* Remove flagged outliers and overwrite the match files. *)
  _ ← (if (1 <? num_ba_passes opt) && (0 <? num_new_outliers) then
         remove_outliers libs cnet outlier_xyz opt num_cameras
       else Ok tt);
  Ok (num_new_outliers, st, outlier_xyz).

(* ================================================================= *)
(** ** do_ba_ceres: the loop over the passes *)

Definition too_few_points_msg : string :=
  "Error: Too few points remain after filtering!.".
Definition at_least_one_pass_msg : string :=
  "Error: Expecting at least one bundle adjust pass.".

(** The arrays a pass starts from. *)
Definition Arrays : Type := list double * list double * list double.

Definition arrays_of (st : SolverState) : Arrays :=
  (st_cameras st, st_intrinsics st, st_points st).

(** The loop [for (pass = 0; pass < opt.num_ba_passes; pass++)], with
    [fuel] passes left. Besides the outcome, the loop records the value of
    [outlier_xyz] after each completed pass, oldest first. *)
Fixpoint pass_loop (orig : Arrays) (fuel : nat) (pass : Z) (arrays : Arrays)
  (outlier_xyz : gset nat) (trace : list (gset nat))
  : list (gset nat) * result (Arrays * gset nat) :=
  match fuel with
  | O => (trace, Ok (arrays, outlier_xyz))
  | S fuel' =>
      (* Go back to the original inputs to optimize, sans the outliers. *)
      let '(cameras, intrinsics, points) :=
        if 1 <? num_ba_passes opt then orig else arrays in
      let last_pass := pass =? num_ba_passes opt - 1 in
      match do_ba_ceres_one_pass (pass =? 0) last_pass (fst (fst orig))
              cameras intrinsics points outlier_xyz with
      | Throw e => (trace, Throw e)
      | Ok (num_new_outliers, st, outlier_xyz) =>
          let trace := (trace ++ [outlier_xyz])%list in
          if negb last_pass && (num_new_outliers =? 0) then
            (trace, Ok (arrays_of st, outlier_xyz))
          else
            let num_points_remaining :=
              Z.of_nat num_points - Z.of_nat (size outlier_xyz) in
            if (1 <? num_ba_passes opt)
               && (num_points_remaining <? min_matches opt)
            then (trace, Throw (ArgumentErr too_few_points_msg))
            else
              pass_loop orig fuel' (pass + 1) (arrays_of st) outlier_xyz trace
      end
  end.

(** [points_vec[ipt * num_point_params + q] = cnet[ipt].position()[q]]. *)
Definition Vector3_get (v : Vector3) (q : nat) : double :=
  let '(x, y, z) := v in
  match q with
  | 0%nat => x
  | 1%nat => y
  | 2%nat => z
  | _ => 0%float
  end.

Definition points_of_cnet : list double :=
  flat_map
    (fun cp => map (Vector3_get (cp_position cp)) (seq 0 num_point_params))
    cnet.

(** [do_ba_ceres], from the arrays filled by [init_cams]; [fst (fst orig)]
    in the loop is [orig_cameras_vec]. *)
Definition do_ba_ceres (cameras_vec intrinsics_vec : list double)
  : list (gset nat) * result (Arrays * gset nat) :=
  let orig := (cameras_vec, intrinsics_vec, points_of_cnet) in
  if num_ba_passes opt <=? 0 then ([], Throw (ArgumentErr at_least_one_pass_msg))
  else pass_loop orig (Z.to_nat (num_ba_passes opt)) 0 orig ∅ [].

End OnePass.

(* ================================================================= *)
(** ** The choice of the model and of the solver *)

(** The cost functions of the solvers of the Vision Workbench. *)
Inductive VwCostFunction : Type :=
| CauchyError (th : double)
| PseudoHuberError (th : double)
| HuberError (th : double)
| L1Error
| L2Error.

(** Modelled from the spec: [BundleAdjustmentModel::camera_params_n], the 6
    extrinsic parameters of a generic camera. *)
Definition camera_params_n : nat := 6.

(** [BundleAdjustmentModel]: adjustments on top of the cameras, with no
    intrinsics. *)
Definition generic_model : BAModel := {|
  model_kind := BundleAdjustmentModel;
  num_intrinsic_params := 0;
  are_intrinsics_constant := true;
  num_distortion_params := 0
|}.

Definition unknown_cost_function_options_msg : string :=
  "Unknown cost function. Options are: Cauchy, PseudoHuber, Huber, L1, L2.".

Section Driver.

Variable libs : Libraries.
(** [do_ba_nonceres]: the older approach, with the solver of the Vision
    Workbench named by [ba_type]. *)
Variable do_ba_nonceres : string -> VwCostFunction -> Options -> result unit.
Variable cnet : ControlNetwork.
(** [crn.read_controlnetwork(cnet)]. *)
Variable crn : CameraRelationNetwork.
Variable num_cameras : nat.
(** The camera array after [init_cams]. *)
Variable cameras_vec : list double.

(** Use the given cost function. Switch based on the solver. *)
Definition do_ba_costfun (cost_fun : VwCostFunction) (opt : Options)
  : result unit :=
  if String.eqb (ba_type opt) "ceres" then
    _ ← snd (do_ba_ceres libs generic_model opt cnet crn camera_params_n
               point_params_n 0 num_cameras (length cnet) cameras_vec []);
    Ok tt
  else if String.eqb (ba_type opt) "robustsparse"
          || String.eqb (ba_type opt) "robustref"
          || String.eqb (ba_type opt) "sparse"
          || String.eqb (ba_type opt) "ref"
  then do_ba_nonceres (ba_type opt) cost_fun opt
  else Ok tt.

(** Do BA with the [BundleAdjustmentModel] model. Switch based on the cost
    function. *)
Definition do_ba_with_model (opt : Options) : result unit :=
  if String.eqb (cost_function opt) "cauchy" then
    do_ba_costfun (CauchyError (robust_threshold opt)) opt
  else if String.eqb (cost_function opt) "pseudohuber" then
    do_ba_costfun (PseudoHuberError (robust_threshold opt)) opt
  else if String.eqb (cost_function opt) "huber" then
    do_ba_costfun (HuberError (robust_threshold opt)) opt
  else if String.eqb (cost_function opt) "l1" then
    do_ba_costfun L1Error opt
  else if String.eqb (cost_function opt) "l2" then
    do_ba_costfun L2Error opt
  else Throw (ArgumentErr unknown_cost_function_options_msg).

End Driver.

(* ================================================================= *)
(** ** The similarity transform *)

Section Similarity.

(** The arithmetic is a parameter, so that the formula of the code can be
    read both on doubles and on real numbers. *)
Context {T : Type} (zero : T) (add mul : T -> T -> T).

(** [std::inner_product] from zero, as the matrix-vector product of the
    Vision Workbench computes each element. *)
Definition dot_prod (a b : T * T * T) : T :=
  let '(a0, a1, a2) := a in
  let '(b0, b1, b2) := b in
  add (add (add zero (mul a0 b0)) (mul a1 b1)) (mul a2 b2).

Definition scale_matrix (s : T) (M : (T * T * T) * (T * T * T) * (T * T * T))
  : (T * T * T) * (T * T * T) * (T * T * T) :=
  let '((m00, m01, m02), (m10, m11, m12), (m20, m21, m22)) := M in
  ((mul s m00, mul s m01, mul s m02),
   (mul s m10, mul s m11, mul s m12),
   (mul s m20, mul s m21, mul s m22)).

Definition matrix_vector (M : (T * T * T) * (T * T * T) * (T * T * T))
  (x : T * T * T) : T * T * T :=
  let '(r0, r1, r2) := M in
  (dot_prod r0 x, dot_prod r1 x, dot_prod r2 x).

Definition vector_add (a b : T * T * T) : T * T * T :=
  let '(a0, a1, a2) := a in
  let '(b0, b1, b2) := b in
  (add a0 b0, add a1 b1, add a2 b2).

(** [scale * rotation * position + translation]. *)
Definition similarity (rotation : (T * T * T) * (T * T * T) * (T * T * T))
  (translation : T * T * T) (scale : T) (position : T * T * T) : T * T * T :=
  vector_add (matrix_vector (scale_matrix scale rotation) position) translation.

Definition transpose (M : (T * T * T) * (T * T * T) * (T * T * T))
  : (T * T * T) * (T * T * T) * (T * T * T) :=
  let '((m00, m01, m02), (m10, m11, m12), (m20, m21, m22)) := M in
  ((m00, m10, m20), (m01, m11, m21), (m02, m12, m22)).

End Similarity.

Section MatrixProduct.

Context {T : Type} (zero : T) (add mul : T -> T -> T).

(** The product of two matrices, each element the inner product of a row
    and a column. *)
Definition matrix_matrix (A B : (T * T * T) * (T * T * T) * (T * T * T))
  : (T * T * T) * (T * T * T) * (T * T * T) :=
  let '(a0, a1, a2) := A in
  let '(c0, c1, c2) := transpose B in
  let row a := (dot_prod zero add mul a c0, dot_prod zero add mul a c1,
                dot_prod zero add mul a c2) in
  (row a0, row a1, row a2).

End MatrixProduct.

(* ================================================================= *)
(** ** apply_rigid_transform *)

Definition pinhole_expected_msg : string := "A pinhole camera expected.".

Section RigidTransform.

(** [vw::camera::PinholeModel] and its method [apply_transform]. *)
Variable PinholeModel : Type.
Variable pinhole_apply_transform :
  Matrix3x3 -> Vector3 -> double -> PinholeModel -> PinholeModel.

(** A camera model is a pinhole camera or not: the outcome of the
    [dynamic_cast]. *)
Inductive CameraModel : Type :=
| PinholeCamera (pincam : PinholeModel)
| OtherCamera.

Definition transform_camera (rotation : Matrix3x3) (translation : Vector3)
  (scale : double) (cam : CameraModel) : result CameraModel :=
  match cam with
  | PinholeCamera pincam =>
      Ok (PinholeCamera
            (pinhole_apply_transform rotation translation scale pincam))
  | OtherCamera => Throw (ArgumentErr pinhole_expected_msg)
  end.

Fixpoint transform_cameras (rotation : Matrix3x3) (translation : Vector3)
  (scale : double) (camera_models : list CameraModel)
  : result (list CameraModel) :=
  match camera_models with
  | [] => Ok []
  | cam :: rest =>
      cam' ← transform_camera rotation translation scale cam;
      rest' ← transform_cameras rotation translation scale rest;
      Ok (cam' :: rest')
  end.

(** Don't convert the ground control points. *)
Definition transform_point (rotation : Matrix3x3) (translation : Vector3)
  (scale : double) (cp : ControlPoint) : ControlPoint :=
  match cp_type cp with
  | GroundControlPoint => cp
  | TiePoint =>
      {| cp_type := cp_type cp;
         cp_position :=
           similarity 0%float dadd dmul rotation translation scale
             (cp_position cp);
         cp_sigma := cp_sigma cp |}
  end.

(** Apply a scale-rotate-translate transform to pinhole cameras and control
    points. *)
Definition apply_rigid_transform (rotation : Matrix3x3)
  (translation : Vector3) (scale : double)
  (camera_models : list CameraModel) (cnet : ControlNetwork)
  : result (list CameraModel * ControlNetwork) :=
  camera_models' ← transform_cameras rotation translation scale camera_models;
  Ok (camera_models', map (transform_point rotation translation scale) cnet).

End RigidTransform.

Arguments PinholeCamera {PinholeModel} pincam.
Arguments OtherCamera {PinholeModel}.

(** Modelled from the spec: the extrinsics of a pinhole camera of the
    Vision Workbench, its centre and its rotation, and
    [PinholeModel::apply_transform(R, t, s)], which takes the centre [c] to
    [s R c + t] and the rotation [C] to [R C]. *)
Record Pinhole : Type := {
  pinhole_center : Vector3;
  pinhole_pose : Matrix3x3
}.

Definition apply_transform (rotation : Matrix3x3) (translation : Vector3)
  (scale : double) (pincam : Pinhole) : Pinhole :=
  {| pinhole_center :=
       similarity 0%float dadd dmul rotation translation scale
         (pinhole_center pincam);
     pinhole_pose := matrix_matrix 0%float dadd dmul rotation
                      (pinhole_pose pincam) |}.

(* ================================================================= *)
(** ** write_residual_map *)

(** Write out a .csv file recording the residual error at each location on
    the ground; the result is the sequence of the rows of the file (the
    position, the mean residual and the number of observations of a point),
    and [None] when no file is written. *)
Definition write_residual_map (datum : Datum) (crn : CameraRelationNetwork)
  (residuals : list double) (points : list double) (num_points : nat)
  (outlier_xyz : gset nat) (num_point_params : nat)
  : option (list (Vector3 * double * Z)) :=
  if String.eqb (datum_name datum) UNSPECIFIED_DATUM then None
  else
    let '(mean_residuals, num_point_observations) :=
      compute_mean_residuals_at_xyz crn residuals num_points outlier_xyz in
    Some
      (flat_map
         (fun i =>
            if is_outlier outlier_xyz i then []
            else
              [(cartesian_to_geodetic datum
                  (read_point points num_point_params i),
                get_d mean_residuals i, get_z num_point_observations i)])
         (seq 0 num_points)).

(* ================================================================= *)
(** ** do_ba_nonceres *)

(** The adjuster of the Vision Workbench (the template argument
    [AdjusterT]): [iterations()], [set_lambda()] and [update(abs_tol,
    rel_tol)], which returns the overall delta and sets the two
    tolerances. *)
Record Adjuster (A : Type) : Type := {
  iterations : A -> Z;
  set_lambda : double -> A -> A;
  update : A -> A * double * double * double
}.
Arguments iterations {A} _ _.
Arguments set_lambda {A} _ _ _.
Arguments update {A} _ _.

(** What the reporter is told when the loop ends. *)
Inductive StopReason : Type :=
| MaxIterations | AbsTol | RelTol | NoImprovement.

(** The loop [while (true)], with [fuel] rounds left; [None] is a loop that
    has not ended within the fuel. The result is the adjuster at the end,
    the reason of the end and the number of calls of [update]. *)
Fixpoint nonceres_loop {A : Type} (adjuster : Adjuster A) (max_iterations : Z)
  (fuel : nat) (bundle_adjuster : A) (abs_tol rel_tol : double)
  (no_improvement_count : Z) (updates : nat)
  : option (A * StopReason * nat) :=
  match fuel with
  | O => None
  | S fuel' =>
      if max_iterations <=? iterations adjuster bundle_adjuster then
        Some (bundle_adjuster, MaxIterations, updates)
      else if dlt abs_tol 0x1.47ae147ae147bp-7%float then
        Some (bundle_adjuster, AbsTol, updates)
      else if dlt rel_tol 0x1.0c6f7a0b5ed8dp-20%float then
        Some (bundle_adjuster, RelTol, updates)
      else if 4 <? no_improvement_count then
        Some (bundle_adjuster, NoImprovement, updates)
      else
        let '(bundle_adjuster, overall_delta, abs_tol, rel_tol) :=
          update adjuster bundle_adjuster in
        let no_improvement_count :=
          if deq overall_delta 0%float then no_improvement_count + 1 else 0 in
        nonceres_loop adjuster max_iterations fuel' bundle_adjuster abs_tol
          rel_tol no_improvement_count (S updates)
  end.

(** The older approach, using the solver of the Vision Workbench; the files
    of the iterations and the report are not modelled. *)
Definition do_ba_nonceres {A : Type} (adjuster : Adjuster A)
  (lambda : double) (max_iterations : Z) (fuel : nat) (bundle_adjuster : A)
  : option (A * StopReason * nat) :=
  let bundle_adjuster :=
    if dgt lambda 0%float then set_lambda adjuster lambda bundle_adjuster
    else bundle_adjuster in
  let abs_tol := 0x1.2a05f2p+33%float in
  let rel_tol := 0x1.2a05f2p+33%float in
  nonceres_loop adjuster max_iterations fuel bundle_adjuster abs_tol rel_tol
    0 0.

(* ================================================================= *)
(** ** load_estimated_camera_positions *)

(** [file_name.find(field) != std::string::npos]. *)
Definition contains (file_name field : string) : bool :=
  match String.index 0 field file_name with
  | Some _ => true
  | None => false
  end.

(** [v1 == v2] and [v1 != v2] on vectors of three doubles. *)
Definition Vector3_eq (a b : Vector3) : bool :=
  let '(a0, a1, a2) := a in
  let '(b0, b1, b2) := b in
  deq a0 b0 && deq a1 b1 && deq a2 b2.
Definition Vector3_ne (a b : Vector3) : bool := negb (Vector3_eq a b).

(** [v[i]] on a vector of positions and on a vector of names; as for
    [get_d], an index out of range reads a default value here. *)
Definition get_v (v : list Vector3) (i : nat) : Vector3 :=
  match v !! i with
  | Some x => x
  | None => zero3
  end.

Definition get_s (v : list string) (i : nat) : string :=
  match v !! i with
  | Some x => x
  | None => ""
  end.

Section CameraPositions.

(** A record of the csv file of the camera positions, its field [file], and
    what [asp::CsvConv] does with the file and with a record. *)
Variable CsvRecord : Type.
Variable csv_file : CsvRecord -> string.
Variable read_csv_file : string -> result (list CsvRecord).
Variable csv_to_cartesian : CsvRecord -> Vector3.

(** Search for the image file in the records: the first record whose field
    is contained in the name of the image. *)
Definition find_record (pos_records : list CsvRecord) (file_name : string)
  : option CsvRecord :=
  List.find (fun r => contains file_name (csv_file r)) pos_records.

(** The body of the loop over the cameras; the state is
    [estimated_camera_gcc] and [num_matches_found]. *)
Definition position_body (pos_records : list CsvRecord)
  (image_files : list string) (st : list Vector3 * Z) (i : nat)
  : list Vector3 * Z :=
  let '(estimated_camera_gcc, num_matches_found) := st in
  match find_record pos_records (get_s image_files i) with
  | Some r =>
      (<[i := csv_to_cartesian r]> estimated_camera_gcc, num_matches_found + 1)
  | None => (<[i := zero3]> estimated_camera_gcc, num_matches_found)
  end.

(** Looks in the input camera position file to generate a GCC position for
    each input camera. The result is [num_matches_found] and
    [estimated_camera_gcc]. *)
Definition load_estimated_camera_positions (camera_position_file : string)
  (image_files : list string) : result (Z * list Vector3) :=
  if String.eqb camera_position_file "" then Ok (0, [])
  else
    pos_records ← read_csv_file camera_position_file;
    let num_cameras := length image_files in
    let '(estimated_camera_gcc, num_matches_found) :=
      fold_left (position_body pos_records image_files) (seq 0 num_cameras)
        (replicate num_cameras zero3, 0) in
    Ok (num_matches_found, estimated_camera_gcc).

End CameraPositions.

(* ================================================================= *)
(** ** The initialisation of pinhole cameras by a rigid transform *)

Definition no_camera_matches_msg : string :=
  "No camera matches provided to init function!".
Definition camera_matches_required_msg : string :=
  "At least 3 camera position matches are required to initialize sensor models!".
Definition not_enough_gcp_msg : string :=
  "Not enough valid GCPs for affine initalization!".

Section PinholeInit.

Variable PinholeModel : Type.
Variable pinhole_apply_transform :
  Matrix3x3 -> Vector3 -> double -> PinholeModel -> PinholeModel.
(** [camera->camera_center(Vector2(0, 0))]. *)
Variable camera_center : CameraModel PinholeModel -> Vector3.
(** [asp::find_3D_affine_transform(points_in, points_out, rotation,
    translation, scale)], on the columns of the two matrices. *)
Variable find_3D_affine_transform :
  list Vector3 -> list Vector3 -> Matrix3x3 * Vector3 * double.
(** [vw::ba::triangulate_control_point(cp_new, camera_models, 0)] on a copy
    of the point [ipt], whose measures the record leaves out: the position
    of the copy afterwards. *)
Variable triangulate_control_point :
  nat -> ControlPoint -> list (CameraModel PinholeModel) -> Vector3.

(** [camera_models[i]]. *)
Definition camera_at (camera_models : list (CameraModel PinholeModel))
  (i : nat) : CameraModel PinholeModel :=
  match camera_models !! i with
  | Some cam => cam
  | None => OtherCamera
  end.

(** The loop that counts the cameras that have a position. *)
Definition count_matches_body (estimated_camera_gcc : list Vector3)
  (num_matches_found : Z) (i : nat) : Z :=
  if Vector3_ne (get_v estimated_camera_gcc i) zero3 then num_matches_found + 1
  else num_matches_found.

(** The loop that populates the matrices of the current and of the known
    camera positions; the state is [points_in], [points_out] and [index]. *)
Definition populate_body (camera_models : list (CameraModel PinholeModel))
  (estimated_camera_gcc : list Vector3)
  (st : list Vector3 * list Vector3 * nat) (i : nat)
  : list Vector3 * list Vector3 * nat :=
  let '(points_in, points_out, index) := st in
  if Vector3_eq (get_v estimated_camera_gcc i) zero3 then st
  else
    let gcc_in := camera_center (camera_at camera_models i) in
    let gcc_out := get_v estimated_camera_gcc i in
    (<[index := gcc_in]> points_in, <[index := gcc_out]> points_out, S index).

Definition MIN_NUM_MATCHES : Z := 3.

(** Initialize the position and orientation of each pinhole camera model
    using a least squares error transform to match the provided camera
    positions; [num_cameras] is [opt.image_files.size()]. The result is the
    cameras and the control network afterwards. *)
Definition init_pinhole_model_with_camera_positions (num_cameras : nat)
  (estimated_camera_gcc : list Vector3)
  (camera_models : list (CameraModel PinholeModel)) (cnet : ControlNetwork)
  : result (list (CameraModel PinholeModel) * ControlNetwork) :=
  if negb (length estimated_camera_gcc =? num_cameras)%nat then
    Throw (ArgumentErr no_camera_matches_msg)
  else
    let num_matches_found :=
      fold_left (count_matches_body estimated_camera_gcc) (seq 0 num_cameras)
        0 in
    if num_matches_found <? MIN_NUM_MATCHES then
      Throw (ArgumentErr camera_matches_required_msg)
    else
      let n := Z.to_nat num_matches_found in
      let '(points_in, points_out, _) :=
        fold_left (populate_body camera_models estimated_camera_gcc)
          (seq 0 num_cameras) (replicate n zero3, replicate n zero3, 0%nat) in
      let '(rotation, translation, scale) :=
        find_3D_affine_transform points_in points_out in
      apply_rigid_transform PinholeModel pinhole_apply_transform rotation
        translation scale camera_models cnet.

(** [cnet[ipt]]. *)
Definition cnet_at (cnet : ControlNetwork) (ipt : nat) : ControlPoint :=
  match cnet !! ipt with
  | Some cp => cp
  | None => {| cp_type := TiePoint; cp_position := zero3; cp_sigma := zero3 |}
  end.

(** The check that all the cameras are pinhole cameras. *)
Definition expect_pinhole (u : unit) (cam : CameraModel PinholeModel)
  : result unit :=
  match cam with
  | PinholeCamera _ => Ok tt
  | OtherCamera => Throw (ArgumentErr pinhole_expected_msg)
  end.

(** Count up the number of good ground control points; the state is
    [num_gcp] and [num_good_gcp]. *)
Definition count_gcp_body (cnet : ControlNetwork)
  (camera_models : list (CameraModel PinholeModel)) (st : Z * Z) (ipt : nat)
  : Z * Z :=
  let '(num_gcp, num_good_gcp) := st in
  if negb (is_gcp cnet ipt) then st
  else
    let cp_new :=
      triangulate_control_point ipt (cnet_at cnet ipt) camera_models in
    if Vector3_ne cp_new zero3 && Vector3_ne (cnet_position cnet ipt) zero3
    then (num_gcp + 1, num_good_gcp + 1)
    else (num_gcp + 1, num_good_gcp).

(** Store the computed and the correct position of each good GCP. *)
Definition populate_gcp_body (cnet : ControlNetwork)
  (camera_models : list (CameraModel PinholeModel))
  (st : list Vector3 * list Vector3 * nat) (ipt : nat)
  : list Vector3 * list Vector3 * nat :=
  let '(points_in, points_out, index) := st in
  if negb (is_gcp cnet ipt) then st
  else
    let inp := triangulate_control_point ipt (cnet_at cnet ipt) camera_models in
    let outp := cnet_position cnet ipt in
    if Vector3_eq inp zero3 || Vector3_eq outp zero3 then st
    else (<[index := inp]> points_in, <[index := outp]> points_out, S index).

Definition MIN_NUM_GOOD_GCP : Z := 3.

(** Initialize the position and orientation of each pinhole camera model
    using a least squares error transform to match the provided control
    points file. *)
Definition init_pinhole_model_with_gcp (check_only : bool)
  (camera_models : list (CameraModel PinholeModel)) (cnet : ControlNetwork)
  : result (list (CameraModel PinholeModel) * ControlNetwork) :=
  _ ← foldM expect_pinhole camera_models tt;
  let num_cnet_points := length cnet in
  let '(num_gcp, num_good_gcp) :=
    fold_left (count_gcp_body cnet camera_models) (seq 0 num_cnet_points)
      (0, 0) in
  if num_good_gcp <? MIN_NUM_GOOD_GCP then
    Throw (ArgumentErr not_enough_gcp_msg)
  else
    let n := Z.to_nat num_good_gcp in
    let '(points_in, points_out, _) :=
      fold_left (populate_gcp_body cnet camera_models) (seq 0 num_cnet_points)
        (replicate n zero3, replicate n zero3, 0%nat) in
    let '(rotation, translation, scale) :=
      find_3D_affine_transform points_in points_out in
    if check_only then Ok (camera_models, cnet)
    else
      apply_rigid_transform PinholeModel pinhole_apply_transform rotation
        translation scale camera_models cnet.

End PinholeInit.

(* ================================================================= *)
(** ** init_cams *)

(** [v.resize(n)]: the first [n] elements, filled up with zeros. *)
Definition resize (n : nat) (v : list double) : list double :=
  (take n v ++ replicate (n - length v) 0%float)%list.

Section InitCams.

(** [BAPinholeModel], as far as [init_cams] uses it: [num_cameras()],
    [num_intrinsic_params()], [get_cam_params(i, cam_vec)] and
    [import_transform(M, cameras_vec, intrinsics_vec)], which can change the
    model and the two vectors. *)
Variable Model : Type.
Variable Matrix4x4 : Type.
Variable model_num_cameras : Model -> nat.
Variable model_num_intrinsic_params : Model -> nat.
Variable get_cam_params : Model -> nat -> list double.
Variable import_transform :
  Matrix4x4 -> Model -> list double -> list double
  -> Model * list double * list double.

(** [BAPinholeModel::camera_params_n]. *)
Definition num_params_per_camera : nat := 6.

(** The inner loop over the parameters of a camera; the state is
    [cameras_vec] and [index]. *)
Definition copy_param_body (cam_vec : list double) (st : list double * nat)
  (p : nat) : list double * nat :=
  let '(cameras_vec, index) := st in
  (<[index := get_d cam_vec p]> cameras_vec, S index).

(** The loop over the cameras. Note that the inner loop stops before it gets
    to the intrinsic parameters. *)
Definition copy_camera_body (ba_model : Model) (st : list double * nat)
  (i : nat) : list double * nat :=
  let cam_vec := get_cam_params ba_model i in
  fold_left (copy_param_body cam_vec) (seq 0 num_params_per_camera) st.

(** The loop that gets the intrinsics vector, which is shared across all
    cameras. *)
Definition copy_intrinsic_body (cam_vec : list double)
  (intrinsics_vec : list double) (i : nat) : list double :=
  <[i := get_d cam_vec (num_params_per_camera + i)]> intrinsics_vec.

(** The specialization of [init_cams] for pinhole cameras: copy the camera
    parameters from the model into the vectors. *)
Definition init_cams_pinhole (initial_transform_file : string)
  (initial_transform : Matrix4x4) (ba_model : Model)
  (cameras_vec intrinsics_vec : list double)
  : Model * list double * list double :=
  let num_cameras := model_num_cameras ba_model in
  let num_camera_params := (num_cameras * num_params_per_camera)%nat in
  let num_intrinsic_params := model_num_intrinsic_params ba_model in
  let cameras_vec := resize num_camera_params cameras_vec in
  let '(ba_model, cameras_vec, intrinsics_vec) :=
    if negb (String.eqb initial_transform_file "") then
      import_transform initial_transform ba_model cameras_vec intrinsics_vec
    else (ba_model, cameras_vec, intrinsics_vec) in
  let '(cameras_vec, _) :=
    fold_left (copy_camera_body ba_model) (seq 0 num_cameras)
      (cameras_vec, 0%nat) in
  let intrinsics_vec := resize num_intrinsic_params intrinsics_vec in
  let cam_vec := get_cam_params ba_model 0 in
  let intrinsics_vec :=
    fold_left (copy_intrinsic_body cam_vec) (seq 0 num_intrinsic_params)
      intrinsics_vec in
  (ba_model, cameras_vec, intrinsics_vec).

End InitCams.

(* ================================================================= *)
(** ** handle_arguments: the checks after the command line is parsed *)

(** The members of [Options] that [handle_arguments] and [main] read besides
    those of the record [Options] above; [initial_transform] is the matrix
    row by row. *)
Record FileOptions : Type := {
  image_files : list string;
  camera_files : list string;
  gcp_files : list string;
  out_prefix : string;
  input_prefix : string;
  overlap_limit : Z;
  overlap_list_file : string;
  overlap_list : gset (string * string);
  approximate_pinhole_intrinsics : bool;
  camera_position_file : string;
  position_filter_dist : double;
  semi_major : double;
  semi_minor : double;
  intrinsics_to_float_str : string;
  remove_outliers_params_str : string;
  initial_transform_file : string;
  initial_transform : list double;
  fixed_cameras_indices_str : string
}.

Definition missing_images_msg : string := "Missing input image files.".
Definition overlap_both_msg : string :=
  "Cannot specify both the overlap limit and the overlap list.".
Definition overlap_negative_msg : string :=
  "Must allow search for matches between at least each image and its subsequent one.".
Definition overlap_list_missing_msg : string :=
  "The overlap list does not exist.".
Definition camera_weight_msg : string :=
  "The camera weight must be non-negative.".
Definition rotation_weight_msg : string :=
  "The rotation weight must be non-negative.".
Definition translation_weight_msg : string :=
  "The translation weight must be non-negative.".
Definition non_pinhole_input_msg : string :=
  "Cannot use special pinhole handling with non-pinhole input!".
Definition solve_needs_pinhole_msg : string :=
  "Solving for intrinsic parameters is only supported with pinhole cameras.".
Definition approximate_needs_pinhole_msg : string :=
  "Cannot approximate intrinsics unless using pinhole cameras.".
Definition approximate_and_solve_msg : string :=
  "Cannot approximate intrinsics while solving for them.".
Definition adjustments_with_pinhole_msg : string :=
  "Cannot use initial adjustments with pinhole cameras. Read the cameras directly.".
Definition position_csv_format_msg : string :=
  "When using a camera position file, the csv-format option must be set.".
Definition rpc_datum_msg : string :=
  "When the session type is RPC, the datum must be specified.".
Definition datum_required_msg : string :=
  "When ground control points or a camera position file are used, the datum must be specified.".
Definition missing_prefix_msg : string := "Missing output prefix.".
Definition float_needs_solve_msg : string :=
  "To be able to float only certain intrinsics, the option --solve-intrinsics must be on.".
Definition unknown_ba_type_msg : string :=
  "Unknown bundle adjustment version: . Options are: [Ceres, RobustSparse, RobustRef, Sparse, Ref]".
Definition initial_transform_msg : string :=
  "Failed to read initial transform from: ".
Definition fixed_camera_bounds_msg : string :=
  "The camera index to keep fixed  is out of bounds.".

(** [if (cond) vw_throw(exc)]. *)
Definition throw_if (cond : bool) (e : Exception) : result unit :=
  if cond then Throw e else Ok tt.

(** [std::tolower] in the classic locale, and [boost::to_lower]. *)
Definition tolower (c : Ascii.ascii) : Ascii.ascii :=
  let n := Ascii.nat_of_ascii c in
  if ((65 <=? n) && (n <=? 90))%nat then Ascii.ascii_of_nat (n + 32) else c.

Fixpoint to_lower (s : string) : string :=
  match s with
  | EmptyString => EmptyString
  | String c s' => String (tolower c) (to_lower s')
  end.

Section HandleArguments.

(** [fs::exists(file)]. *)
Variable file_exists : string -> bool.
(** The pairs that [while (ifs >> image1 >> image2)] reads from the file. *)
Variable read_overlap_list : string -> list (string * string).
Variable has_pinhole_extension : string -> bool.
(** [vw::str_to_vec<Vector<double, 4>>] after [vw::string_replace(s, ",",
    " ")]. *)
Variable string_replace : string -> string -> string -> string.
Variable str_to_vec :
  string -> result (double * double * double * double).
(** [vw::cartography::read_georeference(georef, file)]: the name of the
    datum of the georeference when the result is good. *)
Variable read_georeference : string -> option string.
Variable set_well_known_datum : string -> Datum -> result Datum.
(** [cartesian_to_geodetic] of the datum made from two semi-axes. *)
Variable spheroid_to_geodetic : double -> double -> Vector3 -> Vector3.
Variable create_out_dir : string -> result unit.
(** The values that [is >> a] extracts one after the other from the file of
    the initial transform, and the values that [is >> val] extracts from the
    string of the indices of the fixed cameras. *)
Variable read_doubles : string -> list double.
Variable read_ints : string -> list Z.

(** The body of the loop that reads the overlap list. *)
Definition overlap_pair_body (overlap_list : gset (string * string))
  (p : string * string) : gset (string * string) :=
  let '(image1, image2) := p in
  {[ (image2, image1) ]} ∪ ({[ (image1, image2) ]} ∪ overlap_list).

(** Try to infer the datum, if possible, from the images. *)
Definition infer_datum_body (datum_str : string) (image_file : string)
  : string :=
  match read_georeference image_file with
  | Some name => if String.eqb datum_str "" then name else datum_str
  | None => datum_str
  end.

(** The body of the loop that parses the indices of the cameras not to
    float. The code inserts [val] before it checks it; the set is only read
    when no index is refused. *)
Definition fixed_camera_body (num_images : Z) (fixed : gset nat) (val : Z)
  : result (gset nat) :=
  if (val <? 0) || (num_images <=? val) then
    Throw (IOErr fixed_camera_bounds_msg)
  else Ok ({[ Z.to_nat val ]} ∪ fixed).

(** [handle_arguments] from the point where the command line is parsed, the
    session string is in lower case and the images, the cameras and the GCP
    files are separated. The copy of the settings of the interest points to
    [stereo_settings()], the log file and [save_iteration] are left out:
    nothing that is modelled reads them. The result is the options on
    return. *)
Definition handle_arguments (opt : Options) (fopt : FileOptions)
  : result (Options * FileOptions) :=
  _ ← throw_if (length (image_files fopt) =? 0)%nat
        (ArgumentErr missing_images_msg);
  _ ← throw_if (negb (String.eqb (overlap_list_file fopt) "")
                && (0 <? overlap_limit fopt))
        (ArgumentErr overlap_both_msg);
  _ ← throw_if (overlap_limit fopt <? 0) (ArgumentErr overlap_negative_msg);
  (* By default, try to match all of the images! *)
  let overlap_limit' :=
    if overlap_limit fopt =? 0 then Z.of_nat (length (image_files fopt))
    else overlap_limit fopt in
  overlap_list' ←
    (if negb (String.eqb (overlap_list_file fopt) "") then
       _ ← throw_if (negb (file_exists (overlap_list_file fopt)))
             (ArgumentErr overlap_list_missing_msg);
       Ok (fold_left overlap_pair_body
             (read_overlap_list (overlap_list_file fopt)) ∅)
     else Ok (overlap_list fopt));
  _ ← throw_if (dlt (camera_weight opt) 0%float)
        (ArgumentErr camera_weight_msg);
  _ ← throw_if (dlt (rotation_weight opt) 0%float)
        (ArgumentErr rotation_weight_msg);
  _ ← throw_if (dlt (translation_weight opt) 0%float)
        (ArgumentErr translation_weight_msg);
  _ ← throw_if (create_pinhole opt
                && negb (has_pinhole_extension (get_s (camera_files fopt) 0)))
        (ArgumentErr non_pinhole_input_msg);
  _ ← throw_if (negb (create_pinhole opt) && solve_intrinsics opt)
        (ArgumentErr solve_needs_pinhole_msg);
  _ ← throw_if (negb (create_pinhole opt)
                && approximate_pinhole_intrinsics fopt)
        (ArgumentErr approximate_needs_pinhole_msg);
  _ ← throw_if (approximate_pinhole_intrinsics fopt && solve_intrinsics opt)
        (ArgumentErr approximate_and_solve_msg);
  _ ← throw_if (create_pinhole opt
                && negb (String.eqb (input_prefix fopt) ""))
        (ArgumentErr adjustments_with_pinhole_msg);
  let remove_outliers_params_str' :=
    string_replace (remove_outliers_params_str fopt) "," " " in
  remove_outliers_params' ← str_to_vec remove_outliers_params_str';
  _ ← throw_if (negb (String.eqb (camera_position_file fopt) "")
                && String.eqb (csv_format_str opt) "")
        (ArgumentErr position_csv_format_msg);
  let datum_str' :=
    if String.eqb (datum_str opt) "" then
      fold_left infer_datum_body (image_files fopt) (datum_str opt)
    else datum_str opt in
  _ ← throw_if (String.eqb (stereo_session_string opt) "rpc"
                && String.eqb datum_str' "")
        (ArgumentErr rpc_datum_msg);
  datum' ←
    (if negb (String.eqb datum_str' "") then
       (* If the user set the datum, use it. *)
       set_well_known_datum datum_str' (datum opt)
     else if dgt (semi_major fopt) 0%float && dgt (semi_minor fopt) 0%float
     then
       (* Otherwise, if the user set the semi-axes, use that. *)
       Ok {| datum_name := "User Specified Datum";
             cartesian_to_geodetic :=
               spheroid_to_geodetic (semi_major fopt) (semi_minor fopt) |}
     else
       _ ← throw_if (negb (length (gcp_files fopt) =? 0)%nat
                     || negb (String.eqb (camera_position_file fopt) ""))
             (ArgumentErr datum_required_msg);
       Ok (datum opt));
  _ ← throw_if (String.eqb (out_prefix fopt) "")
        (ArgumentErr missing_prefix_msg);
  _ ← create_out_dir (out_prefix fopt);
  _ ← throw_if (negb (String.eqb (intrinsics_to_float_str fopt) "")
                && negb (solve_intrinsics opt))
        (ArgumentErr float_needs_solve_msg);
  let intrinsics_to_float' := String.words (intrinsics_to_float_str fopt) in
  let ba_type' := to_lower (ba_type opt) in
  let cost_function' := to_lower (cost_function opt) in
  _ ← throw_if (negb (String.eqb ba_type' "ceres"
                      || String.eqb ba_type' "robustsparse"
                      || String.eqb ba_type' "robustref"
                      || String.eqb ba_type' "sparse"
                      || String.eqb ba_type' "ref"))
        (ArgumentErr unknown_ba_type_msg);
  initial_transform' ←
    (if negb (String.eqb (initial_transform_file fopt) "") then
       let values := read_doubles (initial_transform_file fopt) in
       _ ← throw_if (length values <? 16)%nat (IOErr initial_transform_msg);
       Ok (take 16 values)
     else Ok (initial_transform fopt));
  fixed_cameras_indices' ←
    (if negb (String.eqb (fixed_cameras_indices_str fopt) "") then
       foldM (fixed_camera_body (Z.of_nat (length (image_files fopt))))
         (read_ints (fixed_cameras_indices_str fopt)) ∅
     else Ok (fixed_cameras_indices opt));
  Ok ({| cost_function := cost_function';
         ba_type := ba_type';
         robust_threshold := robust_threshold opt;
         camera_weight := camera_weight opt;
         rotation_weight := rotation_weight opt;
         translation_weight := translation_weight opt;
         overlap_exponent := overlap_exponent opt;
         parameter_tolerance := parameter_tolerance opt;
         min_matches := min_matches opt;
         max_iterations := max_iterations opt;
         num_ba_passes := num_ba_passes opt;
         num_threads := num_threads opt;
         create_pinhole := create_pinhole opt;
         fix_gcp_xyz := fix_gcp_xyz opt;
         solve_intrinsics := solve_intrinsics opt;
         use_llh_error := use_llh_error opt;
         stereo_session_string := stereo_session_string opt;
         heights_from_dem := heights_from_dem opt;
         reference_terrain := reference_terrain opt;
         csv_format_str := csv_format_str opt;
         datum_str := datum_str';
         datum := datum';
         disparity_list := disparity_list opt;
         max_disp_error := max_disp_error opt;
         remove_outliers_params := remove_outliers_params';
         intrinsics_to_float := intrinsics_to_float';
         fixed_cameras_indices := fixed_cameras_indices' |},
      {| image_files := image_files fopt;
         camera_files := camera_files fopt;
         gcp_files := gcp_files fopt;
         out_prefix := out_prefix fopt;
         input_prefix := input_prefix fopt;
         overlap_limit := overlap_limit';
         overlap_list_file := overlap_list_file fopt;
         overlap_list := overlap_list';
         approximate_pinhole_intrinsics := approximate_pinhole_intrinsics fopt;
         camera_position_file := camera_position_file fopt;
         position_filter_dist := position_filter_dist fopt;
         semi_major := semi_major fopt;
         semi_minor := semi_minor fopt;
         intrinsics_to_float_str := intrinsics_to_float_str fopt;
         remove_outliers_params_str := remove_outliers_params_str';
         initial_transform_file := initial_transform_file fopt;
         initial_transform := initial_transform';
         fixed_cameras_indices_str := fixed_cameras_indices_str fopt |}).

End HandleArguments.

(* ================================================================= *)
(** ** main: the camera files and the pairs of images *)

Definition unique_names_msg : string :=
  "All camera model files must have unique names!".
Definition as_many_cameras_msg : string :=
  "Must have as many cameras as we have images.".

Section CameraFiles.

(** [asp::bundle_adjust_file_name(prefix, image, camera)]. *)
Variable bundle_adjust_file_name : string -> string -> string -> string.
Variable out_prefix : string.
Variable image_files : list string.

(** If there are no camera files, then the image files have the camera
    information. *)
Definition fill_camera_files (camera_files : list string) : list string :=
  match camera_files with
  | [] => replicate (length image_files) ""
  | _ => camera_files
  end.

Definition adjust_file_name (camera_files : list string) (i : nat) : string :=
  bundle_adjust_file_name out_prefix (get_s image_files i)
    (get_s camera_files i).

Definition duplicate_inner_body (camera_files : list string)
  (filename_1 : string) (u : unit) (j : nat) : result unit :=
  let filename_2 := adjust_file_name camera_files j in
  throw_if (String.eqb filename_1 filename_2) (ArgumentErr unique_names_msg).

Definition duplicate_outer_body (camera_files : list string) (u : unit)
  (i : nat) : result unit :=
  let filename_1 := adjust_file_name camera_files i in
  foldM (duplicate_inner_body camera_files filename_1)
    (seq (i + 1) (length camera_files - (i + 1))) tt.

(** The start of [main] after [handle_arguments]: ensure that no camera
    files have duplicate names, and that there are as many cameras as
    images. The result is [opt.camera_files]. *)
Definition check_camera_files (camera_files : list string)
  : result (list string) :=
  let num_images := length image_files in
  let camera_files := fill_camera_files camera_files in
  _ ← foldM (duplicate_outer_body camera_files)
        (seq 0 (length camera_files - 1)) tt;
  _ ← throw_if (negb (num_images =? length camera_files)%nat)
        (ArgumentErr as_many_cameras_msg);
  Ok camera_files.

End CameraFiles.

(** The sum of two [int]s, which wraps around on the usual machines. *)
Definition int_add (a b : Z) : Z :=
  (a + b + 2 ^ 31) mod 2 ^ 32 - 2 ^ 31.

(** [v1 - v2] on vectors of three doubles. *)
Definition Vector3_sub (a b : Vector3) : Vector3 :=
  let '(a0, a1, a2) := a in
  let '(b0, b1, b2) := b in
  (dsub a0 b0, dsub a1 b1, dsub a2 b2).

Section ImagePairs.

(** [ip::match_filename(prefix, image1, image2)] and [norm_2] of the Vision
    Workbench. *)
Variable match_filename : string -> string -> string -> string.
Variable norm_2 : Vector3 -> double.
(** What [main] does with the pair [(i, j)] once its match file is named:
    the cached match file is used, or the interest points are matched. The
    result tells whether [num_pairs_matched] is incremented; a failure of
    the matching is caught and gives [Ok false], while an exception raised
    before the [try] block is thrown on. *)
Variable find_matches : nat -> nat -> string -> result bool.

Variable fopt : FileOptions.
Variable estimated_camera_gcc : list Vector3.

(** If this option is set, don't try to match cameras that are too far
    apart. *)
Definition too_far_apart (i j : nat) : bool :=
  let num_images := Z.of_nat (length (image_files fopt)) in
  let got_est_cam_positions :=
    Z.of_nat (length estimated_camera_gcc) =? num_images in
  got_est_cam_positions && dgt (position_filter_dist fopt) 0%float
  && (let this_pos := get_v estimated_camera_gcc i in
      let other_pos := get_v estimated_camera_gcc j in
      Vector3_ne this_pos zero3 && Vector3_ne other_pos zero3
      && dgt (norm_2 (Vector3_sub this_pos other_pos))
           (position_filter_dist fopt)).

(** The body of the inner loop; the state is [opt.match_files] and
    [num_pairs_matched]. *)
Definition pair_body (i : nat) (st : gmap (nat * nat) string * Z) (j : nat)
  : result (gmap (nat * nat) string * Z) :=
  let '(match_files, num_pairs_matched) := st in
  let image1_path := get_s (image_files fopt) i in
  let image2_path := get_s (image_files fopt) j in
  (* Look only at these pairs, if specified in a list *)
  if negb (bool_decide (overlap_list fopt = ∅))
     && negb (bool_decide ((image1_path, image2_path) ∈ overlap_list fopt))
  then Ok st
  else if too_far_apart i j then Ok st
  else
    let match_file := match_filename (out_prefix fopt) image1_path image2_path in
    let match_files := <[(i, j) := match_file]> match_files in
    matched ← find_matches i j match_file;
    Ok (match_files,
        if matched : bool then num_pairs_matched + 1 else num_pairs_matched).

(** The indices of the inner loop
    [for (j = i+1; j <= std::min(num_images-1, i+opt.overlap_limit); j++)]. *)
Definition pair_indices (i : nat) : list nat :=
  let num_images := Z.of_nat (length (image_files fopt)) in
  let last :=
    Z.min (num_images - 1) (int_add (Z.of_nat i) (overlap_limit fopt)) in
  seq (i + 1) (Z.to_nat (last - Z.of_nat i)).

Definition pairs_outer_body (st : gmap (nat * nat) string * Z) (i : nat)
  : result (gmap (nat * nat) string * Z) :=
  foldM (pair_body i) (pair_indices i) st.

(** The loop of [main] through each pair of input images, from the empty
    [opt.match_files] of a new [Options]. *)
Definition match_image_pairs : result (gmap (nat * nat) string * Z) :=
  foldM pairs_outer_body (seq 0 (length (image_files fopt))) (∅, 0).

End ImagePairs.

(* ################################################################# *)
(** * Properties *)

(* ================================================================= *)
(** ** The sizing of the linear solver *)

Lemma linear_solver_type_set v o :
  linear_solver_type (set_linear_solver_type v o) = v.
Proof. reflexivity. Qed.

(** C3. The linear solver is this function of the number of cameras: below
    100 cameras the dense Schur solver; from 100 to 3500 the sparse Schur
    solver; above 3500 and up to 7000 the iterative Schur solver with the
    Schur-Jacobi preconditioner and the explicit Schur complement; above
    7000 the iterative Schur solver without the explicit Schur
    complement. *)
Theorem solver_options_by_num_cameras (opt : Options) (num_cameras : Z) :
  let options := solver_options opt num_cameras in
  (num_cameras < 100 -> linear_solver_type options = DENSE_SCHUR)
  /\ (100 <= num_cameras <= 3500 ->
      linear_solver_type options = SPARSE_SCHUR)
  /\ (3500 < num_cameras <= 7000 ->
      linear_solver_type options = ITERATIVE_SCHUR
      /\ preconditioner_type options = SCHUR_JACOBI
      /\ use_explicit_schur_complement options = true)
  /\ (7000 < num_cameras ->
      linear_solver_type options = ITERATIVE_SCHUR
      /\ use_explicit_schur_complement options = false).
Proof.
  cbv zeta. unfold solver_options.
  destruct (Z.ltb_spec num_cameras 100) as [H100 | H100];
    destruct (Z.ltb_spec 3500 num_cameras) as [H3500 | H3500];
    destruct (Z.ltb_spec 7000 num_cameras) as [H7000 | H7000];
    try lia; cbn; repeat split; intros; try reflexivity; lia.
Qed.

(** The four mock problems of the specification. *)
Example solver_options_mock_problems :
  map (fun n => let o := solver_options default_options n in
                (linear_solver_type o, use_explicit_schur_complement o))
    [50; 1000; 5000; 10000]
  = [(DENSE_SCHUR, false); (SPARSE_SCHUR, false);
     (ITERATIVE_SCHUR, true); (ITERATIVE_SCHUR, false)].
Proof. reflexivity. Qed.

(* ================================================================= *)
(** ** The selection of the loss *)

Definition with_cost_function (name : string) (opt : Options) : Options := {|
  cost_function := name;
  ba_type := ba_type opt;
  robust_threshold := robust_threshold opt;
  camera_weight := camera_weight opt;
  rotation_weight := rotation_weight opt;
  translation_weight := translation_weight opt;
  overlap_exponent := overlap_exponent opt;
  parameter_tolerance := parameter_tolerance opt;
  min_matches := min_matches opt;
  max_iterations := max_iterations opt;
  num_ba_passes := num_ba_passes opt;
  num_threads := num_threads opt;
  create_pinhole := create_pinhole opt;
  fix_gcp_xyz := fix_gcp_xyz opt;
  solve_intrinsics := solve_intrinsics opt;
  use_llh_error := use_llh_error opt;
  stereo_session_string := stereo_session_string opt;
  heights_from_dem := heights_from_dem opt;
  reference_terrain := reference_terrain opt;
  csv_format_str := csv_format_str opt;
  datum_str := datum_str opt;
  datum := datum opt;
  disparity_list := disparity_list opt;
  max_disp_error := max_disp_error opt;
  remove_outliers_params := remove_outliers_params opt;
  intrinsics_to_float := intrinsics_to_float opt;
  fixed_cameras_indices := fixed_cameras_indices opt
|}.

(** The four names the Ceres driver maps to a loss. *)
Lemma get_loss_function_known (opt : Options) :
  get_loss_function (with_cost_function "l2" opt) = Ok NullLoss
  /\ get_loss_function (with_cost_function "huber" opt)
     = Ok (HuberLoss (robust_threshold opt))
  /\ get_loss_function (with_cost_function "cauchy" opt)
     = Ok (CauchyLoss (robust_threshold opt))
  /\ get_loss_function (with_cost_function "l1" opt)
     = Ok (SoftLOneLoss (robust_threshold opt)).
Proof. repeat split. Qed.

(** A network of two cameras that both see one tie point. *)
Definition one_point_cnet : ControlNetwork :=
  [{| cp_type := TiePoint;
      cp_position := (1%float, 2%float, 3%float);
      cp_sigma := (1%float, 1%float, 1%float) |}].

Definition one_point_crn : CameraRelationNetwork :=
  [[{| m_point_id := 0; m_location := (10%float, 20%float);
       m_scale := (1%float, 1%float) |}];
   [{| m_point_id := 0; m_location := (11%float, 21%float);
       m_scale := (1%float, 1%float) |}]].

(** C6 (the code at the failing input). With the default solver, ceres,
    the cost function pseudohuber passes the switch of [do_ba_with_model]
    and is then refused by [get_loss_function] at the first observation:
    the run ends with the argument error "Unknown cost function". *)
Theorem pseudohuber_refused_by_ceres (libs : Libraries)
  (do_ba_nonceres : string -> VwCostFunction -> Options -> result unit) :
  let opt := with_cost_function "pseudohuber" default_options in
  get_loss_function opt = Throw (ArgumentErr unknown_cost_function_msg)
  /\ do_ba_with_model libs do_ba_nonceres one_point_cnet one_point_crn 2
       (replicate 12 0%float) opt
     = Throw (ArgumentErr unknown_cost_function_msg).
Proof.
  cbv zeta. split; [reflexivity |].
  unfold do_ba_with_model, do_ba_costfun. cbn [cost_function with_cost_function
    ba_type default_options String.eqb Ascii.eqb Bool.eqb].
  vm_compute. reflexivity.
Qed.

(* ================================================================= *)
(** ** Loops over the camera relation network *)

(** Case analysis on the first computation of a sequence that can throw:
    the case of an exception is closed when the goal says that the whole
    sequence returned. *)
Ltac case_bind :=
  match goal with
  | |- context [mbind _ ?r] =>
      destruct r eqn:?; cbn [mbind result_bind]; [| discriminate]
  end.

(** A double loop over the cameras and their features is one loop over the
    features in camera-major order. *)
Lemma fold_left_concat {A B : Type} (f : B -> A -> B) (ll : list (list A))
  (b : B) :
  fold_left (fun st l => fold_left f l st) ll b = fold_left f (concat ll) b.
Proof.
  revert b. induction ll as [| l ll IH]; intros b; simpl; [reflexivity |].
  rewrite fold_left_app. apply IH.
Qed.

Lemma is_outlier_true O i : is_outlier O i = true <-> i ∈ O.
Proof. unfold is_outlier. apply bool_decide_eq_true. Qed.

Lemma is_outlier_false O i : is_outlier O i = false <-> i ∉ O.
Proof. unfold is_outlier. apply bool_decide_eq_false. Qed.

(* ================================================================= *)
(** ** The outliers only grow and never hold a GCP *)

Section OutlierSets.

Variable cnet : ControlNetwork.

(** The points a loop of [update_outliers] looks at: seen by a camera, not
    an outlier on entry, not a GCP. *)
Definition candidate (crn : CameraRelationNetwork) (O : gset nat) (i : nat)
  : Prop :=
  (exists f, f ∈ concat crn /\ m_point_id f = i)
  /\ (i ∉ O) /\ is_gcp cnet i = false.

Lemma new_outliers_fold (O : gset nat) (mr : list double) (e : double)
  (l : list JFeature) (acc : gset nat) (i : nat) :
  i ∈ fold_left (new_outliers_body cnet O mr e) l acc
  <-> i ∈ acc
      \/ ((exists f, f ∈ l /\ m_point_id f = i)
          /\ (i ∉ O) /\ is_gcp cnet i = false
          /\ dgt (get_d mr i) e = true).
Proof.
  revert acc. induction l as [| f l IH]; intros acc; simpl.
  - split; [auto |]. intros [H | [[f [Hf _]] _]]; [exact H |].
    apply elem_of_nil in Hf. destruct Hf.
  - rewrite IH. unfold new_outliers_body.
    destruct (is_outlier O (m_point_id f)) eqn:Ho.
    { apply is_outlier_true in Ho. split.
      - intros [H | [[g [Hg Hi]] H]]; [auto |]. right. split; [| exact H].
        exists g. split; [apply elem_of_cons; auto | exact Hi].
      - intros [H | [[g [Hg Hi]] H]]; [auto |].
        apply elem_of_cons in Hg as [-> | Hg].
        + destruct H as [Hn _]. rewrite <- Hi in Hn. contradiction.
        + right. split; [exists g; auto | exact H]. }
    destruct (is_gcp cnet (m_point_id f)) eqn:Hg.
    { split.
      - intros [H | [[g [Hg' Hi]] H]]; [auto |]. right. split; [| exact H].
        exists g. split; [apply elem_of_cons; auto | exact Hi].
      - intros [H | [[g [Hg' Hi]] H]]; [auto |].
        apply elem_of_cons in Hg' as [-> | Hg'].
        + destruct H as [_ [Hn _]]. rewrite <- Hi in Hn. congruence.
        + right. split; [exists g; auto | exact H]. }
    apply is_outlier_false in Ho.
    destruct (dgt (get_d mr (m_point_id f)) e) eqn:Hd.
    + split.
      * intros [H | [[g [Hg' Hi]] H]].
        -- apply elem_of_union in H as [H | H]; [| auto].
           apply elem_of_singleton in H. subst i. right.
           split; [exists f; split; [apply elem_of_cons; auto | reflexivity] |].
           auto.
        -- right. split; [| exact H].
           exists g. split; [apply elem_of_cons; auto | exact Hi].
      * intros [H | [[g [Hg' Hi]] H]].
        -- left. apply elem_of_union. auto.
        -- apply elem_of_cons in Hg' as [-> | Hg'].
           ++ left. apply elem_of_union. left. apply elem_of_singleton. auto.
           ++ right. split; [exists g; auto | exact H].
    + split.
      * intros [H | [[g [Hg' Hi]] H]]; [auto |]. right. split; [| exact H].
        exists g. split; [apply elem_of_cons; auto | exact Hi].
      * intros [H | [[g [Hg' Hi]] H]]; [auto |].
        apply elem_of_cons in Hg' as [-> | Hg'].
        -- destruct H as [_ [_ Hd']]. rewrite <- Hi in Hd'. congruence.
        -- right. split; [exists g; auto | exact H].
Qed.

(** The new set of outliers: the old one and the candidates whose mean
    residual is above the cutoff. *)
Lemma add_new_outliers_spec (crn : CameraRelationNetwork) (O : gset nat)
  (mr : list double) (e : double) (i : nat) :
  i ∈ add_new_outliers cnet crn O mr e
  <-> i ∈ O \/ (candidate crn O i /\ dgt (get_d mr i) e = true).
Proof.
  unfold add_new_outliers, candidate. rewrite fold_left_concat.
  rewrite new_outliers_fold. tauto.
Qed.

End OutlierSets.

Section PassLoop.

Variable libs : Libraries.
Variable ba_model : BAModel.
Variable opt : Options.
Variable cnet : ControlNetwork.
Variable crn : CameraRelationNetwork.
Variable num_camera_params : nat.
Variable num_point_params : nat.
Variable num_intrinsic_params : nat.
Variable num_cameras : nat.
Variable num_points : nat.

(** No index of the set is the index of a GCP. *)
Definition no_gcp (O : gset nat) : Prop :=
  forall i, i ∈ O -> is_gcp cnet i = false.

(** Every set of the sequence is contained in the sets after it. *)
Definition growing (trace : list (gset nat)) : Prop :=
  forall j k A B,
    (j <= k)%nat -> trace !! j = Some A -> trace !! k = Some B -> A ⊆ B.

Lemma update_outliers_grows fob ceres O nc ncp npp counts ngcp refs problem st
  n O' :
  update_outliers fob ceres opt cnet crn num_points O nc ncp npp counts ngcp
    refs problem st = Ok (n, O') ->
  O ⊆ O' /\ (no_gcp O -> no_gcp O')
  /\ n = Z.of_nat (size O') - Z.of_nat (size O).
Proof.
  unfold update_outliers. case_bind.
  destruct (compute_mean_residuals_at_xyz _ _ _ _) as [mr obs].
  intros H. injection H as Hn HO. subst O'. split; [| split].
  - intros i Hi. apply add_new_outliers_spec. auto.
  - intros Hno i Hi. apply add_new_outliers_spec in Hi as [Hi | [Hc _]].
    + apply Hno, Hi.
    + apply Hc.
  - symmetry. exact Hn.
Qed.

Lemma one_pass_grows first_pass last_pass orig_cams cameras intrinsics points
  O n st O' :
  do_ba_ceres_one_pass libs ba_model opt cnet crn num_camera_params
    num_point_params num_intrinsic_params num_cameras num_points first_pass
    last_pass orig_cams cameras intrinsics points O = Ok (n, st, O') ->
  O ⊆ O' /\ (no_gcp O -> no_gcp O').
Proof.
  unfold do_ba_ceres_one_pass. do 5 case_bind.
  destruct last_pass; cbn [negb].
  - cbn [mbind result_bind]. case_bind.
    intros H. injection H as _ _ HO. subst O'.
    split; [reflexivity | auto].
  - match goal with
    | |- context [mbind _ ?r] => destruct r as [[n' O''] | e] eqn:Hu
    end; cbn [mbind result_bind]; [| discriminate].
    case_bind.
    intros H. injection H as _ _ HO. subst O''.
    apply update_outliers_grows in Hu. tauto.
Qed.

Lemma growing_snoc trace O :
  growing trace -> (forall A, A ∈ trace -> A ⊆ O) -> growing (trace ++ [O]).
Proof.
  intros Hg Hsub j k A B Hjk Hj Hk.
  apply lookup_snoc_Some in Hk as [[Hlt Hk] | [Hlen HB]].
  - rewrite lookup_app_l in Hj by lia. exact (Hg j k A B Hjk Hj Hk).
  - subst B. apply lookup_snoc_Some in Hj as [[Hlt Hj] | [_ HA]].
    + apply Hsub. eapply list_elem_of_lookup_2. exact Hj.
    + subst A. reflexivity.
Qed.

(** The invariant of the loop: the sets recorded so far grow, they are all
    contained in the current set, and none holds a GCP. *)
Lemma pass_loop_trace orig fuel pass arrays O trace :
  growing trace ->
  (forall A, A ∈ trace -> A ⊆ O) ->
  (forall A, A ∈ trace -> no_gcp A) ->
  no_gcp O ->
  let r := pass_loop libs ba_model opt cnet crn num_camera_params
             num_point_params num_intrinsic_params num_cameras num_points
             orig fuel pass arrays O trace in
  growing (fst r)
  /\ (forall A, A ∈ fst r -> no_gcp A)
  /\ (forall a O', snd r = Ok (a, O') -> no_gcp O' /\ O ⊆ O').
Proof.
  revert pass arrays O trace.
  induction fuel as [| fuel IH]; intros pass arrays O trace Hg Hsub Hno HO;
    cbn [pass_loop]; cbv zeta.
  - simpl. repeat split; auto.
    + injection H as _ <-. exact HO.
    + injection H as _ <-. reflexivity.
  - destruct (if 1 <? num_ba_passes opt then orig else arrays)
      as [[cameras intrinsics] points].
    destruct (do_ba_ceres_one_pass _ _ _ _ _ _ _ _ _ _ _ _ _ _ _ _ _)
      as [[[n st] O'] | e] eqn:Hpass.
    + apply one_pass_grows in Hpass as [HOO' Hno'].
      specialize (Hno' HO).
      assert (Hg' : growing (trace ++ [O'])).
      { apply growing_snoc; [exact Hg |]. intros A HA.
        transitivity O; [apply Hsub, HA | exact HOO']. }
      assert (Hsub' : forall A, A ∈ trace ++ [O'] -> A ⊆ O').
      { intros A HA. apply elem_of_app in HA as [HA | HA].
        - transitivity O; [apply Hsub, HA | exact HOO'].
        - apply list_elem_of_singleton in HA. subst A. reflexivity. }
      assert (Hnog' : forall A, A ∈ trace ++ [O'] -> no_gcp A).
      { intros A HA. apply elem_of_app in HA as [HA | HA].
        - apply Hno, HA.
        - apply list_elem_of_singleton in HA. subst A. exact Hno'. }
      destruct (negb (pass =? num_ba_passes opt - 1) && (n =? 0)).
      { simpl. repeat split; auto.
        - injection H as _ <-. exact Hno'.
        - injection H as _ <-. exact HOO'. }
      destruct ((1 <? num_ba_passes opt)
                && (Z.of_nat num_points - Z.of_nat (size O')
                    <? min_matches opt)).
      { simpl. repeat split; auto; discriminate. }
      specialize (IH (pass + 1) (arrays_of st) O' (trace ++ [O']) Hg' Hsub'
                    Hnog' Hno').
      cbv zeta in IH. destruct IH as [IH1 [IH2 IH3]].
      repeat split; auto.
      * eapply IH3; eauto.
      * transitivity O'; [exact HOO' |]. eapply IH3; eauto.
    + simpl. repeat split; auto; discriminate.
Qed.

(** C2. Across the passes of a run the set of outliers only grows: the set
    after a pass contains the set after every earlier pass; and no set of
    outliers the run reaches holds the index of a GCP. *)
Theorem outlier_sets_grow_without_gcp (cameras_vec intrinsics_vec : list double) :
  let r := do_ba_ceres libs ba_model opt cnet crn num_camera_params
             num_point_params num_intrinsic_params num_cameras num_points
             cameras_vec intrinsics_vec in
  growing (fst r)
  /\ (forall A, A ∈ fst r -> no_gcp A)
  /\ (forall a O, snd r = Ok (a, O) -> no_gcp O).
Proof.
  cbv zeta. unfold do_ba_ceres.
  destruct (num_ba_passes opt <=? 0).
  - simpl. split; [| split].
    + intros j k A B _ Hj. rewrite lookup_nil in Hj. discriminate.
    + intros A HA. apply elem_of_nil in HA. destruct HA.
    + discriminate.
  - pose proof (pass_loop_trace
                  (cameras_vec, intrinsics_vec,
                   points_of_cnet cnet num_point_params)
                  (Z.to_nat (num_ba_passes opt)) 0
                  (cameras_vec, intrinsics_vec,
                   points_of_cnet cnet num_point_params) ∅ []) as H.
    cbv zeta in H. destruct H as [H1 [H2 H3]].
    + intros j k A B _ Hj. rewrite lookup_nil in Hj. discriminate.
    + intros A HA. apply elem_of_nil in HA. destruct HA.
    + intros A HA. apply elem_of_nil in HA. destruct HA.
    + intros i Hi. apply not_elem_of_empty in Hi. destruct Hi.
    + split; [exact H1 | split; [exact H2 |]].
      intros a O HO. eapply H3. exact HO.
Qed.

End PassLoop.

(* ================================================================= *)
(** ** Too few points after filtering *)

Definition with_passes (passes matches : Z) (opt : Options) : Options := {|
  cost_function := cost_function opt;
  ba_type := ba_type opt;
  robust_threshold := robust_threshold opt;
  camera_weight := camera_weight opt;
  rotation_weight := rotation_weight opt;
  translation_weight := translation_weight opt;
  overlap_exponent := overlap_exponent opt;
  parameter_tolerance := parameter_tolerance opt;
  min_matches := matches;
  max_iterations := max_iterations opt;
  num_ba_passes := passes;
  num_threads := num_threads opt;
  create_pinhole := create_pinhole opt;
  fix_gcp_xyz := fix_gcp_xyz opt;
  solve_intrinsics := solve_intrinsics opt;
  use_llh_error := use_llh_error opt;
  stereo_session_string := stereo_session_string opt;
  heights_from_dem := heights_from_dem opt;
  reference_terrain := reference_terrain opt;
  csv_format_str := csv_format_str opt;
  datum_str := datum_str opt;
  datum := datum opt;
  disparity_list := disparity_list opt;
  max_disp_error := max_disp_error opt;
  remove_outliers_params := remove_outliers_params opt;
  intrinsics_to_float := intrinsics_to_float opt;
  fixed_cameras_indices := fixed_cameras_indices opt
|}.

(** Stand-ins for the libraries, to run the driver on small networks: every
    residual has the value [v], the solver leaves the parameters as they
    are, there is no DEM and no reference terrain, the brackets of the
    outliers are [(0, 0)], and the KML files and the match files are
    written without an error. *)
Definition constant_ceres (v : double) : Ceres := {|
  block_residuals := fun _ _ b => replicate (num_residuals b) v;
  Solve := fun _ _ st => st
|}.

Definition no_terrain : TerrainEnv := {|
  get_cloud_type := fun _ => "";
  load_reference_terrain := fun _ => [];
  disp_cols := fun _ => 0;
  disp_rows := fun _ => 0;
  interp_disp := fun _ _ _ => None;
  image_box_contains := fun _ _ => false;
  lon_lat_limit_is_set := false;
  lon_lat_limit_contains := fun _ => true;
  cam_pixel := fun _ _ _ _ => None;
  norm_2 := fun v => fst v;
  terrain_parameter_blocks := fun _ _ => [];
  terrain_constant_intrinsics := fun _ => []
|}.

Definition constant_libs (v : double) : Libraries := {|
  pow := fun x _ => x;
  create_interp_dem := fun _ => Throw (IOErr "no DEM");
  terrain_env := no_terrain;
  ceres_lib := constant_ceres v;
  find_outlier_brackets := fun _ _ _ => (0%float, 0%float);
  KMLFile := fun _ _ => Ok tt;
  remove_outliers := fun _ _ _ _ => Ok tt
|}.

(** C7 (counterexample). Two passes are asked for and [min_matches] is 30;
    the network has one point. The first pass finds no outlier, so the loop
    ends there: one point survives, fewer than 30, and the run returns
    without an error. *)
Lemma few_points_without_abort :
  let opt := with_passes 2 30 default_options in
  exists arrays,
    do_ba_ceres (constant_libs 0%float) generic_model opt one_point_cnet
      one_point_crn camera_params_n point_params_n 0 2 1
      (replicate 12 0%float) []
    = ([∅], Ok (arrays, ∅))
    /\ 1 < num_ba_passes opt
    /\ Z.of_nat (length one_point_cnet) - Z.of_nat (size (∅ : gset nat))
       < min_matches opt.
Proof.
  cbv zeta. eexists. split; [vm_compute; reflexivity |].
  split; [reflexivity |]. rewrite size_empty. simpl. lia.
Qed.

Section TooFewPoints.

Variable libs : Libraries.
Variable ba_model : BAModel.
Variable opt : Options.
Variable cnet : ControlNetwork.
Variable crn : CameraRelationNetwork.
Variable num_camera_params : nat.
Variable num_point_params : nat.
Variable num_intrinsic_params : nat.
Variable num_cameras : nat.
Variable num_points : nat.

Local Abbreviation one_pass :=
  (do_ba_ceres_one_pass libs ba_model opt cnet crn num_camera_params
     num_point_params num_intrinsic_params num_cameras num_points).
Local Abbreviation loop :=
  (pass_loop libs ba_model opt cnet crn num_camera_params num_point_params
     num_intrinsic_params num_cameras num_points).

(** A run of a single pass is its pass: the loop adds no check of its
    own. *)
Lemma single_pass_run (cameras_vec intrinsics_vec : list double) :
  num_ba_passes opt = 1 ->
  do_ba_ceres libs ba_model opt cnet crn num_camera_params num_point_params
    num_intrinsic_params num_cameras num_points cameras_vec intrinsics_vec
  = match one_pass true true cameras_vec cameras_vec intrinsics_vec
            (points_of_cnet cnet num_point_params) ∅ with
    | Ok (_, st, out) => ([out], Ok (arrays_of st, out))
    | Throw e => ([], Throw e)
    end.
Proof.
  intros H1. unfold do_ba_ceres. rewrite H1.
  change (1 <=? 0) with false. change (Z.to_nat 1) with 1%nat.
  cbn [pass_loop]. rewrite H1.
  change (1 <? 1) with false. change (0 =? 1 - 1) with true.
  change (0 =? 0) with true. cbn [fst negb andb].
  destruct (one_pass _ _ _ _ _ _ _) as [[[n st] O] | e]; reflexivity.
Qed.

(** C7 (amended). In a run of more than one pass, when a pass that is the
    last one or that added an outlier leaves fewer than [min_matches]
    points, the run aborts with the error "Too few points remain after
    filtering"; a pass that is not the last one and adds no outlier ends
    the run with no such check. A run of a single pass never raises that
    error by itself: it returns whatever its only pass returns. *)
Theorem too_few_points_abort :
  (forall (orig arrays : Arrays) (fuel : nat) (pass : Z) (O : gset nat)
          (trace : list (gset nat)) (n : Z) (st : SolverState)
          (O' : gset nat),
      1 < num_ba_passes opt ->
      one_pass (pass =? 0) (pass =? num_ba_passes opt - 1) (fst (fst orig))
        (fst (fst orig)) (snd (fst orig)) (snd orig) O = Ok (n, st, O') ->
      ((pass = num_ba_passes opt - 1 \/ n <> 0) ->
       Z.of_nat num_points - Z.of_nat (size O') < min_matches opt ->
       loop orig (S fuel) pass arrays O trace
       = (trace ++ [O'], Throw (ArgumentErr too_few_points_msg)))
      /\ (pass <> num_ba_passes opt - 1 -> n = 0 ->
          loop orig (S fuel) pass arrays O trace
          = (trace ++ [O'], Ok (arrays_of st, O'))))
  /\ (forall cameras_vec intrinsics_vec,
        num_ba_passes opt = 1 ->
        do_ba_ceres libs ba_model opt cnet crn num_camera_params
          num_point_params num_intrinsic_params num_cameras num_points
          cameras_vec intrinsics_vec
        = match one_pass true true cameras_vec cameras_vec intrinsics_vec
                  (points_of_cnet cnet num_point_params) ∅ with
          | Ok (_, st1, out) => ([out], Ok (arrays_of st1, out))
          | Throw e => ([], Throw e)
          end).
Proof.
  split; [| exact single_pass_run].
  intros orig arrays fuel pass O trace n st O' Hmulti Hpass.
  assert (Hlt : (1 <? num_ba_passes opt) = true) by (apply Z.ltb_lt; lia).
  destruct orig as [[cameras intrinsics] points]. cbn [fst snd] in Hpass.
  split.
  - intros Hcase Hfew. cbn [pass_loop]. rewrite Hlt. cbn [fst].
    rewrite Hpass.
    assert (Hbreak : negb (pass =? num_ba_passes opt - 1) && (n =? 0) = false).
    { destruct Hcase as [-> | Hn].
      - rewrite Z.eqb_refl. reflexivity.
      - apply Z.eqb_neq in Hn. rewrite Hn. apply andb_false_r. }
    rewrite Hbreak.
    assert (Hcheck : (Z.of_nat num_points - Z.of_nat (size O')
                      <? min_matches opt) = true) by (apply Z.ltb_lt; lia).
    rewrite Hcheck. reflexivity.
  - intros Hnotlast Hn. cbn [pass_loop]. rewrite Hlt. cbn [fst].
    rewrite Hpass. apply Z.eqb_neq in Hnotlast. rewrite Hnotlast. subst n.
    reflexivity.
Qed.

End TooFewPoints.

(** A run of two passes on the network of one point, with residuals of 10
    pixels: the first pass flags the point, no point is left, and the run
    aborts. *)
Lemma too_few_points_abort_witness :
  let opt := with_passes 2 30 default_options in
  let orig := (replicate 12 0%float, [], points_of_cnet one_point_cnet 3) in
  pass_loop (constant_libs 10%float) generic_model opt one_point_cnet
    one_point_crn camera_params_n point_params_n 0 2 1 orig 2 0 orig ∅ []
  = ([{[0%nat]}], Throw (ArgumentErr too_few_points_msg)).
Proof.
  cbv zeta.
  pose (st := {| st_cameras := replicate 12 0%float; st_intrinsics := [];
                 st_points := points_of_cnet one_point_cnet 3;
                 st_scaled_intrinsics := [] |}).
  refine (proj1 (proj1 (too_few_points_abort (constant_libs 10%float)
                   generic_model (with_passes 2 30 default_options)
                   one_point_cnet one_point_crn camera_params_n
                   point_params_n 0 2 1)
                   (replicate 12 0%float, [], points_of_cnet one_point_cnet 3)
                   (replicate 12 0%float, [], points_of_cnet one_point_cnet 3)
                   1%nat 0 ∅ [] 1 st {[0%nat]} _ _) _ _).
  - reflexivity.
  - vm_compute. reflexivity.
  - right. discriminate.
  - rewrite size_singleton. simpl. lia.
Defined.

(* ================================================================= *)
(** ** The shape of the residual graph *)

Lemma residual_blocks_add c l ps problem :
  residual_blocks (AddResidualBlock c l ps problem)
  = residual_blocks problem
      ++ [{| rb_cost := c; rb_loss := l; rb_params := ps |}].
Proof. reflexivity. Qed.

(** The block [add_residual_block] adds for one observation. *)
Definition reprojection_block (ba_model : BAModel)
  (observation pixel_sigma : Vector2) (icam ipt : nat) (loss : LossFunction)
  : ResidualBlock :=
  match model_kind ba_model, are_intrinsics_constant ba_model with
  | BAPinholeModel, false =>
      {| rb_cost := BaPinholeError observation pixel_sigma icam ipt;
         rb_loss := loss;
         rb_params :=
           if (num_distortion_params ba_model =? 0)%nat then
             [CameraBlock icam; PointBlock ipt; IntrinsicsBlock 0;
              IntrinsicsBlock focal_length_params_n]
           else
             [CameraBlock icam; PointBlock ipt; IntrinsicsBlock 0;
              IntrinsicsBlock focal_length_params_n;
              IntrinsicsBlock
                (focal_length_params_n + optical_center_params_n)] |}
  | _, _ =>
      {| rb_cost := BaReprojectionError observation pixel_sigma icam ipt;
         rb_loss := loss;
         rb_params := [CameraBlock icam; PointBlock ipt] |}
  end.

Lemma reprojection_block_kind ba_model observation pixel_sigma icam ipt loss :
  block_kind (reprojection_block ba_model observation pixel_sigma icam ipt loss)
  = KReprojection.
Proof.
  unfold reprojection_block.
  destruct (model_kind ba_model), (are_intrinsics_constant ba_model);
    reflexivity.
Qed.

Lemma reprojection_block_size ba_model observation pixel_sigma icam ipt loss :
  num_residuals
    (reprojection_block ba_model observation pixel_sigma icam ipt loss)
  = PIXEL_SIZE.
Proof.
  unfold reprojection_block.
  destruct (model_kind ba_model), (are_intrinsics_constant ba_model);
    reflexivity.
Qed.

(** [add_residual_block] adds that block at the end, and only fixes
    parameter blocks besides. *)
Lemma add_residual_block_blocks ba_model observation pixel_sigma icam ipt itf
  loss problem :
  residual_blocks
    (add_residual_block ba_model observation pixel_sigma icam ipt itf loss
       problem)
  = residual_blocks problem
      ++ [reprojection_block ba_model observation pixel_sigma icam ipt loss].
Proof.
  unfold add_residual_block, reprojection_block.
  destruct (model_kind ba_model); [reflexivity |].
  destruct (are_intrinsics_constant ba_model); [reflexivity |].
  destruct itf as [| s itf].
  - destruct (num_distortion_params ba_model =? 0)%nat; reflexivity.
  - cbv zeta.
    destruct (floats (s :: itf) "focal_length"),
      (floats (s :: itf) "optical_center"),
      (floats (s :: itf) "distortion_params"),
      (0 <? num_distortion_params ba_model)%nat,
      (num_distortion_params ba_model =? 0)%nat; reflexivity.
Qed.

(** A parameter block that is constant stays constant. *)
Definition keeps_constant (p p' : Problem) : Prop :=
  forall b, b ∈ constant_blocks p -> b ∈ constant_blocks p'.

Lemma keeps_constant_refl p : keeps_constant p p.
Proof. intros b Hb. exact Hb. Qed.

Lemma keeps_constant_trans p q r :
  keeps_constant p q -> keeps_constant q r -> keeps_constant p r.
Proof. intros H1 H2 b Hb. apply H2, H1, Hb. Qed.

Lemma keeps_constant_add c l ps p : keeps_constant p (AddResidualBlock c l ps p).
Proof. intros b Hb. exact Hb. Qed.

Lemma keeps_constant_set b p : keeps_constant p (SetParameterBlockConstant b p).
Proof. intros b' Hb. cbn. apply elem_of_cons. right. exact Hb. Qed.

Lemma set_constant_elem b p : b ∈ constant_blocks (SetParameterBlockConstant b p).
Proof. cbn. apply elem_of_cons. left. reflexivity. Qed.

Create HintDb constant.
#[local] Hint Resolve keeps_constant_refl keeps_constant_add
  keeps_constant_set : constant.

Lemma add_residual_block_constant ba_model observation pixel_sigma icam ipt
  itf loss problem :
  keeps_constant problem
    (add_residual_block ba_model observation pixel_sigma icam ipt itf loss
       problem).
Proof.
  unfold add_residual_block.
  destruct (model_kind ba_model); [auto with constant |].
  destruct (are_intrinsics_constant ba_model); [auto with constant |].
  cbv zeta.
  destruct itf as [| s itf].
  - destruct (num_distortion_params ba_model =? 0)%nat; auto with constant.
  - destruct (floats (s :: itf) "focal_length"),
      (floats (s :: itf) "optical_center"),
      (floats (s :: itf) "distortion_params"),
      (0 <? num_distortion_params ba_model)%nat,
      (num_distortion_params ba_model =? 0)%nat;
      repeat (eapply keeps_constant_trans; [| apply keeps_constant_set]);
      auto with constant.
Qed.

(** The fix-up of the heights touches no residual block and keeps the
    constant blocks. *)
Lemma heights_fixup_blocks dem cnet npp ipt problem points :
  residual_blocks (fst (heights_from_dem_fixup dem cnet npp ipt problem points))
  = residual_blocks problem.
Proof.
  unfold heights_from_dem_fixup. destruct (is_gcp cnet ipt); [reflexivity |].
  destruct (dem_cartesian_to_geodetic dem _) as [[lon lat] h]. reflexivity.
Qed.

Lemma heights_fixup_constant dem cnet npp ipt problem points :
  keeps_constant problem
    (fst (heights_from_dem_fixup dem cnet npp ipt problem points)).
Proof.
  unfold heights_from_dem_fixup.
  destruct (is_gcp cnet ipt); [auto with constant |].
  destruct (dem_cartesian_to_geodetic dem _) as [[lon lat] h].
  cbn [fst]. auto with constant.
Qed.

(** The point is fixed whatever the DEM says, unless it is a GCP. *)
Lemma heights_fixup_fixes dem cnet npp ipt problem points :
  is_gcp cnet ipt = false ->
  PointBlock ipt
  ∈ constant_blocks (fst (heights_from_dem_fixup dem cnet npp ipt problem points)).
Proof.
  intros Hg. unfold heights_from_dem_fixup. rewrite Hg.
  destruct (dem_cartesian_to_geodetic dem _) as [[lon lat] h].
  cbn [fst]. apply set_constant_elem.
Qed.

(** The height the DEM gives at a position: the sample at the pixel of its
    longitude and latitude, when the pixel is inside the DEM and valid. *)
Definition dem_height (dem : Dem) (xyz : Vector3) : option double :=
  let '(lon, lat, _) := dem_cartesian_to_geodetic dem xyz in
  let pix := dem_lonlat_to_pixel dem (lon, lat) in
  if dem_in_bounds dem pix then interp_dem dem (fst pix) (snd pix) else None.

(** The position with its height replaced by [ht]. *)
Definition with_height (dem : Dem) (xyz : Vector3) (ht : double) : Vector3 :=
  let '(lon, lat, _) := dem_cartesian_to_geodetic dem xyz in
  dem_geodetic_to_cartesian dem (lon, lat, ht).

(** The coordinates after the fix-up: replaced exactly when the DEM gives
    a height. *)
Lemma heights_fixup_points dem cnet npp ipt problem points :
  snd (heights_from_dem_fixup dem cnet npp ipt problem points)
  = if is_gcp cnet ipt then points
    else
      match dem_height dem (read_point points npp ipt) with
      | Some ht =>
          write_point points npp ipt
            (with_height dem (read_point points npp ipt) ht)
      | None => points
      end.
Proof.
  unfold heights_from_dem_fixup, dem_height, with_height.
  destruct (is_gcp cnet ipt); [reflexivity |].
  destruct (dem_cartesian_to_geodetic dem _) as [[lon lat] h]. cbn [snd].
  destruct (dem_in_bounds dem _); [| reflexivity].
  destruct (interp_dem dem _ _); reflexivity.
Qed.

Lemma get_d_insert_ne (v : list double) (i j : nat) (x : double) :
  i <> j -> get_d (<[i := x]> v) j = get_d v j.
Proof. intros H. unfold get_d. rewrite list_lookup_insert_ne by exact H. reflexivity. Qed.

(** Writing a point leaves the other points as they are, the points being
    at least three doubles apart. *)
Lemma read_write_other points npp ipt ipt' xyz :
  (3 <= npp)%nat -> ipt <> ipt' ->
  read_point (write_point points npp ipt' xyz) npp ipt
  = read_point points npp ipt.
Proof.
  intros Hnpp Hne. unfold read_point, write_point.
  destruct xyz as [[x y] z]. cbv zeta.
  assert (Hd : forall a b, (a < 3)%nat -> (b < 3)%nat ->
                 (ipt' * npp + a <> ipt * npp + b)%nat).
  { intros a b Ha Hb. nia. }
  pose proof (Hd 0%nat 0%nat) as H00. pose proof (Hd 0%nat 1%nat) as H01.
  pose proof (Hd 0%nat 2%nat) as H02. pose proof (Hd 1%nat 0%nat) as H10.
  pose proof (Hd 1%nat 1%nat) as H11. pose proof (Hd 1%nat 2%nat) as H12.
  pose proof (Hd 2%nat 0%nat) as H20. pose proof (Hd 2%nat 1%nat) as H21.
  pose proof (Hd 2%nat 2%nat) as H22.
  rewrite !Nat.add_0_r in *.
  repeat rewrite get_d_insert_ne by lia. reflexivity.
Qed.

Section ReprojectionBlocks.

Variable pow : double -> double -> double.
Variable ba_model : BAModel.
Variable opt : Options.
Variable cnet : ControlNetwork.
Variable O : gset nat.
Variable num_point_params : nat.
Variable num_cameras : nat.
Variable num_points : nat.
Variable dem : option Dem.
Variable count_map : gmap nat Z.

(** The loss of the run; the default stands for an option the driver
    refuses, and then no block is built. *)
Definition loss_of_options : LossFunction :=
  match get_loss_function opt with
  | Ok loss => loss
  | Throw _ => NullLoss
  end.

(** The reprojection block of an observation: the sigma is the one of the
    observation after the NaN check and the overlap weight. *)
Definition feature_block (icam : nat) (f : JFeature) : ResidualBlock :=
  reprojection_block ba_model (m_location f)
    (overlap_weight pow opt count_map (m_point_id f) (nan_check (m_scale f)))
    icam (m_point_id f) loss_of_options.

Definition not_outlier (f : JFeature) : bool :=
  negb (is_outlier O (m_point_id f)).

(** The blocks of a camera: one for each observation of a point that is
    not an outlier, in the order of the observations. *)
Definition feature_blocks (icam : nat) (cam : list JFeature)
  : list ResidualBlock :=
  map (feature_block icam) (List.filter not_outlier cam).

(** The blocks of all the cameras, camera by camera. *)
Fixpoint camera_major_blocks (icam : nat) (crn : CameraRelationNetwork)
  : list ResidualBlock :=
  match crn with
  | [] => []
  | cam :: rest => feature_blocks icam cam ++ camera_major_blocks (S icam) rest
  end.

(** The points after the visit of one observation. *)
Definition points_after_visit (points : list double) (f : JFeature)
  : list double :=
  if is_outlier O (m_point_id f) then points
  else
    match dem with
    | None => points
    | Some d =>
        if is_gcp cnet (m_point_id f) then points
        else
          let xyz := read_point points num_point_params (m_point_id f) in
          match dem_height d xyz with
          | Some ht =>
              write_point points num_point_params (m_point_id f)
                (with_height d xyz ht)
          | None => points
          end
    end.

Local Abbreviation body :=
  (reprojection_body pow ba_model opt cnet O num_point_params num_cameras
     num_points dem count_map).

(** What the construction has checked and done for an observation it did
    not skip: the index of the point is in range, the options name a loss,
    and with a DEM the point is fixed unless it is a GCP. *)
Definition visited (problem' : Problem) (f : JFeature) : Prop :=
  (m_point_id f < num_points)%nat
  /\ (exists loss, get_loss_function opt = Ok loss)
  /\ (forall d, dem = Some d -> is_gcp cnet (m_point_id f) = false ->
      PointBlock (m_point_id f) ∈ constant_blocks problem').

Lemma visited_keeps p p' f :
  keeps_constant p p' -> visited p f -> visited p' f.
Proof.
  intros Hk (Hlt & Hloss & Hfix). split; [exact Hlt |].
  split; [exact Hloss |]. intros d Hd Hg. apply Hk. exact (Hfix d Hd Hg).
Qed.

Lemma reprojection_body_spec icam problem points count f problem' points'
  count' :
  body icam (problem, points, count) f = Ok (problem', points', count') ->
  residual_blocks problem'
  = residual_blocks problem ++ feature_blocks icam [f]
  /\ count' = (count + length (feature_blocks icam [f]))%nat
  /\ keeps_constant problem problem'
  /\ points' = points_after_visit points f
  /\ (is_outlier O (m_point_id f) = false -> visited problem' f).
Proof.
  unfold visited.
  unfold reprojection_body, feature_blocks, points_after_visit, not_outlier.
  cbn [List.filter].
  destruct (is_outlier O (m_point_id f)) eqn:Ho; cbn [negb map length].
  { intros H. injection H as <- <- <-. rewrite app_nil_r, Nat.add_0_r.
    repeat split; auto with constant; discriminate. }
  match goal with
  | |- context [mbind _ ?r] => destruct r as [u1 | e1] eqn:Hcam
  end; cbn [mbind result_bind]; [| discriminate].
  match goal with
  | |- context [mbind _ ?r] => destruct r as [u2 | e2] eqn:Hassert
  end; cbn [mbind result_bind]; [| discriminate].
  match goal with
  | |- context [mbind _ ?r] => destruct r as [loss | e3] eqn:Hloss
  end; cbn [mbind result_bind]; [| discriminate].
  assert (Hblock :
    forall p, residual_blocks
      (if bool_decide (icam ∈ fixed_cameras_indices opt)
       then SetParameterBlockConstant (CameraBlock icam)
              (add_residual_block ba_model (m_location f)
                 (overlap_weight pow opt count_map (m_point_id f)
                    (nan_check (m_scale f)))
                 icam (m_point_id f) (intrinsics_to_float opt) loss p)
       else add_residual_block ba_model (m_location f)
              (overlap_weight pow opt count_map (m_point_id f)
                 (nan_check (m_scale f)))
              icam (m_point_id f) (intrinsics_to_float opt) loss p)
    = residual_blocks p ++ [feature_block icam f]).
  { intros p. unfold feature_block, loss_of_options. rewrite Hloss.
    destruct (bool_decide _); cbn [residual_blocks SetParameterBlockConstant];
      apply add_residual_block_blocks. }
  assert (Hconst :
    forall p, keeps_constant p
      (if bool_decide (icam ∈ fixed_cameras_indices opt)
       then SetParameterBlockConstant (CameraBlock icam)
              (add_residual_block ba_model (m_location f)
                 (overlap_weight pow opt count_map (m_point_id f)
                    (nan_check (m_scale f)))
                 icam (m_point_id f) (intrinsics_to_float opt) loss p)
       else add_residual_block ba_model (m_location f)
              (overlap_weight pow opt count_map (m_point_id f)
                 (nan_check (m_scale f)))
              icam (m_point_id f) (intrinsics_to_float opt) loss p)).
  { intros p. destruct (bool_decide _).
    - eapply keeps_constant_trans;
        [apply add_residual_block_constant | apply keeps_constant_set].
    - apply add_residual_block_constant. }
  assert (Hlt : (m_point_id f < num_points)%nat).
  { unfold VW_ASSERT in Hassert.
    destruct (m_point_id f <? num_points)%nat eqn:Hb; [| discriminate].
    apply Nat.ltb_lt. exact Hb. }
  destruct dem as [d |].
  - match goal with
    | |- context [heights_from_dem_fixup d cnet num_point_params ?i ?p ?pts] =>
        pose proof (heights_fixup_blocks d cnet num_point_params i p pts) as Hb;
        pose proof (heights_fixup_constant d cnet num_point_params i p pts) as Hc;
        pose proof (heights_fixup_points d cnet num_point_params i p pts) as Hp;
        pose proof (heights_fixup_fixes d cnet num_point_params i p pts) as Hf;
        destruct (heights_from_dem_fixup d cnet num_point_params i p pts)
          as [p2 pts2]
    end.
    cbn [fst snd] in Hb, Hc, Hp, Hf.
    intros H. injection H as <- <- <-.
    rewrite Hb, Hblock, Hp. cbv zeta.
    repeat split; try (rewrite Nat.add_1_r; reflexivity); auto;
      try (eapply keeps_constant_trans; [apply Hconst | exact Hc]);
      try (intros d' Hd Hg; exact (Hf Hg)); eauto.
  - intros H. injection H as <- <- <-. rewrite Hblock.
    repeat split; try (rewrite Nat.add_1_r; reflexivity); auto;
      try discriminate; eauto.
Qed.

Lemma feature_blocks_cons icam f cam :
  feature_blocks icam (f :: cam)
  = feature_blocks icam [f] ++ feature_blocks icam cam.
Proof.
  unfold feature_blocks. cbn [List.filter].
  destruct (not_outlier f); reflexivity.
Qed.

Lemma feature_blocks_length icam cam :
  length (feature_blocks icam cam) = length (List.filter not_outlier cam).
Proof. unfold feature_blocks. apply length_map. Qed.

(** The loop over the observations of one camera. *)
Lemma reprojection_features_spec icam cam :
  forall problem points count problem' points' count',
  foldM (body icam) cam (problem, points, count)
  = Ok (problem', points', count') ->
  residual_blocks problem' = residual_blocks problem ++ feature_blocks icam cam
  /\ count' = (count + length (List.filter not_outlier cam))%nat
  /\ keeps_constant problem problem'
  /\ points' = fold_left points_after_visit cam points
  /\ (forall f, f ∈ cam -> is_outlier O (m_point_id f) = false ->
      visited problem' f).
Proof.
  induction cam as [| f cam IH]; intros problem points count problem' points'
    count'; cbn [foldM].
  - intros H. injection H as <- <- <-. unfold feature_blocks. cbn.
    rewrite app_nil_r, Nat.add_0_r. repeat split; auto with constant;
      apply elem_of_nil in H; destruct H.
  - match goal with
    | |- context [mbind _ ?r] => destruct r as [[[p1 pts1] c1] | e] eqn:Hf
    end; cbn [mbind result_bind]; [| discriminate].
    intros Hrest. apply reprojection_body_spec in Hf
      as (Hb1 & Hc1 & Hk1 & Hp1 & Hv1).
    apply IH in Hrest as (Hb2 & Hc2 & Hk2 & Hp2 & Hv2).
    rewrite feature_blocks_cons, Hb2, Hb1, <- app_assoc.
    split; [reflexivity |]. split.
    { rewrite Hc2, Hc1, feature_blocks_length. cbn [List.filter].
      destruct (not_outlier f); cbn [length]; lia. }
    split. { eapply keeps_constant_trans; eassumption. }
    split. { cbn [fold_left]. rewrite Hp2, Hp1. reflexivity. }
    intros g Hg Hog. apply elem_of_cons in Hg as [-> | Hg].
    + eapply visited_keeps; [exact Hk2 | exact (Hv1 Hog)].
    + exact (Hv2 g Hg Hog).
Qed.

Local Abbreviation camera_body :=
  (reprojection_camera pow ba_model opt cnet O num_point_params num_cameras
     num_points dem count_map).

(** The loop over the cameras. *)
Lemma reprojection_cameras_spec crn :
  forall icam problem points counts problem' points' counts',
  for_cameras camera_body icam crn (problem, points, counts)
  = Ok (problem', points', counts') ->
  residual_blocks problem'
  = residual_blocks problem ++ camera_major_blocks icam crn
  /\ counts'
     = counts ++ map (fun cam => length (List.filter not_outlier cam)) crn
  /\ keeps_constant problem problem'
  /\ points' = fold_left points_after_visit (concat crn) points
  /\ (forall f, f ∈ concat crn -> is_outlier O (m_point_id f) = false ->
      visited problem' f).
Proof.
  induction crn as [| cam crn IH]; intros icam problem points counts problem'
    points' counts'; cbn [for_cameras].
  - intros H. injection H as <- <- <-. cbn. rewrite !app_nil_r.
    repeat split; auto with constant; apply elem_of_nil in H; destruct H.
  - match goal with
    | |- context [mbind _ ?r] => destruct r as [[[p1 pts1] cs1] | e] eqn:Hcam
    end; cbn [mbind result_bind]; [| discriminate].
    intros Hrest. unfold reprojection_camera in Hcam.
    match type of Hcam with
    | context [mbind _ ?r] => destruct r as [[[p0 pts0] c0] | e] eqn:Hfeat
    end; cbn [mbind result_bind] in Hcam; [| discriminate].
    injection Hcam as <- <- <-.
    apply reprojection_features_spec in Hfeat as (Hb1 & Hc1 & Hk1 & Hp1 & Hv1).
    apply IH in Hrest as (Hb2 & Hc2 & Hk2 & Hp2 & Hv2).
    cbn [camera_major_blocks map concat].
    rewrite Hb2, Hb1, <- app_assoc. split; [reflexivity |]. split.
    { rewrite Hc2, Hc1, <- app_assoc. reflexivity. }
    split. { eapply keeps_constant_trans; eassumption. }
    split. { rewrite fold_left_app, Hp2, Hp1. reflexivity. }
    intros g Hg Hog. apply elem_of_app in Hg as [Hg | Hg].
    + eapply visited_keeps; [exact Hk2 | exact (Hv1 g Hg Hog)].
    + exact (Hv2 g Hg Hog).
Qed.

End ReprojectionBlocks.

Section OtherBlocks.

Variable opt : Options.
Variable cnet : ControlNetwork.
Variable O : gset nat.

(** The anchor of a GCP. *)
Definition gcp_block (ipt : nat) : ResidualBlock :=
  {| rb_cost :=
       if negb (use_llh_error opt) then
         XYZError (cnet_position cnet ipt) (cnet_sigma cnet ipt)
       else
         let '(s0, s1, s2) := cnet_sigma cnet ipt in
         LLHError (cnet_position cnet ipt) (s1, s0, s2);
     rb_loss := TrivialLoss;
     rb_params := [PointBlock ipt] |}.

Definition anchored (ipt : nat) : bool :=
  is_gcp cnet ipt && negb (is_outlier O ipt).

(** The anchors: one for each GCP that is not an outlier, by index. *)
Definition gcp_blocks (num_points : nat) : list ResidualBlock :=
  map gcp_block (List.filter anchored (seq 0 num_points)).

Lemma gcp_block_kind ipt : block_kind (gcp_block ipt) = KGcp.
Proof.
  unfold gcp_block, block_kind. cbn [rb_cost].
  destruct (negb (use_llh_error opt)); [reflexivity |].
  destruct (cnet_sigma cnet ipt) as [[s0 s1] s2]. reflexivity.
Qed.

Lemma gcp_block_size ipt : num_residuals (gcp_block ipt) = point_params_n.
Proof.
  unfold gcp_block, num_residuals. cbn [rb_cost].
  destruct (negb (use_llh_error opt)); [reflexivity |].
  destruct (cnet_sigma cnet ipt) as [[s0 s1] s2]. reflexivity.
Qed.

(** One step of the loop over the points. *)
Lemma gcp_body_step problem n ipt :
  gcp_body opt cnet O (problem, n) ipt
  = if anchored ipt then
      (let p := AddResidualBlock (rb_cost (gcp_block ipt)) TrivialLoss
                  [PointBlock ipt] problem in
       if fix_gcp_xyz opt then SetParameterBlockConstant (PointBlock ipt) p
       else p,
       S n)
    else (problem, n).
Proof.
  unfold gcp_body, anchored, gcp_block. cbn [rb_cost].
  destruct (is_gcp cnet ipt); cbn [negb andb]; [| reflexivity].
  destruct (is_outlier O ipt); reflexivity.
Qed.

Lemma gcp_body_spec (l : list nat) :
  forall problem n,
  let r := fold_left (gcp_body opt cnet O) l (problem, n) in
  residual_blocks (fst r)
  = residual_blocks problem ++ map gcp_block (List.filter anchored l)
  /\ snd r = (n + length (List.filter anchored l))%nat
  /\ keeps_constant problem (fst r).
Proof.
  induction l as [| ipt l IH]; intros problem n; cbv zeta; cbn [fold_left].
  - cbn. rewrite app_nil_r, Nat.add_0_r. auto with constant.
  - rewrite gcp_body_step. cbn [List.filter].
    destruct (anchored ipt); [| apply IH].
    match goal with
    | |- context [fold_left _ l (?p, S n)] =>
        specialize (IH p (S n)); cbv zeta in IH;
        destruct IH as (Hb & Hn & Hk);
        assert (Hp : residual_blocks p
                     = residual_blocks problem ++ [gcp_block ipt]
                     /\ keeps_constant problem p)
    end.
    { cbv zeta. destruct (fix_gcp_xyz opt).
      - split; [reflexivity |].
        eapply keeps_constant_trans;
          [apply keeps_constant_add | apply keeps_constant_set].
      - split; [reflexivity | auto with constant]. }
    destruct Hp as [Hp1 Hp2]. split; [| split].
    + rewrite Hb, Hp1. cbn [map]. rewrite <- app_assoc. reflexivity.
    + rewrite Hn. cbn [length]. lia.
    + eapply keeps_constant_trans; eassumption.
Qed.

(** A loop that adds one block for each camera. *)
Lemma add_blocks_per_camera (mk : nat -> CostFunction) (l : list nat) :
  forall problem,
  let p' :=
    fold_left
      (fun problem icam =>
         AddResidualBlock (mk icam) TrivialLoss [CameraBlock icam] problem)
      l problem in
  residual_blocks p'
  = residual_blocks problem
      ++ map (fun icam => {| rb_cost := mk icam; rb_loss := TrivialLoss;
                             rb_params := [CameraBlock icam] |}) l
  /\ constant_blocks p' = constant_blocks problem.
Proof.
  induction l as [| icam l IH]; intros problem; cbv zeta; cbn [fold_left map].
  - rewrite app_nil_r. auto.
  - specialize (IH (AddResidualBlock (mk icam) TrivialLoss [CameraBlock icam]
                      problem)).
    cbv zeta in IH. destruct IH as [Hb Hc]. rewrite Hb, Hc.
    rewrite residual_blocks_add, <- app_assoc. auto.
Qed.

Variable num_camera_params : nat.
Variable num_cameras : nat.
Variable orig_cameras_vec : list double.

(** The camera priors: one for each camera when the weight is positive. *)
Definition camera_prior_blocks : list ResidualBlock :=
  if dgt (camera_weight opt) 0%float then
    map (fun icam =>
           {| rb_cost :=
                CamError (orig_cam num_camera_params orig_cameras_vec icam)
                  (camera_weight opt);
              rb_loss := TrivialLoss;
              rb_params := [CameraBlock icam] |})
      (seq 0 num_cameras)
  else [].

(** The priors on rotation and translation: one for each camera when one
    of the two weights is positive. *)
Definition rot_trans_blocks : list ResidualBlock :=
  if dgt (rotation_weight opt) 0%float || dgt (translation_weight opt) 0%float
  then
    map (fun icam =>
           {| rb_cost :=
                RotTransError
                  (orig_cam num_camera_params orig_cameras_vec icam)
                  (rotation_weight opt) (translation_weight opt);
              rb_loss := TrivialLoss;
              rb_params := [CameraBlock icam] |})
      (seq 0 num_cameras)
  else [].

Lemma camera_prior_spec problem :
  let p' := add_camera_prior_blocks opt num_camera_params num_cameras
              orig_cameras_vec problem in
  residual_blocks p' = residual_blocks problem ++ camera_prior_blocks
  /\ constant_blocks p' = constant_blocks problem.
Proof.
  cbv zeta. unfold add_camera_prior_blocks, camera_prior_blocks.
  destruct (dgt (camera_weight opt) 0%float).
  - apply (add_blocks_per_camera
             (fun icam => CamError
                (orig_cam num_camera_params orig_cameras_vec icam)
                (camera_weight opt))).
  - rewrite app_nil_r. auto.
Qed.

Lemma rot_trans_spec problem :
  let p' := add_rot_trans_blocks opt num_camera_params num_cameras
              orig_cameras_vec problem in
  residual_blocks p' = residual_blocks problem ++ rot_trans_blocks
  /\ constant_blocks p' = constant_blocks problem.
Proof.
  cbv zeta. unfold add_rot_trans_blocks, rot_trans_blocks.
  destruct (dgt (rotation_weight opt) 0%float
            || dgt (translation_weight opt) 0%float).
  - apply (add_blocks_per_camera
             (fun icam => RotTransError
                (orig_cam num_camera_params orig_cameras_vec icam)
                (rotation_weight opt) (translation_weight opt))).
  - rewrite app_nil_r. auto.
Qed.

Lemma orig_cam_length icam :
  length (orig_cam num_camera_params orig_cameras_vec icam) = num_camera_params.
Proof. unfold orig_cam. rewrite length_map, length_seq. reflexivity. Qed.

End OtherBlocks.

Section TerrainBlocks.

Variable env : TerrainEnv.
Variable opt : Options.
Variable num_cameras : nat.
Variable cameras : list double.
Variable intrinsics : list double.

(** What the loops over the reference terrain do to the problem and to
    [reference_vec]: they add disparity-terrain blocks at the end, and as
    many points. *)
Definition terrain_extends (p : Problem) (refs : list Vector3) (p' : Problem)
  (refs' : list Vector3) : Prop :=
  exists tb,
    residual_blocks p' = residual_blocks p ++ tb
    /\ Forall (fun b => block_kind b = KDispTerrain) tb
    /\ length refs' = (length refs + length tb)%nat
    /\ exists ib,
         constant_blocks p' = ib ++ constant_blocks p
         /\ forall b, b ∈ ib <->
              tb <> []
              /\ exists offset,
                   b = IntrinsicsBlock offset
                   /\ offset ∈ terrain_constant_intrinsics env
                                (intrinsics_to_float opt).

Lemma terrain_extends_refl p refs : terrain_extends p refs p refs.
Proof.
  exists []. rewrite app_nil_r. cbn. rewrite Nat.add_0_r.
  repeat split; auto. exists []. split; [reflexivity |].
  intros b. split.
  - intros Hb. apply elem_of_nil in Hb. destruct Hb.
  - intros [Hn _]. destruct Hn. reflexivity.
Qed.

Lemma set_constant_intrinsics_spec (offsets : list nat) :
  forall problem,
  let p' := fold_left
              (fun problem offset =>
                 SetParameterBlockConstant (IntrinsicsBlock offset) problem)
              offsets problem in
  residual_blocks p' = residual_blocks problem
  /\ constant_blocks p'
     = rev (map IntrinsicsBlock offsets) ++ constant_blocks problem.
Proof.
  induction offsets as [| offset offsets IH]; intros problem; cbn [fold_left].
  - split; reflexivity.
  - cbv zeta in IH |- *.
    destruct (IH (SetParameterBlockConstant (IntrinsicsBlock offset) problem))
      as [Hb Hc].
    rewrite Hb, Hc. split; [reflexivity |].
    cbn [map rev]. rewrite <- app_assoc. reflexivity.
Qed.

Lemma terrain_extends_trans p1 r1 p2 r2 p3 r3 :
  terrain_extends p1 r1 p2 r2 -> terrain_extends p2 r2 p3 r3 ->
  terrain_extends p1 r1 p3 r3.
Proof.
  intros (tb1 & Hb1 & Hk1 & Hl1 & ib1 & Hc1 & Hi1)
         (tb2 & Hb2 & Hk2 & Hl2 & ib2 & Hc2 & Hi2).
  exists (tb1 ++ tb2). rewrite Hb2, Hb1, <- app_assoc. split; [reflexivity |].
  split; [apply Forall_app; auto |]. split.
  - rewrite Hl2, Hl1, length_app. lia.
  - exists (ib2 ++ ib1). rewrite Hc2, Hc1, <- app_assoc.
    split; [reflexivity |].
    intros b. rewrite elem_of_app, Hi1, Hi2. split.
    + intros [[Hn H] | [Hn H]]; (split; [| exact H]); intros Happ;
        apply app_eq_nil in Happ as [? ?]; contradiction.
    + intros [Hn H]. destruct tb2 as [| b2 tb2].
      * right. split; [| exact H]. rewrite app_nil_r in Hn. exact Hn.
      * left. split; [discriminate | exact H].
Qed.

Lemma terrain_camera_body_spec reference_xyz good_point left_pred p refs icam
  good_point' left_pred' p' refs' :
  terrain_camera_body env opt cameras intrinsics reference_xyz
    (good_point, left_pred, p, refs) icam
  = Ok (good_point', left_pred', p', refs') ->
  terrain_extends p refs p' refs'.
Proof.
  unfold terrain_camera_body. cbv zeta.
  repeat match goal with
         | |- context [if ?c then _ else _] => destruct c
         | |- context [match ?c with Some _ => _ | None => _ end] => destruct c
         | |- Ok _ = Ok _ -> _ =>
             let H := fresh in
             intros H; injection H as <- <- <- <-; apply terrain_extends_refl
         | |- Throw _ = Ok _ -> _ => discriminate
         end.
  all: match goal with
       | |- context [mbind _ ?r] => destruct r as [loss | e]
       end; cbn [mbind result_bind]; [| discriminate].
  all: intros H; injection H as <- <- <- <-.
  all: unfold add_residual_block_terrain.
  all: match goal with
       | |- context [fold_left ?f ?l ?q] =>
           destruct (set_constant_intrinsics_spec l q) as [Hb Hc]
       end.
  all: exists [{| rb_cost := BaDispXyzError reference_xyz (icam - 1) icam;
                  rb_loss := loss;
                  rb_params := terrain_parameter_blocks env (icam - 1) icam |}].
  all: split; [rewrite Hb; reflexivity |].
  all: split; [repeat constructor |].
  all: split; [rewrite length_app; reflexivity |].
  all: eexists; split; [rewrite Hc; reflexivity |].
  all: intros b; rewrite list_elem_of_In, <- in_rev, <- list_elem_of_In,
         list_elem_of_fmap; split.
  all: try (intros (offset & -> & Ho); split; [discriminate |];
            exists offset; split; [reflexivity | exact Ho]).
  all: intros (_ & offset & -> & Ho); exists offset; split;
         [reflexivity | exact Ho].
Qed.

Lemma terrain_cameras_spec reference_xyz (l : list nat) :
  forall good_point left_pred p refs good_point' left_pred' p' refs',
  foldM (terrain_camera_body env opt cameras intrinsics reference_xyz) l
    (good_point, left_pred, p, refs)
  = Ok (good_point', left_pred', p', refs') ->
  terrain_extends p refs p' refs'.
Proof.
  induction l as [| icam l IH]; intros g lp p refs g' lp' p' refs';
    cbn [foldM].
  - intros H. injection H as <- <- <- <-. apply terrain_extends_refl.
  - match goal with
    | |- context [mbind _ ?r] => destruct r as [[[[g1 lp1] p1] r1] | e] eqn:H1
    end; cbn [mbind result_bind]; [| discriminate].
    intros H2. apply terrain_camera_body_spec in H1. apply IH in H2.
    eapply terrain_extends_trans; eassumption.
Qed.

Lemma terrain_points_spec (data : list Vector3) :
  forall p refs p' refs',
  foldM (terrain_point_body env opt num_cameras cameras intrinsics) data
    (p, refs) = Ok (p', refs') ->
  terrain_extends p refs p' refs'.
Proof.
  induction data as [| xyz data IH]; intros p refs p' refs'; cbn [foldM].
  - intros H. injection H as <- <-. apply terrain_extends_refl.
  - match goal with
    | |- context [mbind _ ?r] => destruct r as [[p1 r1] | e] eqn:H1
    end; cbn [mbind result_bind]; [| discriminate].
    intros H2. apply IH in H2.
    eapply terrain_extends_trans; [| exact H2].
    unfold terrain_point_body in H1.
    destruct (lon_lat_limit_is_set env
              && negb (lon_lat_limit_contains env xyz)).
    + injection H1 as <- <-. apply terrain_extends_refl.
    + match type of H1 with
      | context [mbind _ ?r] =>
          destruct r as [[[[g2 lp2] p2] r2] | e] eqn:H3
      end; cbn [mbind result_bind] in H1; [| discriminate].
      injection H1 as <- <-. apply terrain_cameras_spec in H3. exact H3.
Qed.

Lemma add_reference_terrain_blocks_spec p p' refs' :
  add_reference_terrain_blocks env opt num_cameras cameras intrinsics p
  = Ok (p', refs') ->
  terrain_extends p [] p' refs'.
Proof.
  unfold add_reference_terrain_blocks.
  repeat match goal with
         | |- context [if ?c then _ else _] => destruct c
         | |- Throw _ = Ok _ -> _ => discriminate
         end.
  - apply terrain_points_spec.
  - intros H. injection H as <- <-. apply terrain_extends_refl.
Qed.

End TerrainBlocks.

Lemma terrain_block_size b :
  block_kind b = KDispTerrain -> num_residuals b = PIXEL_SIZE.
Proof.
  unfold block_kind, num_residuals. destruct (rb_cost b); try discriminate.
  reflexivity.
Qed.

Section GraphSpec.

Variable libs : Libraries.
Variable ba_model : BAModel.
Variable opt : Options.
Variable cnet : ControlNetwork.
Variable crn : CameraRelationNetwork.
Variable num_camera_params : nat.
Variable num_point_params : nat.
Variable num_cameras : nat.
Variable num_points : nat.

(** The DEM of a pass that builds its graph: the one loaded for
    --heights-from-dem, if the option is given. *)
Definition dem_of_options : option Dem :=
  if non_empty (heights_from_dem opt) then
    match create_interp_dem libs (heights_from_dem opt) with
    | Ok dem => Some dem
    | Throw _ => None
    end
  else None.

(** The reprojection blocks of the graph. *)
Definition reprojection_blocks (O : gset nat) : list ResidualBlock :=
  camera_major_blocks (pow libs) ba_model opt O (build_count_map opt O crn)
    0 crn.

(** The graph a pass builds, stage by stage. *)
Lemma build_graph_spec orig_cameras_vec cameras intrinsics points O g :
  build_graph libs ba_model opt cnet crn num_camera_params num_point_params
    num_cameras num_points orig_cameras_vec cameras intrinsics points O
  = Ok g ->
  num_cameras = length crn
  /\ (exists terrain,
        residual_blocks (g_problem g)
        = reprojection_blocks O
            ++ gcp_blocks opt cnet O num_points
            ++ camera_prior_blocks opt num_camera_params num_cameras
                 orig_cameras_vec
            ++ rot_trans_blocks opt num_camera_params num_cameras
                 orig_cameras_vec
            ++ terrain
        /\ Forall (fun b => block_kind b = KDispTerrain) terrain
        /\ length (g_reference_vec g) = length terrain)
  /\ g_cam_residual_counts g
     = map (fun cam => length (List.filter (not_outlier O) cam)) crn
  /\ g_num_gcp_residuals g = length (gcp_blocks opt cnet O num_points)
  /\ g_points g
     = fold_left (points_after_visit cnet O num_point_params dem_of_options)
         (concat crn) points
  /\ (forall f, f ∈ concat crn -> is_outlier O (m_point_id f) = false ->
      visited opt cnet num_points dem_of_options (g_problem g) f).
Proof.
  unfold build_graph, dem_of_options.
  destruct (num_cameras =? length crn)%nat eqn:Hn; cbn [negb];
    [| discriminate].
  apply Nat.eqb_eq in Hn.
  set (dem_r := if non_empty (heights_from_dem opt)
                then dem ← create_interp_dem libs (heights_from_dem opt);
                     Ok (Some dem)
                else Ok None).
  assert (Hdem : forall dem, dem_r = Ok dem ->
            dem = if non_empty (heights_from_dem opt) then
                    match create_interp_dem libs (heights_from_dem opt) with
                    | Ok dem => Some dem
                    | Throw _ => None
                    end
                  else None).
  { subst dem_r. intros dem. destruct (non_empty (heights_from_dem opt)).
    - destruct (create_interp_dem libs (heights_from_dem opt));
        cbn [mbind result_bind]; [| discriminate].
      intros H. injection H as <-. reflexivity.
    - intros H. injection H as <-. reflexivity. }
  destruct dem_r as [dem | e]; cbn [mbind result_bind]; [| discriminate].
  specialize (Hdem dem eq_refl). rewrite <- Hdem. clear Hdem.
  unfold add_reprojection_blocks.
  match goal with
  | |- context [mbind _ ?r] => destruct r as [[[p1 pts1] cs1] | e] eqn:H1
  end; cbn [mbind result_bind]; [| discriminate].
  apply reprojection_cameras_spec in H1 as (Hb1 & Hc1 & Hk1 & Hp1 & Hv1).
  pose proof (gcp_body_spec opt cnet O (seq 0 num_points) p1 0%nat) as Hgcp.
  cbv zeta in Hgcp. unfold add_gcp_blocks.
  destruct (fold_left (gcp_body opt cnet O) (seq 0 num_points) (p1, 0%nat))
    as [p2 ngcp].
  cbn [fst snd] in Hgcp. destruct Hgcp as (Hb2 & Hn2 & Hk2).
  pose proof (camera_prior_spec opt num_camera_params num_cameras
                orig_cameras_vec p2) as Hcam.
  cbv zeta in Hcam. destruct Hcam as [Hb3 Hc3].
  pose proof (rot_trans_spec opt num_camera_params num_cameras
                orig_cameras_vec
                (add_camera_prior_blocks opt num_camera_params num_cameras
                   orig_cameras_vec p2)) as Hrot.
  cbv zeta in Hrot. destruct Hrot as [Hb4 Hc4].
  match goal with
  | |- context [mbind _ ?r] => destruct r as [[p5 refs] | e] eqn:H5
  end; cbn [mbind result_bind]; [| discriminate].
  apply add_reference_terrain_blocks_spec in H5
    as (terrain & Hb5 & Hk5 & Hl5 & ib5 & Hc5 & _).
  intros H. injection H as <-.
  cbn [g_problem g_points g_cam_residual_counts g_num_gcp_residuals
       g_reference_vec].
  split; [exact Hn |]. split.
  { exists terrain. split; [| split; [exact Hk5 | exact Hl5]].
    rewrite Hb5, Hb4, Hb3, Hb2, Hb1. cbn [residual_blocks empty_problem].
    unfold reprojection_blocks, gcp_blocks.
    rewrite <- !app_assoc. reflexivity. }
  split; [exact Hc1 |]. split.
  { rewrite Hn2. unfold gcp_blocks. rewrite length_map. reflexivity. }
  split; [exact Hp1 |].
  intros f Hf Ho. eapply visited_keeps; [| exact (Hv1 f Hf Ho)].
  intros b Hb. rewrite Hc5, Hc4, Hc3. apply elem_of_app. right.
  apply Hk2. exact Hb.
Qed.

End GraphSpec.

(* ================================================================= *)
(** ** The order of the residuals *)

(** The residuals of a sequence of blocks. *)
Definition eval_blocks (ceres : Ceres) (apply_loss_function : bool)
  (st : SolverState) (blocks : list ResidualBlock) : list double :=
  concat (map (block_residuals ceres apply_loss_function st) blocks).

Lemma eval_blocks_app ceres a st l1 l2 :
  eval_blocks ceres a st (l1 ++ l2)
  = eval_blocks ceres a st l1 ++ eval_blocks ceres a st l2.
Proof. unfold eval_blocks. rewrite map_app, concat_app. reflexivity. Qed.

Lemma feature_blocks_kind pow ba_model opt O cm icam cam :
  Forall (fun b => block_kind b = KReprojection)
    (feature_blocks pow ba_model opt O cm icam cam).
Proof.
  unfold feature_blocks. apply Forall_map. apply Forall_forall.
  intros f _. apply reprojection_block_kind.
Qed.

Lemma camera_major_blocks_kind pow ba_model opt O cm crn :
  forall icam,
  Forall (fun b => block_kind b = KReprojection)
    (camera_major_blocks pow ba_model opt O cm icam crn).
Proof.
  induction crn as [| cam crn IH]; intros icam; cbn [camera_major_blocks].
  - constructor.
  - apply Forall_app. split; [apply feature_blocks_kind | apply IH].
Qed.

Lemma gcp_blocks_kind opt cnet O num_points :
  Forall (fun b => block_kind b = KGcp) (gcp_blocks opt cnet O num_points).
Proof.
  unfold gcp_blocks. apply Forall_map. apply Forall_forall.
  intros ipt _. apply gcp_block_kind.
Qed.

Lemma camera_prior_blocks_kind opt ncp nc orig :
  Forall (fun b => block_kind b = KCameraPrior)
    (camera_prior_blocks opt ncp nc orig).
Proof.
  unfold camera_prior_blocks. destruct (dgt (camera_weight opt) 0%float).
  - apply Forall_map. apply Forall_forall. reflexivity.
  - constructor.
Qed.

Lemma rot_trans_blocks_kind opt ncp nc orig :
  Forall (fun b => block_kind b = KRotTransPrior)
    (rot_trans_blocks opt ncp nc orig).
Proof.
  unfold rot_trans_blocks.
  destruct (dgt (rotation_weight opt) 0%float
            || dgt (translation_weight opt) 0%float).
  - apply Forall_map. apply Forall_forall. reflexivity.
  - constructor.
Qed.

(** C4. The residual vector of an evaluation of the problem of a pass
    follows the order in which the blocks were added: the reprojection
    blocks, camera by camera and observation by observation within a
    camera; then the GCP anchors; then the camera priors, present when
    [camera_weight > 0]; then the rotation and translation priors, present
    when one of their weights is positive; then the disparity-terrain
    blocks. *)
Theorem residuals_follow_block_order (libs : Libraries) (ba_model : BAModel)
  (opt : Options) (cnet : ControlNetwork) (crn : CameraRelationNetwork)
  (num_camera_params num_point_params num_cameras num_points : nat)
  (orig_cameras_vec cameras intrinsics points : list double) (O : gset nat)
  (g : Graph) :
  build_graph libs ba_model opt cnet crn num_camera_params num_point_params
    num_cameras num_points orig_cameras_vec cameras intrinsics points O
  = Ok g ->
  let reprojection := reprojection_blocks libs ba_model opt crn O in
  let gcp := gcp_blocks opt cnet O num_points in
  let priors :=
    camera_prior_blocks opt num_camera_params num_cameras orig_cameras_vec in
  let rot_trans :=
    rot_trans_blocks opt num_camera_params num_cameras orig_cameras_vec in
  exists terrain,
    residual_blocks (g_problem g)
    = reprojection ++ gcp ++ priors ++ rot_trans ++ terrain
    /\ (forall apply_loss_function st,
          Evaluate (ceres_lib libs) apply_loss_function (g_problem g) st
          = eval_blocks (ceres_lib libs) apply_loss_function st reprojection
            ++ eval_blocks (ceres_lib libs) apply_loss_function st gcp
            ++ eval_blocks (ceres_lib libs) apply_loss_function st priors
            ++ eval_blocks (ceres_lib libs) apply_loss_function st rot_trans
            ++ eval_blocks (ceres_lib libs) apply_loss_function st terrain)
    /\ Forall (fun b => block_kind b = KReprojection) reprojection
    /\ Forall (fun b => block_kind b = KGcp) gcp
    /\ Forall (fun b => block_kind b = KCameraPrior) priors
    /\ Forall (fun b => block_kind b = KRotTransPrior) rot_trans
    /\ Forall (fun b => block_kind b = KDispTerrain) terrain
    /\ (priors <> [] -> dgt (camera_weight opt) 0%float = true)
    /\ (rot_trans <> [] ->
        dgt (rotation_weight opt) 0%float
        || dgt (translation_weight opt) 0%float = true).
Proof.
  intros Hg. cbv zeta.
  apply build_graph_spec in Hg as (_ & (terrain & Hb & Hk & _) & _).
  exists terrain. split; [exact Hb |]. split.
  { intros a st. unfold Evaluate. rewrite Hb.
    change (concat (map (block_residuals (ceres_lib libs) a st) ?l))
      with (eval_blocks (ceres_lib libs) a st l).
    rewrite !eval_blocks_app. reflexivity. }
  split; [apply camera_major_blocks_kind |].
  split; [apply gcp_blocks_kind |].
  split; [apply camera_prior_blocks_kind |].
  split; [apply rot_trans_blocks_kind |].
  split; [exact Hk |]. split.
  - unfold camera_prior_blocks.
    destruct (dgt (camera_weight opt) 0%float); [reflexivity | congruence].
  - unfold rot_trans_blocks.
    destruct (dgt (rotation_weight opt) 0%float
              || dgt (translation_weight opt) 0%float);
      [reflexivity | congruence].
Qed.

(** The graph of the network of two cameras and one point, with the
    default options: two reprojection blocks and two camera priors. *)
Definition one_point_graph : Graph :=
  Eval vm_compute in
    match build_graph (constant_libs 0%float) generic_model default_options
            one_point_cnet one_point_crn camera_params_n point_params_n 2 1
            (replicate 12 0%float) (replicate 12 0%float) []
            (points_of_cnet one_point_cnet 3) ∅ with
    | Ok g => g
    | Throw _ =>
        {| g_problem := empty_problem; g_points := [];
           g_cam_residual_counts := []; g_num_gcp_residuals := 0;
           g_reference_vec := [] |}
    end.

Lemma one_point_graph_built :
  build_graph (constant_libs 0%float) generic_model default_options
    one_point_cnet one_point_crn camera_params_n point_params_n 2 1
    (replicate 12 0%float) (replicate 12 0%float) []
    (points_of_cnet one_point_cnet 3) ∅
  = Ok one_point_graph.
Proof. vm_compute. reflexivity. Qed.

Lemma residuals_follow_block_order_witness :
  exists terrain,
    residual_blocks (g_problem one_point_graph)
    = reprojection_blocks (constant_libs 0%float) generic_model
        default_options one_point_crn ∅
      ++ gcp_blocks default_options one_point_cnet ∅ 1
      ++ camera_prior_blocks default_options camera_params_n 2
           (replicate 12 0%float)
      ++ rot_trans_blocks default_options camera_params_n 2
           (replicate 12 0%float)
      ++ terrain.
Proof.
  destruct (residuals_follow_block_order (constant_libs 0%float) generic_model
              default_options one_point_cnet one_point_crn camera_params_n
              point_params_n 2 1 (replicate 12 0%float) (replicate 12 0%float)
              [] (points_of_cnet one_point_cnet 3) ∅ one_point_graph
              one_point_graph_built) as (terrain & Hb & _).
  exists terrain. exact Hb.
Defined.

(* ================================================================= *)
(** ** The number of residuals *)

Lemma eval_blocks_length ceres a st (size : nat) blocks :
  (forall b, length (block_residuals ceres a st b) = num_residuals b) ->
  Forall (fun b => num_residuals b = size) blocks ->
  length (eval_blocks ceres a st blocks) = (length blocks * size)%nat.
Proof.
  intros Hsize Hall. unfold eval_blocks.
  induction Hall as [| b blocks Hb _ IH]; cbn [map concat length];
    [reflexivity |].
  rewrite length_app, IH, Hsize, Hb. lia.
Qed.

Lemma camera_major_blocks_length pow ba_model opt O cm crn :
  forall icam,
  length (camera_major_blocks pow ba_model opt O cm icam crn)
  = list_sum (map (fun cam => length (List.filter (not_outlier O) cam)) crn).
Proof.
  induction crn as [| cam crn IH]; intros icam;
    cbn [camera_major_blocks map list_sum fold_right]; [reflexivity |].
  rewrite length_app, feature_blocks_length, IH. reflexivity.
Qed.

Lemma fold_left_ext_on {A B : Type} (f g : A -> B -> A) (l : list B) :
  (forall a x, In x l -> f a x = g a x) ->
  forall a, fold_left f l a = fold_left g l a.
Proof.
  induction l as [| x l IH]; intros Hext a; cbn [fold_left]; [reflexivity |].
  rewrite (Hext a x (or_introl eq_refl)). apply IH.
  intros a' y Hy. apply Hext. right. exact Hy.
Qed.

(** The loop that sums the counts of the cameras. *)
Lemma sum_counts_fold (counts : list nat) :
  forall (n : nat),
  fold_left (fun n i => (n + get_n counts i * PIXEL_SIZE)%nat)
    (seq 0 (length counts)) n
  = (n + list_sum counts * PIXEL_SIZE)%nat.
Proof.
  induction counts as [| c counts IH] using rev_ind; intros n.
  - cbn. lia.
  - rewrite length_app. cbn [length]. rewrite Nat.add_1_r, seq_S,
      fold_left_app. cbn [fold_left Nat.add].
    assert (Hpre :
      fold_left (fun n i => (n + get_n (counts ++ [c]) i * PIXEL_SIZE)%nat)
        (seq 0 (length counts)) n
      = fold_left (fun n i => (n + get_n counts i * PIXEL_SIZE)%nat)
          (seq 0 (length counts)) n).
    { apply fold_left_ext_on. intros m i Hi. apply in_seq in Hi.
      unfold get_n. rewrite lookup_app_l by lia. reflexivity. }
    rewrite Hpre, IH. unfold get_n.
    rewrite list_lookup_middle by reflexivity.
    rewrite list_sum_app. cbn [list_sum fold_right]. lia.
Qed.

(** The number the driver expects, in closed form. *)
Lemma num_expected_residuals_closed opt num_cameras ncp npp counts ngcp
  (refs : list Vector3) :
  length counts = num_cameras ->
  num_expected_residuals opt num_cameras ncp npp counts ngcp refs
  = (list_sum counts * 2 + ngcp * npp
     + (if dgt (camera_weight opt) 0%float then num_cameras * ncp else 0)
     + (if dgt (rotation_weight opt) 0%float
           || dgt (translation_weight opt) 0%float
        then num_cameras * ncp else 0)
     + length refs * 2)%nat.
Proof.
  intros <-. unfold num_expected_residuals. rewrite sum_counts_fold.
  unfold PIXEL_SIZE.
  destruct (dgt (camera_weight opt) 0%float),
    (dgt (rotation_weight opt) 0%float
     || dgt (translation_weight opt) 0%float); lia.
Qed.

Lemma reprojection_kind_size b :
  block_kind b = KReprojection -> num_residuals b = PIXEL_SIZE.
Proof.
  unfold block_kind, num_residuals. destruct (rb_cost b); try discriminate;
    reflexivity.
Qed.

Lemma gcp_kind_size b : block_kind b = KGcp -> num_residuals b = point_params_n.
Proof.
  unfold block_kind, num_residuals. destruct (rb_cost b); try discriminate;
    reflexivity.
Qed.

Lemma camera_prior_blocks_size opt ncp nc orig :
  Forall (fun b => num_residuals b = ncp) (camera_prior_blocks opt ncp nc orig)
  /\ length (camera_prior_blocks opt ncp nc orig)
     = if dgt (camera_weight opt) 0%float then nc else 0%nat.
Proof.
  unfold camera_prior_blocks. destruct (dgt (camera_weight opt) 0%float).
  - split.
    + apply Forall_map. apply Forall_forall. intros icam _.
      apply orig_cam_length.
    + rewrite length_map, length_seq. reflexivity.
  - split; [constructor | reflexivity].
Qed.

Lemma rot_trans_blocks_size opt ncp nc orig :
  Forall (fun b => num_residuals b = ncp) (rot_trans_blocks opt ncp nc orig)
  /\ length (rot_trans_blocks opt ncp nc orig)
     = if dgt (rotation_weight opt) 0%float
          || dgt (translation_weight opt) 0%float
       then nc else 0%nat.
Proof.
  unfold rot_trans_blocks.
  destruct (dgt (rotation_weight opt) 0%float
            || dgt (translation_weight opt) 0%float).
  - split.
    + apply Forall_map. apply Forall_forall. intros icam _.
      apply orig_cam_length.
    + rewrite length_map, length_seq. reflexivity.
  - split; [constructor | reflexivity].
Qed.


Lemma compute_residuals_ok ceres a opt nc ncp npp counts ngcp refs problem st :
  length (Evaluate ceres a problem st)
  = num_expected_residuals opt nc ncp npp counts ngcp refs ->
  compute_residuals ceres a opt nc ncp npp counts ngcp refs problem st
  = Ok (Evaluate ceres a problem st).
Proof.
  intros Heq. unfold compute_residuals. rewrite Heq, Nat.eqb_refl.
  reflexivity.
Qed.

(** The number of residuals of the graph of a pass. *)
Lemma graph_residuals_length libs ba_model opt cnet crn ncp nc np orig cameras
  intrinsics points O g a st :
  (forall a st b,
     length (block_residuals (ceres_lib libs) a st b) = num_residuals b) ->
  build_graph libs ba_model opt cnet crn ncp point_params_n nc np orig cameras
    intrinsics points O = Ok g ->
  length (g_cam_residual_counts g) = nc
  /\ length (Evaluate (ceres_lib libs) a (g_problem g) st)
     = (list_sum (g_cam_residual_counts g) * 2
        + g_num_gcp_residuals g * 3
        + (if dgt (camera_weight opt) 0%float then nc * ncp else 0)
        + (if dgt (rotation_weight opt) 0%float
              || dgt (translation_weight opt) 0%float
           then nc * ncp else 0)
        + length (g_reference_vec g) * 2)%nat.
Proof.
  intros Hsize Hg.
  apply build_graph_spec in Hg
    as (Hnc & (terrain & Hb & Hk & Hl) & Hc & Hn & _).
  split; [rewrite Hc, length_map; auto |].
  unfold Evaluate. rewrite Hb.
  change (concat (map (block_residuals (ceres_lib libs) a st) ?l))
    with (eval_blocks (ceres_lib libs) a st l).
  rewrite !eval_blocks_app, !length_app.
  rewrite (eval_blocks_length _ _ _ PIXEL_SIZE) by
    first [ apply Hsize
          | eapply Forall_impl;
            [apply camera_major_blocks_kind
            | intros b; apply reprojection_kind_size] ].
  rewrite (eval_blocks_length _ _ _ point_params_n) by
    first [ apply Hsize
          | eapply Forall_impl;
            [apply gcp_blocks_kind | intros b; apply gcp_kind_size] ].
  destruct (camera_prior_blocks_size opt ncp nc orig) as [Hps Hpl].
  destruct (rot_trans_blocks_size opt ncp nc orig) as [Hrs Hrl].
  rewrite (eval_blocks_length _ _ _ ncp _ (Hsize a st) Hps).
  rewrite (eval_blocks_length _ _ _ ncp _ (Hsize a st) Hrs).
  rewrite (eval_blocks_length _ _ _ PIXEL_SIZE) by
    first [ apply Hsize
          | eapply Forall_impl;
            [exact Hk | intros b; apply terrain_block_size] ].
  rewrite Hpl, Hrl, Hc, Hn, Hl. unfold reprojection_blocks.
  rewrite camera_major_blocks_length. unfold PIXEL_SIZE, point_params_n.
  destruct (dgt (camera_weight opt) 0%float),
    (dgt (rotation_weight opt) 0%float
     || dgt (translation_weight opt) 0%float); lia.
Qed.


Lemma constant_ceres_sizes v a st b :
  length (block_residuals (ceres_lib (constant_libs v)) a st b)
  = num_residuals b.
Proof. cbn. apply length_replicate. Qed.

Definition one_point_state : SolverState := {|
  st_cameras := replicate 12 0%float;
  st_intrinsics := [];
  st_points := points_of_cnet one_point_cnet 3;
  st_scaled_intrinsics := []
|}.


(* ================================================================= *)
(** ** An observation with a NaN sigma *)

Lemma lookup_map_Some {A B : Type} (h : A -> B) (l : list A) (i : nat) (x : A) :
  l !! i = Some x -> map h l !! i = Some (h x).
Proof.
  revert i. induction l as [| y l IH]; intros [| i] H; try discriminate.
  - injection H as ->. reflexivity.
  - cbn. apply IH. exact H.
Qed.

Lemma nan_check_nan (pixel_sigma : Vector2) :
  Vector2_ne pixel_sigma pixel_sigma = true ->
  nan_check pixel_sigma = (1%float, 1%float).
Proof. intros H. unfold nan_check. rewrite H. reflexivity. Qed.

Lemma feature_block_in_camera pow ba_model opt O cm icam cam f :
  f ∈ cam -> is_outlier O (m_point_id f) = false ->
  feature_block pow ba_model opt cm icam f
  ∈ feature_blocks pow ba_model opt O cm icam cam.
Proof.
  intros Hf Ho. unfold feature_blocks. apply list_elem_of_In, in_map.
  apply filter_In. split; [apply list_elem_of_In, Hf |].
  unfold not_outlier. rewrite Ho. reflexivity.
Qed.

Lemma feature_block_in_crn pow ba_model opt O cm crn :
  forall i0 k cam f,
  crn !! k = Some cam -> f ∈ cam -> is_outlier O (m_point_id f) = false ->
  feature_block pow ba_model opt cm (i0 + k) f
  ∈ camera_major_blocks pow ba_model opt O cm i0 crn.
Proof.
  induction crn as [| cam0 crn IH]; intros i0 k cam f Hk Hf Ho.
  - destruct k; discriminate.
  - cbn [camera_major_blocks]. apply elem_of_app. destruct k as [| k].
    + cbn in Hk. injection Hk as ->. left. rewrite Nat.add_0_r.
      apply feature_block_in_camera; assumption.
    + right. cbn in Hk. replace (i0 + S k)%nat with (S i0 + k)%nat by lia.
      eapply IH; eassumption.
Qed.

(** C9. An observation whose pixel sigma is NaN gets the sigma (1, 1) in
    the construction of the graph and still has its reprojection block in
    the problem: the block of its camera and point, with its location and
    with the sigma (1, 1) under the overlap weight, which is (1, 1) itself
    when [overlap_exponent] is not positive. *)
Theorem nan_pixel_sigma_still_contributes (libs : Libraries)
  (ba_model : BAModel) (opt : Options) (cnet : ControlNetwork)
  (crn : CameraRelationNetwork)
  (num_camera_params num_point_params num_cameras num_points : nat)
  (orig_cameras_vec cameras intrinsics points : list double) (O : gset nat)
  (g : Graph) (icam : nat) (cam : list JFeature) (f : JFeature) :
  build_graph libs ba_model opt cnet crn num_camera_params num_point_params
    num_cameras num_points orig_cameras_vec cameras intrinsics points O
  = Ok g ->
  crn !! icam = Some cam -> f ∈ cam -> m_point_id f ∉ O ->
  Vector2_ne (m_scale f) (m_scale f) = true ->
  let one := (1%float, 1%float) in
  let pixel_sigma :=
    overlap_weight (pow libs) opt (build_count_map opt O crn) (m_point_id f)
      one in
  nan_check (m_scale f) = one
  /\ (exists loss,
        get_loss_function opt = Ok loss
        /\ reprojection_block ba_model (m_location f) pixel_sigma icam
             (m_point_id f) loss
           ∈ residual_blocks (g_problem g))
  /\ (dgt (overlap_exponent opt) 0%float = false -> pixel_sigma = one)
  /\ g_cam_residual_counts g !! icam
     = Some (length (List.filter (not_outlier O) cam)).
Proof.
  intros Hg Hcam Hf HO Hnan. cbv zeta.
  pose proof (nan_check_nan _ Hnan) as Hone.
  apply is_outlier_false in HO.
  split; [exact Hone |]. split; [| split].
  - pose proof Hg as Hspec.
    apply build_graph_spec in Hspec as (_ & (terrain & Hb & _) & _).
    assert (Hloss : exists loss, get_loss_function opt = Ok loss).
    { apply build_graph_spec in Hg as (_ & _ & _ & _ & _ & Hv).
      assert (Hin : f ∈ concat crn).
      { apply list_elem_of_In, in_concat. exists cam.
        split; apply list_elem_of_In; [| exact Hf].
        eapply list_elem_of_lookup_2. exact Hcam. }
      destruct (Hv f Hin HO) as (_ & Hl & _). exact Hl. }
    destruct Hloss as [loss Hloss]. exists loss. split; [exact Hloss |].
    rewrite Hb. apply elem_of_app. left. unfold reprojection_blocks.
    pose proof (feature_block_in_crn (pow libs) ba_model opt O
                  (build_count_map opt O crn) crn 0 icam cam f Hcam Hf HO)
      as Hin.
    unfold feature_block, loss_of_options in Hin.
    rewrite Hloss, Hone in Hin. exact Hin.
  - intros Hp. unfold overlap_weight. rewrite Hp. cbn [andb].
    destruct (build_count_map opt O crn !! m_point_id f); reflexivity.
  - apply build_graph_spec in Hg as (_ & _ & Hc & _). rewrite Hc.
    apply (lookup_map_Some
             (fun cam => length (List.filter (not_outlier O) cam))).
    exact Hcam.
Qed.

(** Two cameras see one tie point; the first observation has a NaN
    sigma. *)
Definition nan_feature : JFeature :=
  {| m_point_id := 0; m_location := (10%float, 20%float);
     m_scale := (quiet_NaN, 1%float) |}.

Definition nan_crn : CameraRelationNetwork :=
  [[nan_feature];
   [{| m_point_id := 0; m_location := (11%float, 21%float);
       m_scale := (1%float, 1%float) |}]].

Definition nan_graph : Graph :=
  Eval vm_compute in
    match build_graph (constant_libs 0%float) generic_model default_options
            one_point_cnet nan_crn camera_params_n point_params_n 2 1
            (replicate 12 0%float) (replicate 12 0%float) []
            (points_of_cnet one_point_cnet 3) ∅ with
    | Ok g => g
    | Throw _ => one_point_graph
    end.

Lemma nan_graph_built :
  build_graph (constant_libs 0%float) generic_model default_options
    one_point_cnet nan_crn camera_params_n point_params_n 2 1
    (replicate 12 0%float) (replicate 12 0%float) []
    (points_of_cnet one_point_cnet 3) ∅
  = Ok nan_graph.
Proof. vm_compute. reflexivity. Qed.

Lemma nan_pixel_sigma_still_contributes_witness :
  nan_check (m_scale nan_feature) = (1%float, 1%float)
  /\ exists loss,
       get_loss_function default_options = Ok loss
       /\ reprojection_block generic_model (10%float, 20%float)
            (overlap_weight (pow (constant_libs 0%float)) default_options
               (build_count_map default_options ∅ nan_crn) 0
               (1%float, 1%float))
            0 0 loss
          ∈ residual_blocks (g_problem nan_graph).
Proof.
  pose proof (nan_pixel_sigma_still_contributes (constant_libs 0%float)
                generic_model default_options one_point_cnet nan_crn
                camera_params_n point_params_n 2 1 (replicate 12 0%float)
                (replicate 12 0%float) [] (points_of_cnet one_point_cnet 3) ∅
                nan_graph 0 [nan_feature] nan_feature nan_graph_built eq_refl)
    as H.
  cbv zeta in H. destruct H as (H1 & H2 & _).
  - apply list_elem_of_singleton. reflexivity.
  - apply not_elem_of_empty.
  - vm_compute. reflexivity.
  - split; [exact H1 | exact H2].
Defined.

(* ================================================================= *)
(** ** Heights from a DEM *)

(** The coordinates of a point that is a GCP, or for which the DEM gives
    no height, come out of the loops as they went in. *)
Lemma points_after_visits_unchanged cnet O npp d ipt (l : list JFeature) :
  (3 <= npp)%nat ->
  forall points,
  is_gcp cnet ipt = true \/ dem_height d (read_point points npp ipt) = None ->
  read_point (fold_left (points_after_visit cnet O npp (Some d)) l points)
    npp ipt
  = read_point points npp ipt.
Proof.
  intros Hnpp. induction l as [| f l IH]; intros points Hcase;
    cbn [fold_left]; [reflexivity |].
  assert (Hstep :
    read_point (points_after_visit cnet O npp (Some d) points f) npp ipt
    = read_point points npp ipt).
  { unfold points_after_visit.
    destruct (is_outlier O (m_point_id f)); [reflexivity |].
    destruct (is_gcp cnet (m_point_id f)) eqn:Hg; [reflexivity |].
    cbv zeta.
    destruct (Nat.eq_dec (m_point_id f) ipt) as [Heq | Hne].
    - rewrite Heq in *. destruct Hcase as [Hc | Hc]; [congruence |].
      rewrite Hc. reflexivity.
    - destruct (dem_height d (read_point points npp (m_point_id f)));
        [| reflexivity].
      apply read_write_other; [exact Hnpp | congruence]. }
  rewrite IH; [exact Hstep |].
  destruct Hcase as [Hc | Hc]; [left; exact Hc | right].
  rewrite Hstep. exact Hc.
Qed.

(** A pass that builds its graph with --heights-from-dem has loaded the
    DEM. *)
Lemma build_graph_dem libs ba_model opt cnet crn ncp npp nc np orig cameras
  intrinsics points O g :
  build_graph libs ba_model opt cnet crn ncp npp nc np orig cameras intrinsics
    points O = Ok g ->
  non_empty (heights_from_dem opt) = true ->
  exists dem, create_interp_dem libs (heights_from_dem opt) = Ok dem.
Proof.
  unfold build_graph. intros Hg Hne. rewrite Hne in Hg.
  destruct (negb (nc =? length crn)%nat); [discriminate |].
  destruct (create_interp_dem libs (heights_from_dem opt)) as [dem | e];
    [exists dem; reflexivity | discriminate].
Qed.

(** C10. With --heights-from-dem, every tie point that is not a GCP, not
    an outlier and has an observation has its parameter block marked
    constant, whatever the DEM says at the point. When the pixel of the
    point falls outside the DEM or the sample is not valid the coordinates
    of the point stay as they were; a visit replaces the height only when
    the sample is inside the DEM and valid. *)
Theorem heights_from_dem_fixes_points (libs : Libraries) (ba_model : BAModel)
  (opt : Options) (cnet : ControlNetwork) (crn : CameraRelationNetwork)
  (num_camera_params num_point_params num_cameras num_points : nat)
  (orig_cameras_vec cameras intrinsics points : list double) (O : gset nat)
  (g : Graph) (f : JFeature) :
  build_graph libs ba_model opt cnet crn num_camera_params num_point_params
    num_cameras num_points orig_cameras_vec cameras intrinsics points O
  = Ok g ->
  heights_from_dem opt <> "" ->
  f ∈ concat crn -> m_point_id f ∉ O -> is_gcp cnet (m_point_id f) = false ->
  let ipt := m_point_id f in
  exists dem,
    create_interp_dem libs (heights_from_dem opt) = Ok dem
    /\ PointBlock ipt ∈ constant_blocks (g_problem g)
    /\ ((3 <= num_point_params)%nat ->
        dem_height dem (read_point points num_point_params ipt) = None ->
        read_point (g_points g) num_point_params ipt
        = read_point points num_point_params ipt)
    /\ (forall problem pts,
          snd (heights_from_dem_fixup dem cnet num_point_params ipt problem pts)
          = match dem_height dem (read_point pts num_point_params ipt) with
            | Some ht =>
                write_point pts num_point_params ipt
                  (with_height dem (read_point pts num_point_params ipt) ht)
            | None => pts
            end)
    /\ (forall xyz,
          dem_height dem xyz = None
          <-> (let '(lon, lat, _) := dem_cartesian_to_geodetic dem xyz in
               let pix := dem_lonlat_to_pixel dem (lon, lat) in
               dem_in_bounds dem pix = false
               \/ interp_dem dem (fst pix) (snd pix) = None)).
Proof.
  intros Hg Hdem Hf HO Hgcp. cbv zeta.
  apply is_outlier_false in HO.
  assert (Hne : non_empty (heights_from_dem opt) = true).
  { unfold non_empty. destruct (String.eqb_spec (heights_from_dem opt) "");
      [contradiction | reflexivity]. }
  assert (Hbuilt : exists dem,
            create_interp_dem libs (heights_from_dem opt) = Ok dem
            /\ dem_of_options libs opt = Some dem).
  { pose proof (build_graph_dem _ _ _ _ _ _ _ _ _ _ _ _ _ _ _ Hg Hne)
      as [dem Hd].
    exists dem. split; [exact Hd |].
    unfold dem_of_options. rewrite Hne, Hd. reflexivity. }
  destruct Hbuilt as (dem & Hload & Hdo).
  apply build_graph_spec in Hg as (_ & _ & _ & _ & Hp & Hv).
  exists dem. split; [exact Hload |]. split; [| split; [| split]].
  - destruct (Hv f Hf HO) as (_ & _ & Hfix). exact (Hfix dem Hdo Hgcp).
  - intros Hnpp Hnone. rewrite Hp, Hdo.
    apply points_after_visits_unchanged; [exact Hnpp | right; exact Hnone].
  - intros problem pts. rewrite heights_fixup_points, Hgcp. reflexivity.
  - intros xyz. unfold dem_height.
    destruct (dem_cartesian_to_geodetic dem xyz) as [[lon lat] h].
    cbv zeta. destruct (dem_in_bounds dem _).
    + split; [intros H; right; exact H | intros [H | H]; [discriminate | exact H]].
    + split; [intros _; left; reflexivity | reflexivity].
Qed.

Definition with_heights_from_dem (dem_file : string) (opt : Options)
  : Options := {|
  cost_function := cost_function opt;
  ba_type := ba_type opt;
  robust_threshold := robust_threshold opt;
  camera_weight := camera_weight opt;
  rotation_weight := rotation_weight opt;
  translation_weight := translation_weight opt;
  overlap_exponent := overlap_exponent opt;
  parameter_tolerance := parameter_tolerance opt;
  min_matches := min_matches opt;
  max_iterations := max_iterations opt;
  num_ba_passes := num_ba_passes opt;
  num_threads := num_threads opt;
  create_pinhole := create_pinhole opt;
  fix_gcp_xyz := fix_gcp_xyz opt;
  solve_intrinsics := solve_intrinsics opt;
  use_llh_error := use_llh_error opt;
  stereo_session_string := stereo_session_string opt;
  heights_from_dem := dem_file;
  reference_terrain := reference_terrain opt;
  csv_format_str := csv_format_str opt;
  datum_str := datum_str opt;
  datum := datum opt;
  disparity_list := disparity_list opt;
  max_disp_error := max_disp_error opt;
  remove_outliers_params := remove_outliers_params opt;
  intrinsics_to_float := intrinsics_to_float opt;
  fixed_cameras_indices := fixed_cameras_indices opt
|}.

(** A DEM of one pixel, in a frame where longitude, latitude and height are
    the three coordinates and a pixel is a longitude and a latitude: the
    point (1, 2, 3) falls outside of it. *)
Definition one_pixel_dem : Dem := {|
  dem_cartesian_to_geodetic := fun xyz => xyz;
  dem_geodetic_to_cartesian := fun llh => llh;
  dem_lonlat_to_pixel := fun ll => ll;
  dem_cols := 1;
  dem_rows := 1;
  interp_dem := fun _ _ => Some 100%float
|}.

Definition dem_libs : Libraries := {|
  pow := fun x _ => x;
  create_interp_dem := fun _ => Ok one_pixel_dem;
  terrain_env := no_terrain;
  ceres_lib := constant_ceres 0%float;
  find_outlier_brackets := fun _ _ _ => (0%float, 0%float);
  KMLFile := fun _ _ => Ok tt;
  remove_outliers := fun _ _ _ _ => Ok tt
|}.

Definition dem_options : Options :=
  with_heights_from_dem "dem.tif" default_options.

Definition dem_graph : Graph :=
  Eval vm_compute in
    match build_graph dem_libs generic_model dem_options one_point_cnet
            one_point_crn camera_params_n point_params_n 2 1
            (replicate 12 0%float) (replicate 12 0%float) []
            (points_of_cnet one_point_cnet 3) ∅ with
    | Ok g => g
    | Throw _ => one_point_graph
    end.

Lemma dem_graph_built :
  build_graph dem_libs generic_model dem_options one_point_cnet one_point_crn
    camera_params_n point_params_n 2 1 (replicate 12 0%float)
    (replicate 12 0%float) [] (points_of_cnet one_point_cnet 3) ∅
  = Ok dem_graph.
Proof. vm_compute. reflexivity. Qed.

(** The point is outside the DEM: it is fixed and keeps its
    coordinates. *)
Lemma heights_from_dem_fixes_points_witness :
  PointBlock 0 ∈ constant_blocks (g_problem dem_graph)
  /\ read_point (g_points dem_graph) point_params_n 0
     = (1%float, 2%float, 3%float).
Proof.
  destruct (heights_from_dem_fixes_points dem_libs generic_model dem_options
              one_point_cnet one_point_crn camera_params_n point_params_n 2 1
              (replicate 12 0%float) (replicate 12 0%float) []
              (points_of_cnet one_point_cnet 3) ∅ dem_graph
              {| m_point_id := 0; m_location := (10%float, 20%float);
                 m_scale := (1%float, 1%float) |} dem_graph_built)
    as (dem & Hload & Hfix & Hsame & _).
  - discriminate.
  - cbn. apply elem_of_cons. left. reflexivity.
  - apply not_elem_of_empty.
  - reflexivity.
  - cbn in Hload. injection Hload as <-.
    split; [exact Hfix |]. cbn [m_point_id] in Hsame. rewrite Hsame.
    + reflexivity.
    + unfold point_params_n. lia.
    + vm_compute. reflexivity.
Defined.

(* ================================================================= *)
(** ** The mean residual of a point *)

(** The residual error of an observation whose two residuals start at
    [r]: [(|ex| + |ey|) / 2]. *)
Definition residual_error_at (residuals : list double) (r : nat) : double :=
  ddiv (dadd (fabs (get_d residuals r)) (fabs (get_d residuals (r + 1))))
    2%float.

(** The residual errors of the observations of point [i] among the
    features [l], when the residuals of the first observation that is not
    skipped start at [r]. *)
Fixpoint errors_from (O : gset nat) (residuals : list double) (i r : nat)
  (l : list JFeature) : list double :=
  match l with
  | [] => []
  | f :: l' =>
      if is_outlier O (m_point_id f) then errors_from O residuals i r l'
      else if (m_point_id f =? i)%nat then
        residual_error_at residuals r
          :: errors_from O residuals i (r + PIXEL_SIZE) l'
      else errors_from O residuals i (r + PIXEL_SIZE) l'
  end.

Lemma get_d_insert_eq (v : list double) (i : nat) (x : double) :
  (i < length v)%nat -> get_d (<[i := x]> v) i = x.
Proof.
  intros H. unfold get_d. rewrite list_lookup_insert_eq by exact H.
  reflexivity.
Qed.

Lemma get_z_insert_eq (v : list Z) (i : nat) (x : Z) :
  (i < length v)%nat -> get_z (<[i := x]> v) i = x.
Proof.
  intros H. unfold get_z. rewrite list_lookup_insert_eq by exact H.
  reflexivity.
Qed.

Lemma get_z_insert_ne (v : list Z) (i j : nat) (x : Z) :
  i <> j -> get_z (<[i := x]> v) j = get_z v j.
Proof.
  intros H. unfold get_z. rewrite list_lookup_insert_ne by exact H.
  reflexivity.
Qed.

Lemma mean_residuals_body_step O residuals r mean cnt f :
  mean_residuals_body O residuals (r, mean, cnt) f
  = if is_outlier O (m_point_id f) then (r, mean, cnt)
    else
      ((r + PIXEL_SIZE)%nat,
       <[m_point_id f :=
           dadd (get_d mean (m_point_id f)) (residual_error_at residuals r)]>
         mean,
       <[m_point_id f := get_z cnt (m_point_id f) + 1]> cnt).
Proof. reflexivity. Qed.

(** The double loop of [compute_mean_residuals_at_xyz]: the sums and the
    counts of the points. *)
Lemma mean_residuals_fold (O : gset nat) (residuals : list double)
  (l : list JFeature) :
  forall r mean cnt,
  let st := fold_left (mean_residuals_body O residuals) l (r, mean, cnt) in
  length (snd (fst st)) = length mean
  /\ length (snd st) = length cnt
  /\ (forall i, (i < length mean)%nat -> (i < length cnt)%nat ->
      get_d (snd (fst st)) i
      = fold_left dadd (errors_from O residuals i r l) (get_d mean i)
      /\ get_z (snd st) i
         = get_z cnt i + Z.of_nat (length (errors_from O residuals i r l))).
Proof.
  induction l as [| f l IH]; intros r mean cnt; cbv zeta;
    cbn [fold_left errors_from].
  - cbn. split; [reflexivity |]. split; [reflexivity |].
    intros i _ _. split; [reflexivity | lia].
  - rewrite mean_residuals_body_step.
    destruct (is_outlier O (m_point_id f)) eqn:Ho; [apply IH |].
    match goal with
    | |- context [fold_left _ l (?r', ?m', ?c')] =>
        specialize (IH r' m' c'); cbv zeta in IH;
        destruct IH as (Hlm & Hlc & Hval)
    end.
    rewrite length_insert in Hlm. rewrite length_insert in Hlc.
    split; [exact Hlm |]. split; [exact Hlc |].
    intros i Him Hic. rewrite !length_insert in Hval.
    destruct (Hval i Him Hic) as [Hm Hc]. rewrite Hm, Hc.
    destruct (Nat.eqb_spec (m_point_id f) i) as [-> | Hne].
    + rewrite get_d_insert_eq, get_z_insert_eq by assumption.
      cbn [fold_left length]. split; [reflexivity | lia].
    + rewrite get_d_insert_ne, get_z_insert_ne by assumption.
      split; reflexivity.
Qed.

Lemma mean_residuals_fold_state (O : gset nat) (residuals : list double)
  (l : list JFeature) (s : nat * list double * list Z) :
  let st := fold_left (mean_residuals_body O residuals) l s in
  length (snd (fst st)) = length (snd (fst s))
  /\ length (snd st) = length (snd s)
  /\ (forall i, (i < length (snd (fst s)))%nat -> (i < length (snd s))%nat ->
      get_d (snd (fst st)) i
      = fold_left dadd (errors_from O residuals i (fst (fst s)) l)
          (get_d (snd (fst s)) i)
      /\ get_z (snd st) i
         = get_z (snd s) i
           + Z.of_nat (length (errors_from O residuals i (fst (fst s)) l))).
Proof. destruct s as [[r mean] cnt]. apply mean_residuals_fold. Qed.

(** The averaging loop of [compute_mean_residuals_at_xyz]. *)
Lemma average_fold (O : gset nat) (n : nat) :
  forall mean cnt,
  (n <= length mean)%nat -> (n <= length cnt)%nat ->
  let st := fold_left (average_body O) (seq 0 n) (mean, cnt) in
  length (fst st) = length mean
  /\ length (snd st) = length cnt
  /\ (forall i,
        get_d (fst st) i
        = if (i <? n)%nat then
            if is_outlier O i then quiet_NaN
            else ddiv (get_d mean i) (double_of_Z (get_z cnt i))
          else get_d mean i)
  /\ (forall i, is_outlier O i = false -> get_z (snd st) i = get_z cnt i).
Proof.
  induction n as [| n IH]; intros mean cnt Hm Hc; cbv zeta.
  - cbn. repeat split; reflexivity.
  - rewrite seq_S, fold_left_app. cbn [fold_left Nat.add].
    specialize (IH mean cnt ltac:(lia) ltac:(lia)). cbv zeta in IH.
    destruct (fold_left (average_body O) (seq 0 n) (mean, cnt))
      as [mean1 cnt1].
    cbn [fst snd] in IH. destruct IH as (Hlm & Hlc & Hval & Hcnt).
    unfold average_body. destruct (is_outlier O n) eqn:Ho; cbn [fst snd].
    + rewrite !length_insert. split; [exact Hlm |]. split; [exact Hlc |].
      split.
      * intros i. destruct (Nat.eq_dec n i) as [<- | Hne].
        -- rewrite get_d_insert_eq by lia.
           destruct (Nat.ltb_spec n (S n)); [| lia]. rewrite Ho. reflexivity.
        -- rewrite get_d_insert_ne by exact Hne. rewrite Hval.
           destruct (Nat.ltb_spec i n), (Nat.ltb_spec i (S n));
             try lia; reflexivity.
      * intros i Hi. destruct (Nat.eq_dec n i) as [<- | Hne];
          [congruence |].
        rewrite get_z_insert_ne by exact Hne. apply Hcnt, Hi.
    + rewrite !length_insert. split; [exact Hlm |]. split; [exact Hlc |].
      split.
      * intros i. destruct (Nat.eq_dec n i) as [<- | Hne].
        -- rewrite get_d_insert_eq by lia.
           destruct (Nat.ltb_spec n (S n)); [| lia]. rewrite Ho.
           rewrite Hval, (Hcnt n Ho).
           destruct (Nat.ltb_spec n n); [lia | reflexivity].
        -- rewrite get_d_insert_ne by exact Hne. rewrite Hval.
           destruct (Nat.ltb_spec i n), (Nat.ltb_spec i (S n));
             try lia; reflexivity.
      * exact Hcnt.
Qed.

(** The mean of a list of residual errors, summed from the left starting
    at zero as the code accumulates them. *)
Definition mean_of (errors : list double) : double :=
  ddiv (fold_left dadd errors 0%float)
    (double_of_Z (Z.of_nat (length errors))).

Lemma get_d_replicate (n i : nat) : get_d (replicate n 0%float) i = 0%float.
Proof.
  unfold get_d. destruct (_ !! i) as [x |] eqn:H; [| reflexivity].
  apply lookup_replicate in H as [-> _]. reflexivity.
Qed.

Lemma get_z_replicate (n i : nat) : get_z (replicate n 0) i = 0.
Proof.
  unfold get_z. destruct (_ !! i) as [x |] eqn:H; [| reflexivity].
  apply lookup_replicate in H as [-> _]. reflexivity.
Qed.

(** What [compute_mean_residuals_at_xyz] stores for a point in range that
    is not an outlier: the mean of the residual errors of its
    observations. *)
Lemma compute_mean_residuals_at_xyz_spec crn residuals num_points O i :
  (i < num_points)%nat -> is_outlier O i = false ->
  get_d (fst (compute_mean_residuals_at_xyz crn residuals num_points O)) i
  = mean_of (errors_from O residuals i 0 (concat crn)).
Proof.
  intros Hi Ho. unfold compute_mean_residuals_at_xyz.
  rewrite fold_left_concat.
  match goal with
  | |- context [fold_left (mean_residuals_body O residuals) (concat crn) ?s] =>
      pose proof (mean_residuals_fold_state O residuals (concat crn) s)
        as Hfold;
      cbv zeta in Hfold; revert Hfold;
      destruct (fold_left (mean_residuals_body O residuals) (concat crn) s)
        as [[r mean] cnt]; intros Hfold
  end.
  cbn [fst snd] in Hfold. rewrite !length_replicate in Hfold.
  destruct Hfold as (Hlm & Hlc & Hval).
  destruct (Hval i Hi Hi) as [Hm Hc].
  rewrite get_d_replicate in Hm. rewrite get_z_replicate in Hc.
  pose proof (average_fold O num_points mean cnt ltac:(lia) ltac:(lia))
    as Havg.
  cbv zeta in Havg. destruct Havg as (_ & _ & Hmean & _).
  rewrite Hmean. destruct (Nat.ltb_spec i num_points); [| lia].
  rewrite Ho, Hm, Hc. reflexivity.
Qed.

(** A mean over no observation is a NaN, and nothing exceeds what a NaN
    is compared with. *)
Lemma mean_of_nil : mean_of [] = quiet_NaN.
Proof. reflexivity. Qed.

Lemma dgt_nan (e : double) : dgt quiet_NaN e = false.
Proof.
  unfold dgt, quiet_NaN. rewrite ltb_spec.
  change (Prim2SF nan) with S754_nan. unfold SFltb.
  destruct (Prim2SF e) as [s | s | | s m x]; try destruct s; reflexivity.
Qed.

(* ================================================================= *)
(** ** The points whose mean residuals give the brackets *)

Section Candidates.

Variable cnet : ControlNetwork.
Variable O : gset nat.

(** The loop that collects the mean residuals, keeping the index of the
    point instead of its mean. *)
Definition first_seen_body (st : list nat * gset nat) (f : JFeature)
  : list nat * gset nat :=
  let '(pts, was_added) := st in
  let ipt := m_point_id f in
  if is_outlier O ipt then st
  else if is_gcp cnet ipt then st
  else if bool_decide (ipt ∈ was_added) then st
  else (pts ++ [ipt], {[ipt]} ∪ was_added).

(** The points that are seen by a camera and are neither outliers nor GCP,
    each once, in the order in which the cameras see them first. *)
Definition candidate_points (crn : CameraRelationNetwork) : list nat :=
  fst (fold_left first_seen_body (concat crn) ([], ∅)).

Lemma first_seen_body_step pts W f :
  first_seen_body (pts, W) f
  = if is_outlier O (m_point_id f) then (pts, W)
    else if is_gcp cnet (m_point_id f) then (pts, W)
    else if bool_decide (m_point_id f ∈ W) then (pts, W)
    else (pts ++ [m_point_id f], {[m_point_id f]} ∪ W).
Proof. reflexivity. Qed.

Lemma actual_residuals_body_step mr acc W f :
  actual_residuals_body cnet O mr (acc, W) f
  = if is_outlier O (m_point_id f) then (acc, W)
    else if is_gcp cnet (m_point_id f) then (acc, W)
    else if bool_decide (m_point_id f ∈ W) then (acc, W)
    else (acc ++ [get_d mr (m_point_id f)], {[m_point_id f]} ∪ W).
Proof. reflexivity. Qed.

Lemma actual_residuals_fold (mr : list double) (l : list JFeature) :
  forall pts W,
  fold_left (actual_residuals_body cnet O mr) l (map (get_d mr) pts, W)
  = (map (get_d mr) (fst (fold_left first_seen_body l (pts, W))),
     snd (fold_left first_seen_body l (pts, W))).
Proof.
  induction l as [| f l IH]; intros pts W; cbn [fold_left]; [reflexivity |].
  rewrite actual_residuals_body_step, first_seen_body_step.
  destruct (is_outlier O (m_point_id f)); [apply IH |].
  destruct (is_gcp cnet (m_point_id f)); [apply IH |].
  destruct (bool_decide (m_point_id f ∈ W)); [apply IH |].
  rewrite <- IH. rewrite map_app. reflexivity.
Qed.

Lemma collect_actual_residuals_spec crn mr :
  collect_actual_residuals cnet crn O mr
  = map (get_d mr) (candidate_points crn).
Proof.
  unfold collect_actual_residuals, candidate_points.
  rewrite fold_left_concat.
  rewrite (actual_residuals_fold mr (concat crn) [] ∅). reflexivity.
Qed.

Lemma first_seen_fold (l : list JFeature) :
  forall pts W,
  (forall i, i ∈ W <-> i ∈ pts) -> NoDup pts ->
  let st := fold_left first_seen_body l (pts, W) in
  (forall i, i ∈ snd st <-> i ∈ fst st)
  /\ NoDup (fst st)
  /\ (forall i,
        i ∈ fst st
        <-> i ∈ pts
            \/ ((exists f, f ∈ l /\ m_point_id f = i)
                /\ (i ∉ O) /\ is_gcp cnet i = false)).
Proof.
  induction l as [| f l IH]; intros pts W HW Hnd; cbv zeta;
    cbn [fold_left].
  - cbn. split; [exact HW |]. split; [exact Hnd |].
    intros i. split; [auto |]. intros [H | [[f [Hf _]] _]]; [exact H |].
    apply elem_of_nil in Hf. destruct Hf.
  - assert (Hskip :
      (forall i, (exists g, g ∈ l /\ m_point_id g = i) /\ (i ∉ O)
                 /\ is_gcp cnet i = false
                 -> (exists g, g ∈ f :: l /\ m_point_id g = i) /\ (i ∉ O)
                    /\ is_gcp cnet i = false)).
    { intros i [[g [Hg Hi]] H]. split; [| exact H].
      exists g. split; [apply elem_of_cons; auto | exact Hi]. }
    rewrite first_seen_body_step.
    destruct (is_outlier O (m_point_id f)) eqn:Ho.
    { specialize (IH pts W HW Hnd). cbv zeta in IH.
      destruct IH as (H1 & H2 & H3). split; [exact H1 |].
      split; [exact H2 |]. intros i. rewrite H3.
      apply is_outlier_true in Ho. split.
      - intros [H | H]; [auto | right; apply Hskip, H].
      - intros [H | [[g [Hg Hi]] [HnO Hgcp]]]; [auto |].
        apply elem_of_cons in Hg as [-> | Hg]; [congruence |].
        right. split; [exists g; auto | auto]. }
    destruct (is_gcp cnet (m_point_id f)) eqn:Hgf.
    { specialize (IH pts W HW Hnd). cbv zeta in IH.
      destruct IH as (H1 & H2 & H3). split; [exact H1 |].
      split; [exact H2 |]. intros i. rewrite H3. split.
      - intros [H | H]; [auto | right; apply Hskip, H].
      - intros [H | [[g [Hg Hi]] [HnO Hgcp]]]; [auto |].
        apply elem_of_cons in Hg as [-> | Hg]; [congruence |].
        right. split; [exists g; auto | auto]. }
    apply is_outlier_false in Ho.
    destruct (bool_decide (m_point_id f ∈ W)) eqn:Hw.
    { apply bool_decide_eq_true in Hw.
      specialize (IH pts W HW Hnd). cbv zeta in IH.
      destruct IH as (H1 & H2 & H3). split; [exact H1 |].
      split; [exact H2 |]. intros i. rewrite H3. split.
      - intros [H | H]; [auto | right; apply Hskip, H].
      - intros [H | [[g [Hg Hi]] [HnO Hgcp]]]; [auto |].
        apply elem_of_cons in Hg as [-> | Hg].
        + left. apply HW. rewrite <- Hi. exact Hw.
        + right. split; [exists g; auto | auto]. }
    apply bool_decide_eq_false in Hw.
    assert (HW' : forall i, i ∈ {[m_point_id f]} ∪ W
                            <-> i ∈ pts ++ [m_point_id f]).
    { intros i. rewrite elem_of_union, elem_of_singleton, elem_of_app,
        list_elem_of_singleton, HW. tauto. }
    assert (Hnd' : NoDup (pts ++ [m_point_id f])).
    { apply NoDup_app. split; [exact Hnd |]. split.
      - intros i Hi Hi'. apply list_elem_of_singleton in Hi'. subst i.
        apply Hw, HW, Hi.
      - apply NoDup_singleton. }
    specialize (IH _ _ HW' Hnd'). cbv zeta in IH.
    destruct IH as (H1 & H2 & H3). split; [exact H1 |].
    split; [exact H2 |]. intros i. rewrite H3, elem_of_app,
      list_elem_of_singleton. split.
    + intros [[H | ->] | H]; [auto | | right; apply Hskip, H].
      right. split; [| auto].
      exists f. split; [apply elem_of_cons; auto | reflexivity].
    + intros [H | [[g [Hg Hi]] [HnO Hgcp]]]; [auto |].
      apply elem_of_cons in Hg as [-> | Hg]; [auto |].
      right. split; [exists g; auto | auto].
Qed.

(** The candidates, as a set: the points [update_outliers] looks at. *)
Lemma candidate_points_spec crn :
  NoDup (candidate_points crn)
  /\ forall i, i ∈ candidate_points crn <-> candidate cnet crn O i.
Proof.
  unfold candidate_points, candidate.
  pose proof (first_seen_fold (concat crn) [] ∅) as H. cbv zeta in H.
  destruct H as (_ & Hnd & Hin).
  - intros i. rewrite elem_of_nil. split; [| tauto].
    intros Hi. apply not_elem_of_empty in Hi. exact Hi.
  - apply NoDup_nil_2.
  - split; [exact Hnd |]. intros i. rewrite Hin, elem_of_nil. tauto.
Qed.

End Candidates.

(* ================================================================= *)
(** ** The residuals of the observations of a point *)

Section PointResiduals.

Variable ceres : Ceres.
Variable st : SolverState.
Variable pow : double -> double -> double.
Variable ba_model : BAModel.
Variable opt : Options.
Variable O : gset nat.
Variable count_map : gmap nat Z.

Hypothesis block_sizes :
  forall a st b, length (block_residuals ceres a st b) = num_residuals b.

(** The residual error of an observation: [(|ex| + |ey|) / 2] for the two
    residuals of its block, evaluated without the loss. *)
Definition block_error (b : ResidualBlock) : double :=
  residual_error_at (block_residuals ceres false st b) 0.

(** The features of a camera that observe point [i]. *)
Definition observes (i : nat) (f : JFeature) : bool :=
  not_outlier O f && (m_point_id f =? i)%nat.

(** The reprojection blocks of the observations of point [i], camera by
    camera. *)
Fixpoint point_blocks (i icam : nat) (crn : CameraRelationNetwork)
  : list ResidualBlock :=
  match crn with
  | [] => []
  | cam :: rest =>
      map (feature_block pow ba_model opt count_map icam)
        (List.filter (observes i) cam)
      ++ point_blocks i (S icam) rest
  end.

(** The mean residual of point [i]: the mean over its observations of
    [(|ex| + |ey|) / 2]. *)
Definition mean_residual (crn : CameraRelationNetwork) (i : nat) : double :=
  mean_of (map block_error (point_blocks i 0 crn)).

Lemma get_d_app_middle (pre x post : list double) (k : nat) :
  (k < length x)%nat ->
  get_d (pre ++ x ++ post) (length pre + k) = get_d x k.
Proof.
  intros Hk. unfold get_d.
  rewrite lookup_app_r by lia.
  replace (length pre + k - length pre)%nat with k by lia.
  rewrite lookup_app_l by exact Hk. reflexivity.
Qed.

Lemma residual_error_at_middle (pre x post : list double) :
  length x = 2%nat ->
  residual_error_at (pre ++ x ++ post) (length pre) = residual_error_at x 0.
Proof.
  intros Hx. unfold residual_error_at.
  rewrite <- (Nat.add_0_r (length pre)) at 1.
  rewrite !get_d_app_middle by lia. reflexivity.
Qed.

Local Abbreviation blocks_of icam cam :=
  (feature_blocks pow ba_model opt O count_map icam cam).

Lemma feature_blocks_skip icam f cam :
  is_outlier O (m_point_id f) = true ->
  blocks_of icam (f :: cam) = blocks_of icam cam.
Proof.
  intros Ho. unfold feature_blocks. cbn [List.filter]. unfold not_outlier at 1.
  rewrite Ho. reflexivity.
Qed.

Lemma feature_blocks_keep icam f cam :
  is_outlier O (m_point_id f) = false ->
  blocks_of icam (f :: cam)
  = feature_block pow ba_model opt count_map icam f :: blocks_of icam cam.
Proof.
  intros Ho. unfold feature_blocks. cbn [List.filter]. unfold not_outlier at 1.
  rewrite Ho. reflexivity.
Qed.

Lemma observes_skip i f cam :
  is_outlier O (m_point_id f) = true ->
  List.filter (observes i) (f :: cam) = List.filter (observes i) cam.
Proof.
  intros Ho. cbn [List.filter]. unfold observes at 1, not_outlier.
  rewrite Ho. reflexivity.
Qed.

Lemma observes_keep i f cam :
  is_outlier O (m_point_id f) = false ->
  List.filter (observes i) (f :: cam)
  = if (m_point_id f =? i)%nat then f :: List.filter (observes i) cam
    else List.filter (observes i) cam.
Proof.
  intros Ho. cbn [List.filter]. unfold observes at 1, not_outlier.
  rewrite Ho. reflexivity.
Qed.

Lemma eval_blocks_cons a b blocks :
  eval_blocks ceres a st (b :: blocks)
  = block_residuals ceres a st b ++ eval_blocks ceres a st blocks.
Proof. reflexivity. Qed.

(** The residuals of the observations of a camera sit in the residual
    vector in the order of the observations, two for each. *)
Lemma errors_from_camera (i icam : nat) (cam rest : list JFeature) :
  forall pre post,
  errors_from O
    (pre ++ eval_blocks ceres false st (blocks_of icam cam) ++ post) i
    (length pre) (cam ++ rest)
  = map block_error
      (map (feature_block pow ba_model opt count_map icam)
         (List.filter (observes i) cam))
    ++ errors_from O
         (pre ++ eval_blocks ceres false st (blocks_of icam cam) ++ post) i
         (length pre + length (eval_blocks ceres false st (blocks_of icam cam)))
         rest.
Proof.
  induction cam as [| f cam IH]; intros pre post.
  - cbn. rewrite Nat.add_0_r. reflexivity.
  - cbn [app errors_from].
    destruct (is_outlier O (m_point_id f)) eqn:Ho.
    + rewrite (feature_blocks_skip icam f cam Ho).
      rewrite (observes_skip i f cam Ho). apply IH.
    + rewrite (feature_blocks_keep icam f cam Ho).
      rewrite (observes_keep i f cam Ho).
      set (b := feature_block pow ba_model opt count_map icam f).
      assert (Hb : length (block_residuals ceres false st b) = 2%nat).
      { rewrite block_sizes. apply reprojection_block_size. }
      rewrite eval_blocks_cons, <- !app_assoc.
      rewrite residual_error_at_middle by exact Hb.
      assert (Hlen : (length pre + PIXEL_SIZE)%nat
                     = length (pre ++ block_residuals ceres false st b)).
      { rewrite length_app, Hb. reflexivity. }
      rewrite Hlen, (app_assoc pre), IH. rewrite !length_app, Hb.
      replace (length pre + 2
               + length (eval_blocks ceres false st (blocks_of icam cam)))%nat
        with (length pre
              + (2 + length (eval_blocks ceres false st (blocks_of icam cam))))%nat
        by lia.
      destruct (m_point_id f =? i)%nat; reflexivity.
Qed.

(** The same for all the cameras. *)
Lemma errors_from_cameras (i : nat) (crn : CameraRelationNetwork) :
  forall icam pre post,
  errors_from O
    (pre ++ eval_blocks ceres false st
              (camera_major_blocks pow ba_model opt O count_map icam crn)
         ++ post) i (length pre) (concat crn)
  = map block_error (point_blocks i icam crn).
Proof.
  induction crn as [| cam crn IH]; intros icam pre post.
  - reflexivity.
  - cbn [concat camera_major_blocks point_blocks].
    rewrite eval_blocks_app, <- app_assoc, errors_from_camera, map_app.
    f_equal.
    rewrite <- length_app.
    rewrite (app_assoc pre). apply IH.
Qed.

Lemma observes_none (i : nat) (cam : list JFeature) :
  (forall f, f ∈ cam -> m_point_id f <> i) ->
  List.filter (observes i) cam = [].
Proof.
  induction cam as [| f cam IH]; intros Hno; [reflexivity |].
  cbn [List.filter]. unfold observes at 1.
  destruct (Nat.eqb_spec (m_point_id f) i) as [Heq | Hne].
  - exfalso. apply (Hno f); [apply elem_of_cons; auto | exact Heq].
  - rewrite andb_false_r. apply IH. intros g Hg. apply Hno.
    apply elem_of_cons. auto.
Qed.

Lemma point_blocks_nil (i : nat) (crn : CameraRelationNetwork) :
  forall icam,
  (forall f, f ∈ concat crn -> m_point_id f <> i) ->
  point_blocks i icam crn = [].
Proof.
  induction crn as [| cam crn IH]; intros icam Hno; [reflexivity |].
  cbn [point_blocks]. change (concat (cam :: crn)) with (cam ++ concat crn)
    in Hno.
  rewrite IH, observes_none; [reflexivity | |].
  - intros f Hf. apply Hno. apply elem_of_app. auto.
  - intros f Hf. apply Hno. apply elem_of_app. auto.
Qed.

End PointResiduals.

(* ================================================================= *)
(** ** The rejection of outliers between passes *)

(** On the graph of a pass the number of residuals is the expected one. *)
Lemma compute_residuals_graph libs ba_model opt cnet crn ncp nc np orig cameras
  intrinsics points O g a st :
  (forall a st b,
     length (block_residuals (ceres_lib libs) a st b) = num_residuals b) ->
  build_graph libs ba_model opt cnet crn ncp point_params_n nc np orig cameras
    intrinsics points O = Ok g ->
  compute_residuals (ceres_lib libs) a opt nc ncp point_params_n
    (g_cam_residual_counts g) (g_num_gcp_residuals g) (g_reference_vec g)
    (g_problem g) st
  = Ok (Evaluate (ceres_lib libs) a (g_problem g) st).
Proof.
  intros Hsize Hg.
  destruct (graph_residuals_length libs ba_model opt cnet crn ncp nc np orig
              cameras intrinsics points O g a st Hsize Hg) as [Hc Hlen].
  apply compute_residuals_ok.
  rewrite (num_expected_residuals_closed _ _ _ _ _ _ _ Hc), Hlen.
  unfold point_params_n. lia.
Qed.

(** C1. Between passes, on the graph of the pass and the loss-free
    evaluation of its residuals: the residual of a point is the mean over
    its observations of [(|ex| + |ey|) / 2]; the cutoff is the upper
    bracket of [find_outlier_brackets] over the means of the points that
    are seen, not GCP and not outliers so far, with
    [pct = 1 - p0 / 100] and the factor, clamped as
    [min (max e err1) err2]; and the new set of outliers is the old one
    together with exactly the points that are not GCP, not already
    outliers, and whose mean residual is above the cutoff. *)
Theorem update_outliers_flags_large_residuals (libs : Libraries)
  (ba_model : BAModel) (opt : Options) (cnet : ControlNetwork)
  (crn : CameraRelationNetwork) (num_camera_params num_cameras num_points : nat)
  (orig_cameras_vec cameras intrinsics points : list double) (O : gset nat)
  (g : Graph) (st : SolverState) :
  (forall a st b,
     length (block_residuals (ceres_lib libs) a st b) = num_residuals b) ->
  build_graph libs ba_model opt cnet crn num_camera_params point_params_n
    num_cameras num_points orig_cameras_vec cameras intrinsics points O
  = Ok g ->
  let r := mean_residual (ceres_lib libs) st (pow libs) ba_model opt O
             (build_count_map opt O crn) crn in
  let candidates := candidate_points cnet O crn in
  let e :=
    let '(p0, factor, err1, err2) := remove_outliers_params opt in
    let '(b, e) :=
      find_outlier_brackets libs (map r candidates)
        (dsub 1%float (ddiv p0 100%float)) factor in
    std_min (std_max e err1) err2 in
  exists O',
    update_outliers (find_outlier_brackets libs) (ceres_lib libs) opt cnet crn
      num_points O num_cameras num_camera_params point_params_n
      (g_cam_residual_counts g) (g_num_gcp_residuals g) (g_reference_vec g)
      (g_problem g) st
    = Ok (Z.of_nat (size O') - Z.of_nat (size O), O')
    /\ (forall i,
          i ∈ O'
          <-> i ∈ O
              \/ ((i ∉ O) /\ is_gcp cnet i = false /\ dgt (r i) e = true))
    /\ NoDup candidates
    /\ (forall i, i ∈ candidates <-> candidate cnet crn O i).
Proof.
  intros Hsize Hg. cbv zeta.
  pose proof (compute_residuals_graph libs ba_model opt cnet crn
                num_camera_params num_cameras num_points orig_cameras_vec
                cameras intrinsics points O g false st Hsize Hg) as Hres.
  apply build_graph_spec in Hg as (_ & (terrain & Hb & _) & _ & _ & _ & Hv).
  set (residuals := Evaluate (ceres_lib libs) false (g_problem g) st) in *.
  set (r := mean_residual (ceres_lib libs) st (pow libs) ba_model opt O
              (build_count_map opt O crn) crn).
  (* the mean stored for a point that is seen and not an outlier *)
  assert (Hmean : forall i,
            (exists f, f ∈ concat crn /\ m_point_id f = i) -> i ∉ O ->
            get_d (fst (compute_mean_residuals_at_xyz crn residuals
                          num_points O)) i = r i).
  { intros i [f [Hf Hi]] HnO. apply is_outlier_false in HnO.
    assert (Hlt : (i < num_points)%nat).
    { rewrite <- Hi in HnO. destruct (Hv f Hf HnO) as (Hlt & _).
      rewrite <- Hi. exact Hlt. }
    rewrite compute_mean_residuals_at_xyz_spec by assumption.
    unfold r, mean_residual. f_equal.
    subst residuals. unfold Evaluate. rewrite Hb.
    change (concat (map (block_residuals (ceres_lib libs) false st) ?l))
      with (eval_blocks (ceres_lib libs) false st l).
    rewrite eval_blocks_app. unfold reprojection_blocks.
    apply (errors_from_cameras (ceres_lib libs) st (pow libs) ba_model opt O
             (build_count_map opt O crn) Hsize i crn 0%nat []). }
  (* a point that no camera sees has no mean *)
  assert (Hunseen : forall i e,
            (forall f, f ∈ concat crn -> m_point_id f <> i) ->
            dgt (r i) e = false).
  { intros i e Hno. unfold r, mean_residual.
    rewrite point_blocks_nil by exact Hno. cbn [map].
    rewrite mean_of_nil. apply dgt_nan. }
  destruct (candidate_points_spec cnet O crn) as [Hnd Hcand].
  unfold update_outliers. rewrite Hres. cbn [mbind result_bind].
  destruct (compute_mean_residuals_at_xyz crn residuals num_points O)
    as [mr obs] eqn:Hmr.
  cbn [fst] in Hmean.
  assert (Hactual : collect_actual_residuals cnet crn O mr
                    = map r (candidate_points cnet O crn)).
  { rewrite collect_actual_residuals_spec. apply map_ext_in.
    intros i Hi. apply list_elem_of_In, Hcand in Hi.
    destruct Hi as (Hseen & HnO & _). apply Hmean; assumption. }
  rewrite Hactual. unfold outlier_cutoff.
  set (e := let '(p0, factor, max_pix1, max_pix2) :=
              remove_outliers_params opt in
            let '(_, e) :=
              find_outlier_brackets libs (map r (candidate_points cnet O crn))
                (dsub 1%float (ddiv p0 100%float)) factor in
            std_min (std_max e max_pix1) max_pix2).
  exists (add_new_outliers cnet crn O mr e).
  split; [reflexivity |]. split; [| split; [exact Hnd | exact Hcand]].
  intros i. rewrite add_new_outliers_spec. unfold candidate. split.
  - intros [Hi | [(Hseen & HnO & Hgcp) Hgt]]; [left; exact Hi | right].
    rewrite (Hmean i Hseen HnO) in Hgt. auto.
  - intros [Hi | (HnO & Hgcp & Hgt)]; [left; exact Hi | right].
    assert (Hseen : exists f, f ∈ concat crn /\ m_point_id f = i).
    { destruct (decide (Exists (fun f => m_point_id f = i) (concat crn)))
        as [Hex | Hnex].
      - apply Exists_exists in Hex as [f [Hf Hi]]. exists f. auto.
      - exfalso. rewrite Hunseen in Hgt; [discriminate |].
        intros f Hf Hi. apply Hnex. apply Exists_exists. exists f. auto. }
    split; [| rewrite (Hmean i Hseen HnO); exact Hgt].
    auto.
Qed.

Lemma one_point_graph_built_10 :
  build_graph (constant_libs 10%float) generic_model default_options
    one_point_cnet one_point_crn camera_params_n point_params_n 2 1
    (replicate 12 0%float) (replicate 12 0%float) []
    (points_of_cnet one_point_cnet 3) ∅
  = Ok one_point_graph.
Proof. vm_compute. reflexivity. Qed.

(** With residuals of 10 pixels the mean residual of the point is 10, the
    cutoff is 2, and the point is flagged. *)
Lemma update_outliers_flags_large_residuals_witness :
  exists O',
    update_outliers (find_outlier_brackets (constant_libs 10%float))
      (ceres_lib (constant_libs 10%float)) default_options one_point_cnet
      one_point_crn 1 ∅ 2 camera_params_n point_params_n
      (g_cam_residual_counts one_point_graph)
      (g_num_gcp_residuals one_point_graph)
      (g_reference_vec one_point_graph) (g_problem one_point_graph)
      one_point_state
    = Ok (Z.of_nat (size O') - Z.of_nat (size (∅ : gset nat)), O')
    /\ 0%nat ∈ O'.
Proof.
  destruct (update_outliers_flags_large_residuals (constant_libs 10%float)
              generic_model default_options one_point_cnet one_point_crn
              camera_params_n 2 1 (replicate 12 0%float)
              (replicate 12 0%float) [] (points_of_cnet one_point_cnet 3) ∅
              one_point_graph one_point_state (constant_ceres_sizes 10%float)
              one_point_graph_built_10) as (O' & Hu & Hin & _).
  exists O'. split; [exact Hu |]. apply Hin. right.
  split; [apply not_elem_of_empty |]. split; [reflexivity |].
  vm_compute. reflexivity.
Defined.

(* ================================================================= *)
(** ** The similarity transform of apply_rigid_transform *)

(** The inverse of the similarity [x -> s R x + t] is the similarity of
    rotation [transpose R], scale [1/s] and translation
    [-(1/s) (transpose R) t]. *)
Section InverseTransform.

Context {T : Type} (zero : T) (add mul : T -> T -> T) (opp inv : T -> T).

Definition scale_vector (s : T) (x : T * T * T) : T * T * T :=
  let '(x0, x1, x2) := x in (mul s x0, mul s x1, mul s x2).

Definition inverse_transform
  (rotation : (T * T * T) * (T * T * T) * (T * T * T))
  (translation : T * T * T) (scale : T)
  : ((T * T * T) * (T * T * T) * (T * T * T)) * (T * T * T) * T :=
  (transpose rotation,
   scale_vector (opp (inv scale))
     (matrix_vector zero add mul (transpose rotation) translation),
   inv scale).

End InverseTransform.

(** The formula of the code and the inverse, on doubles. *)
Definition double_inverse (rotation : Matrix3x3) (translation : Vector3)
  (scale : double) : Matrix3x3 * Vector3 * double :=
  inverse_transform 0%float dadd dmul PrimFloat.opp (fun s => ddiv 1%float s)
    rotation translation scale.

Definition identity3 : Matrix3x3 :=
  ((1, 0, 0), (0, 1, 0), (0, 0, 1))%float.

(** Two vectors that differ by at most [tol] in every coordinate. *)
Definition within (tol : double) (a b : Vector3) : bool :=
  let '(a0, a1, a2) := a in
  let '(b0, b1, b2) := b in
  dle (fabs (dsub a0 b0)) tol && dle (fabs (dsub a1 b1)) tol
  && dle (fabs (dsub a2 b2)) tol.

(** The same formula on real numbers. *)
Definition RVector3 : Type := (R * R * R)%type.
Definition RMatrix3x3 : Type := (RVector3 * RVector3 * RVector3)%type.

Definition real_similarity (rotation : RMatrix3x3) (translation : RVector3)
  (scale : R) (position : RVector3) : RVector3 :=
  similarity 0%R Rplus Rmult rotation translation scale position.

(** The tolerance of one part in a thousand million. *)
Definition tolerance : double := 0x1.12e0be826d695p-30%float.

Definition tie_point_at (position : Vector3) : ControlPoint :=
  {| cp_type := TiePoint; cp_position := position;
     cp_sigma := (1, 1, 1)%float |}.

Definition gcp_at (position : Vector3) : ControlPoint :=
  {| cp_type := GroundControlPoint; cp_position := position;
     cp_sigma := (1, 1, 1)%float |}.

(** The vocabulary of the analysis of the rounding errors. *)

(** What a shift to the right keeps of the integer [M]: the quotient by [T]
    in [shr_m], and in the two other bits whether the remainder reaches the
    half of [T] and whether it is more than that. *)
Definition shr_inv (M T : Z) (mrs : shr_record) : Prop :=
  0 <= shr_m mrs
  /\ exists rest,
       M = shr_m mrs * T + rest /\ 0 <= rest < T
       /\ (shr_r mrs = true -> T <= 2 * rest)
       /\ (shr_r mrs = false -> 2 * rest < T)
       /\ (shr_s mrs = false -> rest = 0 \/ 2 * rest = T).

(** [r] is the finite number [m * 2^e] with the sign [s]; [m] is not
    negative. *)
Definition SF_is (r : spec_float) (s : bool) (m e : Z) : Prop :=
  match r with
  | S754_zero s' => s' = s /\ m = 0
  | S754_finite s' p e' =>
      s' = s /\ exists k, 0 <= k /\ e' = e + k /\ m = Zpos p * 2 ^ k
  | _ => False
  end.

(** Half a unit in the last place, relative to a normal number, and half
    the smallest subnormal number. *)
Definition eps64 : R := bpow (-53).
Definition eta64 : R := bpow (-1075).

(** [eps64] and a bound of [eta64] as numerals, and a bound under which nothing
    overflows. *)
Definition eps : R := (/ 9007199254740992)%R.
Definition eta_bound : R := (/ 1267650600228229401496703205376)%R.
Definition safe_bound : R := 1267650600228229401496703205376%R.

(** The double [x] is a number, and stands for the real number [X], of
    magnitude at most [A], with an error of at most [E]. *)
Definition approx (x : float) (X A E : R) : Prop :=
  is_number x = true /\ (Rabs X <= A)%R /\ (Rabs (to_R x - X) <= E)%R.

Definition vec_R (x : Vector3) : RVector3 :=
  let '(x0, x1, x2) := x in (to_R x0, to_R x1, to_R x2).

Definition mat_R (M : Matrix3x3) : RMatrix3x3 :=
  let '(r0, r1, r2) := M in (vec_R r0, vec_R r1, vec_R r2).

(** A double that is a number of magnitude at most [B]. *)
Definition bounded_by (B : R) (x : double) : Prop :=
  is_number x = true /\ (Rabs (to_R x) <= B)%R.

Definition vec_bounded (B : R) (x : Vector3) : Prop :=
  let '(x0, x1, x2) := x in
  bounded_by B x0 /\ bounded_by B x1 /\ bounded_by B x2.

Definition mat_bounded (B : R) (M : Matrix3x3) : Prop :=
  let '(r0, r1, r2) := M in
  vec_bounded B r0 /\ vec_bounded B r1 /\ vec_bounded B r2.

Definition approx3 (x : Vector3) (X : RVector3) (A E : R) : Prop :=
  let '(x0, x1, x2) := x in
  let '(X0, X1, X2) := X in
  approx x0 X0 A E /\ approx x1 X1 A E /\ approx x2 X2 A E.

Definition approx33 (M : Matrix3x3) (XM : RMatrix3x3) (A E : R) : Prop :=
  let '(r0, r1, r2) := M in
  let '(X0, X1, X2) := XM in
  approx3 r0 X0 A E /\ approx3 r1 X1 A E /\ approx3 r2 X2 A E.

(** The columns of the matrix are orthonormal to within [tol]. *)
Definition orthonormal_within (tol : R) (rotation : RMatrix3x3) : Prop :=
  let '(c0, c1, c2) := transpose rotation in
  let dot := dot_prod 0%R Rplus Rmult in
  (Rabs (dot c0 c0 - 1) <= tol /\ Rabs (dot c1 c1 - 1) <= tol
   /\ Rabs (dot c2 c2 - 1) <= tol /\ Rabs (dot c0 c1) <= tol
   /\ Rabs (dot c0 c2) <= tol /\ Rabs (dot c1 c2) <= tol)%R.

Definition Rvec_within (tol : R) (a b : RVector3) : Prop :=
  let '(a0, a1, a2) := a in
  let '(b0, b1, b2) := b in
  (Rabs (a0 - b0) <= tol /\ Rabs (a1 - b1) <= tol /\ Rabs (a2 - b2) <= tol)%R.

Definition Rvec_bounded (B : R) (a : RVector3) : Prop :=
  let '(a0, a1, a2) := a in
  (Rabs a0 <= B /\ Rabs a1 <= B /\ Rabs a2 <= B)%R.

(** Two doubles, the first one a number, that differ by at most [tol]. *)
Definition close (tol : R) (a b : double) : Prop :=
  is_number a = true /\ (Rabs (to_R a - to_R b) <= tol)%R.

Definition vec_close (tol : R) (a b : Vector3) : Prop :=
  let '(a0, a1, a2) := a in
  let '(b0, b1, b2) := b in
  close tol a0 b0 /\ close tol a1 b1 /\ close tol a2 b2.

Definition mat_close (tol : R) (A B : Matrix3x3) : Prop :=
  let '(a0, a1, a2) := A in
  let '(b0, b1, b2) := B in
  vec_close tol a0 b0 /\ vec_close tol a1 b1 /\ vec_close tol a2 b2.

(** The transform [(R, t, s)] is one of doubles that are numbers: a scale
    of at most 2, a matrix with entries of at most 1 whose columns are
    orthonormal to within [2^-48], and a translation of at most [M]. *)
Definition similarity_of_size (M : R) (rotation : Matrix3x3)
  (translation : Vector3) (scale : double) : Prop :=
  bounded_by 2 scale /\ mat_bounded 1 rotation
  /\ vec_bounded M translation
  /\ orthonormal_within (/ 2 ^ 48) (mat_R rotation).

(** [(transpose R, t', s')] is the inverse of [(R, t, s)] up to rounding:
    [s' s] is 1 to within [2^-48], and the inverse takes [t], the image of
    the origin, back to the origin to within [M 2^-46]. *)
Definition inverse_up_to_rounding (M : R) (rotation : Matrix3x3)
  (translation : Vector3) (scale : double) (translation' : Vector3)
  (scale' : double) : Prop :=
  bounded_by 2 scale' /\ vec_bounded (7 * M) translation'
  /\ (Rabs (to_R scale' * to_R scale - 1) <= / 2 ^ 48)%R
  /\ Rvec_within (M / 2 ^ 46)
       (real_similarity (transpose (mat_R rotation)) (vec_R translation')
          (to_R scale') (vec_R translation))
       (0, 0, 0)%R.

(** The tolerance of the round trip for coordinates of at most [M]. *)
Definition round_trip_tolerance (M : R) : R :=
  (M / 1000 * / 1000000000)%R.

(** The quarter turn about the third axis, the translation (1, 2, 3) and
    the scale 2; the inverse has the scale 1/2 and the translation
    (-1, 1/2, -3/2). One camera at (4, 5, 6), one tie point there and one
    ground control point. *)
Definition quarter_turn : Matrix3x3 :=
  ((0, -1, 0), (1, 0, 0), (0, 0, 1))%float.

Definition pinhole_at (center : Vector3) : Pinhole :=
  {| pinhole_center := center; pinhole_pose := identity3 |}.

(** C8 (counterexample).  With the identity as rotation, scale 1 and a
    translation of 2^53 along the first axis, the tie point (1, 0, 0) is
    moved to (2^53, 0, 0), the sum 1 + 2^53 being rounded to 2^53, and the
    inverse transform moves it to (0, 0, 0): the round trip is off by 1 in
    the first coordinate.  And with scale 2 a ground control point at
    (1, 2, 3) stays where it is, while s R x + t is (2, 4, 6). *)
Lemma rigid_transform_round_trip_off_by_one :
  let translation := (0x1p+53, 0, 0)%float in
  let back := (-0x1p+53, -0, -0)%float in
  let transform := apply_rigid_transform unit (fun _ _ _ pincam => pincam) in
  double_inverse identity3 translation 1%float = (identity3, back, 1%float)
  /\ transform identity3 translation 1%float [] [tie_point_at (1, 0, 0)%float]
     = Ok ([], [tie_point_at (0x1p+53, 0, 0)%float])
  /\ transform identity3 back 1%float [] [tie_point_at (0x1p+53, 0, 0)%float]
     = Ok ([], [tie_point_at (0, 0, 0)%float])
  /\ within tolerance (0, 0, 0)%float (1, 0, 0)%float = false
  /\ transform identity3 zero3 2%float [] [gcp_at (1, 2, 3)%float]
     = Ok ([], [gcp_at (1, 2, 3)%float])
  /\ similarity 0%float dadd dmul identity3 zero3 2%float (1, 2, 3)%float
     = (2, 4, 6)%float
  /\ within tolerance (1, 2, 3)%float (2, 4, 6)%float = false.
Proof. vm_compute. repeat split; reflexivity. Qed.

Lemma transform_cameras_pinhole (PinholeModel : Type)
  (apply_transform : Matrix3x3 -> Vector3 -> double -> PinholeModel -> PinholeModel)
  rotation translation scale (pincams : list PinholeModel) :
  transform_cameras PinholeModel apply_transform rotation translation scale
    (map PinholeCamera pincams)
  = Ok (map (fun pincam =>
               PinholeCamera (apply_transform rotation translation scale pincam))
          pincams).
Proof.
  induction pincams as [| pincam rest IH]; [reflexivity |].
  cbn [map transform_cameras transform_camera]. rewrite IH. reflexivity.
Qed.

Lemma transform_point_spec rotation translation scale cp :
  cp_type (transform_point rotation translation scale cp) = cp_type cp
  /\ cp_sigma (transform_point rotation translation scale cp) = cp_sigma cp
  /\ cp_position (transform_point rotation translation scale cp)
     = match cp_type cp with
       | GroundControlPoint => cp_position cp
       | TiePoint =>
           similarity 0%float dadd dmul rotation translation scale
             (cp_position cp)
       end.
Proof.
  unfold transform_point. destruct (cp_type cp) eqn:Htype; cbn; auto.
Qed.

(* ================================================================= *)
(** ** The rounding of the arithmetic of doubles

    The specification of the primitive floats rounds a product or a sum
    with [binary_round_aux]: a shift to the right that keeps a rounding
    bit and a sticky bit, and rounding to the nearest, ties to even. *)

Lemma shr_1_inv (M T : Z) (mrs : shr_record) :
  0 < T -> shr_inv M T mrs -> shr_inv M (2 * T) (shr_1 mrs).
Proof.
  intros HT (Hm & rest & HM & Hrest & Hr & Hnr & Hs).
  destruct mrs as [m r s]. cbn [shr_m shr_r shr_s] in *.
  assert (Hrs : orb r s = false -> rest = 0).
  { intros H. apply orb_false_iff in H as [-> ->].
    specialize (Hnr eq_refl). destruct (Hs eq_refl); lia. }
  unfold shr_inv.
  destruct m as [| [p | p |] | p]; cbn [shr_1 shr_m shr_r shr_s]; try lia.
  - split; [lia |]. exists rest. split; [lia |]. split; [lia |].
    split; [discriminate |]. split; [lia |].
    intros H. left. exact (Hrs H).
  - split; [lia |]. exists (T + rest). split; [lia |]. split; [lia |].
    split; [lia |]. split; [discriminate |].
    intros H. right. rewrite (Hrs H). lia.
  - split; [lia |]. exists rest. split; [lia |]. split; [lia |].
    split; [discriminate |]. split; [lia |].
    intros H. left. exact (Hrs H).
  - split; [lia |]. exists (T + rest). split; [lia |]. split; [lia |].
    split; [lia |]. split; [discriminate |].
    intros H. right. rewrite (Hrs H). lia.
Qed.

Lemma iter_pos_shr_inv (M : Z) (p : positive) :
  forall T mrs,
  0 < T -> shr_inv M T mrs ->
  shr_inv M (T * 2 ^ Zpos p) (SpecFloat.iter_pos shr_1 p mrs).
Proof.
  induction p as [p IH | p IH |]; intros T mrs HT Hinv; cbn [SpecFloat.iter_pos].
  - replace (T * 2 ^ Zpos p~1) with (2 * T * 2 ^ Zpos p * 2 ^ Zpos p).
    + apply IH; [nia |]. apply IH; [lia |]. apply shr_1_inv; assumption.
    + rewrite (Pos2Z.inj_xI p).
      replace (2 * Z.pos p + 1) with (Z.pos p + Z.pos p + 1) by lia.
      rewrite !Z.pow_add_r by lia. ring.
  - replace (T * 2 ^ Zpos p~0) with (T * 2 ^ Zpos p * 2 ^ Zpos p).
    + apply IH; [nia |]. apply IH; assumption.
    + rewrite (Pos2Z.inj_xO p).
      replace (2 * Z.pos p) with (Z.pos p + Z.pos p) by lia.
      rewrite !Z.pow_add_r by lia. ring.
  - replace (T * 2 ^ 1) with (2 * T) by lia. apply shr_1_inv; assumption.
Qed.

Lemma shr_inv_start (M : Z) :
  0 <= M -> shr_inv M 1 (shr_record_of_loc M loc_Exact).
Proof.
  intros HM. split; [exact HM |]. exists 0. cbn. repeat split; auto; lia.
Qed.

(** Rounding to the nearest, ties to even, after the shift. *)
Lemma round_nearest_even_inv (M T : Z) (mrs : shr_record) :
  0 < T -> shr_inv M T mrs ->
  let m1 := round_nearest_even (shr_m mrs) (loc_of_shr_record mrs) in
  shr_m mrs <= m1 <= shr_m mrs + 1 /\ 2 * Z.abs (m1 * T - M) <= T.
Proof.
  intros HT (Hm & rest & HM & Hrest & Hr & Hnr & Hs). cbv zeta.
  destruct mrs as [m [|] [|]]; cbn [shr_m shr_r shr_s loc_of_shr_record
    round_nearest_even] in *.
  - specialize (Hr eq_refl). split; [lia |]. nia.
  - specialize (Hr eq_refl). destruct (Hs eq_refl) as [H0 | Hhalf]; [lia |].
    destruct (Z.even m); (split; [lia |]); nia.
  - specialize (Hnr eq_refl). split; [lia |]. nia.
  - specialize (Hnr eq_refl). split; [lia |]. nia.
Qed.

Lemma digits2_pos_size (p : positive) : digits2_pos p = Pos.size p.
Proof. induction p as [p IH | p IH |]; cbn; congruence. Qed.

Lemma digits2_pos_bounds (p : positive) :
  2 ^ (Zpos (digits2_pos p) - 1) <= Zpos p < 2 ^ Zpos (digits2_pos p).
Proof.
  rewrite digits2_pos_size.
  pose proof (Pos.size_gt p) as Hgt. pose proof (Pos.size_le p) as Hle.
  apply Pos2Z.pos_lt_pos in Hgt. apply Pos2Z.pos_le_pos in Hle.
  rewrite Pos2Z.inj_pow in Hgt, Hle.
  split; [| exact Hgt].
  assert (H2 : 2 ^ Zpos (Pos.size p) = 2 * 2 ^ (Zpos (Pos.size p) - 1)).
  { rewrite <- Z.pow_succ_r by lia. f_equal. lia. }
  lia.
Qed.

Lemma digits2_pos_le (p : positive) (k : Z) :
  0 <= k -> Zpos p < 2 ^ k -> Zpos (digits2_pos p) <= k.
Proof.
  intros Hk Hp. pose proof (digits2_pos_bounds p) as [Hlo _].
  assert (H : 2 ^ (Zpos (digits2_pos p) - 1) < 2 ^ k) by lia.
  apply Z.pow_lt_mono_r_iff in H; lia.
Qed.

Lemma fexp_ge_emin (e : Z) : -1074 <= fexp 53 1024 e.
Proof. unfold fexp, emin. lia. Qed.

(** The second shift of [binary_round_aux] leaves a mantissa of at most 53
    bits as it is, and halves [2^53]. *)
Lemma shr_fexp_rounded (sx : bool) (m1 e1 : Z) :
  0 <= m1 <= 2 ^ 53 -> -1074 <= e1 <= 970 ->
  SF_is
    (let '(mrs'', e'') := shr_fexp 53 1024 m1 e1 loc_Exact in
     match shr_m mrs'' with
     | Z0 => S754_zero sx
     | Zpos m =>
         if Z.leb e'' (1024 - 53) then S754_finite sx m e''
         else S754_infinity sx
     | _ => S754_nan
     end) sx m1 e1.
Proof.
  intros Hm He. unfold shr_fexp.
  destruct m1 as [| q |]; [| | lia].
  - cbn [Zdigits2 shr_record_of_loc]. unfold shr.
    destruct (fexp 53 1024 (0 + e1) - e1) eqn:Hn; cbn [shr_m SF_is];
      try (split; reflexivity).
    unfold fexp, emin in Hn. lia.
  - cbn [Zdigits2 shr_record_of_loc].
    destruct (Z.eq_dec (Zpos q) (2 ^ 53)) as [Hq | Hq].
    + assert (Hq' : q = 9007199254740992%positive)
        by (change (2 ^ 53) with 9007199254740992 in Hq; congruence).
      subst q. clear Hq.
      replace (fexp 53 1024 (Zpos (digits2_pos 9007199254740992) + e1) - e1)
        with 1.
      * cbn [shr SpecFloat.iter_pos shr_1 shr_m].
        replace (e1 + 1 <=? 1024 - 53) with true
          by (symmetry; apply Z.leb_le; lia).
        cbn [SF_is].
        split; [reflexivity |]. exists 1. split; [lia |]. split; reflexivity.
      * change (Zpos (digits2_pos 9007199254740992)) with 54.
        unfold fexp, emin. lia.
    + assert (Hd : Zpos (digits2_pos q) <= 53).
      { apply digits2_pos_le; lia. }
      unfold shr.
      destruct (fexp 53 1024 (Zpos (digits2_pos q) + e1) - e1) eqn:Hn;
        cbn [shr_m].
      * replace (e1 <=? 1024 - 53) with true
          by (symmetry; apply Z.leb_le; lia).
        cbn [SF_is].
        split; [reflexivity |]. exists 0. split; [lia |].
        split; [lia |]. rewrite Z.pow_0_r. lia.
      * unfold fexp, emin in Hn. lia.
      * replace (e1 <=? 1024 - 53) with true
          by (symmetry; apply Z.leb_le; lia).
        cbn [SF_is].
        split; [reflexivity |]. exists 0. split; [lia |].
        split; [lia |]. rewrite Z.pow_0_r. lia.
Qed.

(** The result of [binary_round_aux] on the positive integer [mx] at the
    exponent [ex]: a multiple [m1] of [2^E], where [E] is the larger of [ex]
    and of the exponent of the format for numbers of this magnitude, at
    most half a unit away. *)
Lemma binary_round_aux_spec (sx : bool) (mx : positive) (ex : Z) :
  let E := Z.max (fexp 53 1024 (Zpos (digits2_pos mx) + ex)) ex in
  Zpos (digits2_pos mx) + ex <= 1023 -> ex <= 970 ->
  exists m1,
    SF_is (binary_round_aux 53 1024 sx (Zpos mx) ex loc_Exact) sx m1 E
    /\ 0 <= m1
    /\ 2 * Z.abs (m1 * 2 ^ (E - ex) - Zpos mx) <= 2 ^ (E - ex).
Proof.
  cbv zeta. intros Hmag Hex.
  unfold binary_round_aux.
  set (e1 := fexp 53 1024 (Zpos (digits2_pos mx) + ex)).
  assert (He1 : -1074 <= e1 <= 970).
  { subst e1. unfold fexp, emin. lia. }
  pose proof (digits2_pos_bounds mx) as [Hlo Hhi].
  unfold shr_fexp at 1. cbn [Zdigits2 shr_record_of_loc]. fold e1.
  unfold shr at 1.
  destruct (e1 - ex) as [| p | p] eqn:Hn.
  - (* no shift *)
    cbn [shr_m loc_of_shr_record round_nearest_even].
    exists (Zpos mx). replace (Z.max e1 ex) with ex by lia.
    split; [| split; [lia |]].
    + assert (Hd : Zpos (digits2_pos mx) <= 53).
      { subst e1. unfold fexp, emin in Hn. lia. }
      apply shr_fexp_rounded; [| lia].
      split; [lia |].
      assert (2 ^ Zpos (digits2_pos mx) <= 2 ^ 53)
        by (apply Z.pow_le_mono_r; lia).
      lia.
    + rewrite Z.sub_diag. cbn. lia.
  - (* a shift by [p] bits *)
    pose proof (iter_pos_shr_inv (Zpos mx) p 1
                  (shr_record_of_loc (Zpos mx) loc_Exact) ltac:(lia)
                  (shr_inv_start (Zpos mx) ltac:(lia))) as Hinv.
    cbn [shr_record_of_loc] in Hinv.
    set (mrs := SpecFloat.iter_pos shr_1 p _) in *.
    rewrite Z.mul_1_l in Hinv.
    assert (HT : 0 < 2 ^ Zpos p) by (apply Z.pow_pos_nonneg; lia).
    pose proof (round_nearest_even_inv _ _ _ HT Hinv) as [Hm1 Herr].
    cbv zeta in Hm1, Herr.
    set (m1 := round_nearest_even (shr_m mrs) (loc_of_shr_record mrs)) in *.
    destruct Hinv as (Hm & rest & HM & Hrest & _).
    exists m1. replace (Z.max e1 ex) with e1 by lia.
    replace (ex + Zpos p) with e1 by lia.
    replace (e1 - ex) with (Zpos p) by lia.
    split; [| split; [lia | exact Herr]].
    apply shr_fexp_rounded; [| lia].
    split; [lia |].
    (* the mantissa after the shift has at most 53 bits *)
    assert (Hd : Zpos (digits2_pos mx) <= 53 + Zpos p).
    { subst e1. unfold fexp, emin in Hn. lia. }
    assert (Hpow : 2 ^ Zpos (digits2_pos mx) <= 2 ^ (53 + Zpos p))
      by (apply Z.pow_le_mono_r; lia).
    rewrite Z.pow_add_r in Hpow by lia.
    assert (shr_m mrs < 2 ^ 53) by nia.
    lia.
  - (* no shift *)
    cbn [shr_m loc_of_shr_record round_nearest_even].
    exists (Zpos mx). replace (Z.max e1 ex) with ex by lia.
    split; [| split; [lia |]].
    + assert (Hd : Zpos (digits2_pos mx) <= 53).
      { subst e1. unfold fexp, emin in Hn. lia. }
      apply shr_fexp_rounded; [| lia].
      split; [lia |].
      assert (2 ^ Zpos (digits2_pos mx) <= 2 ^ 53)
        by (apply Z.pow_le_mono_r; lia).
      lia.
    + rewrite Z.sub_diag. cbn. lia.
Qed.

Lemma bpow_pos (e : Z) : (0 < bpow e)%R.
Proof. apply powerRZ_lt. lra. Qed.

Lemma bpow_add (a b : Z) : bpow (a + b) = (bpow a * bpow b)%R.
Proof. apply powerRZ_add. lra. Qed.

Lemma bpow_IZR (k : Z) : 0 <= k -> bpow k = IZR (2 ^ k).
Proof.
  intros Hk. unfold bpow. destruct k as [| p | p]; [reflexivity | | lia].
  symmetry. apply (Zpower_pos_powerRZ 2 p).
Qed.

Lemma bpow_le (a b : Z) : a <= b -> (bpow a <= bpow b)%R.
Proof.
  intros H. replace b with (a + (b - a)) by lia.
  rewrite bpow_add, (bpow_IZR (b - a)) by lia.
  assert (H1 : (1 <= IZR (2 ^ (b - a)))%R).
  { apply IZR_le. assert (0 < 2 ^ (b - a)) by (apply Z.pow_pos_nonneg; lia).
    lia. }
  pose proof (bpow_pos a). nra.
Qed.

Lemma bpow_lt_inv (a b : Z) : (bpow a < bpow b)%R -> a < b.
Proof.
  intros H. destruct (Z_lt_le_dec a b) as [Hlt | Hge]; [exact Hlt |].
  apply bpow_le in Hge. lra.
Qed.

Lemma bpow_half (e : Z) : (bpow (e - 1) = bpow e / 2)%R.
Proof.
  replace e with ((e - 1) + 1) at 2 by lia. rewrite bpow_add.
  change (bpow 1) with (2 * 1)%R. lra.
Qed.

Lemma Rabs_sign_R (s : bool) (x : R) : Rabs (sign_R s * x) = Rabs x.
Proof.
  destruct s; cbn [sign_R].
  - replace (-1 * x)%R with (- x)%R by lra. apply Rabs_Ropp.
  - f_equal. lra.
Qed.

Lemma SF_is_R (r : spec_float) (s : bool) (m e : Z) :
  SF_is r s m e ->
  SF_finite r = true /\ SFR r = (sign_R s * IZR m * bpow e)%R.
Proof.
  destruct r as [s' | s' | | s' p e']; cbn [SF_is SF_finite SFR];
    try contradiction.
  - intros [-> ->]. split; [reflexivity | lra].
  - intros (-> & k & Hk & -> & ->). split; [reflexivity |].
    rewrite mult_IZR, bpow_add, <- (bpow_IZR k Hk). lra.
Qed.

Lemma binary_round_aux_R (sx : bool) (mx : positive) (ex : Z) :
  let v := (IZR (Zpos mx) * bpow ex)%R in
  (v < bpow 1023)%R -> ex <= 970 ->
  let r := binary_round_aux 53 1024 sx (Zpos mx) ex loc_Exact in
  SF_finite r = true
  /\ (Rabs (SFR r - sign_R sx * v) <= eps64 * v + eta64)%R.
Proof.
  cbv zeta. intros Hv Hex.
  pose proof (digits2_pos_bounds mx) as [Hlo Hhi].
  set (d := Zpos (digits2_pos mx)) in *.
  assert (Hvlo : (bpow (d - 1 + ex) <= IZR (Zpos mx) * bpow ex)%R).
  { rewrite bpow_add, (bpow_IZR (d - 1)) by lia.
    apply Rmult_le_compat_r; [apply Rlt_le, bpow_pos |].
    apply IZR_le. exact Hlo. }
  assert (Hmag : d + ex <= 1023).
  { assert (H : d - 1 + ex < 1023); [| lia].
    apply bpow_lt_inv. lra. }
  destruct (binary_round_aux_spec sx mx ex Hmag Hex)
    as (m1 & His & Hm1 & Herr).
  fold d in His, Herr.
  set (E := Z.max (fexp 53 1024 (d + ex)) ex) in *.
  apply SF_is_R in His as [Hfin HR]. split; [exact Hfin |].
  rewrite HR.
  assert (HE : ex <= E) by lia.
  assert (Hpos : (0 < bpow ex)%R) by apply bpow_pos.
  assert (Hval : (sign_R sx * IZR m1 * bpow E
                  - sign_R sx * (IZR (Zpos mx) * bpow ex)
                  = sign_R sx
                    * (IZR (m1 * 2 ^ (E - ex) - Zpos mx) * bpow ex))%R).
  { replace E with ((E - ex) + ex) at 1 by lia.
    rewrite bpow_add, (bpow_IZR (E - ex)) by lia.
    rewrite minus_IZR, mult_IZR. ring. }
  rewrite Hval, Rabs_sign_R, Rabs_mult, (Rabs_pos_eq (bpow ex))
    by (apply Rlt_le, Hpos).
  rewrite <- abs_IZR.
  assert (Hu : (0 <= eps64 * (IZR (Zpos mx) * bpow ex))%R).
  { apply Rmult_le_pos; [apply Rlt_le, bpow_pos |].
    apply Rmult_le_pos; [apply IZR_le; lia | lra]. }
  assert (Heta : (0 < eta64)%R) by apply bpow_pos.
  destruct (Z.eq_dec E ex) as [HEex | HEex].
  - (* nothing is rounded *)
    rewrite HEex, Z.sub_diag, Z.pow_0_r in Herr.
    replace (E - ex) with 0 by lia. rewrite Z.pow_0_r.
    replace (Z.abs (m1 * 1 - Zpos mx)) with 0 by lia.
    rewrite Rmult_0_l. lra.
  - assert (HE1 : E = fexp 53 1024 (d + ex)) by lia.
    assert (Hhalf : (IZR (Z.abs (m1 * 2 ^ (E - ex) - Zpos mx)) * bpow ex
                     <= bpow (E - 1))%R).
    { rewrite bpow_half. replace E with ((E - ex) + ex) at 2 by lia.
      rewrite bpow_add, (bpow_IZR (E - ex)) by lia.
      apply IZR_le in Herr. rewrite mult_IZR in Herr.
      assert (H2 : (IZR (Z.abs (m1 * 2 ^ (E - ex) - Zpos mx))
                    <= IZR (2 ^ (E - ex)) / 2)%R) by lra.
      apply (Rmult_le_compat_r (bpow ex)) in H2; [lra | lra]. }
    eapply Rle_trans; [exact Hhalf |].
    unfold fexp, emin in HE1.
    destruct (Z_le_dec (d + ex - 53) (3 - 1024 - 53)) as [Hsub | Hnorm].
    + replace (E - 1) with (-1075) by lia. fold eta64. lra.
    + replace (E - 1) with ((-53) + (d - 1 + ex)) by lia.
      rewrite bpow_add. fold eps64.
      assert ((eps64 * bpow (d - 1 + ex) <= eps64 * (IZR (Zpos mx) * bpow ex))%R).
      { apply Rmult_le_compat_l; [apply Rlt_le, bpow_pos | exact Hvlo]. }
      lra.
Qed.

Lemma sign_R_xorb (a b : bool) :
  sign_R (xorb a b) = (sign_R a * sign_R b)%R.
Proof. destruct a, b; cbn; lra. Qed.

Lemma Rabs_SFR_finite (s : bool) (m : positive) (e : Z) :
  Rabs (SFR (S754_finite s m e)) = (IZR (Zpos m) * bpow e)%R.
Proof.
  cbn [SFR]. rewrite Rmult_assoc, Rabs_sign_R. apply Rabs_pos_eq.
  apply Rmult_le_pos; [apply IZR_le; lia | apply Rlt_le, bpow_pos].
Qed.

(** A valid mantissa has 53 bits unless the exponent is the least one. *)
Lemma bounded_normal (m : positive) (e : Z) :
  SpecFloat.bounded 53 1024 m e = true ->
  e <= 971 /\ (Zpos (digits2_pos m) = 53 \/ e = -1074).
Proof.
  unfold SpecFloat.bounded, canonical_mantissa, fexp, emin. intros H.
  apply andb_true_iff in H as [Hc He].
  apply Z.eqb_eq in Hc. apply Z.leb_le in He. lia.
Qed.

Lemma finite_lower_bound (m : positive) (e : Z) :
  (bpow (Zpos (digits2_pos m) - 1 + e) <= IZR (Zpos m) * bpow e)%R.
Proof.
  pose proof (digits2_pos_bounds m) as [Hlo _].
  rewrite bpow_add, (bpow_IZR (Zpos (digits2_pos m) - 1)) by lia.
  apply Rmult_le_compat_r; [apply Rlt_le, bpow_pos |].
  apply IZR_le. exact Hlo.
Qed.

(** The product of two finite doubles is their product as real numbers,
    rounded: unless it overflows, it is finite and off by at most
    [eps64 * |x * y| + eta64]. *)
Lemma SFmul_R (x y : spec_float) :
  SpecFloat.valid_binary 53 1024 x = true ->
  SpecFloat.valid_binary 53 1024 y = true ->
  SF_finite x = true -> SF_finite y = true ->
  (Rabs (SFR x * SFR y) < bpow 1023)%R ->
  SF_finite (SFmul 53 1024 x y) = true
  /\ (Rabs (SFR (SFmul 53 1024 x y) - SFR x * SFR y)
      <= eps64 * Rabs (SFR x * SFR y) + eta64)%R.
Proof.
  intros Hvx Hvy Hfx Hfy Hmag.
  assert (Hzero : forall r, SF_finite r = true -> SFR r = 0%R ->
            (SFR x * SFR y = 0)%R ->
            SF_finite r = true
            /\ (Rabs (SFR r - SFR x * SFR y)
                <= eps64 * Rabs (SFR x * SFR y) + eta64)%R).
  { intros r Hr Hr0 H0. split; [exact Hr |]. rewrite Hr0, H0.
    replace (0 - 0)%R with 0%R by lra. rewrite Rabs_R0.
    pose proof (bpow_pos (-1075)). unfold eta64. lra. }
  destruct x as [sx | sx | | sx mx ex]; try discriminate;
    destruct y as [sy | sy | | sy my ey]; try discriminate;
    cbn [SFmul].
  1-3: apply Hzero; cbn [SF_finite SFR]; try reflexivity; lra.
  cbn [SpecFloat.valid_binary] in Hvx, Hvy.
  apply bounded_normal in Hvx as [Hex Hnx].
  apply bounded_normal in Hvy as [Hey Hny].
  rewrite Rabs_mult, !Rabs_SFR_finite in Hmag.
  assert (Hv : (IZR (Zpos (mx * my)) * bpow (ex + ey)
                = IZR (Zpos mx) * bpow ex * (IZR (Zpos my) * bpow ey))%R).
  { rewrite Pos2Z.inj_mul, mult_IZR, bpow_add. ring. }
  assert (Hexp : ex + ey <= 970).
  { pose proof (finite_lower_bound mx ex) as Hlx.
    pose proof (finite_lower_bound my ey) as Hly.
    pose proof (bpow_pos (Zpos (digits2_pos mx) - 1 + ex)) as Hpx.
    pose proof (bpow_pos (Zpos (digits2_pos my) - 1 + ey)) as Hpy.
    assert (Hprod : (bpow ((Zpos (digits2_pos mx) - 1 + ex)
                           + (Zpos (digits2_pos my) - 1 + ey))
                     < bpow 1023)%R).
    { rewrite bpow_add. nra. }
    apply bpow_lt_inv in Hprod.
    pose proof (Pos2Z.is_pos (digits2_pos mx)).
    pose proof (Pos2Z.is_pos (digits2_pos my)).
    lia. }
  destruct (binary_round_aux_R (xorb sx sy) (mx * my) (ex + ey))
    as [Hfin Herr]; [rewrite Hv; exact Hmag | exact Hexp |].
  split; [exact Hfin |].
  rewrite Rabs_mult, !Rabs_SFR_finite, <- Hv.
  replace (SFR (S754_finite sx mx ex) * SFR (S754_finite sy my ey))%R
    with (sign_R (xorb sx sy)
          * (IZR (Zpos (mx * my)) * bpow (ex + ey)))%R; [exact Herr |].
  rewrite Hv, sign_R_xorb. cbn [SFR]. ring.
Qed.

Lemma shl_align_spec (mx : positive) (ex ex' : Z) :
  let '(mz, ez) := shl_align mx ex ex' in
  ez = Z.min ex ex' /\ Zpos mz = Zpos mx * 2 ^ (ex - ez).
Proof.
  unfold shl_align. destruct (ex' - ex) as [| d | d] eqn:Hd.
  - split; [lia |]. rewrite Z.sub_diag, Z.pow_0_r. lia.
  - split; [lia |]. rewrite Z.sub_diag, Z.pow_0_r. lia.
  - split; [lia |]. replace (ex - ex') with (Zpos d) by lia.
    change (Pos.iter xO mx d) with (shift_pos d mx).
    rewrite shift_pos_correct. change (Z.pow_pos 2 d) with (2 ^ Zpos d). lia.
Qed.

(** [binary_round], on any positive integer and exponent. *)
Lemma binary_round_R (sx : bool) (mx : positive) (ex : Z) :
  let v := (IZR (Zpos mx) * bpow ex)%R in
  (v < bpow 1023)%R ->
  let r := binary_round 53 1024 sx mx ex in
  SF_finite r = true
  /\ (Rabs (SFR r - sign_R sx * v) <= eps64 * v + eta64)%R.
Proof.
  cbv zeta. intros Hv. unfold binary_round.
  pose proof (shl_align_spec mx ex
                (fexp 53 1024 (Zpos (digits2_pos mx) + ex))) as Hal.
  destruct (shl_align mx ex _) as [mz ez]. destruct Hal as [Hez Hmz].
  assert (Hval : (IZR (Zpos mz) * bpow ez = IZR (Zpos mx) * bpow ex)%R).
  { rewrite Hmz, mult_IZR, <- (bpow_IZR (ex - ez)) by lia.
    rewrite Rmult_assoc, <- bpow_add. f_equal. f_equal. lia. }
  assert (Hmag : Zpos (digits2_pos mx) + ex <= 1023).
  { pose proof (finite_lower_bound mx ex) as Hlo.
    assert (H : Zpos (digits2_pos mx) - 1 + ex < 1023); [| lia].
    apply bpow_lt_inv. lra. }
  assert (Hexp : ez <= 970).
  { unfold fexp, emin in Hez. lia. }
  rewrite <- Hval in Hv |- *.
  apply binary_round_aux_R; assumption.
Qed.

Lemma cond_Zopp_R (s : bool) (m : Z) :
  IZR (cond_Zopp s m) = (sign_R s * IZR m)%R.
Proof. destruct s; cbn [cond_Zopp sign_R]; [rewrite opp_IZR |]; lra. Qed.

(** The sum of two finite doubles is their sum as real numbers, rounded. *)
Lemma SFadd_R (x y : spec_float) :
  SF_finite x = true -> SF_finite y = true ->
  (Rabs (SFR x + SFR y) < bpow 1023)%R ->
  SF_finite (SFadd 53 1024 x y) = true
  /\ (Rabs (SFR (SFadd 53 1024 x y) - (SFR x + SFR y))
      <= eps64 * Rabs (SFR x + SFR y) + eta64)%R.
Proof.
  intros Hfx Hfy Hmag.
  assert (Hexact : forall r, SF_finite r = true -> SFR r = (SFR x + SFR y)%R ->
            SF_finite r = true
            /\ (Rabs (SFR r - (SFR x + SFR y))
                <= eps64 * Rabs (SFR x + SFR y) + eta64)%R).
  { intros r Hr Hr0. split; [exact Hr |]. rewrite Hr0.
    replace (SFR x + SFR y - (SFR x + SFR y))%R with 0%R by lra.
    rewrite Rabs_R0.
    assert (0 <= eps64 * Rabs (SFR x + SFR y))%R.
    { apply Rmult_le_pos; [apply Rlt_le, bpow_pos | apply Rabs_pos]. }
    pose proof (bpow_pos (-1075)). unfold eta64. lra. }
  destruct x as [sx | sx | | sx mx ex]; try discriminate;
    destruct y as [sy | sy | | sy my ey]; try discriminate;
    cbn [SFadd].
  - apply Hexact; destruct sx, sy; cbn [SF_finite SFR]; try reflexivity; lra.
  - apply Hexact; [reflexivity |]. cbn [SFR]. lra.
  - apply Hexact; [reflexivity |]. cbn [SFR]. lra.
  - cbv zeta.
    pose proof (shl_align_spec mx ex (Z.min ex ey)) as Hax.
    pose proof (shl_align_spec my ey (Z.min ex ey)) as Hay.
    destruct (shl_align mx ex (Z.min ex ey)) as [mx' ex'].
    destruct (shl_align my ey (Z.min ex ey)) as [my' ey'].
    cbn [fst]. destruct Hax as [Hex' Hmx']. destruct Hay as [Hey' Hmy'].
    set (ez := Z.min ex ey) in *.
    assert (Hex'' : ex' = ez) by lia. assert (Hey'' : ey' = ez) by lia.
    clear Hex' Hey'. subst ex' ey'.
    set (M := cond_Zopp sx (Zpos mx') + cond_Zopp sy (Zpos my')).
    assert (HM : (IZR M * bpow ez
                  = SFR (S754_finite sx mx ex) + SFR (S754_finite sy my ey))%R).
    { subst M. rewrite plus_IZR, !cond_Zopp_R, Hmx', Hmy', !mult_IZR.
      rewrite <- (bpow_IZR (ex - ez)), <- (bpow_IZR (ey - ez)) by lia.
      cbn [SFR].
      assert (Hbx : bpow ex = (bpow (ex - ez) * bpow ez)%R)
        by (rewrite <- bpow_add; f_equal; lia).
      assert (Hby : bpow ey = (bpow (ey - ez) * bpow ez)%R)
        by (rewrite <- bpow_add; f_equal; lia).
      rewrite Hbx, Hby. ring. }
    rewrite <- HM in Hmag |- *. clearbody M.
    assert (Hpz : (0 < bpow ez)%R) by apply bpow_pos.
    destruct M as [| m | m]; cbn [binary_normalize].
    + split; [reflexivity |]. cbn [SFR]. rewrite Rmult_0_l.
      replace (0 - 0)%R with 0%R by lra. rewrite Rabs_R0, Rmult_0_r.
      pose proof (bpow_pos (-1075)). unfold eta64. lra.
    + assert (Habs : Rabs (IZR (Zpos m) * bpow ez)
                     = (IZR (Zpos m) * bpow ez)%R).
      { apply Rabs_pos_eq. apply Rmult_le_pos; [apply IZR_le; lia | lra]. }
      rewrite Habs in Hmag |- *.
      destruct (binary_round_R false m ez Hmag) as [Hfin Herr].
      split; [exact Hfin |]. cbn [sign_R] in Herr.
      rewrite Rmult_1_l in Herr. exact Herr.
    + assert (Hneg : (IZR (Zneg m) * bpow ez
                      = - (IZR (Zpos m) * bpow ez))%R).
      { change (Zneg m) with (- Zpos m). rewrite opp_IZR. ring. }
      assert (Habs : Rabs (IZR (Zneg m) * bpow ez)
                     = (IZR (Zpos m) * bpow ez)%R).
      { rewrite Hneg, Rabs_Ropp. apply Rabs_pos_eq.
        apply Rmult_le_pos; [apply IZR_le; lia | lra]. }
      rewrite Habs in Hmag |- *.
      destruct (binary_round_R true m ez Hmag) as [Hfin Herr].
      split; [exact Hfin |]. cbn [sign_R] in Herr.
      rewrite Hneg.
      replace (-1 * (IZR (Zpos m) * bpow ez))%R
        with (- (IZR (Zpos m) * bpow ez))%R in Herr by lra.
      exact Herr.
Qed.

(** The standard model of the arithmetic of doubles, where nothing
    overflows. *)
Lemma mul_model (x y : float) :
  is_number x = true -> is_number y = true ->
  (Rabs (to_R x * to_R y) < bpow 1023)%R ->
  is_number (PrimFloat.mul x y) = true
  /\ (Rabs (to_R (PrimFloat.mul x y) - to_R x * to_R y)
      <= eps64 * Rabs (to_R x * to_R y) + eta64)%R.
Proof.
  unfold is_number, to_R. rewrite mul_spec. unfold SF64mul.
  apply SFmul_R; apply Prim2SF_valid.
Qed.

Lemma add_model (x y : float) :
  is_number x = true -> is_number y = true ->
  (Rabs (to_R x + to_R y) < bpow 1023)%R ->
  is_number (PrimFloat.add x y) = true
  /\ (Rabs (to_R (PrimFloat.add x y) - (to_R x + to_R y))
      <= eps64 * Rabs (to_R x + to_R y) + eta64)%R.
Proof.
  unfold is_number, to_R. rewrite add_spec. unfold SF64add.
  apply SFadd_R.
Qed.

(* ================================================================= *)
(** ** The propagation of the rounding errors *)

Lemma eps64_eq : eps64 = eps.
Proof.
  unfold eps64, eps. change (-53) with (- (53)). unfold bpow.
  rewrite powerRZ_neg'. f_equal. exact (eq_sym (Zpower_pos_powerRZ 2 53)).
Qed.

Lemma eta64_le : (eta64 <= eta_bound)%R.
Proof.
  unfold eta64, eta_bound.
  apply Rle_trans with (bpow (-100)); [apply bpow_le; lia |].
  change (-100) with (- (100)). unfold bpow.
  rewrite powerRZ_neg'. apply Req_le. f_equal.
  exact (eq_sym (Zpower_pos_powerRZ 2 100)).
Qed.

Lemma safe_bound_lt : (safe_bound < bpow 1023)%R.
Proof.
  unfold safe_bound.
  apply Rlt_le_trans with (bpow 101); [| apply bpow_le; lia].
  rewrite (bpow_IZR 101) by lia. apply IZR_lt. reflexivity.
Qed.

Lemma approx_exact (x : float) (A : R) :
  is_number x = true -> (Rabs (to_R x) <= A)%R -> approx x (to_R x) A 0.
Proof.
  intros Hf HA. split; [exact Hf |]. split; [exact HA |].
  replace (to_R x - to_R x)%R with 0%R by lra. rewrite Rabs_R0. lra.
Qed.

Lemma approx_weaken (x : float) (X A E A' E' : R) :
  approx x X A E -> (A <= A')%R -> (E <= E')%R -> approx x X A' E'.
Proof. intros (Hf & HA & HE) H1 H2. repeat split; [exact Hf | lra | lra]. Qed.

Lemma approx_bound (x : float) (X A E : R) :
  approx x X A E -> (0 <= A /\ 0 <= E /\ Rabs (to_R x) <= A + E)%R.
Proof.
  intros (_ & HA & HE).
  pose proof (Rabs_pos X). pose proof (Rabs_pos (to_R x - X)).
  split; [lra |]. split; [lra |].
  replace (to_R x) with ((to_R x - X) + X)%R by lra.
  eapply Rle_trans; [apply Rabs_triang |]. lra.
Qed.

Lemma approx_mul (x y : float) (X Y A B E F : R) :
  approx x X A E -> approx y Y B F ->
  ((A + E) * (B + F) <= safe_bound)%R ->
  approx (PrimFloat.mul x y) (X * Y) (A * B)
    (E * (B + F) + A * F + eps * ((A + E) * (B + F)) + eta_bound).
Proof.
  intros Hx Hy Hbig.
  destruct (approx_bound _ _ _ _ Hx) as (HA0 & HE0 & Hxb).
  destruct (approx_bound _ _ _ _ Hy) as (HB0 & HF0 & Hyb).
  destruct Hx as (Hfx & HXA & HxE). destruct Hy as (Hfy & HYB & HyF).
  assert (Hprod : (Rabs (to_R x * to_R y) <= (A + E) * (B + F))%R).
  { rewrite Rabs_mult. apply Rmult_le_compat; auto using Rabs_pos. }
  destruct (mul_model x y Hfx Hfy) as [Hfin Herr].
  { pose proof safe_bound_lt. lra. }
  split; [exact Hfin |]. split.
  { rewrite Rabs_mult. apply Rmult_le_compat; auto using Rabs_pos. }
  replace (to_R (PrimFloat.mul x y) - X * Y)%R
    with ((to_R (PrimFloat.mul x y) - to_R x * to_R y)
          + ((to_R x - X) * to_R y + X * (to_R y - Y)))%R by ring.
  eapply Rle_trans; [apply Rabs_triang |].
  assert (H1 : (Rabs ((to_R x - X) * to_R y + X * (to_R y - Y))
                <= E * (B + F) + A * F)%R).
  { eapply Rle_trans; [apply Rabs_triang |]. rewrite !Rabs_mult.
    apply Rplus_le_compat; apply Rmult_le_compat; auto using Rabs_pos. }
  rewrite eps64_eq in Herr. pose proof eta64_le.
  assert (H2 : (eps * Rabs (to_R x * to_R y) <= eps * ((A + E) * (B + F)))%R).
  { apply Rmult_le_compat_l; [unfold eps; lra | exact Hprod]. }
  lra.
Qed.

Lemma approx_add (x y : float) (X Y A B E F : R) :
  approx x X A E -> approx y Y B F ->
  (A + E + (B + F) <= safe_bound)%R ->
  approx (PrimFloat.add x y) (X + Y) (A + B)
    (E + F + eps * (A + E + (B + F)) + eta_bound).
Proof.
  intros Hx Hy Hbig.
  destruct (approx_bound _ _ _ _ Hx) as (HA0 & HE0 & Hxb).
  destruct (approx_bound _ _ _ _ Hy) as (HB0 & HF0 & Hyb).
  destruct Hx as (Hfx & HXA & HxE). destruct Hy as (Hfy & HYB & HyF).
  assert (Hsum : (Rabs (to_R x + to_R y) <= A + E + (B + F))%R).
  { eapply Rle_trans; [apply Rabs_triang |]. lra. }
  destruct (add_model x y Hfx Hfy) as [Hfin Herr].
  { pose proof safe_bound_lt. lra. }
  split; [exact Hfin |]. split.
  { eapply Rle_trans; [apply Rabs_triang |]. lra. }
  replace (to_R (PrimFloat.add x y) - (X + Y))%R
    with ((to_R (PrimFloat.add x y) - (to_R x + to_R y))
          + ((to_R x - X) + (to_R y - Y)))%R by ring.
  eapply Rle_trans; [apply Rabs_triang |].
  assert (H1 : (Rabs ((to_R x - X) + (to_R y - Y)) <= E + F)%R).
  { eapply Rle_trans; [apply Rabs_triang |]. lra. }
  rewrite eps64_eq in Herr. pose proof eta64_le.
  assert (H2 : (eps * Rabs (to_R x + to_R y) <= eps * (A + E + (B + F)))%R).
  { apply Rmult_le_compat_l; [unfold eps; lra | exact Hsum]. }
  lra.
Qed.

Lemma to_R_zero : to_R 0%float = 0%R.
Proof.
  unfold to_R. replace (Prim2SF 0%float) with (S754_zero false)
    by (vm_compute; reflexivity).
  reflexivity.
Qed.

Lemma approx_zero : approx 0%float 0 0 0.
Proof.
  split; [vm_compute; reflexivity |]. rewrite to_R_zero.
  replace (0 - 0)%R with 0%R by lra. rewrite Rabs_R0. lra.
Qed.

Lemma bounded_by_approx (B : R) (x : double) :
  bounded_by B x -> approx x (to_R x) B 0.
Proof. intros [Hf Hb]. apply approx_exact; assumption. Qed.

Lemma vec_bounded_approx3 (B : R) (x : Vector3) :
  vec_bounded B x -> approx3 x (vec_R x) B 0.
Proof.
  destruct x as [[x0 x1] x2]. intros (H0 & H1 & H2).
  repeat split; try apply H0; try apply H1; try apply H2;
    replace (to_R _ - to_R _)%R with 0%R by lra; rewrite Rabs_R0; lra.
Qed.

(** The inner product of two vectors of doubles, next to the one of the
    vectors they stand for. *)
Lemma dot_approx (a b : Vector3) (Xa Xb : RVector3) (A B E F P Q : R) :
  approx3 a Xa A E -> approx3 b Xb B F ->
  (A * B <= P)%R ->
  (E * (B + F) + A * F + eps * ((A + E) * (B + F)) + eta_bound <= Q)%R ->
  ((A + E) * (B + F) <= safe_bound)%R ->
  (4 * P + 8 * Q + 1 <= safe_bound)%R ->
  approx (dot_prod 0%float dadd dmul a b) (dot_prod 0%R Rplus Rmult Xa Xb)
    (3 * P) (4 * Q + 8 * eps * P + 4 * eta_bound).
Proof.
  destruct a as [[a0 a1] a2]. destruct b as [[b0 b1] b2].
  destruct Xa as [[A0 A1] A2]. destruct Xb as [[B0 B1] B2].
  intros (Ha0 & Ha1 & Ha2) (Hb0 & Hb1 & Hb2) HP HQ Hsafe Hsum.
  cbn [dot_prod]. unfold dadd, dmul.
  pose proof (approx_bound _ _ _ _ Ha0) as (HA & HE & _).
  pose proof (approx_bound _ _ _ _ Hb0) as (HB & HF & _).
  assert (HP0 : (0 <= P)%R).
  { apply Rle_trans with (A * B)%R; [apply Rmult_le_pos; assumption | exact HP]. }
  assert (HQ0 : (0 <= Q)%R).
  { eapply Rle_trans; [| exact HQ].
    assert (0 <= E * (B + F))%R by (apply Rmult_le_pos; lra).
    assert (0 <= A * F)%R by (apply Rmult_le_pos; lra).
    assert (0 <= eps * ((A + E) * (B + F)))%R.
    { apply Rmult_le_pos; [unfold eps; lra |]. apply Rmult_le_pos; lra. }
    unfold eta_bound. lra. }
  pose proof (approx_weaken _ _ _ _ P Q (approx_mul _ _ _ _ _ _ _ _ Ha0 Hb0 Hsafe)
                HP HQ) as Hp0.
  pose proof (approx_weaken _ _ _ _ P Q (approx_mul _ _ _ _ _ _ _ _ Ha1 Hb1 Hsafe)
                HP HQ) as Hp1.
  pose proof (approx_weaken _ _ _ _ P Q (approx_mul _ _ _ _ _ _ _ _ Ha2 Hb2 Hsafe)
                HP HQ) as Hp2.
  assert (Hsb : (0 < safe_bound)%R) by (unfold safe_bound; lra).
  pose proof (approx_add _ _ _ _ _ _ _ _ approx_zero Hp0 ltac:(lra)) as Hs1.
  pose proof (approx_add _ _ _ _ _ _ _ _ Hs1 Hp1
                ltac:(unfold eps, eta_bound in *; lra)) as Hs2.
  pose proof (approx_add _ _ _ _ _ _ _ _ Hs2 Hp2
                ltac:(unfold eps, eta_bound in *; lra)) as Hs3.
  eapply approx_weaken; [apply Hs3 | |]; unfold eps, eta_bound in *; lra.
Qed.

Ltac split3 := split; [| split].

Lemma mat_bounded_approx33 (B : R) (M : Matrix3x3) :
  mat_bounded B M -> approx33 M (mat_R M) B 0.
Proof.
  destruct M as [[r0 r1] r2]. intros (H0 & H1 & H2).
  split3; apply vec_bounded_approx3; assumption.
Qed.

Lemma approx3_weaken (x : Vector3) (X : RVector3) (A E A' E' : R) :
  approx3 x X A E -> (A <= A')%R -> (E <= E')%R -> approx3 x X A' E'.
Proof.
  destruct x as [[x0 x1] x2]. destruct X as [[X0 X1] X2].
  intros (H0 & H1 & H2) HA HE.
  split3; eapply approx_weaken; eassumption.
Qed.

Lemma approx33_weaken (M : Matrix3x3) (XM : RMatrix3x3) (A E A' E' : R) :
  approx33 M XM A E -> (A <= A')%R -> (E <= E')%R -> approx33 M XM A' E'.
Proof.
  destruct M as [[r0 r1] r2]. destruct XM as [[X0 X1] X2].
  intros (H0 & H1 & H2) HA HE.
  split3; eapply approx3_weaken; eassumption.
Qed.

Lemma scale_matrix_approx (s : double) (S As Es : R) (M : Matrix3x3)
  (XM : RMatrix3x3) (A E : R) :
  approx s S As Es -> approx33 M XM A E ->
  ((As + Es) * (A + E) <= safe_bound)%R ->
  approx33 (scale_matrix dmul s M) (scale_matrix Rmult S XM) (As * A)
    (Es * (A + E) + As * E + eps * ((As + Es) * (A + E)) + eta_bound).
Proof.
  destruct M as [[[[m00 m01] m02] [[m10 m11] m12]] [[m20 m21] m22]].
  destruct XM as [[[[X00 X01] X02] [[X10 X11] X12]] [[X20 X21] X22]].
  intros Hs ((H00 & H01 & H02) & (H10 & H11 & H12) & (H20 & H21 & H22)) Hsafe.
  cbn [scale_matrix approx33 approx3]. unfold dmul.
  split3; split3; apply approx_mul; assumption.
Qed.

Lemma matrix_vector_approx (M : Matrix3x3) (XM : RMatrix3x3) (x : Vector3)
  (X : RVector3) (A B E F P Q : R) :
  approx33 M XM A E -> approx3 x X B F ->
  (A * B <= P)%R ->
  (E * (B + F) + A * F + eps * ((A + E) * (B + F)) + eta_bound <= Q)%R ->
  ((A + E) * (B + F) <= safe_bound)%R ->
  (4 * P + 8 * Q + 1 <= safe_bound)%R ->
  approx3 (matrix_vector 0%float dadd dmul M x)
    (matrix_vector 0%R Rplus Rmult XM X)
    (3 * P) (4 * Q + 8 * eps * P + 4 * eta_bound).
Proof.
  destruct M as [[r0 r1] r2]. destruct XM as [[X0 X1] X2].
  intros (H0 & H1 & H2) Hx HP HQ Hsafe Hsum.
  cbn [matrix_vector approx3].
  split3; eapply dot_approx; eassumption.
Qed.

Lemma vector_add_approx (a b : Vector3) (Xa Xb : RVector3) (A B E F : R) :
  approx3 a Xa A E -> approx3 b Xb B F ->
  (A + E + (B + F) <= safe_bound)%R ->
  approx3 (vector_add dadd a b) (vector_add Rplus Xa Xb) (A + B)
    (E + F + eps * (A + E + (B + F)) + eta_bound).
Proof.
  destruct a as [[a0 a1] a2]. destruct b as [[b0 b1] b2].
  destruct Xa as [[A0 A1] A2]. destruct Xb as [[B0 B1] B2].
  intros (Ha0 & Ha1 & Ha2) (Hb0 & Hb1 & Hb2) Hsafe.
  cbn [vector_add approx3]. unfold dadd.
  split3; apply approx_add; assumption.
Qed.

(** The transform [s R x + t] in doubles, next to the same transform of the
    real numbers the doubles stand for: for a scale of at most 2, a matrix
    with entries of at most 1, a translation of at most [Mt] and a point of
    at most [Mx] that is known with the error [Ex]. *)
Lemma similarity_approx (rotation : Matrix3x3) (translation : Vector3)
  (scale : double) (x : Vector3) (X : RVector3) (Mx Mt Ex : R) :
  bounded_by 2 scale -> mat_bounded 1 rotation -> vec_bounded Mt translation ->
  approx3 x X Mx Ex ->
  (Ex <= Mx)%R -> (Mx <= 1125899906842624)%R -> (Mt <= 1125899906842624)%R ->
  approx3 (similarity 0%float dadd dmul rotation translation scale x)
    (real_similarity (mat_R rotation) (vec_R translation) (to_R scale) X)
    (6 * Mx + Mt) (9 * Ex + 48 * eps * (Mx + Mt) + 16 * eta_bound).
Proof.
  intros Hs HR Ht Hx HEx HMx HMt.
  assert (HMx0 : (0 <= Mx /\ 0 <= Ex)%R).
  { destruct x as [[x0 x1] x2], X as [[X0 X1] X2]. destruct Hx as (Hx0 & _).
    destruct (approx_bound _ _ _ _ Hx0) as (H1 & H2 & _). split; assumption. }
  assert (HMt0 : (0 <= Mt)%R).
  { destruct translation as [[t0 t1] t2]. destruct Ht as ((_ & Ht0) & _).
    pose proof (Rabs_pos (to_R t0)). lra. }
  unfold similarity, real_similarity, similarity.
  pose proof (scale_matrix_approx scale (to_R scale) 2 0 rotation
                (mat_R rotation) 1 0 (bounded_by_approx _ _ Hs)
                (mat_bounded_approx33 _ _ HR)
                ltac:(unfold safe_bound; lra)) as HsR.
  pose proof (matrix_vector_approx _ _ x X _ _ _ _ (2 * Mx)
                (2 * Ex + 5 * eps * (Mx + Ex) + 2 * eta_bound) HsR Hx
                ltac:(lra)
                ltac:(unfold eps, eta_bound in *; lra)
                ltac:(unfold safe_bound, eps, eta_bound in *; lra)
                ltac:(unfold safe_bound, eps, eta_bound in *; lra)) as Hmv.
  pose proof (vector_add_approx _ _ _ _ _ _ _ _ Hmv
                (vec_bounded_approx3 _ _ Ht)
                ltac:(unfold safe_bound, eps, eta_bound in *; lra)) as Hadd.
  eapply approx3_weaken; [exact Hadd | |];
    unfold eps, eta_bound in *; lra.
Qed.

(* ================================================================= *)
(** ** The round trip of apply_rigid_transform *)

Lemma Rabs_mult3 (a b c A B C : R) :
  (Rabs a <= A)%R -> (Rabs b <= B)%R -> (Rabs c <= C)%R ->
  (Rabs (a * b * c) <= A * B * C)%R.
Proof.
  intros Ha Hb Hc. rewrite !Rabs_mult.
  pose proof (Rabs_pos a). pose proof (Rabs_pos b). pose proof (Rabs_pos c).
  apply Rmult_le_compat; [| assumption | | assumption].
  - apply Rmult_le_pos; assumption.
  - apply Rmult_le_compat; assumption.
Qed.

Lemma Rabs_mult2 (a b A B : R) :
  (Rabs a <= A)%R -> (Rabs b <= B)%R -> (Rabs (a * b) <= A * B)%R.
Proof.
  intros Ha Hb. rewrite Rabs_mult.
  apply Rmult_le_compat; auto using Rabs_pos.
Qed.

Lemma Rabs_sum4 (a b c d A B C D : R) :
  (Rabs a <= A)%R -> (Rabs b <= B)%R -> (Rabs c <= C)%R -> (Rabs d <= D)%R ->
  (Rabs (a + b + c + d) <= A + B + C + D)%R.
Proof.
  intros Ha Hb Hc Hd.
  pose proof (Rabs_triang (a + b + c) d).
  pose proof (Rabs_triang (a + b) c).
  pose proof (Rabs_triang a b). lra.
Qed.

(** Over the real numbers: a transform followed by an approximate inverse
    takes a point of magnitude at most [M] back to where it was, up to the
    defects of the inverse. *)
Lemma real_round_trip_within (rotation : RMatrix3x3) (translation : RVector3)
  (scale : R) (translation' : RVector3) (scale' : R) (X : RVector3)
  (M tolR tols tolt : R) :
  orthonormal_within tolR rotation ->
  (Rabs (scale' * scale - 1) <= tols)%R ->
  Rvec_within tolt
    (real_similarity (transpose rotation) translation' scale' translation)
    (0, 0, 0)%R ->
  Rvec_bounded M X ->
  Rvec_within (3 * ((1 + tols) * tolR * M) + tols * M + tolt)
    (real_similarity (transpose rotation) translation' scale'
       (real_similarity rotation translation scale X)) X.
Proof.
  destruct rotation as [[[[a b] c] [[d e] f]] [[g h] i]].
  destruct translation as [[t0 t1] t2].
  destruct translation' as [[t0' t1'] t2']. destruct X as [[x0 x1] x2].
  cbv [orthonormal_within real_similarity similarity vector_add matrix_vector
       scale_matrix transpose dot_prod Rvec_within Rvec_bounded].
  intros (H00 & H11 & H22 & H01 & H02 & H12) Hs (Hd0 & Hd1 & Hd2)
    (Hx0 & Hx1 & Hx2).
  assert (Hss : (Rabs (scale' * scale) <= 1 + tols)%R).
  { replace (scale' * scale)%R with ((scale' * scale - 1) + 1)%R by lra.
    eapply Rle_trans; [apply Rabs_triang |]. rewrite Rabs_R1. lra. }
  assert (HtR : (0 <= tolR)%R).
  { eapply Rle_trans; [apply Rabs_pos | exact H01]. }
  assert (Hts : (0 <= tols)%R).
  { eapply Rle_trans; [apply Rabs_pos | exact Hs]. }
  assert (HM : (0 <= M)%R).
  { eapply Rle_trans; [apply Rabs_pos | exact Hx0]. }
  set (k := (scale' * scale)%R) in *.
  rewrite Rminus_0_r in Hd0, Hd1, Hd2.
  set (g00 := (0 + a * a + d * d + g * g)%R) in *.
  set (g11 := (0 + b * b + e * e + h * h)%R) in *.
  set (g22 := (0 + c * c + f * f + i * i)%R) in *.
  set (g01 := (0 + a * b + d * e + g * h)%R) in *.
  set (g02 := (0 + a * c + d * f + g * i)%R) in *.
  set (g12 := (0 + b * c + e * f + h * i)%R) in *.
  set (d0 := (0 + scale' * a * t0 + scale' * d * t1 + scale' * g * t2 + t0')%R)
    in *.
  set (d1 := (0 + scale' * b * t0 + scale' * e * t1 + scale' * h * t2 + t1')%R)
    in *.
  set (d2 := (0 + scale' * c * t0 + scale' * f * t1 + scale' * i * t2 + t2')%R)
    in *.
  assert (Hk0 : forall gii x, (Rabs (gii - 1) <= tolR)%R -> (Rabs x <= M)%R ->
            (Rabs (k * (gii - 1) * x + (k - 1) * x)
             <= (1 + tols) * tolR * M + tols * M)%R).
  { intros gii x Hg Hx. eapply Rle_trans; [apply Rabs_triang |].
    apply Rplus_le_compat; [apply Rabs_mult3 | apply Rabs_mult2]; assumption. }
  assert (Hk1 : forall gij x, (Rabs gij <= tolR)%R -> (Rabs x <= M)%R ->
            (Rabs (k * gij * x) <= (1 + tols) * tolR * M)%R).
  { intros gij x Hg Hx. apply Rabs_mult3; assumption. }
  split; [| split].
  - replace (_ - x0)%R
      with ((k * (g00 - 1) * x0 + (k - 1) * x0) + k * g01 * x1 + k * g02 * x2
            + d0)%R by (subst k g00 g01 g02 d0; ring).
    eapply Rle_trans; [apply Rabs_sum4; [apply Hk0 | apply Hk1 | apply Hk1 |];
                       eassumption |].
    lra.
  - replace (_ - x1)%R
      with ((k * (g11 - 1) * x1 + (k - 1) * x1) + k * g01 * x0 + k * g12 * x2
            + d1)%R by (subst k g11 g01 g12 d1; ring).
    eapply Rle_trans; [apply Rabs_sum4; [apply Hk0 | apply Hk1 | apply Hk1 |];
                       eassumption |].
    lra.
  - replace (_ - x2)%R
      with ((k * (g22 - 1) * x2 + (k - 1) * x2) + k * g02 * x0 + k * g12 * x1
            + d2)%R by (subst k g22 g02 g12 d2; ring).
    eapply Rle_trans; [apply Rabs_sum4; [apply Hk0 | apply Hk1 | apply Hk1 |];
                       eassumption |].
    lra.
Qed.

Lemma mat_R_transpose (M : Matrix3x3) :
  mat_R (transpose M) = transpose (mat_R M).
Proof. destruct M as [[[[a b] c] [[d e] f]] [[g h] i]]. reflexivity. Qed.

Lemma mat_bounded_transpose (B : R) (M : Matrix3x3) :
  mat_bounded B M -> mat_bounded B (transpose M).
Proof.
  destruct M as [[[[a b] c] [[d e] f]] [[g h] i]].
  cbn [mat_bounded vec_bounded transpose]. tauto.
Qed.

Lemma vec_bounded_R (B : R) (x : Vector3) :
  vec_bounded B x -> Rvec_bounded B (vec_R x).
Proof.
  destruct x as [[x0 x1] x2]. intros ((_ & H0) & (_ & H1) & (_ & H2)).
  cbn [vec_R Rvec_bounded]. auto.
Qed.

Lemma approx3_close (z x : Vector3) (Z : RVector3) (A E d tol : R) :
  approx3 z Z A E -> Rvec_within d Z (vec_R x) -> (E + d <= tol)%R ->
  vec_close tol z x.
Proof.
  destruct z as [[z0 z1] z2]. destruct x as [[x0 x1] x2].
  destruct Z as [[Z0 Z1] Z2].
  intros ((Hf0 & _ & H0) & (Hf1 & _ & H1) & (Hf2 & _ & H2)) (Hd0 & Hd1 & Hd2)
    Htol.
  cbn [vec_close]. unfold close.
  split; [| split]; (split; [assumption |]).
  - replace (to_R z0 - to_R x0)%R with ((to_R z0 - Z0) + (Z0 - to_R x0))%R
      by lra.
    eapply Rle_trans; [apply Rabs_triang |]. lra.
  - replace (to_R z1 - to_R x1)%R with ((to_R z1 - Z1) + (Z1 - to_R x1))%R
      by lra.
    eapply Rle_trans; [apply Rabs_triang |]. lra.
  - replace (to_R z2 - to_R x2)%R with ((to_R z2 - Z2) + (Z2 - to_R x2))%R
      by lra.
    eapply Rle_trans; [apply Rabs_triang |]. lra.
Qed.

(** A transform and then its inverse, in doubles, on one vector. *)
Lemma similarity_round_trip (rotation : Matrix3x3)
  (translation : Vector3) (scale : double) (translation' : Vector3)
  (scale' : double) (x : Vector3) (M : R) :
  (1 <= M <= 1000)%R ->
  similarity_of_size M rotation translation scale ->
  inverse_up_to_rounding M rotation translation scale translation' scale' ->
  vec_bounded M x ->
  vec_close (M / 1000 * / 1000000000)
    (similarity 0%float dadd dmul (transpose rotation) translation' scale'
       (similarity 0%float dadd dmul rotation translation scale x))
    x.
Proof.
  intros HM (Hs & HR & Ht & Horth) (Hs' & Ht' & Hss & Hdef) Hx.
  pose proof (similarity_approx rotation translation scale x (vec_R x) M M 0
                Hs HR Ht (vec_bounded_approx3 _ _ Hx)
                ltac:(lra) ltac:(lra) ltac:(lra)) as H1.
  assert (H1' : approx3
                  (similarity 0%float dadd dmul rotation translation scale x)
                  (real_similarity (mat_R rotation) (vec_R translation)
                     (to_R scale) (vec_R x))
                  (7 * M) (96 * eps * M + 16 * eta_bound)).
  { eapply approx3_weaken; [exact H1 | lra | lra]. }
  pose proof (similarity_approx (transpose rotation) translation' scale' _ _
                (7 * M) (7 * M) (96 * eps * M + 16 * eta_bound)
                Hs' (mat_bounded_transpose _ _ HR) Ht' H1'
                ltac:(unfold eps, eta_bound; lra) ltac:(lra) ltac:(lra))
    as H2.
  rewrite mat_R_transpose in H2.
  pose proof (real_round_trip_within (mat_R rotation) (vec_R translation)
                (to_R scale) (vec_R translation') (to_R scale') (vec_R x) M
                _ _ _ Horth Hss Hdef (vec_bounded_R _ _ Hx)) as H3.
  eapply approx3_close; [exact H2 | exact H3 |].
  unfold eps, eta_bound. lra.
Qed.

Lemma real_rot_round_trip (rotation : RMatrix3x3) (X : RVector3)
  (M tolR : R) :
  orthonormal_within tolR rotation -> Rvec_bounded M X ->
  Rvec_within (3 * (tolR * M))
    (matrix_vector 0%R Rplus Rmult (transpose rotation)
       (matrix_vector 0%R Rplus Rmult rotation X)) X.
Proof.
  intros Horth HX.
  assert (Heq : matrix_vector 0%R Rplus Rmult (transpose rotation)
                  (matrix_vector 0%R Rplus Rmult rotation X)
                = real_similarity (transpose rotation) (0, 0, 0)%R 1
                    (real_similarity rotation (0, 0, 0)%R 1 X)).
  { destruct rotation as [[[[a b] c] [[d e] f]] [[g h] i]].
    destruct X as [[x0 x1] x2].
    cbv [real_similarity similarity vector_add matrix_vector scale_matrix
         transpose dot_prod].
    f_equal; [f_equal |]; ring. }
  rewrite Heq.
  assert (HtolR : (0 <= tolR)%R).
  { destruct rotation as [[[[a b] c] [[d e] f]] [[g h] i]].
    destruct Horth as (H & _). eapply Rle_trans; [apply Rabs_pos | exact H]. }
  replace (3 * (tolR * M))%R with (3 * ((1 + 0) * tolR * M) + 0 * M + 0)%R
    by ring.
  apply real_round_trip_within; [exact Horth | | | exact HX].
  - replace (1 * 1 - 1)%R with 0%R by ring. rewrite Rabs_R0. lra.
  - destruct rotation as [[[[a b] c] [[d e] f]] [[g h] i]].
    cbv [real_similarity similarity vector_add matrix_vector scale_matrix
         transpose dot_prod Rvec_within].
    split; [| split];
      match goal with
      | |- (Rabs ?x <= 0)%R => replace x with 0%R by ring; rewrite Rabs_R0; lra
      end.
Qed.

(** A rotation and then its transpose, in doubles, on one vector with
    coordinates of at most 1. *)
Lemma rotation_round_trip (rotation : Matrix3x3) (x : Vector3) :
  mat_bounded 1 rotation ->
  orthonormal_within (/ 2 ^ 48) (mat_R rotation) ->
  vec_bounded 1 x ->
  vec_close (/ 1000 * / 1000000000)
    (matrix_vector 0%float dadd dmul (transpose rotation)
       (matrix_vector 0%float dadd dmul rotation x))
    x.
Proof.
  intros HR Horth Hx.
  pose proof (matrix_vector_approx rotation (mat_R rotation) x (vec_R x)
                1 1 0 0 1 (2 * eps)
                (mat_bounded_approx33 _ _ HR) (vec_bounded_approx3 _ _ Hx)
                ltac:(lra) ltac:(unfold eps, eta_bound; lra)
                ltac:(unfold safe_bound; lra)
                ltac:(unfold safe_bound, eps; lra)) as H1.
  pose proof (matrix_vector_approx (transpose rotation)
                (mat_R (transpose rotation)) _ _
                1 (3 * 1) 0 (4 * (2 * eps) + 8 * eps * 1 + 4 * eta_bound)
                3 (32 * eps)
                (mat_bounded_approx33 _ _ (mat_bounded_transpose _ _ HR)) H1
                ltac:(lra) ltac:(unfold eps, eta_bound; lra)
                ltac:(unfold safe_bound, eps, eta_bound; lra)
                ltac:(unfold safe_bound, eps; lra)) as H2.
  rewrite mat_R_transpose in H2.
  pose proof (real_rot_round_trip (mat_R rotation) (vec_R x) 1 _ Horth
                (vec_bounded_R _ _ Hx)) as H3.
  eapply approx3_close; [exact H2 | exact H3 |].
  unfold eps, eta_bound. lra.
Qed.

Lemma matrix_matrix_columns {T : Type} (zero : T) (add mul : T -> T -> T)
  (A B : (T * T * T) * (T * T * T) * (T * T * T)) :
  transpose (matrix_matrix zero add mul A B)
  = let '(c0, c1, c2) := transpose B in
    (matrix_vector zero add mul A c0, matrix_vector zero add mul A c1,
     matrix_vector zero add mul A c2).
Proof.
  destruct A as [[[[a b] c] [[d e] f]] [[g h] i]].
  destruct B as [[[[a' b'] c'] [[d' e'] f']] [[g' h'] i']]. reflexivity.
Qed.

Lemma mat_close_transpose (tol : R) (A B : Matrix3x3) :
  mat_close tol (transpose A) (transpose B) -> mat_close tol A B.
Proof.
  destruct A as [[[[a b] c] [[d e] f]] [[g h] i]].
  destruct B as [[[[a' b'] c'] [[d' e'] f']] [[g' h'] i']].
  cbn [mat_close vec_close transpose]. tauto.
Qed.

(** A rotation and then its transpose, on the rotation of a camera. *)
Lemma pose_round_trip (rotation pose : Matrix3x3) :
  mat_bounded 1 rotation ->
  orthonormal_within (/ 2 ^ 48) (mat_R rotation) ->
  mat_bounded 1 pose ->
  mat_close (/ 1000 * / 1000000000)
    (matrix_matrix 0%float dadd dmul (transpose rotation)
       (matrix_matrix 0%float dadd dmul rotation pose))
    pose.
Proof.
  intros HR Horth Hpose. apply mat_close_transpose.
  rewrite !matrix_matrix_columns.
  pose proof (mat_bounded_transpose _ _ Hpose) as Hcols.
  destruct (transpose pose) as [[c0 c1] c2]. destruct Hcols as (H0 & H1 & H2).
  cbn [mat_close].
  split; [| split]; apply rotation_round_trip; assumption.
Qed.

Lemma Forall2_map_diag {A B : Type} (f : A -> B) (P : A -> B -> Prop)
  (l : list A) :
  Forall (fun a => P a (f a)) l -> Forall2 P l (map f l).
Proof. induction 1; cbn [map]; constructor; assumption. Qed.

Lemma transform_point_of_gcp rotation translation scale cp :
  cp_type cp = GroundControlPoint ->
  transform_point rotation translation scale cp = cp.
Proof. intros H. unfold transform_point. rewrite H. reflexivity. Qed.

Lemma transform_point_of_tie rotation translation scale cp :
  cp_type cp = TiePoint ->
  transform_point rotation translation scale cp
  = {| cp_type := TiePoint;
       cp_position :=
         similarity 0%float dadd dmul rotation translation scale
           (cp_position cp);
       cp_sigma := cp_sigma cp |}.
Proof. intros H. unfold transform_point. rewrite H. reflexivity. Qed.

Lemma close_weaken (tol tol' : R) (a b : double) :
  close tol a b -> (tol <= tol')%R -> close tol' a b.
Proof. intros [Hf H] Htol. split; [exact Hf | lra]. Qed.

Lemma vec_close_weaken (tol tol' : R) (a b : Vector3) :
  vec_close tol a b -> (tol <= tol')%R -> vec_close tol' a b.
Proof.
  destruct a as [[a0 a1] a2]. destruct b as [[b0 b1] b2].
  intros (H0 & H1 & H2) Htol.
  split; [| split]; eapply close_weaken; eassumption.
Qed.

Lemma mat_close_weaken (tol tol' : R) (A B : Matrix3x3) :
  mat_close tol A B -> (tol <= tol')%R -> mat_close tol' A B.
Proof.
  destruct A as [[a0 a1] a2]. destruct B as [[b0 b1] b2].
  intros (H0 & H1 & H2) Htol.
  split; [| split]; eapply vec_close_weaken; eassumption.
Qed.

(** C8 (amended).  Take pinhole cameras, whose [apply_transform] moves the
    centre [c] to [s R c + t] and the rotation [C] to [R C], and let the
    coordinates of the camera centres, of the tie points and of the
    translation be numbers of at most [M], with [M] between 1 and 1000.
    Let [(R, t, s)] be a transform of doubles with a scale of at most 2 and
    a matrix with entries of at most 1 whose columns are orthonormal to
    within 2^-48, and [(transpose R, t', s')] an inverse of it up to
    rounding.  Then [apply_rigid_transform] with [(R, t, s)] and then with
    the inverse returns both times.  The first call moves the position [x]
    of every point that is not a ground control point to [s R x + t],
    computed in doubles, and leaves the ground control points where they
    are.  After the second call every coordinate of a tie point, every
    coordinate of a camera centre and every entry of a camera rotation is a
    number within [M / 1000 * 1e-9] of its original value, which is at most
    1e-9; the ground control points, the types and the sigmas are the
    original ones.  The bound grows with the magnitude of the coordinates:
    it is the bound on the magnitude that the tolerance of 1e-9 depends
    on. *)
Theorem rigid_transform_round_trip (rotation : Matrix3x3)
  (translation : Vector3) (scale : double) (translation' : Vector3)
  (scale' : double) (pincams : list Pinhole) (cnet : ControlNetwork)
  (M : R) :
  (1 <= M <= 1000)%R ->
  similarity_of_size M rotation translation scale ->
  inverse_up_to_rounding M rotation translation scale translation' scale' ->
  Forall (fun pincam =>
            vec_bounded M (pinhole_center pincam)
            /\ mat_bounded 1 (pinhole_pose pincam)) pincams ->
  Forall (fun cp => cp_type cp = TiePoint -> vec_bounded M (cp_position cp))
    cnet ->
  (round_trip_tolerance M <= / 1000000000)%R
  /\ exists pincams1 cnet1 pincams2 cnet2,
       apply_rigid_transform Pinhole apply_transform rotation translation
         scale (map PinholeCamera pincams) cnet
       = Ok (map PinholeCamera pincams1, cnet1)
       /\ apply_rigid_transform Pinhole apply_transform (transpose rotation)
            translation' scale' (map PinholeCamera pincams1) cnet1
          = Ok (map PinholeCamera pincams2, cnet2)
       /\ Forall2
            (fun cp cp1 =>
               cp_type cp1 = cp_type cp
               /\ cp_position cp1
                  = match cp_type cp with
                    | GroundControlPoint => cp_position cp
                    | TiePoint =>
                        similarity 0%float dadd dmul rotation translation
                          scale (cp_position cp)
                    end) cnet cnet1
       /\ Forall2
            (fun cp cp2 =>
               cp_type cp2 = cp_type cp /\ cp_sigma cp2 = cp_sigma cp
               /\ match cp_type cp with
                  | GroundControlPoint => cp_position cp2 = cp_position cp
                  | TiePoint =>
                      vec_close (round_trip_tolerance M) (cp_position cp2)
                        (cp_position cp)
                  end) cnet cnet2
       /\ Forall2
            (fun pincam pincam2 =>
               vec_close (round_trip_tolerance M) (pinhole_center pincam2)
                 (pinhole_center pincam)
               /\ mat_close (round_trip_tolerance M) (pinhole_pose pincam2)
                    (pinhole_pose pincam)) pincams pincams2.
Proof.
  intros HM Hsim Hinv Hcams Hcnet.
  split; [unfold round_trip_tolerance; lra |].
  exists (map (apply_transform rotation translation scale) pincams),
    (map (transform_point rotation translation scale) cnet),
    (map (apply_transform (transpose rotation) translation' scale')
       (map (apply_transform rotation translation scale) pincams)),
    (map (transform_point (transpose rotation) translation' scale')
       (map (transform_point rotation translation scale) cnet)).
  unfold apply_rigid_transform. rewrite !transform_cameras_pinhole.
  cbn [mbind result_bind]. rewrite !map_map.
  split; [reflexivity |]. split; [reflexivity |].
  split; [| split].
  - apply Forall2_map_diag. apply Forall_forall. intros cp _.
    destruct (transform_point_spec rotation translation scale cp)
      as (Ht & _ & Hp).
    split; assumption.
  - apply Forall2_map_diag. eapply Forall_impl; [exact Hcnet |].
    intros cp Hcp. cbv beta in Hcp.
    destruct (cp_type cp) eqn:Htype.
    + rewrite (transform_point_of_tie rotation _ _ cp Htype).
      rewrite transform_point_of_tie by reflexivity.
      cbn [cp_type cp_position cp_sigma].
      split; [reflexivity |]. split; [reflexivity |].
      apply similarity_round_trip; auto.
    + rewrite (transform_point_of_gcp rotation translation scale cp Htype).
      rewrite (transform_point_of_gcp _ _ _ cp Htype). auto.
  - apply Forall2_map_diag. eapply Forall_impl; [exact Hcams |].
    intros pincam [Hc Hp]. cbn [apply_transform pinhole_center pinhole_pose].
    split.
    + apply similarity_round_trip; assumption.
    + destruct Hsim as (_ & HR & _ & Horth).
      assert (Htol : (/ 1000 * / 1000000000 <= round_trip_tolerance M)%R)
        by (unfold round_trip_tolerance; lra).
      eapply mat_close_weaken; [| exact Htol].
      apply pose_round_trip; assumption.
Qed.

(** The real number of a double given by a literal. *)
Lemma to_R_finite (x : float) (s : bool) (m : positive) (e k : Z) :
  Prim2SF x = S754_finite s m e ->
  e <= 0 -> 2 ^ (- e) = k ->
  to_R x = (sign_R s * IZR (Zpos m) / IZR k)%R.
Proof.
  intros Hx He Hk. unfold to_R. rewrite Hx. cbn [SFR]. subst k.
  rewrite <- (bpow_IZR (- e)) by lia.
  assert (H : (bpow e * bpow (- e) = 1)%R).
  { rewrite <- bpow_add. replace (e + - e) with 0 by lia. reflexivity. }
  pose proof (bpow_pos (- e)). field_simplify_eq; [| lra].
  rewrite Rmult_assoc, H. ring.
Qed.

Ltac to_R_literal x :=
  let sf := eval vm_compute in (Prim2SF x) in
  match sf with
  | S754_finite ?s ?m ?e =>
      let k := eval vm_compute in (2 ^ (- e)) in
      rewrite (to_R_finite x s m e k eq_refl ltac:(vm_compute; discriminate)
                 eq_refl)
  | S754_zero _ =>
      replace (to_R x) with 0%R
        by (unfold to_R; replace (Prim2SF x) with sf
              by (vm_compute; reflexivity); reflexivity)
  end.

Ltac to_R_literals :=
  repeat match goal with
         | |- context [to_R ?x] => to_R_literal x
         end;
  cbn [sign_R].

Ltac bounded_literal :=
  split; [vm_compute; reflexivity |];
  to_R_literals; apply Rabs_le; lra.

Lemma quarter_turn_of_size :
  similarity_of_size 10 quarter_turn (1, 2, 3)%float 2%float.
Proof.
  split; [bounded_literal |]. split; [| split].
  - repeat split; try (vm_compute; reflexivity);
      to_R_literals; apply Rabs_le; lra.
  - repeat split; try (vm_compute; reflexivity);
      to_R_literals; apply Rabs_le; lra.
  - cbv [orthonormal_within quarter_turn mat_R vec_R transpose dot_prod].
    to_R_literals. repeat split; apply Rabs_le; lra.
Qed.

Lemma quarter_turn_inverse :
  inverse_up_to_rounding 10 quarter_turn (1, 2, 3)%float 2%float
    (-1, 0.5, -1.5)%float 0.5%float.
Proof.
  split; [bounded_literal |]. split; [| split].
  - repeat split; try (vm_compute; reflexivity);
      to_R_literals; apply Rabs_le; lra.
  - to_R_literals. apply Rabs_le; lra.
  - cbv [Rvec_within real_similarity similarity vector_add matrix_vector
         scale_matrix quarter_turn mat_R vec_R transpose dot_prod].
    to_R_literals. repeat split; apply Rabs_le; lra.
Qed.

Lemma rigid_transform_round_trip_witness :
  exists pincams1 cnet1 pincams2 cnet2,
    apply_rigid_transform Pinhole apply_transform quarter_turn
      (1, 2, 3)%float 2%float [PinholeCamera (pinhole_at (4, 5, 6)%float)]
      [tie_point_at (4, 5, 6)%float; gcp_at (1, 2, 3)%float]
    = Ok (map PinholeCamera pincams1, cnet1)
    /\ apply_rigid_transform Pinhole apply_transform (transpose quarter_turn)
         (-1, 0.5, -1.5)%float 0.5%float (map PinholeCamera pincams1) cnet1
       = Ok (map PinholeCamera pincams2, cnet2)
    /\ Forall2
         (fun cp cp2 =>
            cp_type cp2 = cp_type cp /\ cp_sigma cp2 = cp_sigma cp
            /\ match cp_type cp with
               | GroundControlPoint => cp_position cp2 = cp_position cp
               | TiePoint =>
                   vec_close (round_trip_tolerance 10) (cp_position cp2)
                     (cp_position cp)
               end)
         [tie_point_at (4, 5, 6)%float; gcp_at (1, 2, 3)%float] cnet2
    /\ Forall2
         (fun pincam pincam2 =>
            vec_close (round_trip_tolerance 10) (pinhole_center pincam2)
              (pinhole_center pincam)
            /\ mat_close (round_trip_tolerance 10) (pinhole_pose pincam2)
                 (pinhole_pose pincam))
         [pinhole_at (4, 5, 6)%float] pincams2.
Proof.
  destruct (rigid_transform_round_trip quarter_turn (1, 2, 3)%float 2%float
              (-1, 0.5, -1.5)%float 0.5%float [pinhole_at (4, 5, 6)%float]
              [tie_point_at (4, 5, 6)%float; gcp_at (1, 2, 3)%float] 10)
    as (_ & pincams1 & cnet1 & pincams2 & cnet2 & H1 & H2 & _ & Hcnet & Hcams).
  - lra.
  - exact quarter_turn_of_size.
  - exact quarter_turn_inverse.
  - constructor; [| constructor]. split.
    + repeat split; try (vm_compute; reflexivity);
        to_R_literals; apply Rabs_le; lra.
    + repeat split; try (vm_compute; reflexivity);
        to_R_literals; apply Rabs_le; lra.
  - constructor; [| constructor; [| constructor]].
    + intros _. repeat split; try (vm_compute; reflexivity);
        to_R_literals; apply Rabs_le; lra.
    + discriminate.
  - exists pincams1, cnet1, pincams2, cnet2. auto.
Defined.

(* ################################################################# *)
(** * Further properties of the driver *)

(* ================================================================= *)
(** ** The residual logs of a pass *)

(** The loop of [write_residual_logs] over the cameras advances [index] by
    two for each observation. *)
Lemma log_index_fold (counts : list nat) (n : nat) :
  fold_left (fun index c => (index + 2 * get_n counts c)%nat)
    (seq 0 (length counts)) n
  = (n + list_sum counts * 2)%nat.
Proof.
  rewrite (fold_left_ext_on _
             (fun n i => (n + get_n counts i * PIXEL_SIZE)%nat)).
  - rewrite sum_counts_fold. reflexivity.
  - intros a x _. unfold PIXEL_SIZE. lia.
Qed.

Lemma even_halves (n : nat) : Nat.even n = true -> (n / 2 + n / 2 = n)%nat.
Proof.
  intros H. apply Nat.even_spec in H as [k ->].
  rewrite (Nat.mul_comm 2 k), Nat.div_mul by lia. lia.
Qed.

Lemma write_residual_logs_graph libs ba_model opt cnet crn ncp nc np orig
  cameras intrinsics points O g a st :
  (forall a st b,
     length (block_residuals (ceres_lib libs) a st b) = num_residuals b) ->
  Nat.even ncp = true ->
  build_graph libs ba_model opt cnet crn ncp point_params_n nc np orig cameras
    intrinsics points O = Ok g ->
  write_residual_logs (ceres_lib libs) a opt nc ncp point_params_n
    (g_cam_residual_counts g) (g_num_gcp_residuals g) (g_reference_vec g)
    (g_problem g) st
  = Ok tt.
Proof.
  intros Hsize Heven Hg.
  destruct (graph_residuals_length libs ba_model opt cnet crn ncp nc np orig
              cameras intrinsics points O g a st Hsize Hg) as [Hc Hlen].
  unfold write_residual_logs.
  rewrite (compute_residuals_graph libs ba_model opt cnet crn ncp nc np orig
             cameras intrinsics points O g a st Hsize Hg).
  cbn [mbind result_bind].
  replace (seq 0 nc) with (seq 0 (length (g_cam_residual_counts g)))
    by (rewrite Hc; reflexivity).
  rewrite log_index_fold, Hlen, (even_halves ncp Heven).
  match goal with
  | |- context [(?x =? ?y)%nat] =>
      replace x with y; [rewrite Nat.eqb_refl; reflexivity |]
  end.
  unfold PIXEL_SIZE, point_params_n.
  destruct (Nat.ltb_spec 0 (g_num_gcp_residuals g)),
    (Nat.ltb_spec 0 (length (g_reference_vec g))),
    (dgt (camera_weight opt) 0%float),
    (dgt (rotation_weight opt) 0%float
     || dgt (translation_weight opt) 0%float); lia.
Qed.

(** X1. On the graph a pass has built, and with an even number of
    parameters for a camera, [write_residual_logs] walks through exactly as
    many residuals as the evaluation returns, with or without the loss:
    neither of its two checks throws. *)
Theorem residual_logs_walk_all_residuals (libs : Libraries)
  (ba_model : BAModel) (opt : Options) (cnet : ControlNetwork)
  (crn : CameraRelationNetwork) (num_camera_params num_cameras num_points : nat)
  (orig_cameras_vec cameras intrinsics points : list double) (O : gset nat)
  (g : Graph) (apply_loss_function : bool) (st : SolverState) :
  (forall a st b,
     length (block_residuals (ceres_lib libs) a st b) = num_residuals b) ->
  Nat.even num_camera_params = true ->
  build_graph libs ba_model opt cnet crn num_camera_params point_params_n
    num_cameras num_points orig_cameras_vec cameras intrinsics points O
  = Ok g ->
  write_residual_logs (ceres_lib libs) apply_loss_function opt num_cameras
    num_camera_params point_params_n (g_cam_residual_counts g)
    (g_num_gcp_residuals g) (g_reference_vec g) (g_problem g) st
  = Ok tt.
Proof.
  intros Hsize Heven Hg.
  eapply write_residual_logs_graph; eassumption.
Qed.

Lemma residual_logs_walk_all_residuals_witness :
  write_residual_logs (ceres_lib (constant_libs 0%float)) true default_options
    2 camera_params_n point_params_n (g_cam_residual_counts one_point_graph)
    (g_num_gcp_residuals one_point_graph) (g_reference_vec one_point_graph)
    (g_problem one_point_graph) one_point_state
  = Ok tt.
Proof.
  apply (residual_logs_walk_all_residuals (constant_libs 0%float)
           generic_model default_options one_point_cnet one_point_crn
           camera_params_n 2 1 (replicate 12 0%float) (replicate 12 0%float)
           [] (points_of_cnet one_point_cnet 3) ∅ one_point_graph true
           one_point_state).
  - intros a st b. apply constant_ceres_sizes.
  - reflexivity.
  - exact one_point_graph_built.
Defined.

(* ================================================================= *)
(** ** A pass after its graph *)

Lemma update_outliers_graph libs ba_model opt cnet crn ncp nc np orig cameras
  intrinsics points O g st :
  (forall a st b,
     length (block_residuals (ceres_lib libs) a st b) = num_residuals b) ->
  build_graph libs ba_model opt cnet crn ncp point_params_n nc np orig cameras
    intrinsics points O = Ok g ->
  exists n O',
    update_outliers (find_outlier_brackets libs) (ceres_lib libs) opt cnet crn
      np O nc ncp point_params_n (g_cam_residual_counts g)
      (g_num_gcp_residuals g) (g_reference_vec g) (g_problem g) st
    = Ok (n, O').
Proof.
  intros Hsize Hg. unfold update_outliers.
  rewrite (compute_residuals_graph libs ba_model opt cnet crn ncp nc np orig
             cameras intrinsics points O g false st Hsize Hg).
  cbn [mbind result_bind].
  destruct (compute_mean_residuals_at_xyz _ _ _ _) as [mr obs]. eauto.
Qed.

(** The loop that multiplies the intrinsics by their scales. *)
Lemma multiply_intrinsics_fold (scaled : list double) (l : list nat) :
  NoDup l ->
  forall intrinsics,
  let r := fold_left
             (fun intrinsics i =>
                <[i := dmul (get_d intrinsics i) (get_d scaled i)]> intrinsics)
             l intrinsics in
  length r = length intrinsics
  /\ forall i,
       get_d r i
       = if bool_decide (i ∈ l) && (i <? length intrinsics)%nat then
           dmul (get_d intrinsics i) (get_d scaled i)
         else get_d intrinsics i.
Proof.
  induction l as [| a l IH]; intros Hnd intrinsics; cbn [fold_left].
  - split; [reflexivity |]. intros i.
    rewrite bool_decide_eq_false_2 by apply not_elem_of_nil. reflexivity.
  - apply NoDup_cons in Hnd as [Ha Hnd]. cbv zeta in IH |- *.
    destruct (IH Hnd (<[a := dmul (get_d intrinsics a) (get_d scaled a)]>
                        intrinsics)) as [Hlen Hget].
    rewrite Hlen, length_insert. split; [reflexivity |]. intros i.
    rewrite Hget, length_insert.
    destruct (Nat.eq_dec i a) as [-> | Hne].
    + rewrite (bool_decide_eq_false_2 _ Ha).
      rewrite (bool_decide_eq_true_2 (a ∈ a :: l)) by apply list_elem_of_here.
      cbn [andb]. destruct (Nat.ltb_spec a (length intrinsics)) as [Hlt | Hge].
      * apply get_d_insert_eq. exact Hlt.
      * rewrite list_insert_ge by exact Hge. reflexivity.
    + rewrite get_d_insert_ne by congruence.
      destruct (bool_decide_reflect (i ∈ l)) as [Hi | Hi].
      * rewrite (bool_decide_eq_true_2 (i ∈ a :: l))
          by (apply list_elem_of_further; exact Hi).
        reflexivity.
      * rewrite (bool_decide_eq_false_2 (i ∈ a :: l)); [reflexivity |].
        intros Hin. apply elem_of_cons in Hin as [Hin | Hin]; auto.
Qed.

Lemma multiply_intrinsics_spec (num_intrinsic_params : nat)
  (st : SolverState) :
  let st' := multiply_intrinsics num_intrinsic_params st in
  st_cameras st' = st_cameras st
  /\ st_points st' = st_points st
  /\ st_scaled_intrinsics st' = st_scaled_intrinsics st
  /\ length (st_intrinsics st') = length (st_intrinsics st)
  /\ forall i,
       get_d (st_intrinsics st') i
       = if (i <? num_intrinsic_params)%nat
            && (i <? length (st_intrinsics st))%nat
         then dmul (get_d (st_intrinsics st) i)
                (get_d (st_scaled_intrinsics st) i)
         else get_d (st_intrinsics st) i.
Proof.
  cbv zeta. unfold multiply_intrinsics. cbn [st_cameras st_points
    st_scaled_intrinsics st_intrinsics].
  do 3 (split; [reflexivity |]).
  destruct (multiply_intrinsics_fold (st_scaled_intrinsics st)
              (seq 0 num_intrinsic_params)
              (proj2 (NoDup_ListNoDup _)
                 (List.seq_NoDup num_intrinsic_params 0))
              (st_intrinsics st)) as [Hlen Hget].
  split; [exact Hlen |]. intros i. rewrite Hget.
  replace (bool_decide (i ∈ seq 0 num_intrinsic_params))
    with (i <? num_intrinsic_params)%nat; [reflexivity |].
  destruct (Nat.ltb_spec i num_intrinsic_params) as [Hlt | Hge].
  - symmetry. apply bool_decide_eq_true_2, elem_of_seq. lia.
  - symmetry. apply bool_decide_eq_false_2. rewrite elem_of_seq. lia.
Qed.

(** X2. Where a pass can fail. If the construction of the graph throws, the
    pass throws the same exception. If the graph is built, the solver
    library returns as many residuals for a block as the block declares and
    a camera has an even number of parameters, then the logs before and
    after the solve and the update of the outliers all go through, and only
    three steps are left that can throw, in this order: the KML file of the
    initial points, written on the first pass only, the KML file of the
    final points, and the rewriting of the match files by [remove_outliers],
    which happens when several passes are asked for and the pass found new
    outliers. The KML files hold the points that were not outliers when the
    pass began, and none is written for the unspecified datum. When none of
    the three throws the pass returns the cameras and the points as the
    solver left them, each intrinsic below [num_intrinsic_params] multiplied
    by its scale, [intrinsics[i] * scaled_intrinsics[i]], and a set of
    outliers that contains the one it was given, with the difference of
    their sizes as the number of new outliers; on the last pass the set is
    the one it was given. *)
Theorem pass_fails_only_in_graph (libs : Libraries) (ba_model : BAModel)
  (opt : Options) (cnet : ControlNetwork) (crn : CameraRelationNetwork)
  (num_camera_params num_intrinsic_params num_cameras num_points : nat)
  (first_pass last_pass : bool)
  (orig_cameras_vec cameras intrinsics points : list double) (O : gset nat) :
  (forall a st b,
     length (block_residuals (ceres_lib libs) a st b) = num_residuals b) ->
  Nat.even num_camera_params = true ->
  let pass :=
    do_ba_ceres_one_pass libs ba_model opt cnet crn num_camera_params
      point_params_n num_intrinsic_params num_cameras num_points first_pass
      last_pass orig_cameras_vec cameras intrinsics points O in
  match build_graph libs ba_model opt cnet crn num_camera_params
          point_params_n num_cameras num_points orig_cameras_vec cameras
          intrinsics points O with
  | Throw e => pass = Throw e
  | Ok g =>
      let solved :=
        Solve (ceres_lib libs) (solver_options opt (Z.of_nat num_cameras))
          (g_problem g)
          {| st_cameras := cameras;
             st_intrinsics := intrinsics;
             st_points := g_points g;
             st_scaled_intrinsics := replicate num_intrinsic_params 1%float |}
      in
      let kml name points :=
        match record_points_to_kml (datum opt) points num_points O
                (kml_point_skip num_points) with
        | Some placemarks => KMLFile libs name placemarks
        | None => Ok tt
        end in
      exists st n O',
        st_cameras st = st_cameras solved
        /\ st_points st = st_points solved
        /\ st_scaled_intrinsics st = st_scaled_intrinsics solved
        /\ length (st_intrinsics st) = length (st_intrinsics solved)
        /\ (forall i,
              get_d (st_intrinsics st) i
              = if (i <? num_intrinsic_params)%nat
                   && (i <? length (st_intrinsics solved))%nat
                then dmul (get_d (st_intrinsics solved) i)
                       (get_d (st_scaled_intrinsics solved) i)
                else get_d (st_intrinsics solved) i)
        /\ O ⊆ O'
        /\ n = Z.of_nat (size O') - Z.of_nat (size O)
        /\ (last_pass = true -> O' = O)
        /\ pass
           = (_ ← (if first_pass then kml "initial_points" (g_points g)
                   else Ok tt);
              _ ← kml "final_points" (st_points solved);
              _ ← (if (1 <? num_ba_passes opt) && (0 <? n) then
                     remove_outliers libs cnet O' opt num_cameras
                   else Ok tt);
              Ok (n, st, O'))
  end.
Proof.
  intros Hsize Heven. cbv zeta. unfold do_ba_ceres_one_pass.
  destruct (build_graph _ _ _ _ _ _ _ _ _ _ _ _ _ _) as [g | e] eqn:Hg;
    cbn [mbind result_bind]; [| reflexivity].
  pose proof (fun a st =>
    write_residual_logs_graph libs ba_model opt cnet crn num_camera_params
      num_cameras num_points orig_cameras_vec cameras intrinsics points O g a
      st Hsize Heven Hg) as Hlogs.
  rewrite !Hlogs. cbn [mbind result_bind].
  set (solved := Solve (ceres_lib libs) _ _ _).
  destruct (multiply_intrinsics_spec num_intrinsic_params solved)
    as (Hc & Hp & Hs & Hl & Hi).
  cbv zeta in Hc, Hp, Hs, Hl, Hi.
  exists (multiply_intrinsics num_intrinsic_params solved).
  assert (Hupd : exists n O',
            O ⊆ O' /\ n = Z.of_nat (size O') - Z.of_nat (size O)
            /\ (last_pass = true -> O' = O)
            /\ (if negb last_pass then
                  update_outliers (find_outlier_brackets libs) (ceres_lib libs)
                    opt cnet crn num_points O num_cameras num_camera_params
                    point_params_n (g_cam_residual_counts g)
                    (g_num_gcp_residuals g) (g_reference_vec g) (g_problem g)
                    (multiply_intrinsics num_intrinsic_params solved)
                else Ok (0, O))
               = Ok (n, O')).
  { destruct last_pass; cbn [negb].
    - exists 0, O. split; [reflexivity |]. split; [lia |]. auto.
    - destruct (update_outliers_graph libs ba_model opt cnet crn
                  num_camera_params num_cameras num_points orig_cameras_vec
                  cameras intrinsics points O g
                  (multiply_intrinsics num_intrinsic_params solved) Hsize Hg)
        as (k & O' & Hu).
      exists k, O'. pose proof Hu as Hgrow.
      apply update_outliers_grows in Hgrow as (Hsub & _ & Hk).
      split; [exact Hsub |]. split; [exact Hk |].
      split; [discriminate | exact Hu]. }
  destruct Hupd as (n & O' & Hsub & Hn & Hlast & Hu).
  exists n, O'. rewrite Hu, Hp. cbn [mbind result_bind st_points].
  do 5 (split; [assumption |]).
  split; [exact Hsub |]. split; [exact Hn |]. split; [exact Hlast |].
  destruct first_pass; reflexivity.
Qed.

Lemma pass_fails_only_in_graph_witness :
  exists st n O',
    do_ba_ceres_one_pass (constant_libs 0%float) generic_model default_options
      one_point_cnet one_point_crn camera_params_n point_params_n 0 2 1 true
      false (replicate 12 0%float) (replicate 12 0%float) []
      (points_of_cnet one_point_cnet 3) ∅
    = Ok (n, st, O')
    /\ st_cameras st = replicate 12 0%float
    /\ ∅ ⊆ O'.
Proof.
  pose proof (pass_fails_only_in_graph (constant_libs 0%float) generic_model
                default_options one_point_cnet one_point_crn camera_params_n
                0 2 1 true false (replicate 12 0%float)
                (replicate 12 0%float) [] (points_of_cnet one_point_cnet 3) ∅
                (fun a st b => constant_ceres_sizes 0%float a st b) eq_refl)
    as H.
  cbv zeta in H. rewrite one_point_graph_built in H.
  destruct H as (st & n & O' & Hc & _ & _ & _ & _ & Hsub & _ & _ & Hpass).
  exists st, n, O'. split; [exact Hpass |]. split; [exact Hc | exact Hsub].
Defined.

(* ================================================================= *)
(** ** The parameter blocks a pass holds constant *)

(** The blocks of intrinsics that [add_residual_block] fixes, the last one
    fixed first. *)
Definition fixed_intrinsics (ba_model : BAModel) (itf : list string)
  : list ParameterBlock :=
  match model_kind ba_model with
  | BundleAdjustmentModel => []
  | BAPinholeModel =>
      if are_intrinsics_constant ba_model then []
      else
        match itf with
        | [] => []
        | _ :: _ =>
            (if floats itf "distortion_params" then []
             else if (0 <? num_distortion_params ba_model)%nat then
               [IntrinsicsBlock
                  (focal_length_params_n + optical_center_params_n)]
             else [])
            ++ (if floats itf "optical_center" then []
                else [IntrinsicsBlock focal_length_params_n])
            ++ (if floats itf "focal_length" then [] else [IntrinsicsBlock 0])
        end
  end.

Lemma add_residual_block_constants ba_model observation pixel_sigma icam ipt
  itf loss problem :
  constant_blocks
    (add_residual_block ba_model observation pixel_sigma icam ipt itf loss
       problem)
  = fixed_intrinsics ba_model itf ++ constant_blocks problem.
Proof.
  unfold add_residual_block, fixed_intrinsics.
  destruct (model_kind ba_model); [reflexivity |].
  destruct (are_intrinsics_constant ba_model); [reflexivity |].
  cbv zeta. destruct itf as [| s itf].
  - destruct (num_distortion_params ba_model =? 0)%nat; reflexivity.
  - destruct (floats (s :: itf) "focal_length"),
      (floats (s :: itf) "optical_center"),
      (floats (s :: itf) "distortion_params"),
      (0 <? num_distortion_params ba_model)%nat,
      (num_distortion_params ba_model =? 0)%nat; reflexivity.
Qed.

Lemma heights_fixup_constants dem cnet npp ipt problem points :
  constant_blocks (fst (heights_from_dem_fixup dem cnet npp ipt problem points))
  = (if is_gcp cnet ipt then [] else [PointBlock ipt])
    ++ constant_blocks problem.
Proof.
  unfold heights_from_dem_fixup. destruct (is_gcp cnet ipt); [reflexivity |].
  destruct (dem_cartesian_to_geodetic dem _) as [[lon lat] h]. reflexivity.
Qed.

Section ConstantBlocks.

Variable pow : double -> double -> double.
Variable ba_model : BAModel.
Variable opt : Options.
Variable cnet : ControlNetwork.
Variable O : gset nat.
Variable num_point_params : nat.
Variable num_cameras : nat.
Variable num_points : nat.
Variable dem : option Dem.
Variable count_map : gmap nat Z.

(** The blocks fixed at the visit of an observation of camera [icam] that is
    not skipped. *)
Definition visit_constants (icam : nat) (f : JFeature) : list ParameterBlock :=
  (match dem with
   | Some _ =>
       if is_gcp cnet (m_point_id f) then [] else [PointBlock (m_point_id f)]
   | None => []
   end)
  ++ (if bool_decide (icam ∈ fixed_cameras_indices opt) then [CameraBlock icam]
      else [])
  ++ fixed_intrinsics ba_model (intrinsics_to_float opt).

Local Abbreviation body :=
  (reprojection_body pow ba_model opt cnet O num_point_params num_cameras
     num_points dem count_map).

Lemma reprojection_body_constants icam problem points count f problem' points'
  count' :
  body icam (problem, points, count) f = Ok (problem', points', count') ->
  constant_blocks problem'
  = (if is_outlier O (m_point_id f) then [] else visit_constants icam f)
    ++ constant_blocks problem.
Proof.
  unfold reprojection_body, visit_constants.
  destruct (is_outlier O (m_point_id f)) eqn:Ho.
  { intros H. injection H as <- <- <-. reflexivity. }
  match goal with
  | |- context [mbind _ ?r] => destruct r as [u1 | e1]
  end; cbn [mbind result_bind]; [| discriminate].
  match goal with
  | |- context [mbind _ ?r] => destruct r as [u2 | e2]
  end; cbn [mbind result_bind]; [| discriminate].
  match goal with
  | |- context [mbind _ ?r] => destruct r as [loss | e3]
  end; cbn [mbind result_bind]; [| discriminate].
  destruct dem as [d |].
  - match goal with
    | |- context [heights_from_dem_fixup d cnet num_point_params ?i ?p ?pts] =>
        pose proof (heights_fixup_constants d cnet num_point_params i p pts)
          as Hc;
        destruct (heights_from_dem_fixup d cnet num_point_params i p pts)
          as [p2 pts2]
    end.
    cbn [fst] in Hc. intros H. injection H as <- <- <-. rewrite Hc.
    destruct (bool_decide (icam ∈ fixed_cameras_indices opt));
      cbn [constant_blocks SetParameterBlockConstant];
      rewrite add_residual_block_constants, <- ?app_assoc; reflexivity.
  - intros H. injection H as <- <- <-.
    destruct (bool_decide (icam ∈ fixed_cameras_indices opt));
      cbn [constant_blocks SetParameterBlockConstant];
      rewrite add_residual_block_constants, <- ?app_assoc; reflexivity.
Qed.

Lemma reprojection_features_constants icam cam :
  forall problem points count problem' points' count',
  foldM (body icam) cam (problem, points, count)
  = Ok (problem', points', count') ->
  forall b,
    b ∈ constant_blocks problem'
    <-> b ∈ constant_blocks problem
        \/ exists f, f ∈ cam /\ is_outlier O (m_point_id f) = false
                     /\ b ∈ visit_constants icam f.
Proof.
  induction cam as [| f cam IH]; intros problem points count problem' points'
    count'; cbn [foldM].
  - intros H b. injection H as <- <- <-. split; [auto |].
    intros [H | (f & Hf & _)]; [exact H |].
    apply elem_of_nil in Hf. destruct Hf.
  - match goal with
    | |- context [mbind _ ?r] => destruct r as [[[p1 pts1] c1] | e] eqn:Hf
    end; cbn [mbind result_bind]; [| discriminate].
    intros Hrest b. apply reprojection_body_constants in Hf.
    rewrite (IH _ _ _ _ _ _ Hrest b), Hf, elem_of_app.
    split.
    + intros [[H | H] | (g & Hg & Ho & Hb)].
      * destruct (is_outlier O (m_point_id f)) eqn:Ho;
          [apply elem_of_nil in H; destruct H |].
        right. exists f. split; [apply elem_of_cons; auto | auto].
      * auto.
      * right. exists g. split; [apply elem_of_cons; auto | auto].
    + intros [H | (g & Hg & Ho & Hb)]; [auto |].
      apply elem_of_cons in Hg as [-> | Hg].
      * left. left. rewrite Ho. exact Hb.
      * right. exists g. auto.
Qed.

Local Abbreviation camera_body :=
  (reprojection_camera pow ba_model opt cnet O num_point_params num_cameras
     num_points dem count_map).

Lemma reprojection_cameras_constants crn :
  forall icam problem points counts problem' points' counts',
  for_cameras camera_body icam crn (problem, points, counts)
  = Ok (problem', points', counts') ->
  forall b,
    b ∈ constant_blocks problem'
    <-> b ∈ constant_blocks problem
        \/ exists k cam f,
             crn !! k = Some cam /\ f ∈ cam
             /\ is_outlier O (m_point_id f) = false
             /\ b ∈ visit_constants (icam + k) f.
Proof.
  induction crn as [| cam crn IH]; intros icam problem points counts problem'
    points' counts'; cbn [for_cameras].
  - intros H b. injection H as <- <- <-. split; [auto |].
    intros [H | (k & cam & f & Hk & _)]; [exact H |].
    destruct k; discriminate.
  - match goal with
    | |- context [mbind _ ?r] => destruct r as [[[p1 pts1] cs1] | e] eqn:Hcam
    end; cbn [mbind result_bind]; [| discriminate].
    intros Hrest b. unfold reprojection_camera in Hcam.
    match type of Hcam with
    | context [mbind _ ?r] => destruct r as [[[p0 pts0] c0] | e] eqn:Hfeat
    end; cbn [mbind result_bind] in Hcam; [| discriminate].
    injection Hcam as <- <- <-.
    rewrite (IH _ _ _ _ _ _ _ Hrest b).
    rewrite (reprojection_features_constants _ _ _ _ _ _ _ _ Hfeat b).
    split.
    + intros [[H | (f & Hf & Ho & Hb)] | (k & cam' & f & Hk & Hf & Ho & Hb)].
      * auto.
      * right. exists 0%nat, cam, f. rewrite Nat.add_0_r. auto.
      * right. exists (S k), cam', f.
        replace (icam + S k)%nat with (S icam + k)%nat by lia. auto.
    + intros [H | (k & cam' & f & Hk & Hf & Ho & Hb)]; [auto |].
      destruct k as [| k].
      * injection Hk as <-. rewrite Nat.add_0_r in Hb.
        left. right. exists f. auto.
      * right. exists k, cam', f.
        replace (S icam + k)%nat with (icam + S k)%nat by lia. auto.
Qed.

End ConstantBlocks.

(** The loop over the points fixes the GCP it anchors, given --fix-gcp-xyz. *)
Lemma gcp_body_constants opt cnet O (l : list nat) :
  forall problem n b,
  b ∈ constant_blocks (fst (fold_left (gcp_body opt cnet O) l (problem, n)))
  <-> b ∈ constant_blocks problem
      \/ (fix_gcp_xyz opt = true
          /\ exists ipt, ipt ∈ l /\ anchored cnet O ipt = true
                         /\ b = PointBlock ipt).
Proof.
  induction l as [| ipt l IH]; intros problem n b; cbn [fold_left].
  - cbn [fst]. split; [auto |].
    intros [H | (_ & ipt & Hi & _)]; [exact H |].
    apply elem_of_nil in Hi. destruct Hi.
  - rewrite gcp_body_step. destruct (anchored cnet O ipt) eqn:Ha.
    + rewrite IH. destruct (fix_gcp_xyz opt) eqn:Hfix;
        cbn [constant_blocks SetParameterBlockConstant AddResidualBlock].
      * rewrite elem_of_cons. split.
        -- intros [[-> | H] | (_ & i & Hi & Hai & Hb)].
           ++ right. split; [reflexivity |]. exists ipt.
              split; [apply elem_of_cons; auto | auto].
           ++ auto.
           ++ right. split; [reflexivity |]. exists i.
              split; [apply elem_of_cons; auto | auto].
        -- intros [H | (_ & i & Hi & Hai & Hb)]; [auto |].
           apply elem_of_cons in Hi as [-> | Hi]; [auto |].
           right. split; [reflexivity |]. exists i. auto.
      * split.
        -- intros [H | (Hf & _)]; [auto | discriminate].
        -- intros [H | (Hf & _)]; [auto | discriminate].
    + rewrite IH. split.
      * intros [H | (Hf & i & Hi & Hai & Hb)]; [auto |].
        right. split; [exact Hf |]. exists i.
        split; [apply elem_of_cons; auto | auto].
      * intros [H | (Hf & i & Hi & Hai & Hb)]; [auto |].
        apply elem_of_cons in Hi as [-> | Hi]; [congruence |].
        right. split; [exact Hf |]. exists i. auto.
Qed.

(* ================================================================= *)
(** ** The blocks of the reference terrain *)

(** The block that ties the pair of cameras [2k] and [2k + 1] at a point of
    the terrain. *)
Definition terrain_block (env : TerrainEnv) (reference_xyz : Vector3)
  (k : nat) (loss : LossFunction) : ResidualBlock :=
  {| rb_cost := BaDispXyzError reference_xyz (2 * k) (2 * k + 1);
     rb_loss := loss;
     rb_params := terrain_parameter_blocks env (2 * k) (2 * k + 1) |}.

Definition ties_pair (env : TerrainEnv) (opt : Options) (num_cameras : nat)
  (b : ResidualBlock) (reference_xyz : Vector3) : Prop :=
  exists k loss,
    (2 * k + 1 < num_cameras)%nat
    /\ get_loss_function opt = Ok loss
    /\ b = terrain_block env reference_xyz k loss.

Section TerrainPairs.

Variable env : TerrainEnv.
Variable opt : Options.
Variable num_cameras : nat.
Variable cameras : list double.
Variable intrinsics : list double.

(** The loops add blocks and points of [reference_vec] side by side. *)
Definition terrain_pairs (p : Problem) (refs : list Vector3) (p' : Problem)
  (refs' : list Vector3) : Prop :=
  exists tb new,
    residual_blocks p' = residual_blocks p ++ tb
    /\ refs' = refs ++ new
    /\ Forall2 (ties_pair env opt num_cameras) tb new.

Lemma terrain_pairs_refl p refs : terrain_pairs p refs p refs.
Proof. exists [], []. rewrite !app_nil_r. auto. Qed.

Lemma terrain_pairs_trans p1 r1 p2 r2 p3 r3 :
  terrain_pairs p1 r1 p2 r2 -> terrain_pairs p2 r2 p3 r3 ->
  terrain_pairs p1 r1 p3 r3.
Proof.
  intros (tb1 & n1 & Hb1 & Hr1 & Hf1) (tb2 & n2 & Hb2 & Hr2 & Hf2).
  exists (tb1 ++ tb2), (n1 ++ n2).
  rewrite Hb2, Hb1, Hr2, Hr1, <- !app_assoc.
  split; [reflexivity |]. split; [reflexivity |].
  apply Forall2_app; assumption.
Qed.

Lemma terrain_camera_body_pairs reference_xyz good_point left_pred p refs icam
  good_point' left_pred' p' refs' :
  (icam < num_cameras)%nat ->
  terrain_camera_body env opt cameras intrinsics reference_xyz
    (good_point, left_pred, p, refs) icam
  = Ok (good_point', left_pred', p', refs') ->
  terrain_pairs p refs p' refs'.
Proof.
  intros Hlt. unfold terrain_camera_body. cbv zeta.
  destruct (icam mod 2 =? 0)%nat eqn:Heven;
    destruct (icam mod 2 =? 1)%nat eqn:Hodd; cbn [negb].
  all: repeat match goal with
         | |- context [if ?c then _ else _] => destruct c
         | |- context [match ?c with Some _ => _ | None => _ end] => destruct c
         | |- Ok _ = Ok _ -> _ =>
             let H := fresh in
             intros H; injection H as <- <- <- <-; apply terrain_pairs_refl
         | |- Throw _ = Ok _ -> _ => discriminate
         end.
  all: match goal with
       | |- context [mbind _ ?r] => destruct r as [loss | e] eqn:Hloss
       end; cbn [mbind result_bind]; [| discriminate].
  all: intros H; injection H as <- <- <- <-.
  all: apply Nat.eqb_eq in Hodd.
  all: pose proof (Nat.div_mod_eq icam 2) as Hdiv.
  all: assert (Hk : exists k, icam = (2 * k + 1)%nat)
    by (exists (icam / 2)%nat; lia).
  all: clear Heven Hodd Hdiv; destruct Hk as [k ->].
  all: exists [terrain_block env reference_xyz k loss], [reference_xyz].
  all: split; [| split; [reflexivity |]].
  all: try (constructor; [| constructor]; exists k, loss;
            split; [lia |]; split; [exact Hloss | reflexivity]).
  all: unfold add_residual_block_terrain, terrain_block;
    match goal with
    | |- context [fold_left ?f ?l ?q] =>
        rewrite (proj1 (set_constant_intrinsics_spec l q))
    end;
    rewrite residual_blocks_add;
    replace (2 * k + 1 - 1)%nat with (2 * k)%nat by lia;
    reflexivity.
Qed.

Lemma terrain_cameras_pairs reference_xyz (l : list nat) :
  Forall (fun icam => (icam < num_cameras)%nat) l ->
  forall good_point left_pred p refs good_point' left_pred' p' refs',
  foldM (terrain_camera_body env opt cameras intrinsics reference_xyz) l
    (good_point, left_pred, p, refs)
  = Ok (good_point', left_pred', p', refs') ->
  terrain_pairs p refs p' refs'.
Proof.
  induction l as [| icam l IH]; intros Hl g lp p refs g' lp' p' refs';
    cbn [foldM].
  - intros H. injection H as <- <- <- <-. apply terrain_pairs_refl.
  - apply Forall_cons in Hl as [Hi Hl].
    match goal with
    | |- context [mbind _ ?r] => destruct r as [[[[g1 lp1] p1] r1] | e] eqn:H1
    end; cbn [mbind result_bind]; [| discriminate].
    intros H2. apply (terrain_camera_body_pairs _ _ _ _ _ _ _ _ _ _ Hi) in H1.
    apply (IH Hl) in H2. eapply terrain_pairs_trans; eassumption.
Qed.

Lemma terrain_points_pairs (data : list Vector3) :
  forall p refs p' refs',
  foldM (terrain_point_body env opt num_cameras cameras intrinsics) data
    (p, refs) = Ok (p', refs') ->
  terrain_pairs p refs p' refs'.
Proof.
  induction data as [| xyz data IH]; intros p refs p' refs'; cbn [foldM].
  - intros H. injection H as <- <-. apply terrain_pairs_refl.
  - match goal with
    | |- context [mbind _ ?r] => destruct r as [[p1 r1] | e] eqn:H1
    end; cbn [mbind result_bind]; [| discriminate].
    intros H2. apply IH in H2.
    eapply terrain_pairs_trans; [| exact H2].
    unfold terrain_point_body in H1.
    destruct (lon_lat_limit_is_set env
              && negb (lon_lat_limit_contains env xyz)).
    + injection H1 as <- <-. apply terrain_pairs_refl.
    + match type of H1 with
      | context [mbind _ ?r] =>
          destruct r as [[[[g2 lp2] p2] r2] | e] eqn:H3
      end; cbn [mbind result_bind] in H1; [| discriminate].
      injection H1 as <- <-.
      apply terrain_cameras_pairs in H3; [exact H3 |].
      apply Forall_forall. intros icam Hi. apply elem_of_seq in Hi. lia.
Qed.

Lemma add_reference_terrain_blocks_pairs p p' refs' :
  add_reference_terrain_blocks env opt num_cameras cameras intrinsics p
  = Ok (p', refs') ->
  terrain_pairs p [] p' refs'.
Proof.
  unfold add_reference_terrain_blocks.
  repeat match goal with
         | |- context [if ?c then _ else _] => destruct c
         | |- Throw _ = Ok _ -> _ => discriminate
         end.
  - apply terrain_points_pairs.
  - intros H. injection H as <- <-. apply terrain_pairs_refl.
Qed.

End TerrainPairs.

(* ================================================================= *)
(** ** The stages of the construction of the graph *)

(** A graph that is built went through the stages, none of which threw. *)
Lemma build_graph_stages libs ba_model opt cnet crn ncp npp nc np orig cameras
  intrinsics points O g :
  build_graph libs ba_model opt cnet crn ncp npp nc np orig cameras intrinsics
    points O = Ok g ->
  nc = length crn
  /\ exists p1,
       add_reprojection_blocks (pow libs) ba_model opt cnet O npp nc np
         (dem_of_options libs opt) crn empty_problem points
       = Ok (p1, g_points g, g_cam_residual_counts g)
       /\ add_reference_terrain_blocks (terrain_env libs) opt nc cameras
            intrinsics
            (add_rot_trans_blocks opt ncp nc orig
               (add_camera_prior_blocks opt ncp nc orig
                  (fst (add_gcp_blocks opt cnet O np p1))))
          = Ok (g_problem g, g_reference_vec g).
Proof.
  unfold build_graph, dem_of_options.
  destruct (nc =? length crn)%nat eqn:Hn; cbn [negb]; [| discriminate].
  apply Nat.eqb_eq in Hn.
  destruct (non_empty (heights_from_dem opt)).
  - destruct (create_interp_dem libs (heights_from_dem opt)) as [dem | e];
      cbn [mbind result_bind]; [| discriminate].
    match goal with
    | |- context [mbind _ ?r] => destruct r as [[[p1 pts1] cs1] | e] eqn:H1
    end; cbn [mbind result_bind]; [| discriminate].
    destruct (add_gcp_blocks opt cnet O np p1) as [p2 ngcp] eqn:Hgcp.
    match goal with
    | |- context [mbind _ ?r] => destruct r as [[p5 refs] | e] eqn:H5
    end; cbn [mbind result_bind]; [| discriminate].
    intros H. injection H as <-. cbn. split; [exact Hn |]. exists p1.
    rewrite Hgcp. auto.
  - cbn [mbind result_bind].
    match goal with
    | |- context [mbind _ ?r] => destruct r as [[[p1 pts1] cs1] | e] eqn:H1
    end; cbn [mbind result_bind]; [| discriminate].
    destruct (add_gcp_blocks opt cnet O np p1) as [p2 ngcp] eqn:Hgcp.
    match goal with
    | |- context [mbind _ ?r] => destruct r as [[p5 refs] | e] eqn:H5
    end; cbn [mbind result_bind]; [| discriminate].
    intros H. injection H as <-. cbn. split; [exact Hn |]. exists p1.
    rewrite Hgcp. auto.
Qed.

Lemma fixed_intrinsics_elem ba_model itf b :
  b ∈ fixed_intrinsics ba_model itf
  <-> model_kind ba_model = BAPinholeModel
      /\ are_intrinsics_constant ba_model = false
      /\ itf <> []
      /\ ((b = IntrinsicsBlock 0 /\ floats itf "focal_length" = false)
          \/ (b = IntrinsicsBlock focal_length_params_n
              /\ floats itf "optical_center" = false)
          \/ (b = IntrinsicsBlock
                    (focal_length_params_n + optical_center_params_n)
              /\ floats itf "distortion_params" = false
              /\ (0 < num_distortion_params ba_model)%nat)).
Proof.
  unfold fixed_intrinsics.
  destruct (model_kind ba_model).
  { split; [intros H; apply elem_of_nil in H; destruct H |].
    intros (H & _). discriminate. }
  destruct (are_intrinsics_constant ba_model).
  { split; [intros H; apply elem_of_nil in H; destruct H |].
    intros (_ & H & _). discriminate. }
  destruct itf as [| s itf].
  { split; [intros H; apply elem_of_nil in H; destruct H |].
    intros (_ & _ & H & _). congruence. }
  rewrite !elem_of_app.
  destruct (floats (s :: itf) "focal_length"),
    (floats (s :: itf) "optical_center"),
    (floats (s :: itf) "distortion_params"),
    (Nat.ltb_spec 0 (num_distortion_params ba_model));
    rewrite ?elem_of_nil, ?list_elem_of_singleton;
    intuition (try discriminate; try congruence; try lia).
Qed.

Lemma visit_constants_elem ba_model opt cnet dem icam f b :
  b ∈ visit_constants ba_model opt cnet dem icam f
  <-> (b = PointBlock (m_point_id f) /\ dem <> None
       /\ is_gcp cnet (m_point_id f) = false)
      \/ (b = CameraBlock icam /\ icam ∈ fixed_cameras_indices opt)
      \/ b ∈ fixed_intrinsics ba_model (intrinsics_to_float opt).
Proof.
  unfold visit_constants. rewrite !elem_of_app.
  destruct (bool_decide_reflect (icam ∈ fixed_cameras_indices opt)),
    dem as [d |], (is_gcp cnet (m_point_id f));
    rewrite ?elem_of_nil, ?list_elem_of_singleton;
    intuition (try discriminate; try congruence).
Qed.


Section GraphBlocks.

Variable libs : Libraries.
Variable ba_model : BAModel.
Variable opt : Options.
Variable cnet : ControlNetwork.
Variable crn : CameraRelationNetwork.
Variable num_camera_params : nat.
Variable num_point_params : nat.
Variable num_cameras : nat.
Variable num_points : nat.

(** An observation of camera [icam] that the construction does not skip:
    its point is not among the outliers. *)
Definition observed (O : gset nat) (icam : nat) (f : JFeature) : Prop :=
  exists cam, crn !! icam = Some cam /\ f ∈ cam /\ m_point_id f ∉ O.

(** The parameter blocks the graph of a pass holds constant. *)
Lemma build_graph_constants orig_cameras_vec cameras intrinsics points O g :
  build_graph libs ba_model opt cnet crn num_camera_params num_point_params
    num_cameras num_points orig_cameras_vec cameras intrinsics points O
  = Ok g ->
  forall b,
    b ∈ constant_blocks (g_problem g)
    <-> (exists icam f,
           observed O icam f
           /\ b ∈ visit_constants ba_model opt cnet (dem_of_options libs opt)
                  icam f)
        \/ (fix_gcp_xyz opt = true
            /\ exists ipt, (ipt < num_points)%nat
                           /\ anchored cnet O ipt = true
                           /\ b = PointBlock ipt)
        \/ (g_reference_vec g <> []
            /\ exists offset,
                 b = IntrinsicsBlock offset
                 /\ offset ∈ terrain_constant_intrinsics (terrain_env libs)
                              (intrinsics_to_float opt)).
Proof.
  intros Hg b.
  apply build_graph_stages in Hg as (Hn & p1 & H1 & H5).
  apply add_reference_terrain_blocks_spec in H5
    as (tb & _ & _ & Hl5 & ib & Hc5 & Hi5).
  assert (Htb : tb <> [] <-> g_reference_vec g <> []).
  { destruct tb, (g_reference_vec g); cbn in Hl5; try discriminate;
      split; congruence. }
  rewrite Hc5, elem_of_app, Hi5, Htb. clear Hc5 Hi5 Htb Hl5.
  match goal with
  | |- ?T \/ ?C <-> ?X \/ ?Y \/ ?T =>
      cut (C <-> X \/ Y); [tauto |]
  end.
  rewrite (proj2 (rot_trans_spec opt num_camera_params num_cameras
                    orig_cameras_vec _)).
  rewrite (proj2 (camera_prior_spec opt num_camera_params num_cameras
                    orig_cameras_vec _)).
  unfold add_gcp_blocks. rewrite gcp_body_constants.
  unfold add_reprojection_blocks in H1.
  pose proof (fun b' =>
    reprojection_cameras_constants (pow libs) ba_model opt cnet O
      num_point_params num_cameras num_points (dem_of_options libs opt)
      (build_count_map opt O crn) crn 0%nat empty_problem points []
      p1 (g_points g) (g_cam_residual_counts g) H1 b') as Hc1.
  rewrite (Hc1 b).
  cbn [constant_blocks empty_problem]. rewrite elem_of_nil.
  split.
  - intros [[[] | (k & cam & f & Hk & Hf & Ho & Hb)]
           | (Hfix & ipt & Hi & Ha & Hb)].
    + left. exists k, f. split; [| exact Hb].
      exists cam. apply is_outlier_false in Ho. auto.
    + right. split; [exact Hfix |]. exists ipt. apply elem_of_seq in Hi.
      split; [lia | auto].
  - intros [(icam & f & (cam & Hk & Hf & Ho) & Hb)
           | (Hfix & ipt & Hi & Ha & Hb)].
    + left. right. exists icam, cam, f. apply is_outlier_false in Ho. auto.
    + right. split; [exact Hfix |]. exists ipt.
      split; [apply elem_of_seq; lia | auto].
Qed.

(** The residual blocks of the graph, with the blocks of the terrain next
    to the points of [reference_vec]. *)
Lemma build_graph_terrain orig_cameras_vec cameras intrinsics points O g :
  build_graph libs ba_model opt cnet crn num_camera_params num_point_params
    num_cameras num_points orig_cameras_vec cameras intrinsics points O
  = Ok g ->
  exists tb,
    residual_blocks (g_problem g)
    = reprojection_blocks libs ba_model opt crn O
      ++ gcp_blocks opt cnet O num_points
      ++ camera_prior_blocks opt num_camera_params num_cameras orig_cameras_vec
      ++ rot_trans_blocks opt num_camera_params num_cameras orig_cameras_vec
      ++ tb
    /\ Forall2 (ties_pair (terrain_env libs) opt num_cameras) tb
         (g_reference_vec g).
Proof.
  intros Hg.
  pose proof (build_graph_spec _ _ _ _ _ _ _ _ _ _ _ _ _ _ _ Hg)
    as (_ & (terrain & Hb & _) & _).
  apply build_graph_stages in Hg as (Hn & p1 & H1 & H5).
  apply add_reference_terrain_blocks_pairs in H5 as (tb & new & Hb5 & -> & Hf).
  exists tb. split; [| exact Hf].
  rewrite Hb5 in Hb.
  rewrite (proj1 (rot_trans_spec opt num_camera_params num_cameras
                    orig_cameras_vec _)) in Hb.
  rewrite (proj1 (camera_prior_spec opt num_camera_params num_cameras
                    orig_cameras_vec _)) in Hb.
  unfold add_gcp_blocks in Hb.
  rewrite (proj1 (gcp_body_spec opt cnet O (seq 0 num_points) p1 0%nat)) in Hb.
  fold (gcp_blocks opt cnet O num_points) in Hb.
  unfold add_reprojection_blocks in H1.
  apply reprojection_cameras_spec in H1 as (Hb1 & _).
  rewrite Hb1 in Hb. cbn [residual_blocks empty_problem app] in Hb.
  fold (reprojection_blocks libs ba_model opt crn O) in Hb.
  rewrite <- !app_assoc in Hb.
  repeat apply app_inv_head in Hb. subst terrain.
  rewrite Hb5.
  rewrite (proj1 (rot_trans_spec opt num_camera_params num_cameras
                    orig_cameras_vec _)).
  rewrite (proj1 (camera_prior_spec opt num_camera_params num_cameras
                    orig_cameras_vec _)).
  unfold add_gcp_blocks.
  rewrite (proj1 (gcp_body_spec opt cnet O (seq 0 num_points) p1 0%nat)).
  rewrite Hb1. cbn [residual_blocks empty_problem app].
  rewrite <- !app_assoc. reflexivity.
Qed.

End GraphBlocks.


(** A run for pinhole cameras that solves for the intrinsics, floats the
    focal length only, keeps camera 0 and the GCP fixed; the model has four
    distortion parameters. *)
Definition pinhole_model : BAModel := {|
  model_kind := BAPinholeModel;
  num_intrinsic_params := 7;
  are_intrinsics_constant := false;
  num_distortion_params := 4
|}.

Definition fixing_options : Options := {|
  cost_function := "cauchy";
  ba_type := "ceres";
  robust_threshold := 0.5%float;
  camera_weight := 1%float;
  rotation_weight := 0%float;
  translation_weight := 0%float;
  overlap_exponent := 0%float;
  parameter_tolerance := 0x1.5798ee2308c3ap-27%float;
  min_matches := 30;
  max_iterations := 1000;
  num_ba_passes := 1;
  num_threads := 1;
  create_pinhole := true;
  fix_gcp_xyz := true;
  solve_intrinsics := true;
  use_llh_error := false;
  stereo_session_string := "";
  heights_from_dem := "";
  reference_terrain := "";
  csv_format_str := "";
  datum_str := "";
  datum := unspecified_datum;
  disparity_list := [];
  max_disp_error := (-1)%float;
  remove_outliers_params := (75%float, 3%float, 2%float, 3%float);
  intrinsics_to_float := ["focal_length"];
  fixed_cameras_indices := {[0%nat]}
|}.

(** A tie point and a GCP; camera 0 sees both and camera 1 the tie point. *)
Definition gcp_cnet : ControlNetwork :=
  [{| cp_type := TiePoint;
      cp_position := (1%float, 2%float, 3%float);
      cp_sigma := (1%float, 1%float, 1%float) |};
   {| cp_type := GroundControlPoint;
      cp_position := (4%float, 5%float, 6%float);
      cp_sigma := (1%float, 1%float, 1%float) |}].

Definition tie_feature : JFeature :=
  {| m_point_id := 0; m_location := (10%float, 20%float);
     m_scale := (1%float, 1%float) |}.

Definition gcp_feature : JFeature :=
  {| m_point_id := 1; m_location := (30%float, 40%float);
     m_scale := (1%float, 1%float) |}.

Definition gcp_crn : CameraRelationNetwork :=
  [[tie_feature; gcp_feature]; [tie_feature]].

Definition fixing_graph : Graph :=
  Eval vm_compute in
    match build_graph (constant_libs 0%float) pinhole_model fixing_options
            gcp_cnet gcp_crn camera_params_n point_params_n 2 2
            (replicate 12 0%float) (replicate 12 0%float)
            (replicate 7 1%float) (points_of_cnet gcp_cnet 3) ∅ with
    | Ok g => g
    | Throw _ => one_point_graph
    end.

Lemma fixing_graph_built :
  build_graph (constant_libs 0%float) pinhole_model fixing_options gcp_cnet
    gcp_crn camera_params_n point_params_n 2 2 (replicate 12 0%float)
    (replicate 12 0%float) (replicate 7 1%float) (points_of_cnet gcp_cnet 3) ∅
  = Ok fixing_graph.
Proof. vm_compute. reflexivity. Qed.

Lemma tie_feature_observed : observed gcp_crn ∅ 0 tie_feature.
Proof.
  exists [tie_feature; gcp_feature]. split; [reflexivity |].
  split; [apply elem_of_cons; auto | apply not_elem_of_empty].
Qed.



(** X4. In the graph of a pass the parameter block of a point is held
    constant in two cases only: --heights-from-dem is given and the point is
    not a GCP and has an observation that is not skipped; or --fix-gcp-xyz
    is given and the point is a GCP in range that is not an outlier. *)
Theorem points_held_constant (libs : Libraries) (ba_model : BAModel)
  (opt : Options) (cnet : ControlNetwork) (crn : CameraRelationNetwork)
  (num_camera_params num_point_params num_cameras num_points : nat)
  (orig_cameras_vec cameras intrinsics points : list double) (O : gset nat)
  (g : Graph) :
  build_graph libs ba_model opt cnet crn num_camera_params num_point_params
    num_cameras num_points orig_cameras_vec cameras intrinsics points O
  = Ok g ->
  forall ipt,
    PointBlock ipt ∈ constant_blocks (g_problem g)
    <-> (heights_from_dem opt <> "" /\ is_gcp cnet ipt = false
         /\ exists icam f, observed crn O icam f /\ m_point_id f = ipt)
        \/ (fix_gcp_xyz opt = true /\ (ipt < num_points)%nat
            /\ is_gcp cnet ipt = true /\ ipt ∉ O).
Proof.
  intros Hg ipt.
  rewrite (build_graph_constants _ _ _ _ _ _ _ _ _ _ _ _ _ _ _ Hg).
  assert (Hdem : dem_of_options libs opt <> None <-> heights_from_dem opt <> "").
  { unfold dem_of_options.
    destruct (non_empty (heights_from_dem opt)) eqn:Hne.
    - destruct (build_graph_dem _ _ _ _ _ _ _ _ _ _ _ _ _ _ _ Hg Hne)
        as [dem ->].
      unfold non_empty in Hne. apply negb_true_iff, String.eqb_neq in Hne.
      split; [intros _; exact Hne | discriminate].
    - unfold non_empty in Hne. apply negb_false_iff, String.eqb_eq in Hne.
      split; [congruence | intros H; destruct (H Hne)]. }
  split.
  - intros [(k & f & Hobs & Hb)
           | [(Hfix & i & Hi & Ha & Hb) | (_ & o & Hb & _)]];
      [| | discriminate].
    + apply visit_constants_elem in Hb as [(Hb & Hd & Hgcp) | [(Hb & _) | Hb]].
      * injection Hb as ->. left. split; [apply Hdem, Hd |].
        split; [exact Hgcp |]. exists k, f. auto.
      * discriminate.
      * apply fixed_intrinsics_elem in Hb
          as (_ & _ & _ & [(Hb & _) | [(Hb & _) | (Hb & _)]]); discriminate.
    + injection Hb as ->. right. unfold anchored in Ha.
      apply andb_true_iff in Ha as [Hgcp Ho].
      apply negb_true_iff, is_outlier_false in Ho. auto.
  - intros [(Hd & Hgcp & k & f & Hobs & <-) | (Hfix & Hi & Hgcp & Ho)].
    + left. exists k, f. split; [exact Hobs |].
      apply visit_constants_elem. left. split; [reflexivity |].
      split; [apply Hdem, Hd | exact Hgcp].
    + right. left. split; [exact Hfix |]. exists ipt. split; [exact Hi |].
      split; [| reflexivity]. unfold anchored. rewrite Hgcp.
      apply is_outlier_false in Ho. rewrite Ho. reflexivity.
Qed.

Lemma points_held_constant_witness :
  PointBlock 1 ∈ constant_blocks (g_problem fixing_graph).
Proof.
  apply (proj2 (points_held_constant (constant_libs 0%float) pinhole_model
                  fixing_options gcp_cnet gcp_crn camera_params_n
                  point_params_n 2 2 (replicate 12 0%float)
                  (replicate 12 0%float) (replicate 7 1%float)
                  (points_of_cnet gcp_cnet 3) ∅ fixing_graph
                  fixing_graph_built 1%nat)).
  right. split; [reflexivity |]. split; [lia |].
  split; [reflexivity | apply not_elem_of_empty].
Defined.

(** X5. In the graph of a pass a block of intrinsics is held constant in
    two cases only. The loop over the observations holds it constant exactly
    when the model is the pinhole model with intrinsics that are not
    constant, the list of intrinsics to float is not empty, some observation
    is not skipped, and the block is one the list leaves out: the focal
    length at offset 0, the optical centre after it, or the distortion, when
    the model has distortion parameters. The blocks of the reference terrain
    hold it constant exactly when the graph has such a block and the overload
    of [add_residual_block] for the terrain, which is given the list of
    intrinsics to float, fixes the block for that list. Without
    --create-pinhole-cameras or without a reference terrain only the first
    case is left; there, with an empty list, all the intrinsics float. *)
Theorem intrinsics_held_constant (libs : Libraries) (ba_model : BAModel)
  (opt : Options) (cnet : ControlNetwork) (crn : CameraRelationNetwork)
  (num_camera_params num_point_params num_cameras num_points : nat)
  (orig_cameras_vec cameras intrinsics points : list double) (O : gset nat)
  (g : Graph) :
  build_graph libs ba_model opt cnet crn num_camera_params num_point_params
    num_cameras num_points orig_cameras_vec cameras intrinsics points O
  = Ok g ->
  (forall offset,
     IntrinsicsBlock offset ∈ constant_blocks (g_problem g)
     <-> ((exists icam f, observed crn O icam f)
          /\ model_kind ba_model = BAPinholeModel
          /\ are_intrinsics_constant ba_model = false
          /\ intrinsics_to_float opt <> []
          /\ ((offset = 0%nat
               /\ floats (intrinsics_to_float opt) "focal_length" = false)
              \/ (offset = focal_length_params_n
                  /\ floats (intrinsics_to_float opt) "optical_center" = false)
              \/ (offset = (focal_length_params_n + optical_center_params_n)%nat
                  /\ floats (intrinsics_to_float opt) "distortion_params"
                     = false
                  /\ (0 < num_distortion_params ba_model)%nat)))
         \/ (g_reference_vec g <> []
             /\ offset ∈ terrain_constant_intrinsics (terrain_env libs)
                          (intrinsics_to_float opt)))
  /\ (create_pinhole opt = false \/ reference_terrain opt = "" ->
      g_reference_vec g = []).
Proof.
  intros Hg. split.
  - intros offset.
    rewrite (build_graph_constants _ _ _ _ _ _ _ _ _ _ _ _ _ _ _ Hg).
    split.
    + intros [(k & f & Hobs & Hb)
             | [(_ & ipt & _ & _ & Hb) | (Hr & o & Hb & Ho)]];
        [| discriminate |].
      * apply visit_constants_elem in Hb as [(Hb & _) | [(Hb & _) | Hb]];
          try discriminate.
        apply fixed_intrinsics_elem in Hb as (Hm & Hc & Hl & Hb).
        left. split; [exists k, f; exact Hobs |]. split; [exact Hm |].
        split; [exact Hc |]. split; [exact Hl |].
        destruct Hb as [(Hb & Hf) | [(Hb & Hf) | (Hb & Hf)]];
          injection Hb as ->; auto.
      * injection Hb as ->. right. auto.
    + intros [((k & f & Hobs) & Hm & Hc & Hl & Hb) | (Hr & Ho)].
      * left. exists k, f.
        split; [exact Hobs |]. apply visit_constants_elem. right. right.
        apply fixed_intrinsics_elem. split; [exact Hm |]. split; [exact Hc |].
        split; [exact Hl |].
        destruct Hb as [(-> & Hf) | [(-> & Hf) | (-> & Hf)]]; auto.
      * right. right. split; [exact Hr |]. exists offset. auto.
  - intros Hoff.
    apply build_graph_stages in Hg as (_ & p1 & _ & H5).
    unfold add_reference_terrain_blocks in H5.
    assert (Hc : create_pinhole opt && non_empty (reference_terrain opt)
                 = false).
    { destruct Hoff as [-> | ->]; [reflexivity |]. apply andb_false_r. }
    rewrite Hc in H5. injection H5 as _ Hrefs. symmetry. exact Hrefs.
Qed.

Lemma intrinsics_held_constant_witness :
  IntrinsicsBlock 1 ∈ constant_blocks (g_problem fixing_graph).
Proof.
  apply (proj2 (proj1 (intrinsics_held_constant (constant_libs 0%float)
                         pinhole_model fixing_options gcp_cnet gcp_crn
                         camera_params_n point_params_n 2 2
                         (replicate 12 0%float) (replicate 12 0%float)
                         (replicate 7 1%float) (points_of_cnet gcp_cnet 3) ∅
                         fixing_graph fixing_graph_built) 1%nat)).
  left.
  split; [exists 0%nat, tie_feature; exact tie_feature_observed |].
  split; [reflexivity |]. split; [reflexivity |]. split; [discriminate |].
  right. left. split; reflexivity.
Defined.

(* ================================================================= *)
(** ** The parameter blocks of the residual blocks *)

(** A reference terrain of one point that both cameras of the pair see, with
    a disparity of one pixel that the projections agree with. *)
Definition pairing_env : TerrainEnv := {|
  get_cloud_type := fun _ => "DEM";
  load_reference_terrain := fun _ => [(7%float, 8%float, 9%float)];
  disp_cols := fun _ => 100;
  disp_rows := fun _ => 100;
  interp_disp := fun _ _ _ => Some (1%float, 0%float);
  image_box_contains := fun _ _ => true;
  lon_lat_limit_is_set := false;
  lon_lat_limit_contains := fun _ => true;
  cam_pixel := fun icam _ _ _ =>
    Some (if (icam mod 2 =? 0)%nat then (5%float, 5%float)
          else (6%float, 5%float));
  norm_2 := fun v => dadd (fabs (fst v)) (fabs (snd v));
  terrain_parameter_blocks := fun left_icam right_icam =>
    [CameraBlock left_icam; CameraBlock right_icam; IntrinsicsBlock 0];
  terrain_constant_intrinsics := fun _ => [0%nat]
|}.

Definition terrain_libs : Libraries := {|
  pow := fun x _ => x;
  create_interp_dem := fun _ => Throw (IOErr "no DEM");
  terrain_env := pairing_env;
  ceres_lib := constant_ceres 0%float;
  find_outlier_brackets := fun _ _ _ => (0%float, 0%float);
  KMLFile := fun _ _ => Ok tt;
  remove_outliers := fun _ _ _ _ => Ok tt
|}.

Definition terrain_options : Options := {|
  cost_function := "cauchy";
  ba_type := "ceres";
  robust_threshold := 0.5%float;
  camera_weight := 1%float;
  rotation_weight := 0%float;
  translation_weight := 0%float;
  overlap_exponent := 0%float;
  parameter_tolerance := 0x1.5798ee2308c3ap-27%float;
  min_matches := 30;
  max_iterations := 1000;
  num_ba_passes := 1;
  num_threads := 1;
  create_pinhole := true;
  fix_gcp_xyz := false;
  solve_intrinsics := true;
  use_llh_error := false;
  stereo_session_string := "";
  heights_from_dem := "";
  reference_terrain := "terrain.tif";
  csv_format_str := "";
  datum_str := "WGS_1984";
  datum := {| datum_name := "WGS_1984";
              cartesian_to_geodetic := fun xyz => xyz |};
  disparity_list := ["disparity.tif"];
  max_disp_error := 1%float;
  remove_outliers_params := (75%float, 3%float, 2%float, 3%float);
  intrinsics_to_float := [];
  fixed_cameras_indices := ∅
|}.

Definition terrain_graph : Graph :=
  Eval vm_compute in
    match build_graph terrain_libs pinhole_model terrain_options
            one_point_cnet one_point_crn camera_params_n point_params_n 2 1
            (replicate 12 0%float) (replicate 12 0%float)
            (replicate 7 1%float) (points_of_cnet one_point_cnet 3) ∅ with
    | Ok g => g
    | Throw _ => one_point_graph
    end.

Lemma terrain_graph_built :
  build_graph terrain_libs pinhole_model terrain_options one_point_cnet
    one_point_crn camera_params_n point_params_n 2 1 (replicate 12 0%float)
    (replicate 12 0%float) (replicate 7 1%float)
    (points_of_cnet one_point_cnet 3) ∅
  = Ok terrain_graph.
Proof. vm_compute. reflexivity. Qed.

(** X6. The blocks of the reference terrain are the last blocks of the
    graph of a pass and go side by side with [reference_vec]: the block at
    position [i] is the one of the point [reference_vec[i]], it carries the
    loss of the options, and its cost is the disparity error between the
    cameras [2k] and [2k + 1] of one pair, both in range; its parameter
    blocks are those the overload of [add_residual_block] for the terrain
    hands to the solver for that pair. Without --create-pinhole-cameras or
    without a reference terrain there is no such block. *)
Theorem terrain_blocks_pair_cameras (libs : Libraries) (ba_model : BAModel)
  (opt : Options) (cnet : ControlNetwork) (crn : CameraRelationNetwork)
  (num_camera_params num_point_params num_cameras num_points : nat)
  (orig_cameras_vec cameras intrinsics points : list double) (O : gset nat)
  (g : Graph) :
  build_graph libs ba_model opt cnet crn num_camera_params num_point_params
    num_cameras num_points orig_cameras_vec cameras intrinsics points O
  = Ok g ->
  exists tb,
    residual_blocks (g_problem g)
    = reprojection_blocks libs ba_model opt crn O
      ++ gcp_blocks opt cnet O num_points
      ++ camera_prior_blocks opt num_camera_params num_cameras orig_cameras_vec
      ++ rot_trans_blocks opt num_camera_params num_cameras orig_cameras_vec
      ++ tb
    /\ Forall2
         (fun b reference_xyz =>
            exists k loss,
              (2 * k + 1 < num_cameras)%nat
              /\ get_loss_function opt = Ok loss
              /\ b = {| rb_cost :=
                          BaDispXyzError reference_xyz (2 * k) (2 * k + 1);
                        rb_loss := loss;
                        rb_params :=
                          terrain_parameter_blocks (terrain_env libs)
                            (2 * k) (2 * k + 1) |})
         tb (g_reference_vec g)
    /\ (create_pinhole opt = false \/ reference_terrain opt = "" -> tb = []).
Proof.
  intros Hg.
  destruct (build_graph_terrain _ _ _ _ _ _ _ _ _ _ _ _ _ _ _ Hg)
    as (tb & Hb & Hf).
  exists tb. split; [exact Hb |]. split; [exact Hf |].
  intros Hoff.
  apply build_graph_stages in Hg as (_ & p1 & _ & H5).
  unfold add_reference_terrain_blocks in H5.
  assert (Hc : create_pinhole opt && non_empty (reference_terrain opt) = false).
  { destruct Hoff as [-> | ->]; [reflexivity |]. apply andb_false_r. }
  rewrite Hc in H5. injection H5 as _ Hrefs. rewrite <- Hrefs in Hf.
  inversion Hf. reflexivity.
Qed.

Lemma terrain_blocks_pair_cameras_witness :
  exists tb,
    residual_blocks (g_problem terrain_graph)
    = reprojection_blocks terrain_libs pinhole_model terrain_options
        one_point_crn ∅
      ++ gcp_blocks terrain_options one_point_cnet ∅ 1
      ++ camera_prior_blocks terrain_options camera_params_n 2
           (replicate 12 0%float)
      ++ rot_trans_blocks terrain_options camera_params_n 2
           (replicate 12 0%float)
      ++ tb
    /\ length tb = 1%nat.
Proof.
  destruct (terrain_blocks_pair_cameras terrain_libs pinhole_model
              terrain_options one_point_cnet one_point_crn camera_params_n
              point_params_n 2 1 (replicate 12 0%float)
              (replicate 12 0%float) (replicate 7 1%float)
              (points_of_cnet one_point_cnet 3) ∅ terrain_graph
              terrain_graph_built) as (tb & Hb & Hf & _).
  exists tb. split; [exact Hb |].
  apply Forall2_length in Hf. exact Hf.
Defined.




(* ================================================================= *)
(** ** The arrays a run returns *)

Section RunResult.

Variable libs : Libraries.
Variable ba_model : BAModel.
Variable opt : Options.
Variable cnet : ControlNetwork.
Variable crn : CameraRelationNetwork.
Variable num_camera_params : nat.
Variable num_point_params : nat.
Variable num_intrinsic_params : nat.
Variable num_cameras : nat.
Variable num_points : nat.

(** The outcome is the one of a single pass that started from the arrays
    [orig] with the outliers [O0] and ended with the outliers [O']. *)
Definition one_pass_from (orig : Arrays) (a' : Arrays) (O' : gset nat)
  : Prop :=
  exists first_pass last_pass O0 n st,
    do_ba_ceres_one_pass libs ba_model opt cnet crn num_camera_params
      num_point_params num_intrinsic_params num_cameras num_points first_pass
      last_pass (fst (fst orig)) (fst (fst orig)) (snd (fst orig)) (snd orig)
      O0
    = Ok (n, st, O')
    /\ a' = arrays_of st
    /\ O0 ⊆ O'.

Lemma pass_loop_result orig fuel :
  forall pass arrays O trace a' O',
  (1 <? num_ba_passes opt) = true \/ (arrays = orig /\ (fuel <= 1)%nat) ->
  snd (pass_loop libs ba_model opt cnet crn num_camera_params num_point_params
         num_intrinsic_params num_cameras num_points orig fuel pass arrays O
         trace)
  = Ok (a', O') ->
  (fuel = 0%nat /\ a' = arrays /\ O' = O) \/ one_pass_from orig a' O'.
Proof.
  induction fuel as [| fuel IH]; intros pass arrays O trace a' O' Hpre;
    cbn [pass_loop].
  - cbn [snd]. intros H. injection H as <- <-. auto.
  - assert (Hstart :
      (if 1 <? num_ba_passes opt then orig else arrays) = orig).
    { destruct Hpre as [-> | [-> _]]; [reflexivity |].
      destruct (1 <? num_ba_passes opt); reflexivity. }
    rewrite Hstart. destruct orig as [[cameras intrinsics] points] eqn:Horig.
    cbn [fst snd].
    destruct (do_ba_ceres_one_pass _ _ _ _ _ _ _ _ _ _ _ _ _ _ _ _ _)
      as [[[n st] O1] | e] eqn:Hpass; [| discriminate].
    assert (Hone : one_pass_from (cameras, intrinsics, points) (arrays_of st)
                     O1).
    { exists (pass =? 0), (pass =? num_ba_passes opt - 1), O, n, st.
      cbn [fst snd]. split; [exact Hpass |]. split; [reflexivity |].
      eapply one_pass_grows. exact Hpass. }
    destruct (negb (pass =? num_ba_passes opt - 1) && (n =? 0)).
    { cbn [snd]. intros H. injection H as <- <-. right. exact Hone. }
    destruct ((1 <? num_ba_passes opt)
              && (Z.of_nat num_points - Z.of_nat (size O1)
                  <? min_matches opt)); [discriminate |].
    intros Hrest.
    destruct (1 <? num_ba_passes opt) eqn:Hmulti.
    + apply IH in Hrest; [| left; reflexivity].
      destruct Hrest as [(_ & -> & ->) | Hrest]; right; assumption.
    + destruct Hpre as [Hpre | [_ Hfuel]]; [discriminate |].
      assert (fuel = 0%nat) as -> by lia.
      cbn [pass_loop snd] in Hrest. injection Hrest as <- <-.
      right. exact Hone.
Qed.

End RunResult.

(** X8. The arrays a run of [do_ba_ceres] returns are always those of one
    single pass that started from the input cameras, intrinsics and points:
    with several passes a pass does not go on from the result of the pass
    before it, which is lost; only the set of outliers is carried from a pass
    to the next one. *)
Theorem run_returns_one_pass_from_the_inputs (libs : Libraries)
  (ba_model : BAModel) (opt : Options) (cnet : ControlNetwork)
  (crn : CameraRelationNetwork)
  (num_camera_params num_point_params num_intrinsic_params : nat)
  (num_cameras num_points : nat) (cameras_vec intrinsics_vec : list double)
  (arrays : Arrays) (O : gset nat) :
  snd (do_ba_ceres libs ba_model opt cnet crn num_camera_params
         num_point_params num_intrinsic_params num_cameras num_points
         cameras_vec intrinsics_vec)
  = Ok (arrays, O) ->
  exists first_pass last_pass O0 n st,
    do_ba_ceres_one_pass libs ba_model opt cnet crn num_camera_params
      num_point_params num_intrinsic_params num_cameras num_points first_pass
      last_pass cameras_vec cameras_vec intrinsics_vec
      (points_of_cnet cnet num_point_params) O0
    = Ok (n, st, O)
    /\ arrays = arrays_of st
    /\ O0 ⊆ O.
Proof.
  unfold do_ba_ceres.
  destruct (num_ba_passes opt <=? 0) eqn:Hpasses; [discriminate |].
  apply Z.leb_gt in Hpasses. intros Hrun.
  apply pass_loop_result in Hrun.
  - destruct Hrun as [(Hfuel & _) | Hone]; [lia | exact Hone].
  - destruct (Z.ltb_spec 1 (num_ba_passes opt)); [auto |].
    right. split; [reflexivity | lia].
Qed.

Lemma run_returns_one_pass_from_the_inputs_witness :
  exists first_pass last_pass O0 n st,
    do_ba_ceres_one_pass (constant_libs 0%float) generic_model default_options
      one_point_cnet one_point_crn camera_params_n point_params_n 0 2 1
      first_pass last_pass (replicate 12 0%float) (replicate 12 0%float) []
      (points_of_cnet one_point_cnet point_params_n) O0
    = Ok (n, st, ∅)
    /\ (replicate 12 0%float, [], points_of_cnet one_point_cnet point_params_n)
       = arrays_of st
    /\ O0 ⊆ ∅.
Proof.
  apply (run_returns_one_pass_from_the_inputs (constant_libs 0%float)
           generic_model default_options one_point_cnet one_point_crn
           camera_params_n point_params_n 0 2 1 (replicate 12 0%float) []).
  vm_compute. reflexivity.
Defined.

(* ================================================================= *)
(** ** The KML files of a pass *)

Lemma filter_none {A : Type} (P : A -> bool) (l : list A) :
  (forall x, In x l -> P x = false) -> List.filter P l = [].
Proof.
  induction l as [| a l IH]; intros H; [reflexivity |].
  cbn [List.filter]. rewrite (H a (or_introl eq_refl)). apply IH.
  intros x Hx. apply H. right. exact Hx.
Qed.

Lemma not_multiple_between (skip i x : nat) :
  (i mod skip = 0)%nat -> (i < x < i + skip)%nat -> (x mod skip =? 0)%nat = false.
Proof.
  intros Hi Hx. apply Nat.eqb_neq. intros Hx0.
  apply Nat.Div0.div_exact in Hi. apply Nat.Div0.div_exact in Hx0.
  remember (i / skip)%nat as a. remember (x / skip)%nat as b.
  destruct (Nat.lt_ge_cases a b) as [Hab | Hab].
  - pose proof (Nat.mul_le_mono_l (a + 1) b skip ltac:(lia)). lia.
  - pose proof (Nat.mul_le_mono_l b a skip Hab). lia.
Qed.

(** The points a KML file shows: those at the multiples of the skip that are
    not outliers. *)
Definition kml_point (outlier_xyz : gset nat) (skip i : nat) : bool :=
  (i mod skip =? 0)%nat && negb (is_outlier outlier_xyz i).

Lemma kml_loop_spec (num_points : nat) (O : gset nat) (skip : nat) :
  (1 <= skip)%nat ->
  forall fuel i,
  (i mod skip = 0)%nat -> (num_points - i <= fuel)%nat ->
  kml_loop num_points O skip fuel i
  = List.filter (kml_point O skip) (seq i (num_points - i)).
Proof.
  intros Hskip. induction fuel as [| fuel IH]; intros i Hi Hfuel;
    cbn [kml_loop].
  - replace (num_points - i)%nat with 0%nat by lia. reflexivity.
  - destruct (Nat.ltb_spec i num_points) as [Hlt | Hge].
    + cbv zeta. rewrite IH.
      2: { replace (i + skip)%nat with (i + 1 * skip)%nat by lia.
           rewrite Nat.Div0.mod_add. exact Hi. }
      2: lia.
      replace (num_points - i)%nat
        with (S (Nat.min (skip - 1) (num_points - i - 1)
                 + (num_points - (i + skip))))%nat by lia.
      cbn [seq List.filter]. rewrite List.seq_app, List.filter_app.
      rewrite (filter_none _ (seq (S i) _)).
      2: { intros x Hx. apply in_seq in Hx. unfold kml_point.
           rewrite (not_multiple_between skip i x Hi) by lia. reflexivity. }
      cbn [app].
      assert (Hrest :
        List.filter (kml_point O skip)
          (seq (S i + Nat.min (skip - 1) (num_points - i - 1))
             (num_points - (i + skip)))
        = List.filter (kml_point O skip)
            (seq (i + skip) (num_points - (i + skip)))).
      { destruct (Nat.le_gt_cases (skip - 1) (num_points - i - 1)).
        - replace (S i + Nat.min (skip - 1) (num_points - i - 1))%nat
            with (i + skip)%nat by lia. reflexivity.
        - replace (num_points - (i + skip))%nat with 0%nat by lia.
          reflexivity. }
      rewrite Hrest.
      replace (kml_point O skip i) with (negb (is_outlier O i))
        by (unfold kml_point; rewrite Hi; reflexivity).
      destruct (is_outlier O i); reflexivity.
    + replace (num_points - i)%nat with 0%nat by lia. reflexivity.
Qed.

(** X9. Given a skip of at least one, [record_points_to_kml] writes no file
    for the unspecified datum and otherwise one placemark, in the order of
    the indices, for each point below [num_points] whose index is a multiple
    of the skip and which is not an outlier: the geodetic coordinates of the
    three doubles of the point. The points are thinned before the outliers
    are left out. *)
Theorem kml_shows_every_skipth_point (datum : Datum) (points : list double)
  (num_points : nat) (outlier_xyz : gset nat) (skip : nat) :
  (1 <= skip)%nat ->
  record_points_to_kml datum points num_points outlier_xyz skip
  = if String.eqb (datum_name datum) UNSPECIFIED_DATUM then None
    else
      Some (map (fun i => cartesian_to_geodetic datum (read_point points 3 i))
              (List.filter
                 (fun i =>
                    (i mod skip =? 0)%nat && negb (is_outlier outlier_xyz i))
                 (seq 0 num_points))).
Proof.
  intros Hskip. unfold record_points_to_kml.
  destruct (String.eqb (datum_name datum) UNSPECIFIED_DATUM); [reflexivity |].
  rewrite (kml_loop_spec num_points outlier_xyz skip Hskip num_points 0%nat)
    by (try apply Nat.Div0.mod_0_l; lia).
  rewrite Nat.sub_0_r. reflexivity.
Qed.

Definition wgs84 : Datum := {|
  datum_name := "WGS_1984";
  cartesian_to_geodetic := fun xyz => xyz
|}.

Lemma kml_shows_every_skipth_point_witness :
  record_points_to_kml wgs84
    [1; 2; 3; 4; 5; 6; 7; 8; 9; 10; 11; 12]%float 4 {[2%nat]} 2
  = Some [(1, 2, 3)%float].
Proof.
  rewrite (kml_shows_every_skipth_point wgs84
             [1; 2; 3; 4; 5; 6; 7; 8; 9; 10; 11; 12]%float 4 {[2%nat]} 2)
    by lia.
  vm_compute. reflexivity.
Defined.

Lemma kml_loop_length (num_points skip : nat) :
  (1 <= skip)%nat ->
  forall fuel i,
  (num_points - i <= fuel)%nat ->
  (num_points <= i + length (kml_loop num_points ∅ skip fuel i) * skip)%nat.
Proof.
  intros Hskip. induction fuel as [| fuel IH]; intros i Hfuel;
    cbn [kml_loop].
  - cbn [length]. lia.
  - destruct (Nat.ltb_spec i num_points) as [Hlt | Hge]; [| cbn [length]; lia].
    cbv zeta.
    assert (Ho : is_outlier ∅ i = false)
      by (apply is_outlier_false, not_elem_of_empty).
    rewrite Ho. cbn [length].
    specialize (IH (i + skip)%nat ltac:(lia)). lia.
Qed.

Lemma kml_point_skip_cases (num_points : nat) :
  (1 <= kml_point_skip num_points)%nat
  /\ ((num_points < 20)%nat -> kml_point_skip num_points = 1%nat)
  /\ ((20 <= num_points)%nat ->
      (20 * kml_point_skip num_points <= num_points)%nat).
Proof.
  unfold kml_point_skip, MIN_KML_POINTS. cbv zeta.
  pose proof (Nat.div_mod_eq num_points 30) as H30.
  pose proof (Nat.mod_upper_bound num_points 30 ltac:(lia)) as M30.
  pose proof (Nat.div_mod_eq num_points 20) as H20.
  pose proof (Nat.mod_upper_bound num_points 20 ltac:(lia)) as M20.
  destruct (Nat.ltb_spec (num_points / 30) 20);
    [destruct (Nat.ltb_spec (num_points / 20) 1) |
     destruct (Nat.ltb_spec 30 1)]; repeat split; intros; lia.
Qed.

(** X10. The skip a pass chooses for its KML files is at least one, so the
    loop over the points ends; and with a datum and no outliers each of the
    files shows at least 20 points, or all the points when there are fewer
    than 20. *)
Theorem kml_shows_at_least_twenty_points (datum : Datum)
  (points : list double) (num_points : nat) :
  (1 <= kml_point_skip num_points)%nat
  /\ (datum_name datum <> UNSPECIFIED_DATUM ->
      exists placemarks,
        record_points_to_kml datum points num_points ∅
          (kml_point_skip num_points)
        = Some placemarks
        /\ (Nat.min num_points 20 <= length placemarks)%nat
        /\ (length placemarks <= num_points)%nat).
Proof.
  destruct (kml_point_skip_cases num_points) as (Hskip & Hfew & Hmany).
  split; [exact Hskip |]. intros Hdatum. unfold record_points_to_kml.
  apply String.eqb_neq in Hdatum. rewrite Hdatum.
  eexists. split; [reflexivity |]. rewrite length_map.
  pose proof (kml_loop_length num_points (kml_point_skip num_points) Hskip
                num_points 0%nat ltac:(lia)) as Hlen.
  split.
  - destruct (Nat.lt_ge_cases num_points 20) as [Hlt | Hge].
    + rewrite (Hfew Hlt) in *. lia.
    + specialize (Hmany Hge). nia.
  - rewrite (kml_loop_spec num_points ∅ _ Hskip num_points 0%nat)
      by (try apply Nat.Div0.mod_0_l; lia).
    rewrite Nat.sub_0_r.
    etransitivity; [apply List.filter_length_le |]. rewrite length_seq. lia.
Qed.

Lemma kml_shows_at_least_twenty_points_witness :
  exists placemarks,
    record_points_to_kml wgs84 [] 25 ∅ (kml_point_skip 25) = Some placemarks
    /\ (Nat.min 25 20 <= length placemarks)%nat
    /\ (length placemarks <= 25)%nat.
Proof.
  apply (proj2 (kml_shows_at_least_twenty_points wgs84 [] 25)).
  discriminate.
Defined.

(* ================================================================= *)
(** ** The point log *)

(** The number of observations [compute_mean_residuals_at_xyz] counts for a
    point in range that is not an outlier. *)
Lemma compute_observations_spec crn residuals num_points O i :
  (i < num_points)%nat -> is_outlier O i = false ->
  get_z (snd (compute_mean_residuals_at_xyz crn residuals num_points O)) i
  = Z.of_nat (length (errors_from O residuals i 0 (concat crn))).
Proof.
  intros Hi Ho. unfold compute_mean_residuals_at_xyz.
  rewrite fold_left_concat.
  match goal with
  | |- context [fold_left (mean_residuals_body O residuals) (concat crn) ?s] =>
      pose proof (mean_residuals_fold_state O residuals (concat crn) s)
        as Hfold;
      cbv zeta in Hfold; revert Hfold;
      destruct (fold_left (mean_residuals_body O residuals) (concat crn) s)
        as [[r mean] cnt]; intros Hfold
  end.
  cbn [fst snd] in Hfold. rewrite !length_replicate in Hfold.
  destruct Hfold as (Hlm & Hlc & Hval).
  destruct (Hval i Hi Hi) as [_ Hc].
  rewrite get_z_replicate in Hc.
  pose proof (average_fold O num_points mean cnt ltac:(lia) ltac:(lia))
    as Havg.
  cbv zeta in Havg. destruct Havg as (_ & _ & _ & Hcnt).
  rewrite (Hcnt i Ho), Hc. reflexivity.
Qed.

(** The observations of a point that is not an outlier are the features
    that carry its index. *)
Lemma errors_from_length O residuals i (l : list JFeature) :
  is_outlier O i = false ->
  forall r,
  length (errors_from O residuals i r l)
  = length (List.filter (fun f => (m_point_id f =? i)%nat) l).
Proof.
  intros Ho. induction l as [| f l IH]; intros r; cbn [errors_from List.filter];
    [reflexivity |].
  destruct (Nat.eqb_spec (m_point_id f) i) as [Heq | Hne].
  - rewrite Heq, Ho. cbn [length]. rewrite IH. reflexivity.
  - destruct (is_outlier O (m_point_id f)); apply IH.
Qed.

Lemma flat_map_filter {A B : Type} (P : A -> bool) (h : A -> B) (l : list A) :
  flat_map (fun x => if P x then [] else [h x]) l
  = map h (List.filter (fun x => negb (P x)) l).
Proof.
  induction l as [| a l IH]; [reflexivity |].
  cbn [flat_map List.filter]. rewrite IH. destruct (P a); reflexivity.
Qed.

(** X11. With a datum, the point log [write_residual_map] writes has one row
    for each point below [num_points] that is not an outlier, in the order of
    the indices: the geodetic coordinates of the point, the mean over its
    observations of [(|ex| + |ey|) / 2], and the number of its observations.
    With the unspecified datum no file is written. *)
Theorem point_log_rows (datum : Datum) (crn : CameraRelationNetwork)
  (residuals points : list double) (num_points : nat) (outlier_xyz : gset nat)
  (num_point_params : nat) :
  write_residual_map datum crn residuals points num_points outlier_xyz
    num_point_params
  = if String.eqb (datum_name datum) UNSPECIFIED_DATUM then None
    else
      Some
        (map (fun i =>
                (cartesian_to_geodetic datum
                   (read_point points num_point_params i),
                 mean_of (errors_from outlier_xyz residuals i 0 (concat crn)),
                 Z.of_nat
                   (length
                      (List.filter (fun f => (m_point_id f =? i)%nat)
                         (concat crn)))))
           (List.filter (fun i => negb (is_outlier outlier_xyz i))
              (seq 0 num_points))).
Proof.
  unfold write_residual_map.
  destruct (String.eqb (datum_name datum) UNSPECIFIED_DATUM); [reflexivity |].
  pose proof (compute_mean_residuals_at_xyz_spec crn residuals num_points
                outlier_xyz) as Hmean.
  pose proof (compute_observations_spec crn residuals num_points outlier_xyz)
    as Hobs.
  destruct (compute_mean_residuals_at_xyz crn residuals num_points outlier_xyz)
    as [mean_residuals num_point_observations].
  cbn [fst snd] in Hmean, Hobs. f_equal.
  rewrite (flat_map_filter (is_outlier outlier_xyz)).
  apply map_ext_in. intros i Hi. apply filter_In in Hi as [Hi Ho].
  apply in_seq in Hi. apply negb_true_iff in Ho.
  rewrite (Hmean i ltac:(lia) Ho), (Hobs i ltac:(lia) Ho).
  rewrite (errors_from_length outlier_xyz residuals i (concat crn) Ho).
  reflexivity.
Qed.

(* ================================================================= *)
(** ** The loop of the solvers of the Vision Workbench *)

Section NonCeres.

Context {A : Type} (adjuster : Adjuster A) (max_iterations : Z).

(** The updates left before the limit of the iterations. *)
Definition updates_left (a : A) : nat :=
  Z.to_nat (max_iterations - iterations adjuster a).

(** Every call of [update] counts as one iteration. *)
Hypothesis update_counts :
  forall a,
    iterations adjuster (fst (fst (fst (update adjuster a))))
    = iterations adjuster a + 1.

Lemma nonceres_loop_ends (fuel : nat) :
  forall a abs_tol rel_tol count updates,
  (updates_left a < fuel)%nat ->
  exists a' reason updates',
    nonceres_loop adjuster max_iterations fuel a abs_tol rel_tol count updates
    = Some (a', reason, updates')
    /\ (updates <= updates' <= updates + updates_left a)%nat
    /\ iterations adjuster a'
       = iterations adjuster a + Z.of_nat (updates' - updates)
    /\ (reason = MaxIterations -> max_iterations <= iterations adjuster a').
Proof.
  unfold updates_left.
  induction fuel as [| fuel IH]; intros a abs_tol rel_tol count updates Hfuel;
    [lia |]. cbn [nonceres_loop].
  destruct (Z.leb_spec max_iterations (iterations adjuster a)) as [Hmax | Hmax].
  { exists a, MaxIterations, updates.
    split; [reflexivity |]. split; [lia |].
    rewrite Nat.sub_diag. split; [lia | auto]. }
  destruct (dlt abs_tol _).
  { exists a, AbsTol, updates. split; [reflexivity |]. split; [lia |].
    rewrite Nat.sub_diag. split; [lia | discriminate]. }
  destruct (dlt rel_tol _).
  { exists a, RelTol, updates. split; [reflexivity |]. split; [lia |].
    rewrite Nat.sub_diag. split; [lia | discriminate]. }
  destruct (4 <? count).
  { exists a, NoImprovement, updates. split; [reflexivity |]. split; [lia |].
    rewrite Nat.sub_diag. split; [lia | discriminate]. }
  pose proof (update_counts a) as Hit.
  destruct (update adjuster a) as [[[a1 delta] abs1] rel1].
  cbn [fst] in Hit.
  destruct (IH a1 abs1 rel1
              (if deq delta 0%float then count + 1 else 0) (S updates)
              ltac:(lia)) as (a' & reason & u' & Hloop & Hu & Hiter & Hr).
  exists a', reason, u'. split; [exact Hloop |]. split; [lia |].
  split; [| exact Hr]. rewrite Hiter, Hit. lia.
Qed.

(** An adjuster that makes no progress: every update has a delta of zero and
    leaves tolerances that do not end the loop. *)
Hypothesis stalls :
  forall a,
    let '(_, overall_delta, abs_tol, rel_tol) := update adjuster a in
    deq overall_delta 0%float = true
    /\ dlt abs_tol 0x1.47ae147ae147bp-7%float = false
    /\ dlt rel_tol 0x1.0c6f7a0b5ed8dp-20%float = false.

Lemma nonceres_loop_stalls (fuel : nat) :
  forall a abs_tol rel_tol count updates,
  dlt abs_tol 0x1.47ae147ae147bp-7%float = false ->
  dlt rel_tol 0x1.0c6f7a0b5ed8dp-20%float = false ->
  0 <= count <= 5 ->
  (Z.to_nat (5 - count) < fuel)%nat ->
  exists a',
    nonceres_loop adjuster max_iterations fuel a abs_tol rel_tol count updates
    = Some
        (if (updates_left a <=? Z.to_nat (5 - count))%nat then
           (a', MaxIterations, (updates + updates_left a)%nat)
         else (a', NoImprovement, (updates + Z.to_nat (5 - count))%nat)).
Proof.
  unfold updates_left.
  induction fuel as [| fuel IH];
    intros a abs_tol rel_tol count updates Habs Hrel Hcount Hfuel; [lia |].
  cbn [nonceres_loop]. rewrite Habs, Hrel.
  destruct (Z.leb_spec max_iterations (iterations adjuster a)) as [Hmax | Hmax].
  { exists a.
    replace (Z.to_nat (max_iterations - iterations adjuster a)) with 0%nat
      by lia.
    cbn [Nat.leb]. rewrite Nat.add_0_r. reflexivity. }
  destruct (Z.ltb_spec 4 count) as [Hc | Hc].
  { exists a. replace (Z.to_nat (5 - count)) with 0%nat by lia.
    destruct (Nat.leb_spec (Z.to_nat (max_iterations - iterations adjuster a))
                0); [lia |].
    rewrite Nat.add_0_r. reflexivity. }
  pose proof (update_counts a) as Hit. pose proof (stalls a) as Hst.
  destruct (update adjuster a) as [[[a1 delta] abs1] rel1].
  cbn [fst] in Hit. destruct Hst as (Hd & Ha1 & Hr1). rewrite Hd.
  destruct (IH a1 abs1 rel1 (count + 1) (S updates) Ha1 Hr1 ltac:(lia)
              ltac:(lia)) as (a' & Hloop).
  exists a'. rewrite Hloop, Hit.
  replace (Z.to_nat (5 - (count + 1))) with (Z.to_nat (5 - count) - 1)%nat
    by lia.
  replace (Z.to_nat (max_iterations - (iterations adjuster a + 1)))
    with (Z.to_nat (max_iterations - iterations adjuster a) - 1)%nat by lia.
  destruct (Nat.leb_spec
              (Z.to_nat (max_iterations - iterations adjuster a) - 1)
              (Z.to_nat (5 - count) - 1)),
    (Nat.leb_spec (Z.to_nat (max_iterations - iterations adjuster a))
       (Z.to_nat (5 - count))); try lia; f_equal; f_equal; lia.
Qed.

End NonCeres.

(** An adjuster that counts its updates and never improves. *)
Definition idle_adjuster : Adjuster Z := {|
  iterations := fun a => a;
  set_lambda := fun _ a => a;
  update := fun a => (a + 1, 0%float, 1%float, 1%float)
|}.

(** X12. If every call of [update] counts as one iteration and [set_lambda]
    leaves the count alone, the loop of [do_ba_nonceres] ends: it calls
    [update] at most as many times as there are iterations left before
    [max_iterations], the count of the iterations goes up by the number of
    the calls, and when the loop reports the limit of the iterations the
    count has reached it. *)
Theorem nonceres_loop_terminates (A : Type) (adjuster : Adjuster A)
  (lambda : double) (max_iterations : Z) (fuel : nat) (bundle_adjuster : A) :
  (forall a,
     iterations adjuster (fst (fst (fst (update adjuster a))))
     = iterations adjuster a + 1) ->
  (forall l a, iterations adjuster (set_lambda adjuster l a)
               = iterations adjuster a) ->
  (Z.to_nat (max_iterations - iterations adjuster bundle_adjuster) < fuel)%nat ->
  exists a' reason updates,
    do_ba_nonceres adjuster lambda max_iterations fuel bundle_adjuster
    = Some (a', reason, updates)
    /\ (updates
        <= Z.to_nat (max_iterations - iterations adjuster bundle_adjuster))%nat
    /\ iterations adjuster a'
       = iterations adjuster bundle_adjuster + Z.of_nat updates
    /\ (reason = MaxIterations -> max_iterations <= iterations adjuster a').
Proof.
  intros Hupd Hset Hfuel. unfold do_ba_nonceres. cbv zeta.
  set (a0 := if dgt lambda 0%float
             then set_lambda adjuster lambda bundle_adjuster
             else bundle_adjuster).
  assert (Ha0 : iterations adjuster a0 = iterations adjuster bundle_adjuster).
  { subst a0. destruct (dgt lambda 0%float); [apply Hset | reflexivity]. }
  destruct (nonceres_loop_ends adjuster max_iterations Hupd fuel a0
              0x1.2a05f2p+33%float 0x1.2a05f2p+33%float 0 0%nat)
    as (a' & reason & u' & Hloop & Hu & Hiter & Hr).
  { unfold updates_left. rewrite Ha0. exact Hfuel. }
  unfold updates_left in Hu. rewrite Ha0 in Hu, Hiter.
  exists a', reason, u'. split; [exact Hloop |]. split; [lia |].
  split; [| exact Hr]. rewrite Hiter, Nat.sub_0_r. reflexivity.
Qed.

Lemma nonceres_loop_terminates_witness :
  exists a' reason updates,
    do_ba_nonceres idle_adjuster (-1)%float 3 10 0
    = Some (a', reason, updates)
    /\ (updates <= Z.to_nat (3 - 0))%nat
    /\ a' = 0 + Z.of_nat updates
    /\ (reason = MaxIterations -> 3 <= a').
Proof.
  apply (nonceres_loop_terminates Z idle_adjuster (-1)%float 3 10%nat 0).
  - intros a. reflexivity.
  - intros l a. reflexivity.
  - simpl. lia.
Defined.

(** X13. With an adjuster that counts its updates and makes no progress
    (every update has a delta of zero and leaves tolerances above the
    thresholds), [do_ba_nonceres] gives up after five updates, reporting that
    it is unable to improve; unless five or fewer iterations are left before
    [max_iterations], in which case it uses those up and reports the limit
    of the iterations. *)
Theorem nonceres_loop_gives_up (A : Type) (adjuster : Adjuster A)
  (lambda : double) (max_iterations : Z) (fuel : nat) (bundle_adjuster : A) :
  (forall a,
     iterations adjuster (fst (fst (fst (update adjuster a))))
     = iterations adjuster a + 1) ->
  (forall l a, iterations adjuster (set_lambda adjuster l a)
               = iterations adjuster a) ->
  (forall a,
     let '(_, overall_delta, abs_tol, rel_tol) := update adjuster a in
     deq overall_delta 0%float = true
     /\ dlt abs_tol 0x1.47ae147ae147bp-7%float = false
     /\ dlt rel_tol 0x1.0c6f7a0b5ed8dp-20%float = false) ->
  (5 < fuel)%nat ->
  let left :=
    Z.to_nat (max_iterations - iterations adjuster bundle_adjuster) in
  exists a',
    do_ba_nonceres adjuster lambda max_iterations fuel bundle_adjuster
    = Some (if (left <=? 5)%nat then (a', MaxIterations, left)
            else (a', NoImprovement, 5%nat)).
Proof.
  intros Hupd Hset Hstall Hfuel. cbv zeta. unfold do_ba_nonceres. cbv zeta.
  set (a0 := if dgt lambda 0%float
             then set_lambda adjuster lambda bundle_adjuster
             else bundle_adjuster).
  assert (Ha0 : iterations adjuster a0 = iterations adjuster bundle_adjuster).
  { subst a0. destruct (dgt lambda 0%float); [apply Hset | reflexivity]. }
  destruct (nonceres_loop_stalls adjuster max_iterations Hupd Hstall fuel a0
              0x1.2a05f2p+33%float 0x1.2a05f2p+33%float 0 0%nat)
    as (a' & Hloop); try reflexivity; try lia.
  unfold updates_left in Hloop. rewrite Ha0 in Hloop.
  exists a'. exact Hloop.
Qed.

Lemma nonceres_loop_gives_up_witness :
  exists a',
    do_ba_nonceres idle_adjuster (-1)%float 1000 10 0
    = Some (a', NoImprovement, 5%nat).
Proof.
  apply (nonceres_loop_gives_up Z idle_adjuster (-1)%float 1000 10%nat 0).
  - intros a. reflexivity.
  - intros l a. reflexivity.
  - intros a. cbn. repeat split; reflexivity.
  - lia.
Defined.

(* ================================================================= *)
(** ** The estimated camera positions *)

Section CameraPositionsSpec.

Variable CsvRecord : Type.
Variable csv_file : CsvRecord -> string.
Variable read_csv_file : string -> result (list CsvRecord).
Variable csv_to_cartesian : CsvRecord -> Vector3.
Variable pos_records : list CsvRecord.

(** The position the loop stores for an image. *)
Definition estimated_position (file_name : string) : Vector3 :=
  match find_record CsvRecord csv_file pos_records file_name with
  | Some r => csv_to_cartesian r
  | None => zero3
  end.

Definition has_record (file_name : string) : bool :=
  match find_record CsvRecord csv_file pos_records file_name with
  | Some _ => true
  | None => false
  end.

Lemma position_fold (image_files : list string) (m : nat) :
  (m <= length image_files)%nat ->
  fold_left (position_body CsvRecord csv_file csv_to_cartesian pos_records
               image_files)
    (seq 0 m) (replicate (length image_files) zero3, 0)
  = (map estimated_position (take m image_files)
       ++ replicate (length image_files - m) zero3,
     Z.of_nat (length (List.filter has_record (take m image_files)))).
Proof.
  induction m as [| m IH]; intros Hm.
  - cbn. rewrite Nat.sub_0_r. reflexivity.
  - rewrite seq_S, fold_left_app, IH by lia. cbn [fold_left Nat.add].
    destruct (lookup_lt_is_Some_2 image_files m ltac:(lia)) as [name Hname].
    rewrite (take_S_r _ _ _ Hname).
    unfold position_body, get_s. rewrite Hname.
    rewrite map_app, List.filter_app, length_app. cbn [map List.filter].
    replace (length image_files - m)%nat
      with (S (length image_files - S m))%nat by lia.
    assert (Hins : forall x,
      <[m := x]> (map estimated_position (take m image_files)
                    ++ replicate (S (length image_files - S m)) zero3)
      = (map estimated_position (take m image_files) ++ [x])
          ++ replicate (length image_files - S m) zero3).
    { intros x. rewrite insert_app_r_alt
        by (rewrite length_map, length_take; lia).
      rewrite length_map, length_take.
      replace (m - m `min` length image_files)%nat with 0%nat by lia.
      cbn. rewrite <- app_assoc. reflexivity. }
    assert (Hpos : estimated_position name
                   = match find_record CsvRecord csv_file pos_records name with
                     | Some r => csv_to_cartesian r
                     | None => zero3
                     end) by reflexivity.
    assert (Hhas : has_record name
                   = match find_record CsvRecord csv_file pos_records name with
                     | Some _ => true
                     | None => false
                     end) by reflexivity.
    destruct (find_record CsvRecord csv_file pos_records name) as [r |];
      rewrite Hins, Hpos, Hhas; cbn [length]; f_equal; lia.
Qed.

End CameraPositionsSpec.

(** X14. Without a file of camera positions [load_estimated_camera_positions]
    returns no position at all. With a file that is read, it returns one
    position for each image, in the order of the images: the position of the
    first record whose file field is contained in the name of the image, or
    (0, 0, 0) when no record is; and the number it returns counts the images
    that have such a record. *)
Theorem estimated_positions_follow_the_images (CsvRecord : Type)
  (csv_file : CsvRecord -> string)
  (read_csv_file : string -> result (list CsvRecord))
  (csv_to_cartesian : CsvRecord -> Vector3) (camera_position_file : string)
  (image_files : list string) :
  load_estimated_camera_positions CsvRecord csv_file read_csv_file
    csv_to_cartesian camera_position_file image_files
  = if String.eqb camera_position_file "" then Ok (0, [])
    else
      match read_csv_file camera_position_file with
      | Throw e => Throw e
      | Ok pos_records =>
          Ok (Z.of_nat
                (length
                   (List.filter
                      (fun file_name =>
                         match
                           List.find
                             (fun r => contains file_name (csv_file r))
                             pos_records
                         with
                         | Some _ => true
                         | None => false
                         end)
                      image_files)),
              map (fun file_name =>
                     match
                       List.find (fun r => contains file_name (csv_file r))
                         pos_records
                     with
                     | Some r => csv_to_cartesian r
                     | None => zero3
                     end)
                image_files)
      end.
Proof.
  unfold load_estimated_camera_positions.
  destruct (String.eqb camera_position_file ""); [reflexivity |].
  destruct (read_csv_file camera_position_file) as [pos_records | e];
    cbn [mbind result_bind]; [| reflexivity].
  rewrite (position_fold CsvRecord csv_file csv_to_cartesian pos_records
             image_files (length image_files) (Nat.le_refl _)).
  rewrite firstn_all, Nat.sub_diag. cbn [replicate]. rewrite app_nil_r.
  reflexivity.
Qed.

(* ================================================================= *)
(** ** The initialisation of the pinhole cameras *)

Section Populate.

(** A loop that fills the columns of two matrices side by side, skipping
    some indices. *)
Variable skip : nat -> bool.
Variables vin vout : nat -> Vector3.

Definition fill_body (st : list Vector3 * list Vector3 * nat) (i : nat)
  : list Vector3 * list Vector3 * nat :=
  let '(points_in, points_out, index) := st in
  if skip i then st
  else (<[index := vin i]> points_in, <[index := vout i]> points_out, S index).

Definition kept (i : nat) : bool := negb (skip i).

Lemma insert_next (pre : list Vector3) (m : nat) (x : Vector3) :
  <[length pre := x]> (pre ++ replicate (S m) zero3)
  = (pre ++ [x]) ++ replicate m zero3.
Proof.
  rewrite insert_app_r_alt by lia. rewrite Nat.sub_diag. cbn.
  rewrite <- app_assoc. reflexivity.
Qed.

Lemma fill_fold (l : list nat) :
  forall pre_in pre_out m,
  length pre_in = length pre_out ->
  (length (List.filter kept l) <= m)%nat ->
  fold_left fill_body l
    (pre_in ++ replicate m zero3, pre_out ++ replicate m zero3, length pre_in)
  = (pre_in ++ map vin (List.filter kept l)
       ++ replicate (m - length (List.filter kept l)) zero3,
     pre_out ++ map vout (List.filter kept l)
       ++ replicate (m - length (List.filter kept l)) zero3,
     (length pre_in + length (List.filter kept l))%nat).
Proof.
  induction l as [| i l IH]; intros pre_in pre_out m Hlen Hm.
  - cbn. rewrite Nat.sub_0_r, Nat.add_0_r. reflexivity.
  - assert (Hf : List.filter kept (i :: l)
                 = if skip i then List.filter kept l
                   else i :: List.filter kept l).
    { cbn [List.filter]. unfold kept at 1. destruct (skip i); reflexivity. }
    rewrite Hf in *. cbn [fold_left]. unfold fill_body at 2.
    destruct (skip i); [apply IH; assumption |].
    cbn [length] in Hm. destruct m as [| m]; [lia |].
    rewrite insert_next. rewrite Hlen at 1. rewrite insert_next.
    replace (S (length pre_in)) with (length (pre_in ++ [vin i]))
      by (rewrite length_app; cbn; lia).
    rewrite IH by (rewrite ?length_app; cbn [length]; lia).
    cbn [map length]. rewrite length_app, <- !app_assoc. cbn [length app].
    replace (S m - S (length (List.filter kept l)))%nat
      with (m - length (List.filter kept l))%nat by lia.
    replace (length pre_in + 1 + length (List.filter kept l))%nat
      with (length pre_in + S (length (List.filter kept l)))%nat by lia.
    reflexivity.
Qed.

End Populate.

Section PinholeInitSpec.

Variable PinholeModel : Type.
Variable pinhole_apply_transform :
  Matrix3x3 -> Vector3 -> double -> PinholeModel -> PinholeModel.
Variable camera_center : CameraModel PinholeModel -> Vector3.
Variable find_3D_affine_transform :
  list Vector3 -> list Vector3 -> Matrix3x3 * Vector3 * double.
Variable triangulate_control_point :
  nat -> ControlPoint -> list (CameraModel PinholeModel) -> Vector3.
Variable camera_models : list (CameraModel PinholeModel).
Variable cnet : ControlNetwork.

Lemma count_matches_fold (est : list Vector3) (l : list nat) :
  forall n,
  fold_left (count_matches_body est) l n
  = n + Z.of_nat
          (length (List.filter (fun i => Vector3_ne (get_v est i) zero3) l)).
Proof.
  induction l as [| i l IH]; intros n; cbn [fold_left List.filter].
  - cbn. lia.
  - rewrite IH. unfold count_matches_body.
    destruct (Vector3_ne (get_v est i) zero3); cbn [length]; lia.
Qed.

(** A GCP that triangulates and whose own position is not the origin. *)
Definition good_gcp (ipt : nat) : bool :=
  is_gcp cnet ipt
  && (Vector3_ne
        (triangulate_control_point ipt
           (cnet_at cnet ipt) camera_models) zero3
      && Vector3_ne (cnet_position cnet ipt) zero3).

Lemma count_gcp_fold (l : list nat) :
  forall num_gcp num_good_gcp,
  snd (fold_left (count_gcp_body PinholeModel triangulate_control_point cnet
                    camera_models) l (num_gcp, num_good_gcp))
  = num_good_gcp + Z.of_nat (length (List.filter good_gcp l)).
Proof.
  induction l as [| ipt l IH]; intros num_gcp num_good_gcp;
    cbn [fold_left List.filter].
  - cbn. lia.
  - unfold count_gcp_body at 2, good_gcp at 1.
    destruct (is_gcp cnet ipt); cbn [negb andb]; [| apply IH].
    destruct (Vector3_ne _ zero3 && Vector3_ne (cnet_position cnet ipt) zero3);
      rewrite IH; cbn [length]; lia.
Qed.

Lemma expect_pinhole_all (pincams : list PinholeModel) :
  foldM (expect_pinhole PinholeModel) (map PinholeCamera pincams) tt = Ok tt.
Proof.
  induction pincams as [| p l IH]; [reflexivity |].
  cbn [map foldM expect_pinhole mbind result_bind]. exact IH.
Qed.

Lemma expect_pinhole_other (cams : list (CameraModel PinholeModel)) :
  OtherCamera ∈ cams ->
  foldM (expect_pinhole PinholeModel) cams tt
  = Throw (ArgumentErr pinhole_expected_msg).
Proof.
  induction cams as [| cam cams IH]; intros Hin.
  - apply elem_of_nil in Hin. destruct Hin.
  - destruct cam as [p |]; [| reflexivity].
    apply elem_of_cons in Hin as [Hin | Hin]; [discriminate |].
    cbn [foldM expect_pinhole mbind result_bind]. apply IH, Hin.
Qed.

End PinholeInitSpec.

(** X15. [init_pinhole_model_with_camera_positions] refuses a vector of
    positions that has not one entry for each camera, and fewer than three
    cameras whose estimated position is not (0, 0, 0). Otherwise the two
    matrices it hands to [find_3D_affine_transform] are filled completely
    and side by side: column [k] holds the current centre and the estimated
    position of the [k]-th camera that has a position, in the order of the
    cameras; and the transform found is applied to the cameras and to the
    control network. *)
Theorem camera_position_initialisation (PinholeModel : Type)
  (pinhole_apply_transform :
     Matrix3x3 -> Vector3 -> double -> PinholeModel -> PinholeModel)
  (camera_center : CameraModel PinholeModel -> Vector3)
  (find_3D_affine_transform :
     list Vector3 -> list Vector3 -> Matrix3x3 * Vector3 * double)
  (num_cameras : nat) (estimated_camera_gcc : list Vector3)
  (camera_models : list (CameraModel PinholeModel)) (cnet : ControlNetwork) :
  init_pinhole_model_with_camera_positions PinholeModel
    pinhole_apply_transform camera_center find_3D_affine_transform
    num_cameras estimated_camera_gcc camera_models cnet
  = if negb (length estimated_camera_gcc =? num_cameras)%nat then
      Throw (ArgumentErr no_camera_matches_msg)
    else
      let matched :=
        List.filter (fun i => Vector3_ne (get_v estimated_camera_gcc i) zero3)
          (seq 0 num_cameras) in
      if (length matched <? 3)%nat then
        Throw (ArgumentErr camera_matches_required_msg)
      else
        let '(rotation, translation, scale) :=
          find_3D_affine_transform
            (map (fun i => camera_center (camera_at PinholeModel camera_models i))
               matched)
            (map (get_v estimated_camera_gcc) matched) in
        apply_rigid_transform PinholeModel pinhole_apply_transform rotation
          translation scale camera_models cnet.
Proof.
  unfold init_pinhole_model_with_camera_positions.
  destruct (negb (length estimated_camera_gcc =? num_cameras)%nat);
    [reflexivity |].
  rewrite count_matches_fold. cbv zeta.
  set (matched :=
         List.filter (fun i => Vector3_ne (get_v estimated_camera_gcc i) zero3)
           (seq 0 num_cameras)).
  unfold MIN_NUM_MATCHES.
  destruct (Z.ltb_spec (0 + Z.of_nat (length matched)) 3),
    (Nat.ltb_spec (length matched) 3); try lia; [reflexivity |].
  replace (Z.to_nat (0 + Z.of_nat (length matched))) with (length matched)
    by lia.
  rewrite (fold_left_ext_on _
             (fill_body
                (fun i => Vector3_eq (get_v estimated_camera_gcc i) zero3)
                (fun i => camera_center (camera_at PinholeModel camera_models i))
                (get_v estimated_camera_gcc)))
    by (intros [[a b] c] i _; reflexivity).
  pose proof (fill_fold
                (fun i => Vector3_eq (get_v estimated_camera_gcc i) zero3)
                (fun i => camera_center (camera_at PinholeModel camera_models i))
                (get_v estimated_camera_gcc) (seq 0 num_cameras) [] []
                (length matched) eq_refl (Nat.le_refl _)) as Hfill.
  cbn [app length] in Hfill. rewrite Hfill.
  change (List.filter
            (kept (fun i => Vector3_eq (get_v estimated_camera_gcc i) zero3))
            (seq 0 num_cameras)) with matched.
  rewrite Nat.sub_diag. cbn [replicate]. rewrite !app_nil_r. reflexivity.
Qed.

Lemma transform_point_gcp rotation translation scale cp :
  cp_type cp = GroundControlPoint ->
  transform_point rotation translation scale cp = cp.
Proof. intros H. unfold transform_point. rewrite H. reflexivity. Qed.

Lemma rigid_transform_keeps_gcp (PinholeModel : Type)
  (pinhole_apply_transform :
     Matrix3x3 -> Vector3 -> double -> PinholeModel -> PinholeModel)
  rotation translation scale camera_models cnet camera_models' cnet' :
  apply_rigid_transform PinholeModel pinhole_apply_transform rotation
    translation scale camera_models cnet = Ok (camera_models', cnet') ->
  length cnet' = length cnet
  /\ forall ipt cp, cnet !! ipt = Some cp ->
       cp_type cp = GroundControlPoint -> cnet' !! ipt = Some cp.
Proof.
  unfold apply_rigid_transform.
  destruct (transform_cameras _ _ _ _ _ _) as [cams |];
    cbn [mbind result_bind]; [| discriminate].
  intros H. injection H as _ <-. split; [apply length_map |].
  intros ipt cp Hcp Hgcp.
  pose proof (lookup_map_Some (transform_point rotation translation scale)
                cnet ipt cp Hcp) as H.
  rewrite (transform_point_gcp _ _ _ _ Hgcp) in H. exact H.
Qed.

(** X16. [init_pinhole_model_with_gcp] throws when a camera is not a pinhole
    camera. With pinhole cameras it counts as good the GCP that triangulate
    to a position other than (0, 0, 0) and whose own position is not
    (0, 0, 0), and throws with fewer than three of them; otherwise the two
    matrices handed to [find_3D_affine_transform] hold, side by side and in
    the order of the network, the triangulated and the given position of
    each good GCP. With [check_only] nothing is changed. And whenever the
    function returns, the network has as many points as before and every GCP
    is where it was: the transform moves the cameras and the tie points
    only. *)
Theorem gcp_initialisation (PinholeModel : Type)
  (pinhole_apply_transform :
     Matrix3x3 -> Vector3 -> double -> PinholeModel -> PinholeModel)
  (find_3D_affine_transform :
     list Vector3 -> list Vector3 -> Matrix3x3 * Vector3 * double)
  (triangulate_control_point :
     nat -> ControlPoint -> list (CameraModel PinholeModel) -> Vector3)
  (check_only : bool) (cnet : ControlNetwork) :
  let init :=
    init_pinhole_model_with_gcp PinholeModel pinhole_apply_transform
      find_3D_affine_transform triangulate_control_point check_only in
  (forall camera_models,
     OtherCamera ∈ camera_models ->
     init camera_models cnet = Throw (ArgumentErr pinhole_expected_msg))
  /\ (forall pincams : list PinholeModel,
        let camera_models := map PinholeCamera pincams in
        let triangulated ipt :=
          triangulate_control_point ipt
            (cnet_at cnet ipt) camera_models in
        let good :=
          List.filter
            (fun ipt =>
               is_gcp cnet ipt
               && (Vector3_ne (triangulated ipt) zero3
                   && Vector3_ne (cnet_position cnet ipt) zero3))
            (seq 0 (length cnet)) in
        init camera_models cnet
        = if (length good <? 3)%nat then
            Throw (ArgumentErr not_enough_gcp_msg)
          else if check_only then Ok (camera_models, cnet)
          else
            let '(rotation, translation, scale) :=
              find_3D_affine_transform (map triangulated good)
                (map (cnet_position cnet) good) in
            apply_rigid_transform PinholeModel pinhole_apply_transform
              rotation translation scale camera_models cnet)
  /\ (forall camera_models camera_models' cnet',
        init camera_models cnet = Ok (camera_models', cnet') ->
        length cnet' = length cnet
        /\ forall ipt cp, cnet !! ipt = Some cp ->
             cp_type cp = GroundControlPoint -> cnet' !! ipt = Some cp).
Proof.
  cbv zeta. split; [| split].
  - intros camera_models Hin. unfold init_pinhole_model_with_gcp.
    rewrite (expect_pinhole_other _ _ Hin). reflexivity.
  - intros pincams. unfold init_pinhole_model_with_gcp.
    rewrite expect_pinhole_all. cbn [mbind result_bind].
    set (camera_models := map PinholeCamera pincams).
    pose proof (count_gcp_fold PinholeModel triangulate_control_point
                  camera_models cnet (seq 0 (length cnet)) 0 0) as Hcount.
    destruct (fold_left _ (seq 0 (length cnet)) (0, 0)) as [num_gcp num_good].
    cbn [snd] in Hcount. subst num_good.
    change (good_gcp PinholeModel triangulate_control_point camera_models cnet)
      with (fun ipt =>
              is_gcp cnet ipt
              && (Vector3_ne
                    (triangulate_control_point ipt
                       (cnet_at cnet ipt) camera_models) zero3
                  && Vector3_ne (cnet_position cnet ipt) zero3)).
    set (good := List.filter _ (seq 0 (length cnet))).
    unfold MIN_NUM_GOOD_GCP.
    destruct (Z.ltb_spec (0 + Z.of_nat (length good)) 3),
      (Nat.ltb_spec (length good) 3); try lia; [reflexivity |].
    replace (Z.to_nat (0 + Z.of_nat (length good))) with (length good) by lia.
    rewrite (fold_left_ext_on _
               (fill_body
                  (fun ipt =>
                     negb (is_gcp cnet ipt)
                     || (Vector3_eq
                           (triangulate_control_point ipt
                              (cnet_at cnet ipt) camera_models) zero3
                         || Vector3_eq (cnet_position cnet ipt) zero3))
                  (fun ipt =>
                     triangulate_control_point ipt
                       (cnet_at cnet ipt) camera_models)
                  (cnet_position cnet))).
    2: { intros [[a b] c] ipt _. unfold populate_gcp_body, fill_body.
         destruct (is_gcp cnet ipt); reflexivity. }
    assert (Hkept :
      List.filter
        (kept (fun ipt =>
                 negb (is_gcp cnet ipt)
                 || (Vector3_eq
                       (triangulate_control_point ipt
                          (cnet_at cnet ipt) camera_models) zero3
                     || Vector3_eq (cnet_position cnet ipt) zero3)))
        (seq 0 (length cnet)) = good).
    { subst good. apply filter_ext. intros ipt. unfold kept, Vector3_ne.
      destruct (is_gcp cnet ipt), (Vector3_eq _ zero3),
        (Vector3_eq (cnet_position cnet ipt) zero3); reflexivity. }
    match goal with
    | |- context [fold_left (fill_body ?s ?vi ?vo) ?l _] =>
        pose proof (fill_fold s vi vo l [] [] (length good) eq_refl) as Hfill
    end.
    rewrite Hkept in Hfill. specialize (Hfill (Nat.le_refl _)).
    cbn [app length] in Hfill. rewrite Hfill.
    rewrite Nat.sub_diag. cbn [replicate]. rewrite !app_nil_r.
    destruct (find_3D_affine_transform _ _) as [[rotation translation] scale].
    destruct check_only; reflexivity.
  - intros camera_models camera_models' cnet'.
    unfold init_pinhole_model_with_gcp.
    destruct (foldM _ camera_models tt); cbn [mbind result_bind];
      [| discriminate].
    destruct (fold_left _ (seq 0 (length cnet)) (0, 0)) as [num_gcp num_good].
    destruct (num_good <? MIN_NUM_GOOD_GCP); [discriminate |].
    destruct (fold_left _ (seq 0 (length cnet)) _) as [[pin pout] idx].
    destruct (find_3D_affine_transform pin pout) as [[rotation translation] scale].
    destruct check_only.
    + intros H. injection H as <- <-. split; [reflexivity | auto].
    + apply rigid_transform_keeps_gcp.
Qed.

(** Three GCP and a tie point, a triangulation that finds each point where
    it is, and a fit that doubles all the distances. *)
Definition three_gcp_cnet : ControlNetwork :=
  [gcp_at (1, 0, 0)%float; gcp_at (0, 1, 0)%float; gcp_at (0, 0, 1)%float;
   tie_point_at (1, 1, 1)%float].

Lemma gcp_initialisation_witness :
  exists cnet',
    init_pinhole_model_with_gcp unit (fun _ _ _ pincam => pincam)
      (fun _ _ => (identity3, zero3, 2%float)) (fun _ cp _ => cp_position cp)
      false [PinholeCamera tt] three_gcp_cnet
    = Ok ([PinholeCamera tt], cnet')
    /\ length cnet' = 4%nat
    /\ cnet' !! 0%nat = Some (gcp_at (1, 0, 0)%float)
    /\ cnet' !! 3%nat = Some (tie_point_at (2, 2, 2)%float).
Proof.
  eexists. split; [vm_compute; reflexivity |].
  destruct (proj2 (proj2 (gcp_initialisation unit (fun _ _ _ pincam => pincam)
                            (fun _ _ => (identity3, zero3, 2%float))
                            (fun _ cp _ => cp_position cp) false
                            three_gcp_cnet))
              [PinholeCamera tt] [PinholeCamera tt] _
              ltac:(vm_compute; reflexivity)) as [Hlen Hgcp].
  split; [exact Hlen |]. split; [| reflexivity].
  apply (Hgcp 0%nat); reflexivity.
Defined.

(* ================================================================= *)
(** ** The camera files of a run *)

(** A loop of checks that throw one and the same exception. *)
Lemma foldM_checks {A : Type} (check : unit -> A -> result unit)
  (e : Exception) (l : list A) :
  (forall a, In a l -> check tt a = Ok tt \/ check tt a = Throw e) ->
  (foldM check l tt = Ok tt /\ forall a, In a l -> check tt a = Ok tt)
  \/ (foldM check l tt = Throw e /\ exists a, In a l /\ check tt a = Throw e).
Proof.
  induction l as [| a l IH]; intros Hcheck.
  - left. split; [reflexivity | intros a []].
  - cbn [foldM].
    destruct (Hcheck a (or_introl eq_refl)) as [Ha | Ha]; rewrite Ha;
      cbn [mbind result_bind].
    + destruct IH as [[Hok Hall] | [Hthrow (b & Hb & Hbe)]].
      * intros b Hb. apply Hcheck. right. exact Hb.
      * left. split; [exact Hok |]. intros b [<- | Hb]; [exact Ha | auto].
      * right. split; [exact Hthrow |]. exists b. split; [right |]; assumption.
    + right. split; [reflexivity |]. exists a. split; [left; reflexivity | exact Ha].
Qed.

Lemma lookup_map_inv {A B : Type} (h : A -> B) (l : list A) (i : nat) (y : B) :
  map h l !! i = Some y -> exists x, l !! i = Some x /\ y = h x.
Proof.
  revert i. induction l as [| a l IH]; intros [| i] H; try discriminate H.
  - exists a. split; [reflexivity |]. cbn in H. congruence.
  - apply IH. exact H.
Qed.

Section CameraFilesSpec.

Variable bundle_adjust_file_name : string -> string -> string -> string.
Variable out_prefix : string.
Variable image_files : list string.

(** The names of the files that hold the results of the cameras. *)
Definition adjust_file_names (camera_files : list string) : list string :=
  map (adjust_file_name bundle_adjust_file_name out_prefix image_files
         camera_files)
    (seq 0 (length camera_files)).

Let name := adjust_file_name bundle_adjust_file_name out_prefix image_files.

Lemma adjust_file_names_NoDup (camera_files : list string) :
  NoDup (adjust_file_names camera_files)
  <-> forall i j : nat,
        (i < j < length camera_files)%nat ->
        name camera_files i <> name camera_files j.
Proof.
  unfold adjust_file_names. fold name. rewrite NoDup_alt. split.
  - intros Hinj i j Hij Heq.
    assert (i = j); [| lia].
    apply (Hinj i j (name camera_files i)).
    + apply lookup_map_Some. apply lookup_seq. lia.
    + rewrite Heq. apply lookup_map_Some. apply lookup_seq. lia.
  - intros Hne i j x Hi Hj.
    apply lookup_map_inv in Hi as (i' & Hi' & Hxi).
    apply lookup_map_inv in Hj as (j' & Hj' & Hxj).
    apply lookup_seq in Hi' as [-> Hi']. apply lookup_seq in Hj' as [-> Hj'].
    cbn in Hxi, Hxj.
    destruct (Nat.lt_trichotomy i j) as [Hlt | [Heq | Hgt]]; [| exact Heq |].
    + exfalso. apply (Hne i j); [lia | congruence].
    + exfalso. apply (Hne j i); [lia | congruence].
Qed.

Lemma duplicate_inner_spec (camera_files : list string) (i : nat) :
  (duplicate_outer_body bundle_adjust_file_name out_prefix image_files
     camera_files tt i = Ok tt
   /\ forall j : nat, (i < j < length camera_files)%nat ->
        name camera_files i <> name camera_files j)
  \/ (duplicate_outer_body bundle_adjust_file_name out_prefix image_files
        camera_files tt i = Throw (ArgumentErr unique_names_msg)
      /\ exists j : nat, (i < j < length camera_files)%nat
           /\ name camera_files i = name camera_files j).
Proof.
  unfold duplicate_outer_body. fold name.
  assert (Hbody : forall j,
             duplicate_inner_body bundle_adjust_file_name out_prefix
               image_files camera_files (name camera_files i) tt j
             = if String.eqb (name camera_files i) (name camera_files j)
               then Throw (ArgumentErr unique_names_msg) else Ok tt)
    by reflexivity.
  destruct (foldM_checks
              (duplicate_inner_body bundle_adjust_file_name out_prefix
                 image_files camera_files (name camera_files i))
              (ArgumentErr unique_names_msg)
              (seq (i + 1) (length camera_files - (i + 1))))
    as [[Hok Hall] | [Hthrow (j & Hj & Hje)]].
  - intros j _. rewrite Hbody.
    destruct (String.eqb _ _); [right | left]; reflexivity.
  - left. split; [exact Hok |]. intros j Hj Heq.
    specialize (Hall j). rewrite Hbody, Heq, String.eqb_refl in Hall.
    discriminate Hall. apply in_seq. lia.
  - right. split; [exact Hthrow |]. exists j. apply in_seq in Hj.
    split; [lia |]. rewrite Hbody in Hje.
    destruct (String.eqb _ _) eqn:Heq; [| discriminate].
    apply String.eqb_eq. exact Heq.
Qed.

Lemma duplicate_outer_spec (camera_files : list string) :
  (foldM (duplicate_outer_body bundle_adjust_file_name out_prefix image_files
            camera_files) (seq 0 (length camera_files - 1)) tt = Ok tt
   /\ NoDup (adjust_file_names camera_files))
  \/ (foldM (duplicate_outer_body bundle_adjust_file_name out_prefix
               image_files camera_files) (seq 0 (length camera_files - 1)) tt
      = Throw (ArgumentErr unique_names_msg)
      /\ ~ NoDup (adjust_file_names camera_files)).
Proof.
  destruct (foldM_checks
              (duplicate_outer_body bundle_adjust_file_name out_prefix
                 image_files camera_files)
              (ArgumentErr unique_names_msg)
              (seq 0 (length camera_files - 1)))
    as [[Hok Hall] | [Hthrow (i & Hi & Hie)]].
  - intros i _. destruct (duplicate_inner_spec camera_files i) as [[H _] | [H _]];
      [left | right]; exact H.
  - left. split; [exact Hok |]. apply adjust_file_names_NoDup.
    intros i j Hij.
    destruct (duplicate_inner_spec camera_files i) as [[_ H] | [H _]].
    + apply H. exact Hij.
    + rewrite Hall in H; [discriminate |]. apply in_seq. lia.
  - right. split; [exact Hthrow |]. intros Hnodup.
    destruct (duplicate_inner_spec camera_files i) as [[H _] | [_ (j & Hj & Heq)]].
    + rewrite H in Hie. discriminate.
    + exact (proj1 (adjust_file_names_NoDup camera_files) Hnodup i j Hj Heq).
Qed.

End CameraFilesSpec.

(** X17. [main] goes on after its checks of the camera files exactly when
    the files of the results have names that differ from one camera to the
    other and there are as many cameras as images, where an empty list of
    cameras stands for one empty name per image. Two cameras with the same
    name of the result are refused first, with [ArgumentErr]; a number of
    cameras that differs from the number of images is refused after
    that. *)
Theorem camera_files_checked
  (bundle_adjust_file_name : string -> string -> string -> string)
  (out_prefix : string) (image_files camera_files : list string) :
  (length camera_files <= length image_files)%nat ->
  let cams := fill_camera_files image_files camera_files in
  let names :=
    adjust_file_names bundle_adjust_file_name out_prefix image_files cams in
  match check_camera_files bundle_adjust_file_name out_prefix image_files
          camera_files with
  | Ok cams' =>
      cams' = cams /\ length cams = length image_files /\ NoDup names
  | Throw e =>
      (e = ArgumentErr unique_names_msg /\ ~ NoDup names)
      \/ (e = ArgumentErr as_many_cameras_msg /\ NoDup names
          /\ camera_files <> [] /\ length camera_files <> length image_files)
  end.
Proof.
  intros _ cams names. unfold check_camera_files. fold cams.
  destruct (duplicate_outer_spec bundle_adjust_file_name out_prefix
              image_files cams) as [[Hok Hnodup] | [Hthrow Hdup]].
  - rewrite Hok. cbn [mbind result_bind]. unfold throw_if.
    destruct (length image_files =? length cams)%nat eqn:Hlen;
      cbn [negb mbind result_bind].
    + apply Nat.eqb_eq in Hlen. auto.
    + apply Nat.eqb_neq in Hlen. right.
      split; [reflexivity |]. split; [exact Hnodup |].
      subst cams. unfold fill_camera_files in Hlen.
      destruct camera_files as [| c l].
      * rewrite length_replicate in Hlen. congruence.
      * split; [discriminate | congruence].
  - rewrite Hthrow. cbn [mbind result_bind]. left. auto.
Qed.

(** Two images without camera files: each image gets an empty camera
    name, and the two results have different names. *)
Lemma camera_files_checked_witness :
  (0 <= 2)%nat
  /\ match check_camera_files
            (fun prefix image camera => String.append prefix image)
            "run/out-" ["a.tif"; "b.tif"] [] with
     | Ok cams' =>
         cams' = [""; ""] /\ length [""; ""] = 2%nat
         /\ NoDup ["run/out-a.tif"; "run/out-b.tif"]
     | Throw e =>
         (e = ArgumentErr unique_names_msg
          /\ ~ NoDup ["run/out-a.tif"; "run/out-b.tif"])
         \/ (e = ArgumentErr as_many_cameras_msg
             /\ NoDup ["run/out-a.tif"; "run/out-b.tif"]
             /\ @nil string <> [] /\ 0%nat <> 2%nat)
     end.
Proof.
  split; [lia |].
  exact (camera_files_checked
           (fun prefix image camera => String.append prefix image)
           "run/out-" ["a.tif"; "b.tif"] [] ltac:(cbn; lia)).
Defined.
(* ================================================================= *)
(** ** The pairs of images that get a match file *)

(** A loop whose body can throw keeps an invariant of the elements done so
    far, or throws an exception of the kind the body throws. *)
Lemma foldM_invariant {A St : Type} (body : St -> A -> result St)
  (P : list A -> St -> Prop) (E : Exception -> Prop) (l : list A) (s : St) :
  P [] s ->
  (forall done a rest s,
      l = (done ++ a :: rest)%list ->
      P done s ->
      match body s a with
      | Ok s' => P (done ++ [a])%list s'
      | Throw e => E e
      end) ->
  match foldM body l s with
  | Ok s' => P l s'
  | Throw e => E e
  end.
Proof.
  intros Hinit Hstep.
  assert (Hgen : forall rest done s,
             l = (done ++ rest)%list -> P done s ->
             match foldM body rest s with
             | Ok s' => P l s'
             | Throw e => E e
             end).
  { induction rest as [| a rest IH]; intros done s0 Hl HP.
    - cbn. rewrite app_nil_r in Hl. subst l. exact HP.
    - cbn [foldM]. specialize (Hstep done a rest s0 Hl HP).
      destruct (body s0 a) as [s' | e]; cbn [mbind result_bind];
        [| exact Hstep].
      apply (IH (done ++ [a])%list); [| exact Hstep].
      rewrite <- app_assoc. exact Hl. }
  apply (Hgen l [] s); [reflexivity | exact Hinit].
Qed.

Lemma int_add_small (a b : Z) :
  0 <= a + b < 2 ^ 31 -> int_add a b = a + b.
Proof.
  intros H. unfold int_add. rewrite Z.mod_small; lia.
Qed.

Section ImagePairsSpec.

Variable match_filename : string -> string -> string -> string.
Variable norm_2 : Vector3 -> double.
Variable find_matches : nat -> nat -> string -> result bool.
Variable fopt : FileOptions.
Variable estimated_camera_gcc : list Vector3.

(** The pair is in the overlap list, or the list is empty, and the two
    cameras are not too far apart. *)
Definition pair_kept (i j : nat) : bool :=
  (bool_decide (overlap_list fopt = ∅)
   || bool_decide ((get_s (image_files fopt) i, get_s (image_files fopt) j)
                   ∈ overlap_list fopt))
  && negb (too_far_apart norm_2 fopt estimated_camera_gcc i j).

(** The second image comes after the first one, at most [overlap_limit]
    places later. *)
Definition pair_in_window (i j : nat) : bool :=
  (i <? j)%nat && (j <? length (image_files fopt))%nat
  && (Z.of_nat j - Z.of_nat i <=? overlap_limit fopt).

Definition pair_selected (i j : nat) : bool :=
  pair_in_window i j && pair_kept i j.

Definition pair_match_file (i j : nat) : string :=
  match_filename (out_prefix fopt) (get_s (image_files fopt) i)
    (get_s (image_files fopt) j).

Hypothesis limit_nonneg : 0 <= overlap_limit fopt.
Hypothesis no_overflow :
  Z.of_nat (length (image_files fopt)) + overlap_limit fopt < 2 ^ 31.

Lemma pair_indices_window (i j : nat) :
  (i < length (image_files fopt))%nat ->
  In j (pair_indices fopt i) <-> pair_in_window i j = true.
Proof.
  intros Hi. unfold pair_indices, pair_in_window.
  rewrite int_add_small by lia. rewrite in_seq.
  rewrite !andb_true_iff, !Nat.ltb_lt, Z.leb_le. lia.
Qed.

Lemma pair_body_eq (i j : nat) (match_files : gmap (nat * nat) string)
  (num_pairs_matched : Z) :
  pair_body match_filename norm_2 find_matches fopt estimated_camera_gcc i
    (match_files, num_pairs_matched) j
  = if pair_kept i j then
      matched ← find_matches i j (pair_match_file i j);
      Ok (<[(i, j) := pair_match_file i j]> match_files,
          if matched : bool then num_pairs_matched + 1 else num_pairs_matched)
    else Ok (match_files, num_pairs_matched).
Proof.
  unfold pair_body, pair_kept, pair_match_file.
  destruct (bool_decide (overlap_list fopt = ∅));
    destruct (bool_decide (_ ∈ overlap_list fopt));
    destruct (too_far_apart _ _ _ i j); reflexivity.
Qed.

(** What the loops keep: the pairs that have a match file among the pairs
    that are [covered], and the bounds of [num_pairs_matched]. *)
Definition pairs_done (covered : nat -> nat -> bool)
  (st : gmap (nat * nat) string * Z) : Prop :=
  (forall a b : nat,
      fst st !! (a, b)
      = if covered a b && pair_kept a b then Some (pair_match_file a b)
        else None)
  /\ 0 <= snd st <= Z.of_nat (size (fst st)).

Definition pair_throws (e : Exception) : Prop :=
  exists i j : nat,
    pair_selected i j = true
    /\ find_matches i j (pair_match_file i j) = Throw e.

(** The pairs covered when the images [outer] are done and, for the image
    [i], the second images [inner]. *)
Definition covered_by (outer : list nat) (i : nat) (inner : list nat)
  (a b : nat) : bool :=
  (bool_decide (a ∈ outer) && pair_in_window a b)
  || ((a =? i)%nat && bool_decide (b ∈ inner)).

Lemma pairs_inner_loop (outer : list nat) (i : nat)
  (st : gmap (nat * nat) string * Z) :
  (i < length (image_files fopt))%nat ->
  i ∉ outer ->
  pairs_done (covered_by outer i []) st ->
  match pairs_outer_body match_filename norm_2 find_matches fopt
          estimated_camera_gcc st i with
  | Ok st' => pairs_done (covered_by (outer ++ [i]) i []) st'
  | Throw e => pair_throws e
  end.
Proof.
  intros Hi Hout Hst. unfold pairs_outer_body.
  pose proof (foldM_invariant
                (pair_body match_filename norm_2 find_matches fopt
                   estimated_camera_gcc i)
                (fun inner st => pairs_done (covered_by outer i inner) st)
                pair_throws (pair_indices fopt i) st Hst) as Hloop.
  cbv beta in Hloop.
  assert (Hnodup : NoDup (pair_indices fopt i)).
  { unfold pair_indices. apply NoDup_ListNoDup, List.seq_NoDup. }
  match type of Hloop with
  | ?Hyp -> _ => assert (Hstep : Hyp)
  end.
  { intros inner j rest [mf num] Hsplit [Hmap Hnum]. cbn [fst snd] in *.
    assert (Hj : pair_in_window i j = true).
    { apply pair_indices_window; [exact Hi |]. rewrite Hsplit.
      apply in_or_app. right. left. reflexivity. }
    assert (Hnew : j ∉ inner).
    { rewrite Hsplit in Hnodup. apply NoDup_app in Hnodup as (_ & Hdis & _).
      intros Hin. apply (Hdis j Hin). left. }
    rewrite pair_body_eq. destruct (pair_kept i j) eqn:Hkept.
    - destruct (find_matches i j (pair_match_file i j)) as [matched | e] eqn:Hfind;
        cbn [mbind result_bind].
      + split; cbn [fst snd].
        * intros a b. destruct (decide ((a, b) = (i, j))) as [Heq | Hne].
          -- injection Heq as -> ->. rewrite lookup_insert_eq.
             unfold covered_by. rewrite Nat.eqb_refl.
             rewrite (bool_decide_eq_true_2 (j ∈ inner ++ [j]))
               by (apply elem_of_app; right; apply list_elem_of_singleton;
                   reflexivity).
             rewrite orb_true_r, Hkept. reflexivity.
          -- rewrite lookup_insert_ne by congruence. rewrite Hmap.
             unfold covered_by.
             destruct (a =? i)%nat eqn:Hai; [| reflexivity].
             apply Nat.eqb_eq in Hai. subst a.
             assert (b <> j) by congruence.
             rewrite (bool_decide_ext (b ∈ inner ++ [j]) (b ∈ inner));
               [reflexivity |].
             rewrite elem_of_app, list_elem_of_singleton. tauto.
        * assert (Hnone : mf !! (i, j) = None).
          { rewrite Hmap. unfold covered_by.
            rewrite (bool_decide_eq_false_2 (i ∈ outer)) by exact Hout.
            rewrite (bool_decide_eq_false_2 (j ∈ inner)) by exact Hnew.
            rewrite Nat.eqb_refl. reflexivity. }
          rewrite map_size_insert_None by exact Hnone.
          destruct matched; lia.
      + exists i, j. split; [| exact Hfind].
        unfold pair_selected. rewrite Hj, Hkept. reflexivity.
    - split; cbn [fst snd]; [| exact Hnum].
      intros a b. rewrite Hmap. unfold covered_by.
      destruct (decide ((a, b) = (i, j))) as [Heq | Hne].
      + injection Heq as -> ->. rewrite Hkept, !andb_false_r. reflexivity.
      + destruct (a =? i)%nat eqn:Hai; [| reflexivity].
        apply Nat.eqb_eq in Hai. subst a.
        assert (b <> j) by congruence.
        rewrite (bool_decide_ext (b ∈ inner ++ [j]) (b ∈ inner));
          [reflexivity |].
        rewrite elem_of_app, list_elem_of_singleton. tauto. }
  specialize (Hloop Hstep).
  destruct (foldM _ (pair_indices fopt i) st) as [[mf num] | e];
    [| exact Hloop].
  destruct Hloop as [Hmap Hnum]. split; [| exact Hnum]. cbn [fst snd] in *.
  intros a b. rewrite Hmap. unfold covered_by.
  rewrite (bool_decide_eq_false_2 (b ∈ [])) by (apply not_elem_of_nil).
  rewrite andb_false_r, orb_false_r.
  destruct (decide (a = i)) as [-> | Hne].
  - rewrite Nat.eqb_refl, andb_true_l.
    rewrite (bool_decide_eq_false_2 (i ∈ outer)) by exact Hout.
    rewrite (bool_decide_eq_true_2 (i ∈ outer ++ [i]))
      by (apply elem_of_app; right; apply list_elem_of_singleton; reflexivity).
    rewrite andb_false_l, orb_false_l, andb_true_l.
    rewrite (bool_decide_ext (b ∈ pair_indices fopt i)
               (pair_in_window i b = true)).
    + destruct (pair_in_window i b); reflexivity.
    + rewrite list_elem_of_In. apply pair_indices_window. exact Hi.
  - rewrite (proj2 (Nat.eqb_neq a i)) by exact Hne.
    rewrite andb_false_l, orb_false_r.
    rewrite (bool_decide_ext (a ∈ outer ++ [i]) (a ∈ outer));
      [reflexivity |].
    rewrite elem_of_app, list_elem_of_singleton. tauto.
Qed.

Lemma pairs_outer_loop :
  match match_image_pairs match_filename norm_2 find_matches fopt
          estimated_camera_gcc with
  | Ok st =>
      pairs_done
        (covered_by (seq 0 (length (image_files fopt))) 0 []) st
  | Throw e => pair_throws e
  end.
Proof.
  unfold match_image_pairs.
  apply (foldM_invariant
           (pairs_outer_body match_filename norm_2 find_matches fopt
              estimated_camera_gcc)
           (fun outer st => pairs_done (covered_by outer 0 []) st)
           pair_throws).
  - split; cbn [fst snd].
    + intros a b. rewrite lookup_empty. unfold covered_by.
      rewrite (bool_decide_eq_false_2 (a ∈ [])) by (apply not_elem_of_nil).
      rewrite (bool_decide_eq_false_2 (b ∈ [])) by (apply not_elem_of_nil).
      rewrite andb_false_r. reflexivity.
    + rewrite map_size_empty. lia.
  - intros outer i rest st Hsplit Hst.
    assert (Hi : (i < length (image_files fopt))%nat).
    { apply (in_seq (length (image_files fopt)) 0 i). rewrite Hsplit.
      apply in_or_app. right. left. reflexivity. }
    assert (Hout : i ∉ outer).
    { pose proof (List.seq_NoDup (length (image_files fopt)) 0) as Hnodup.
      apply NoDup_ListNoDup in Hnodup.
      rewrite Hsplit in Hnodup. apply NoDup_app in Hnodup as (_ & Hdis & _).
      intros Hin. apply (Hdis i Hin). left. }
    assert (Hcov : forall outer' a b,
               covered_by outer' i [] a b = covered_by outer' 0 [] a b).
    { intros outer' a b. unfold covered_by.
      rewrite (bool_decide_eq_false_2 (b ∈ [])) by (apply not_elem_of_nil).
      rewrite !andb_false_r. reflexivity. }
    assert (Hst' : pairs_done (covered_by outer i []) st).
    { destruct Hst as [Hmap Hnum]. split; [| exact Hnum].
      intros a b. rewrite Hcov. apply Hmap. }
    pose proof (pairs_inner_loop outer i st Hi Hout Hst') as Hinner.
    destruct (pairs_outer_body _ _ _ _ _ st i) as [st' | e]; [| exact Hinner].
    destruct Hinner as [Hmap Hnum]. split; [| exact Hnum].
    intros a b. rewrite <- Hcov. apply Hmap.
Qed.

End ImagePairsSpec.

(** X18. The loop of [main] over the pairs of images records a match file
    for exactly the pairs [(i, j)] with [i < j], [j] at most
    [overlap_limit] images after [i], the two names in the overlap list when
    the list is not empty, and the two estimated camera positions not too
    far apart; also when the matching of the pair fails and the failure is
    caught. An empty overlap list selects every pair of the window. At most
    as many pairs are counted as matched as there are match files, and the
    loop throws only what the matching of a selected pair throws. *)
Theorem match_files_of_pairs
  (match_filename : string -> string -> string -> string)
  (norm_2 : Vector3 -> double)
  (find_matches : nat -> nat -> string -> result bool)
  (fopt : FileOptions) (estimated_camera_gcc : list Vector3) :
  0 <= overlap_limit fopt ->
  Z.of_nat (length (image_files fopt)) + overlap_limit fopt < 2 ^ 31 ->
  match match_image_pairs match_filename norm_2 find_matches fopt
          estimated_camera_gcc with
  | Ok (match_files, num_pairs_matched) =>
      (forall i j : nat,
          match_files !! (i, j)
          = if pair_selected norm_2 fopt estimated_camera_gcc i j
            then Some (pair_match_file match_filename fopt i j)
            else None)
      /\ 0 <= num_pairs_matched <= Z.of_nat (size match_files)
  | Throw e =>
      exists i j : nat,
        pair_selected norm_2 fopt estimated_camera_gcc i j = true
        /\ find_matches i j (pair_match_file match_filename fopt i j)
           = Throw e
  end.
Proof.
  intros Hlimit Hoverflow.
  pose proof (pairs_outer_loop match_filename norm_2 find_matches fopt
                estimated_camera_gcc Hlimit Hoverflow) as H.
  destruct (match_image_pairs _ _ _ _ _) as [[match_files num] | e];
    [| exact H].
  destruct H as [Hmap Hnum]. split; [| exact Hnum]. cbn [fst snd] in *.
  intros i j. rewrite Hmap. unfold covered_by, pair_selected.
  rewrite (bool_decide_eq_false_2 (j ∈ [])) by (apply not_elem_of_nil).
  rewrite andb_false_r, orb_false_r.
  destruct (pair_in_window fopt i j) eqn:Hwin;
    [| rewrite andb_false_r; reflexivity].
  rewrite (bool_decide_eq_true_2 (i ∈ seq 0 (length (image_files fopt))));
    [reflexivity |].
  apply list_elem_of_In, in_seq. unfold pair_in_window in Hwin.
  rewrite !andb_true_iff, !Nat.ltb_lt in Hwin. lia.
Qed.

(** Three images, each matched with the next one only. *)
Definition neighbour_files : FileOptions := {|
  image_files := ["a.tif"; "b.tif"; "c.tif"];
  camera_files := ["a.xml"; "b.xml"; "c.xml"];
  gcp_files := [];
  out_prefix := "run/out";
  input_prefix := "";
  overlap_limit := 1;
  overlap_list_file := "";
  overlap_list := ∅;
  approximate_pinhole_intrinsics := false;
  camera_position_file := "";
  position_filter_dist := (-1)%float;
  semi_major := 0%float;
  semi_minor := 0%float;
  intrinsics_to_float_str := "";
  remove_outliers_params_str := "75.0 3.0 2.0 3.0";
  initial_transform_file := "";
  initial_transform := [];
  fixed_cameras_indices_str := ""
|}.

Lemma match_files_of_pairs_witness :
  0 <= overlap_limit neighbour_files
  /\ Z.of_nat (length (image_files neighbour_files))
     + overlap_limit neighbour_files < 2 ^ 31
  /\ exists (match_files : gmap (nat * nat) string) (num_pairs_matched : Z),
       match_image_pairs
         (fun prefix image1 image2 =>
            String.append prefix (String.append image1 image2))
         (fun _ => 0%float) (fun _ _ _ => Ok false) neighbour_files []
       = Ok (match_files, num_pairs_matched)
       /\ match_files !! (0%nat, 1%nat) = Some "run/outa.tifb.tif"
       /\ match_files !! (0%nat, 2%nat) = None.
Proof.
  assert (Hlimit : 0 <= overlap_limit neighbour_files) by (cbn; lia).
  assert (Hoverflow : Z.of_nat (length (image_files neighbour_files))
                      + overlap_limit neighbour_files < 2 ^ 31)
    by (cbn; lia).
  split; [exact Hlimit |]. split; [exact Hoverflow |].
  pose proof (match_files_of_pairs
                (fun prefix image1 image2 =>
                   String.append prefix (String.append image1 image2))
                (fun _ => 0%float) (fun _ _ _ => Ok false) neighbour_files []
                Hlimit Hoverflow) as H.
  destruct (match_image_pairs _ _ _ _ _) as [[match_files num] | e].
  - exists match_files, num. split; [reflexivity |].
    destruct H as [Hmap _]. rewrite !Hmap. split; vm_compute; reflexivity.
  - exfalso. destruct H as (i & j & _ & H). discriminate H.
Defined.
(* ================================================================= *)
(** ** The options after handle_arguments *)

(** One step of a chain of checks that has returned: the first check has
    passed. *)
Ltac first_call r :=
  lazymatch r with
  | mbind _ ?r' => first_call r'
  | _ => r
  end.

(** The first step of a chain that has returned: a check that has passed,
    or a call that has returned [x]. *)
Tactic Notation "passed_check" hyp(H) ident(Hc) :=
  lazymatch type of H with
  | mbind _ ?r = Ok _ =>
      let h := first_call r in
      lazymatch h with
      | throw_if ?c _ =>
          destruct c eqn:Hc; cbn [throw_if mbind result_bind] in H;
          [discriminate H |]
      end
  end.

Tactic Notation "returned_call" hyp(H) ident(x) ident(Hr) :=
  lazymatch type of H with
  | mbind _ ?r = Ok _ =>
      let h := first_call r in
      destruct h as [x | ?] eqn:Hr; cbn [mbind result_bind] in H;
      [| discriminate H]
  end.

Lemma words_empty : String.words "" = [].
Proof. reflexivity. Qed.

Lemma overlap_pairs_fold (pairs : list (string * string))
  (overlap_list : gset (string * string)) (a b : string) :
  (a, b) ∈ fold_left overlap_pair_body pairs overlap_list
  <-> (a, b) ∈ overlap_list \/ In (a, b) pairs \/ In (b, a) pairs.
Proof.
  revert overlap_list. induction pairs as [| [image1 image2] pairs IH];
    intros overlap_list; cbn [fold_left In].
  - tauto.
  - rewrite IH. unfold overlap_pair_body.
    rewrite !elem_of_union, !elem_of_singleton.
    split; intros H; repeat destruct H as [H | H]; try tauto;
      try (injection H as -> ->; tauto);
      try (right; left; left; congruence);
      try (right; right; left; congruence).
Qed.

Lemma fixed_cameras_fold (num_images : Z) (vals : list Z) (fixed fixed' : gset nat) :
  foldM (fixed_camera_body num_images) vals fixed = Ok fixed' ->
  (forall val, In val vals -> 0 <= val < num_images)
  /\ (forall i : nat, i ∈ fixed' <-> i ∈ fixed \/ In (Z.of_nat i) vals).
Proof.
  revert fixed. induction vals as [| val vals IH]; intros fixed H;
    cbn [foldM] in H.
  - injection H as <-. split; [intros val [] |]. intros i. cbn. tauto.
  - destruct (fixed_camera_body num_images fixed val) as [fixed1 | e] eqn:Hbody;
      cbn [mbind result_bind] in H; [| discriminate H].
    unfold fixed_camera_body in Hbody.
    destruct ((val <? 0) || (num_images <=? val)) eqn:Hval;
      [discriminate Hbody |].
    injection Hbody as <-.
    apply orb_false_iff in Hval as [Hlo Hhi].
    apply Z.ltb_ge in Hlo. apply Z.leb_gt in Hhi.
    destruct (IH _ H) as [Hrange Hmem]. split.
    + intros v [<- | Hv]; [lia | auto].
    + intros i. rewrite Hmem, elem_of_union, elem_of_singleton. cbn [In].
      split; intros Hi; repeat destruct Hi as [Hi | Hi]; try tauto.
      * right. left. lia.
      * left. left. lia.
Qed.

(** The checks and the calls of a run of [handle_arguments] that has
    returned, in the order of the code. *)
Tactic Notation "handle_arguments_returned" hyp(H) :=
  unfold handle_arguments in H;
  passed_check H Himages; passed_check H Hboth; passed_check H Hnegative;
  returned_call H overlap_list' Hlist;
  passed_check H Hcw; passed_check H Hrw; passed_check H Htw;
  passed_check H Hext; passed_check H Hsolve; passed_check H Happrox;
  passed_check H Hmix; passed_check H Hadjust;
  returned_call H params Hparams;
  passed_check H Hcsv; passed_check H Hrpc;
  returned_call H datum' Hdatum;
  passed_check H Hprefix;
  returned_call H u Hdir;
  passed_check H Hfloat; passed_check H Hba;
  returned_call H transform' Htransform;
  returned_call H fixed' Hfixed;
  injection H as <- <-.

(** X19. When [handle_arguments] returns, the options fit together: there
    is an image and an output prefix; intrinsics are solved for or
    approximated only with --create-pinhole-cameras, never both, and then
    without initial adjustments and with a first camera file that has a
    pinhole extension; intrinsics are named to float only when they are
    solved for; the solver is one of the five known ones, written in any
    case; a camera position file comes with a csv format; and GCP files, a
    camera position file or the RPC session come with a datum (found in an
    image when not given; for GCP and camera positions two positive
    semi-axes do as well). *)
Theorem handle_arguments_options_fit
  (file_exists : string -> bool)
  (read_overlap_list : string -> list (string * string))
  (has_pinhole_extension : string -> bool)
  (string_replace : string -> string -> string -> string)
  (str_to_vec : string -> result (double * double * double * double))
  (read_georeference : string -> option string)
  (set_well_known_datum : string -> Datum -> result Datum)
  (spheroid_to_geodetic : double -> double -> Vector3 -> Vector3)
  (create_out_dir : string -> result unit)
  (read_doubles : string -> list double) (read_ints : string -> list Z)
  (opt opt' : Options) (fopt fopt' : FileOptions) :
  handle_arguments file_exists read_overlap_list has_pinhole_extension
    string_replace str_to_vec read_georeference set_well_known_datum
    spheroid_to_geodetic create_out_dir read_doubles read_ints opt fopt
  = Ok (opt', fopt') ->
  image_files fopt' <> []
  /\ out_prefix fopt' <> ""
  /\ (solve_intrinsics opt' = true ->
      create_pinhole opt' = true
      /\ approximate_pinhole_intrinsics fopt' = false)
  /\ (approximate_pinhole_intrinsics fopt' = true ->
      create_pinhole opt' = true)
  /\ (create_pinhole opt' = true ->
      input_prefix fopt' = ""
      /\ (camera_files fopt' <> [] ->
          has_pinhole_extension (get_s (camera_files fopt') 0) = true))
  /\ (intrinsics_to_float opt' <> [] -> solve_intrinsics opt' = true)
  /\ ba_type opt' = to_lower (ba_type opt)
  /\ In (ba_type opt') ["ceres"; "robustsparse"; "robustref"; "sparse"; "ref"]
  /\ (camera_position_file fopt' <> "" -> csv_format_str opt' <> "")
  /\ (stereo_session_string opt' = "rpc" -> datum_str opt' <> "")
  /\ (gcp_files fopt' <> [] \/ camera_position_file fopt' <> "" ->
      datum_str opt' <> ""
      \/ (dgt (semi_major fopt') 0%float = true
          /\ dgt (semi_minor fopt') 0%float = true)).
Proof.
  intros H. handle_arguments_returned H.
  cbn [image_files out_prefix solve_intrinsics create_pinhole
       approximate_pinhole_intrinsics input_prefix camera_files
       intrinsics_to_float ba_type camera_position_file csv_format_str
       stereo_session_string datum_str gcp_files semi_major semi_minor].
  set (ds := if String.eqb (datum_str opt) "" then _ else _) in *.
  repeat apply conj.
  - intros E. rewrite E in Himages. discriminate Himages.
  - apply String.eqb_neq. exact Hprefix.
  - intros E. rewrite E in Hsolve, Hmix.
    destruct (create_pinhole opt), (approximate_pinhole_intrinsics fopt);
      try discriminate; auto.
  - intros E. rewrite E in Happrox.
    destruct (create_pinhole opt); [reflexivity | discriminate].
  - intros E. rewrite E in Hext, Hadjust. cbn [andb] in Hext, Hadjust.
    apply negb_false_iff in Hext, Hadjust. apply String.eqb_eq in Hadjust.
    auto.
  - intros Hwords. destruct (solve_intrinsics opt); [reflexivity |].
    rewrite andb_true_r in Hfloat. apply negb_false_iff in Hfloat.
    apply String.eqb_eq in Hfloat. rewrite Hfloat in Hwords.
    exfalso. apply Hwords. exact words_empty.
  - reflexivity.
  - apply negb_false_iff in Hba. cbn [In].
    repeat (apply orb_true_iff in Hba as [Hba | Hba]);
      apply String.eqb_eq in Hba; rewrite Hba; auto 6.
  - intros Hfile Hformat. rewrite Hformat in Hcsv.
    rewrite andb_true_r in Hcsv. apply negb_false_iff in Hcsv.
    apply String.eqb_eq in Hcsv. contradiction.
  - intros Hsession Hds. rewrite Hsession, Hds in Hrpc. discriminate Hrpc.
  - intros Hneeded.
    destruct (String.eqb ds "") eqn:Hds; cbn [negb] in Hdatum.
    + destruct (dgt (semi_major fopt) 0%float && dgt (semi_minor fopt) 0%float)
        eqn:Haxes.
      * right. apply andb_true_iff. exact Haxes.
      * exfalso.
        destruct (negb (length (gcp_files fopt) =? 0)%nat
                  || negb (String.eqb (camera_position_file fopt) ""))
          eqn:Hn; [discriminate Hdatum |].
        apply orb_false_iff in Hn as [Hg Hc].
        apply negb_false_iff in Hg, Hc.
        apply Nat.eqb_eq in Hg. apply String.eqb_eq in Hc.
        destruct Hneeded as [Hneeded | Hneeded]; [| contradiction].
        apply Hneeded. destruct (gcp_files fopt); [reflexivity | discriminate].
    + left. apply String.eqb_neq. exact Hds.
Qed.

(** X20. When [handle_arguments] returns, the images are those it was
    given and the overlap limit is at least one: a limit of zero has become
    the number of images. With a file of
    the overlap list the limit is the number of images and the list holds
    each pair of the file in both orders, and nothing else; without one the
    list is left as it was. With a string of fixed camera indices, the
    fixed cameras are exactly the indices of the string, and each of them
    is the index of an image; without one the set is left as it was. *)
Theorem handle_arguments_overlap_and_fixed_cameras
  (file_exists : string -> bool)
  (read_overlap_list : string -> list (string * string))
  (has_pinhole_extension : string -> bool)
  (string_replace : string -> string -> string -> string)
  (str_to_vec : string -> result (double * double * double * double))
  (read_georeference : string -> option string)
  (set_well_known_datum : string -> Datum -> result Datum)
  (spheroid_to_geodetic : double -> double -> Vector3 -> Vector3)
  (create_out_dir : string -> result unit)
  (read_doubles : string -> list double) (read_ints : string -> list Z)
  (opt opt' : Options) (fopt fopt' : FileOptions) :
  handle_arguments file_exists read_overlap_list has_pinhole_extension
    string_replace str_to_vec read_georeference set_well_known_datum
    spheroid_to_geodetic create_out_dir read_doubles read_ints opt fopt
  = Ok (opt', fopt') ->
  let num_images := Z.of_nat (length (image_files fopt)) in
  image_files fopt' = image_files fopt
  /\ 1 <= overlap_limit fopt'
  /\ overlap_limit fopt'
     = (if overlap_limit fopt =? 0 then num_images else overlap_limit fopt)
  /\ (if String.eqb (overlap_list_file fopt) "" then
        overlap_list fopt' = overlap_list fopt
      else
        overlap_limit fopt' = num_images
        /\ file_exists (overlap_list_file fopt) = true
        /\ forall image1 image2 : string,
             (image1, image2) ∈ overlap_list fopt'
             <-> In (image1, image2)
                   (read_overlap_list (overlap_list_file fopt))
                 \/ In (image2, image1)
                      (read_overlap_list (overlap_list_file fopt)))
  /\ (if String.eqb (fixed_cameras_indices_str fopt) "" then
        fixed_cameras_indices opt' = fixed_cameras_indices opt
      else
        (forall val : Z,
            In val (read_ints (fixed_cameras_indices_str fopt)) ->
            0 <= val < num_images)
        /\ forall icam : nat,
             icam ∈ fixed_cameras_indices opt'
             <-> In (Z.of_nat icam)
                   (read_ints (fixed_cameras_indices_str fopt))).
Proof.
  intros H. handle_arguments_returned H.
  cbn [image_files overlap_limit overlap_list fixed_cameras_indices].
  cbv zeta.
  apply Z.ltb_ge in Hnegative.
  assert (Hn : 1 <= Z.of_nat (length (image_files fopt))).
  { destruct (image_files fopt); [discriminate Himages | cbn; lia]. }
  repeat apply conj.
  - reflexivity.
  - destruct (overlap_limit fopt =? 0) eqn:Hzero; [exact Hn |].
    apply Z.eqb_neq in Hzero. lia.
  - reflexivity.
  - destruct (String.eqb (overlap_list_file fopt) "") eqn:Hfile;
      cbn [negb andb] in Hlist, Hboth.
    + injection Hlist as <-. reflexivity.
    + destruct (negb (file_exists (overlap_list_file fopt))) eqn:Hexists;
        cbn [throw_if mbind result_bind] in Hlist; [discriminate Hlist |].
      injection Hlist as <-. apply negb_false_iff in Hexists.
      apply Z.ltb_ge in Hboth.
      replace (overlap_limit fopt) with 0 by lia. cbn [Z.eqb].
      split; [reflexivity |]. split; [exact Hexists |].
      intros image1 image2. rewrite overlap_pairs_fold.
      rewrite elem_of_empty. tauto.
  - destruct (String.eqb (fixed_cameras_indices_str fopt) "") eqn:Hstr;
      cbn [negb] in Hfixed.
    + injection Hfixed as <-. reflexivity.
    + apply fixed_cameras_fold in Hfixed as [Hrange Hmem].
      split; [exact Hrange |]. intros icam. rewrite Hmem.
      rewrite elem_of_empty. tauto.
Qed.

(** A command line with three images, an overlap list and two fixed
    cameras; the solver and the cost function are written with capitals. *)
Definition typed_options : Options := {|
  cost_function := "Cauchy";
  ba_type := "Ceres";
  robust_threshold := 0.5%float;
  camera_weight := 1%float;
  rotation_weight := 0%float;
  translation_weight := 0%float;
  overlap_exponent := 0%float;
  parameter_tolerance := 0x1.5798ee2308c3ap-27%float;
  min_matches := 30;
  max_iterations := 1000;
  num_ba_passes := 1;
  num_threads := 1;
  create_pinhole := false;
  fix_gcp_xyz := false;
  solve_intrinsics := false;
  use_llh_error := false;
  stereo_session_string := "";
  heights_from_dem := "";
  reference_terrain := "";
  csv_format_str := "";
  datum_str := "";
  datum := unspecified_datum;
  disparity_list := [];
  max_disp_error := (-1)%float;
  remove_outliers_params := (0%float, 0%float, 0%float, 0%float);
  intrinsics_to_float := [];
  fixed_cameras_indices := ∅
|}.

Definition typed_files : FileOptions := {|
  image_files := ["a.tif"; "b.tif"; "c.tif"];
  camera_files := ["a.xml"; "b.xml"; "c.xml"];
  gcp_files := [];
  out_prefix := "run/out";
  input_prefix := "";
  overlap_limit := 0;
  overlap_list_file := "pairs.txt";
  overlap_list := ∅;
  approximate_pinhole_intrinsics := false;
  camera_position_file := "";
  position_filter_dist := (-1)%float;
  semi_major := 0%float;
  semi_minor := 0%float;
  intrinsics_to_float_str := "";
  remove_outliers_params_str := "75.0 3.0 2.0 3.0";
  initial_transform_file := "";
  initial_transform := [];
  fixed_cameras_indices_str := "0 2"
|}.

(** The files and the libraries of the example: the overlap list names one
    pair, no image has a georeference. *)
Definition typed_run : result (Options * FileOptions) :=
  handle_arguments (fun _ => true) (fun _ => [("a.tif", "c.tif")])
    (fun _ => false) (fun s _ _ => s)
    (fun _ => Ok (75%float, 3%float, 2%float, 3%float)) (fun _ => None)
    (fun name d =>
       Ok {| datum_name := name;
             cartesian_to_geodetic := cartesian_to_geodetic d |})
    (fun _ _ xyz => xyz) (fun _ => Ok tt) (fun _ => []) (fun _ => [0; 2])
    typed_options typed_files.

Lemma handle_arguments_options_fit_witness :
  exists (opt' : Options) (fopt' : FileOptions),
    typed_run = Ok (opt', fopt')
    /\ ba_type opt' = "ceres"
    /\ image_files fopt' <> [].
Proof.
  unfold typed_run.
  destruct (handle_arguments _ _ _ _ _ _ _ _ _ _ _ _ _)
    as [[opt' fopt'] | e] eqn:Hrun;
    [| vm_compute in Hrun; discriminate Hrun].
  exists opt', fopt'. split; [reflexivity |].
  destruct (handle_arguments_options_fit _ _ _ _ _ _ _ _ _ _ _ _ _ _ _ Hrun)
    as (Himages & _ & _ & _ & _ & _ & Hba & _).
  split; [exact Hba | exact Himages].
Defined.

Lemma handle_arguments_overlap_and_fixed_cameras_witness :
  exists (opt' : Options) (fopt' : FileOptions),
    typed_run = Ok (opt', fopt')
    /\ overlap_limit fopt' = 3
    /\ ("c.tif", "a.tif") ∈ overlap_list fopt'
    /\ 2%nat ∈ fixed_cameras_indices opt'
    /\ 1%nat ∉ fixed_cameras_indices opt'.
Proof.
  unfold typed_run.
  destruct (handle_arguments _ _ _ _ _ _ _ _ _ _ _ _ _)
    as [[opt' fopt'] | e] eqn:Hrun;
    [| vm_compute in Hrun; discriminate Hrun].
  exists opt', fopt'. split; [reflexivity |].
  destruct (handle_arguments_overlap_and_fixed_cameras
              _ _ _ _ _ _ _ _ _ _ _ _ _ _ _ Hrun)
    as (_ & _ & Hlimit & Hlist & Hfixed).
  cbn [typed_files overlap_list_file fixed_cameras_indices_str String.eqb
       Ascii.eqb Bool.eqb overlap_limit Z.eqb image_files length]
    in Hlimit, Hlist, Hfixed.
  destruct Hlist as (_ & _ & Hlist). destruct Hfixed as [_ Hfixed].
  split; [exact Hlimit |].
  split; [apply Hlist; right; left; reflexivity |].
  split; [apply Hfixed; right; left; reflexivity |].
  intros H1. apply Hfixed in H1. destruct H1 as [H1 | [H1 | []]]; discriminate H1.
Defined.
(* ================================================================= *)
(** ** The overlap list from the command line to the match files *)

Lemma match_files_lookup
  (match_filename : string -> string -> string -> string)
  (norm_2 : Vector3 -> double)
  (find_matches : nat -> nat -> string -> result bool)
  (fopt : FileOptions) (estimated_camera_gcc : list Vector3)
  (match_files : gmap (nat * nat) string) (num_pairs_matched : Z) :
  0 <= overlap_limit fopt ->
  Z.of_nat (length (image_files fopt)) + overlap_limit fopt < 2 ^ 31 ->
  match_image_pairs match_filename norm_2 find_matches fopt
    estimated_camera_gcc = Ok (match_files, num_pairs_matched) ->
  forall i j : nat,
    match_files !! (i, j)
    = if pair_selected norm_2 fopt estimated_camera_gcc i j
      then Some (pair_match_file match_filename fopt i j)
      else None.
Proof.
  intros Hlimit Hoverflow Hrun i j.
  pose proof (pairs_outer_loop match_filename norm_2 find_matches fopt
                estimated_camera_gcc Hlimit Hoverflow) as H.
  rewrite Hrun in H. destruct H as [Hmap _]. cbn [fst] in Hmap.
  rewrite Hmap. unfold covered_by, pair_selected.
  rewrite (bool_decide_eq_false_2 (j ∈ [])) by (apply not_elem_of_nil).
  rewrite andb_false_r, orb_false_r.
  destruct (pair_in_window fopt i j) eqn:Hwin;
    [| rewrite andb_false_r; reflexivity].
  rewrite (bool_decide_eq_true_2 (i ∈ seq 0 (length (image_files fopt))));
    [reflexivity |].
  apply list_elem_of_In, in_seq. unfold pair_in_window in Hwin.
  rewrite !andb_true_iff, !Nat.ltb_lt in Hwin. lia.
Qed.

(** What a run of [handle_arguments] that has returned with a file of the
    overlap list leaves in the options that the loop over the pairs
    reads. *)
Lemma handle_arguments_overlap_list
  (file_exists : string -> bool)
  (read_overlap_list : string -> list (string * string))
  (has_pinhole_extension : string -> bool)
  (string_replace : string -> string -> string -> string)
  (str_to_vec : string -> result (double * double * double * double))
  (read_georeference : string -> option string)
  (set_well_known_datum : string -> Datum -> result Datum)
  (spheroid_to_geodetic : double -> double -> Vector3 -> Vector3)
  (create_out_dir : string -> result unit)
  (read_doubles : string -> list double) (read_ints : string -> list Z)
  (opt opt' : Options) (fopt fopt' : FileOptions) :
  handle_arguments file_exists read_overlap_list has_pinhole_extension
    string_replace str_to_vec read_georeference set_well_known_datum
    spheroid_to_geodetic create_out_dir read_doubles read_ints opt fopt
  = Ok (opt', fopt') ->
  overlap_list_file fopt <> "" ->
  image_files fopt' = image_files fopt
  /\ overlap_limit fopt' = Z.of_nat (length (image_files fopt))
  /\ overlap_list fopt'
     = fold_left overlap_pair_body
         (read_overlap_list (overlap_list_file fopt)) ∅.
Proof.
  intros H Hfile. handle_arguments_returned H.
  cbn [image_files overlap_limit overlap_list].
  apply String.eqb_neq in Hfile. rewrite Hfile in Hlist, Hboth.
  cbn [negb andb] in Hlist, Hboth.
  apply Z.ltb_ge in Hboth, Hnegative.
  split; [reflexivity |]. split.
  - replace (overlap_limit fopt) with 0 by lia. reflexivity.
  - destruct (negb (file_exists (overlap_list_file fopt)));
      cbn [throw_if mbind result_bind] in Hlist; [discriminate Hlist |].
    injection Hlist as <-. reflexivity.
Qed.

(** X23. With a file of the overlap list on the command line, the pairs of
    images that get a match file in [main] are chosen by the list alone:
    the pair of the images [i < j] is matched exactly when the file names
    the two images, in either order, and their cameras are not too far
    apart; the overlap limit, set to the number of images, leaves no pair
    out. A file that names no pair selects every pair. *)
Theorem overlap_list_selects_the_pairs
  (file_exists : string -> bool)
  (read_overlap_list : string -> list (string * string))
  (has_pinhole_extension : string -> bool)
  (string_replace : string -> string -> string -> string)
  (str_to_vec : string -> result (double * double * double * double))
  (read_georeference : string -> option string)
  (set_well_known_datum : string -> Datum -> result Datum)
  (spheroid_to_geodetic : double -> double -> Vector3 -> Vector3)
  (create_out_dir : string -> result unit)
  (read_doubles : string -> list double) (read_ints : string -> list Z)
  (match_filename : string -> string -> string -> string)
  (norm_2 : Vector3 -> double)
  (find_matches : nat -> nat -> string -> result bool)
  (opt opt' : Options) (fopt fopt' : FileOptions)
  (estimated_camera_gcc : list Vector3)
  (match_files : gmap (nat * nat) string) (num_pairs_matched : Z) :
  handle_arguments file_exists read_overlap_list has_pinhole_extension
    string_replace str_to_vec read_georeference set_well_known_datum
    spheroid_to_geodetic create_out_dir read_doubles read_ints opt fopt
  = Ok (opt', fopt') ->
  overlap_list_file fopt <> "" ->
  2 * Z.of_nat (length (image_files fopt)) < 2 ^ 31 ->
  match_image_pairs match_filename norm_2 find_matches fopt'
    estimated_camera_gcc = Ok (match_files, num_pairs_matched) ->
  let pairs := read_overlap_list (overlap_list_file fopt) in
  forall i j : nat,
    is_Some (match_files !! (i, j))
    <-> (i < j < length (image_files fopt))%nat
        /\ (pairs = []
            \/ In (get_s (image_files fopt) i, get_s (image_files fopt) j)
                 pairs
            \/ In (get_s (image_files fopt) j, get_s (image_files fopt) i)
                 pairs)
        /\ too_far_apart norm_2 fopt' estimated_camera_gcc i j = false.
Proof.
  intros Hargs Hfile Hsize Hrun pairs i j.
  destruct (handle_arguments_overlap_list _ _ _ _ _ _ _ _ _ _ _ _ _ _ _
              Hargs Hfile) as (Himages & Hlimit & Hlist).
  assert (Hnonneg : 0 <= overlap_limit fopt') by lia.
  assert (Hoverflow : Z.of_nat (length (image_files fopt'))
                      + overlap_limit fopt' < 2 ^ 31)
    by (rewrite Himages; lia).
  rewrite (match_files_lookup _ _ _ _ _ _ _ Hnonneg Hoverflow Hrun).
  unfold pair_selected, pair_in_window, pair_kept.
  rewrite Himages, Hlimit, Hlist. fold pairs.
  assert (Hempty : fold_left overlap_pair_body pairs ∅ = ∅ <-> pairs = []).
  { split.
    - destruct pairs as [| [image1 image2] rest]; [reflexivity |].
      intros Hnone. exfalso.
      apply (not_elem_of_empty (C := gset (string * string)) (image1, image2)).
      rewrite <- Hnone. apply overlap_pairs_fold. right. left. left.
      reflexivity.
    - intros ->. reflexivity. }
  assert (Hlisted : forall image1 image2 : string,
             (image1, image2) ∈ fold_left overlap_pair_body pairs ∅
             <-> In (image1, image2) pairs \/ In (image2, image1) pairs).
  { intros image1 image2. rewrite overlap_pairs_fold, elem_of_empty. tauto. }
  split.
  - intros Hsome.
    destruct ((i <? j)%nat && (j <? length (image_files fopt))%nat
              && (Z.of_nat j - Z.of_nat i
                  <=? Z.of_nat (length (image_files fopt)))) eqn:Hwin;
      [| destruct Hsome as [x Hx]; discriminate Hx].
    rewrite !andb_true_iff, !Nat.ltb_lt in Hwin.
    cbn [andb] in Hsome.
    destruct (bool_decide (fold_left overlap_pair_body pairs ∅ = ∅)
              || bool_decide
                   ((get_s (image_files fopt) i, get_s (image_files fopt) j)
                    ∈ fold_left overlap_pair_body pairs ∅)) eqn:Hkept;
      [| destruct Hsome as [x Hx]; discriminate Hx].
    cbn [andb] in Hsome.
    destruct (too_far_apart norm_2 fopt' estimated_camera_gcc i j);
      [destruct Hsome as [x Hx]; discriminate Hx |].
    split; [lia |]. split; [| reflexivity].
    apply orb_true_iff in Hkept as [Hkept | Hkept];
      apply bool_decide_eq_true in Hkept.
    + left. apply Hempty. exact Hkept.
    + right. apply Hlisted. exact Hkept.
  - intros (Hij & Hpairs & Hfar). rewrite Hfar.
    replace ((i <? j)%nat && (j <? length (image_files fopt))%nat
             && (Z.of_nat j - Z.of_nat i
                 <=? Z.of_nat (length (image_files fopt)))) with true.
    2: { symmetry. rewrite !andb_true_iff, !Nat.ltb_lt, Z.leb_le. lia. }
    replace (bool_decide (fold_left overlap_pair_body pairs ∅ = ∅)
             || bool_decide
                  ((get_s (image_files fopt) i, get_s (image_files fopt) j)
                   ∈ fold_left overlap_pair_body pairs ∅)) with true.
    + cbn. eexists. reflexivity.
    + symmetry. apply orb_true_iff.
      destruct Hpairs as [Hnil | Hin].
      * left. apply bool_decide_eq_true. apply Hempty. exact Hnil.
      * right. apply bool_decide_eq_true. apply Hlisted. exact Hin.
Qed.

(** The command line of three images whose overlap list names the first and
    the last one: the only match file is the one of that pair. *)
Lemma overlap_list_selects_the_pairs_witness :
  exists (opt' : Options) (fopt' : FileOptions)
         (match_files : gmap (nat * nat) string) (num_pairs_matched : Z),
    typed_run = Ok (opt', fopt')
    /\ overlap_list_file typed_files <> ""
    /\ 2 * Z.of_nat (length (image_files typed_files)) < 2 ^ 31
    /\ match_image_pairs
         (fun prefix image1 image2 =>
            String.append prefix (String.append image1 image2))
         (fun _ => 0%float) (fun _ _ _ => Ok true) fopt' []
       = Ok (match_files, num_pairs_matched)
    /\ is_Some (match_files !! (0%nat, 2%nat))
    /\ ~ is_Some (match_files !! (0%nat, 1%nat)).
Proof.
  unfold typed_run.
  destruct (handle_arguments _ _ _ _ _ _ _ _ _ _ _ _ _)
    as [[opt' fopt'] | e] eqn:Hargs;
    [| vm_compute in Hargs; discriminate Hargs].
  destruct (match_image_pairs
              (fun prefix image1 image2 =>
                 String.append prefix (String.append image1 image2))
              (fun _ => 0%float) (fun _ _ _ => Ok true) fopt' [])
    as [[match_files num] | e] eqn:Hrun.
  2: { exfalso. vm_compute in Hargs. injection Hargs as <- <-.
       vm_compute in Hrun. discriminate Hrun. }
  assert (Hfile : overlap_list_file typed_files <> "") by discriminate.
  assert (Hsize : 2 * Z.of_nat (length (image_files typed_files)) < 2 ^ 31)
    by (cbn; lia).
  exists opt', fopt', match_files, num.
  split; [reflexivity |]. split; [exact Hfile |]. split; [exact Hsize |].
  split; [exact Hrun |].
  pose proof (overlap_list_selects_the_pairs _ _ _ _ _ _ _ _ _ _ _ _ _ _ _ _
                _ _ _ _ _ Hargs Hfile Hsize Hrun) as Hpairs.
  cbv zeta in Hpairs. split.
  - apply Hpairs. split; [cbn; lia |]. split.
    + right. left. left. reflexivity.
    + vm_compute in Hargs. injection Hargs as <- <-. reflexivity.
  - intros Hsome. apply Hpairs in Hsome as (_ & Hlisted & _).
    destruct Hlisted as [Hnil | [Hin | Hin]].
    + discriminate Hnil.
    + destruct Hin as [Hin | []]. discriminate Hin.
    + destruct Hin as [Hin | []]. discriminate Hin.
Defined.
(* ================================================================= *)
(** ** The arrays a run starts from *)

Lemma length_resize (n : nat) (v : list double) : length (resize n v) = n.
Proof.
  unfold resize. rewrite length_app, length_take, length_replicate. lia.
Qed.

Lemma get_d_insert_cases (v : list double) (i j : nat) (x : double) :
  (i < length v)%nat ->
  get_d (<[i := x]> v) j = if (i =? j)%nat then x else get_d v j.
Proof.
  intros Hi. destruct (Nat.eqb_spec i j) as [<- | Hne].
  - apply get_d_insert_eq. exact Hi.
  - apply get_d_insert_ne. exact Hne.
Qed.

Section InitCamsSpec.

Variable Model : Type.
Variable get_cam_params : Model -> nat -> list double.
Variable ba_model : Model.

Lemma copy_param_loop (cam_vec cameras_vec : list double) (index : nat) :
  (index + 6 <= length cameras_vec)%nat ->
  exists cameras_vec',
    fold_left (copy_param_body cam_vec) (seq 0 num_params_per_camera)
      (cameras_vec, index)
    = (cameras_vec', (index + 6)%nat)
    /\ length cameras_vec' = length cameras_vec
    /\ (forall p, (p < 6)%nat ->
          get_d cameras_vec' (index + p) = get_d cam_vec p)
    /\ (forall j, (j < index \/ index + 6 <= j)%nat ->
          get_d cameras_vec' j = get_d cameras_vec j).
Proof.
  intros Hlen. eexists. split.
  - cbn [num_params_per_camera seq fold_left copy_param_body].
    f_equal. lia.
  - split; [rewrite !length_insert; reflexivity |]. split.
    + intros p Hp.
      assert (Hcases : (p = 0 \/ p = 1 \/ p = 2 \/ p = 3 \/ p = 4 \/ p = 5)%nat)
        by lia.
      repeat (rewrite get_d_insert_cases by (rewrite ?length_insert; lia)).
      repeat destruct Hcases as [-> | Hcases]; try subst p;
        repeat match goal with
               | |- context [(?a =? ?b)%nat] =>
                   destruct (Nat.eqb_spec a b); try lia
               end;
        reflexivity.
    + intros j Hj. repeat (rewrite get_d_insert_ne by lia). reflexivity.
Qed.

Lemma copy_camera_loop (k : nat) (cameras_vec : list double) :
  (k * 6 <= length cameras_vec)%nat ->
  exists cameras_vec',
    fold_left (copy_camera_body Model get_cam_params ba_model) (seq 0 k)
      (cameras_vec, 0%nat)
    = (cameras_vec', (k * 6)%nat)
    /\ length cameras_vec' = length cameras_vec
    /\ (forall i p, (i < k)%nat -> (p < 6)%nat ->
          get_d cameras_vec' (i * 6 + p)
          = get_d (get_cam_params ba_model i) p)
    /\ (forall j, (k * 6 <= j)%nat ->
          get_d cameras_vec' j = get_d cameras_vec j).
Proof.
  induction k as [| k IH]; intros Hlen.
  - exists cameras_vec. cbn. repeat split; intros; solve [lia | reflexivity].
  - destruct IH as (vec1 & Hfold & Hlen1 & Hdone & Hrest); [lia |].
    rewrite List.seq_S, fold_left_app, Hfold. cbn [fold_left Nat.add].
    unfold copy_camera_body.
    destruct (copy_param_loop (get_cam_params ba_model k) vec1 (k * 6))
      as (vec2 & Hfold2 & Hlen2 & Hnew & Hold); [lia |].
    exists vec2. rewrite Hfold2.
    split; [f_equal; lia |]. split; [congruence |]. split.
    + intros i p Hi Hp. destruct (decide (i = k)) as [-> | Hne].
      * apply Hnew. exact Hp.
      * rewrite Hold by nia. apply Hdone; lia.
    + intros j Hj. rewrite Hold by lia. apply Hrest. lia.
Qed.

Lemma copy_intrinsic_loop (cam_vec : list double) (k : nat)
  (intrinsics_vec : list double) :
  (k <= length intrinsics_vec)%nat ->
  let intrinsics_vec' :=
    fold_left (copy_intrinsic_body cam_vec) (seq 0 k) intrinsics_vec in
  length intrinsics_vec' = length intrinsics_vec
  /\ (forall i, (i < k)%nat ->
        get_d intrinsics_vec' i = get_d cam_vec (num_params_per_camera + i))
  /\ (forall j, (k <= j)%nat ->
        get_d intrinsics_vec' j = get_d intrinsics_vec j).
Proof.
  induction k as [| k IH]; intros Hlen; cbv zeta.
  - cbn. repeat split; intros; solve [lia | reflexivity].
  - destruct IH as (Hlen1 & Hdone & Hrest); [lia |].
    assert (Hstep :
              fold_left (copy_intrinsic_body cam_vec) (seq 0 (S k))
                intrinsics_vec
              = <[k := get_d cam_vec (num_params_per_camera + k)]>
                  (fold_left (copy_intrinsic_body cam_vec) (seq 0 k)
                     intrinsics_vec))
      by (rewrite List.seq_S, fold_left_app; reflexivity).
    rewrite Hstep.
    split; [rewrite length_insert; exact Hlen1 |]. split.
    + intros i Hi. destruct (decide (i = k)) as [-> | Hne].
      * apply get_d_insert_eq. lia.
      * rewrite get_d_insert_ne by lia. apply Hdone. lia.
    + intros j Hj. rewrite get_d_insert_ne by lia. apply Hrest. lia.
Qed.

End InitCamsSpec.

(** X21. [init_cams] for pinhole cameras overwrites the two arrays
    completely, whatever they held: provided [import_transform] leaves the
    size of [cameras_vec] alone, the camera array has six doubles per
    camera, the first six parameters of each camera of the model in camera
    order, and the intrinsics array holds the parameters after the sixth of
    camera 0 alone; the intrinsics of the other cameras are not read. *)
Theorem init_cams_pinhole_layout (Model Matrix4x4 : Type)
  (model_num_cameras model_num_intrinsic_params : Model -> nat)
  (get_cam_params : Model -> nat -> list double)
  (import_transform :
     Matrix4x4 -> Model -> list double -> list double
     -> Model * list double * list double)
  (initial_transform_file : string) (initial_transform : Matrix4x4)
  (ba_model : Model) (cameras_vec intrinsics_vec : list double) :
  let num_cameras := model_num_cameras ba_model in
  let num_intrinsic_params := model_num_intrinsic_params ba_model in
  let imported :=
    import_transform initial_transform ba_model
      (resize (num_cameras * 6) cameras_vec) intrinsics_vec in
  (initial_transform_file <> "" ->
   length (snd (fst imported)) = (num_cameras * 6)%nat) ->
  let '(ba_model', cameras_vec', intrinsics_vec') :=
    init_cams_pinhole Model Matrix4x4 model_num_cameras
      model_num_intrinsic_params get_cam_params import_transform
      initial_transform_file initial_transform ba_model cameras_vec
      intrinsics_vec in
  ba_model'
  = (if String.eqb initial_transform_file "" then ba_model
     else fst (fst imported))
  /\ length cameras_vec' = (num_cameras * 6)%nat
  /\ (forall icam p : nat,
        (icam < num_cameras)%nat -> (p < 6)%nat ->
        get_d cameras_vec' (icam * 6 + p)
        = get_d (get_cam_params ba_model' icam) p)
  /\ length intrinsics_vec' = num_intrinsic_params
  /\ (forall i : nat,
        (i < num_intrinsic_params)%nat ->
        get_d intrinsics_vec' i
        = get_d (get_cam_params ba_model' 0%nat) (6 + i)).
Proof.
  intros num_cameras num_intrinsic_params imported Himport.
  unfold init_cams_pinhole. fold num_cameras num_intrinsic_params.
  change (num_cameras * num_params_per_camera)%nat with (num_cameras * 6)%nat.
  fold imported.
  assert (Hstart : exists m1 c1 i1,
             (if negb (String.eqb initial_transform_file "") then imported
              else (ba_model, resize (num_cameras * 6) cameras_vec,
                    intrinsics_vec)) = (m1, c1, i1)
             /\ m1 = (if String.eqb initial_transform_file "" then ba_model
                      else fst (fst imported))
             /\ length c1 = (num_cameras * 6)%nat).
  { destruct (String.eqb initial_transform_file "") eqn:Hfile; cbn [negb].
    - eexists _, _, _. split; [reflexivity |]. split; [reflexivity |].
      apply length_resize.
    - destruct imported as [[m1 c1] i1] eqn:Himp. exists m1, c1, i1.
      split; [reflexivity |]. split; [reflexivity |].
      apply Himport. apply String.eqb_neq. exact Hfile. }
  destruct Hstart as (m1 & c1 & i1 & -> & Hm1 & Hc1).
  destruct (copy_camera_loop Model get_cam_params m1 num_cameras c1)
    as (c2 & Hfold & Hc2 & Hcams & _); [lia |].
  rewrite Hfold.
  destruct (copy_intrinsic_loop (get_cam_params m1 0%nat)
              num_intrinsic_params
              (resize num_intrinsic_params i1))
    as (Hi2 & Hintr & _); [rewrite length_resize; lia |].
  split; [exact Hm1 |]. split; [congruence |]. split; [exact Hcams |].
  split; [rewrite Hi2; apply length_resize |]. exact Hintr.
Qed.

(** Two cameras whose seven parameters are all their index; the vector of
    the cameras comes with one stale value. *)
Lemma init_cams_pinhole_layout_witness :
  ("" <> "" -> length (snd (fst (tt, @nil double, @nil double))) = 12%nat)
  /\ (let '(ba_model', cameras_vec', intrinsics_vec') :=
        init_cams_pinhole unit unit (fun _ => 2%nat) (fun _ => 1%nat)
          (fun _ icam => replicate 7 (double_of_nat icam))
          (fun _ _ _ _ => (tt, [], [])) "" tt tt [5%float] [] in
      ba_model' = tt
      /\ length cameras_vec' = 12%nat
      /\ (forall icam p : nat,
            (icam < 2)%nat -> (p < 6)%nat ->
            get_d cameras_vec' (icam * 6 + p)
            = get_d (replicate 7 (double_of_nat icam)) p)
      /\ length intrinsics_vec' = 1%nat
      /\ (forall i : nat,
            (i < 1)%nat ->
            get_d intrinsics_vec' i
            = get_d (replicate 7 (double_of_nat 0)) (6 + i))).
Proof.
  split; [intros H; exfalso; apply H; reflexivity |].
  exact (init_cams_pinhole_layout unit unit (fun _ => 2%nat)
           (fun _ => 1%nat)
           (fun _ icam => replicate 7 (double_of_nat icam))
           (fun _ _ _ _ => (tt, [], [])) "" tt tt [5%float] []
           ltac:(intros H; exfalso; apply H; reflexivity)).
Defined.

Lemma points_of_cnet_lookup (cnet : ControlNetwork) (ipt q : nat) :
  (ipt < length cnet)%nat -> (q < 3)%nat ->
  get_d (points_of_cnet cnet 3) (ipt * 3 + q)
  = Vector3_get (cnet_position cnet ipt) q.
Proof.
  revert ipt. induction cnet as [| cp cnet IH]; intros ipt Hipt Hq;
    [cbn in Hipt; lia |].
  assert (Hcons : forall n : nat,
             get_d (points_of_cnet (cp :: cnet) 3) (S (S (S n)))
             = get_d (points_of_cnet cnet 3) n) by reflexivity.
  destruct ipt as [| ipt].
  - assert (Hcases : (q = 0 \/ q = 1 \/ q = 2)%nat) by lia.
    destruct Hcases as [-> | [-> | ->]]; reflexivity.
  - replace (S ipt * 3 + q)%nat with (S (S (S (ipt * 3 + q)))) by lia.
    rewrite Hcons. cbn in Hipt. rewrite IH by lia. reflexivity.
Qed.

(** X22. The point array a run starts from holds three doubles per point of
    the control network, in the order of the network: whatever reads the
    point [ipt] from it gets the position of [cnet[ipt]]. *)
Theorem points_start_at_the_network (cnet : ControlNetwork) (ipt : nat) :
  (ipt < length cnet)%nat ->
  read_point (points_of_cnet cnet 3) 3 ipt = cnet_position cnet ipt.
Proof.
  intros Hipt. unfold read_point. cbv zeta.
  rewrite <- (Nat.add_0_r (ipt * 3)) at 1.
  rewrite !points_of_cnet_lookup by lia.
  destruct (cnet_position cnet ipt) as [[x y] z]. reflexivity.
Qed.

Lemma points_start_at_the_network_witness :
  (0 < 1)%nat
  /\ read_point (points_of_cnet [tie_point_at (1, 2, 3)%float] 3) 3 0
     = (1, 2, 3)%float.
Proof.
  split; [lia |].
  exact (points_start_at_the_network [tie_point_at (1, 2, 3)%float] 0
           ltac:(cbn; lia)).
Defined.
